(** * Indoor positioning and navigation core of konzepapp: model and properties

    A shallow embedding of the TypeScript sources
    [positioning/pdrMath.ts], [mapmatching/geometry.ts],
    [mapmatching/routeProgress.ts], [fusion/kalman2d.ts],
    [navigation/storeMap.ts], [navigation/routing.ts],
    [mapmatching/snapToGraph.ts], [nav/shortestPath.ts], [nav/turnByTurn.ts],
    [nav/useIndoorNavigation.ts], [positioning/wifiFix.ts],
    [positioning/pdrEngine.ts] and of the pedometer path of
    [positioning/useIndoorPositioning.ts].

    Conventions of the embedding.
    - A JavaScript [number] that carries a measurement (metres, degrees, dBm,
      variances) is a real number of [R]; [Number.POSITIVE_INFINITY], where the
      source writes it, is the extra point [PInf] of [xreal]. Rounding of IEEE
      doubles and NaN are outside the model. So is a negative zero among the
      inputs; the negative zero that the source makes itself, by negating a
      difference of equal coordinates, is followed ([Js.atan2_neg]).
    - Millisecond timestamps ([Date.now()]) and step counts are integers of [Z].
    - A string is a [string] of 8-bit code units, read as U+0000..U+00FF.
    - An object mutated in place ([Kalman2DState], [PdrEngine]) is passed and
      returned explicitly; a callback that receives events ([onStep]) is the list
      of the events in the order of the calls.
    - A JavaScript object used as a dictionary and a [Set] are association lists
      and lists in insertion order, since the source iterates over them. The
      dictionaries are plain objects, on which the key [__proto__] names the
      prototype and no property ([JsObject.get], [JsObject.set]). *)

From Stdlib Require Import Reals Lra Lia Psatz ZArith List String Ascii Bool DecimalString Permutation Sorted.
Import ListNotations.
Open Scope R_scope.

(** ** JavaScript numbers *)

Module Js.

(** [a < b] and [a <= b] on numbers, as booleans. *)
Definition ltb (a b : R) : bool := if Rlt_dec a b then true else false.
Definition leb (a b : R) : bool := if Rle_dec a b then true else false.

(** A number or [Number.POSITIVE_INFINITY]. *)
Inductive xreal : Type :=
| Fin (r : R)
| PInf.

(** [a < b] where [b] may be infinite. *)
Definition lt_x (a : R) (b : xreal) : bool :=
  match b with
  | Fin r => ltb a r
  | PInf => true
  end.

(** [a < b] where both may be infinite. *)
Definition xlt (a b : xreal) : bool :=
  match a, b with
  | Fin r, _ => lt_x r b
  | PInf, _ => false
  end.

(** [a + w] for a possibly infinite [a] and a finite [w]. *)
Definition xadd (a : xreal) (w : R) : xreal :=
  match a with
  | Fin r => Fin (r + w)
  | PInf => PInf
  end.

(** [Number.isFinite]. *)
Definition isFinite (a : xreal) : bool :=
  match a with
  | Fin _ => true
  | PInf => false
  end.

(** Rounding toward zero, the quotient behind [%]. *)
Definition trunc (r : R) : Z := if Rle_dec 0 r then Zfloor r else Zceil r.

(** [x % y]: the remainder has the sign of the dividend. *)
Definition rem (x y : R) : R := x - y * IZR (trunc (x / y)).

(** [Math.round]: the nearest integer, halves upward. *)
Definition round (x : R) : Z := Zfloor (x + / 2).

(** [Math.hypot] of two and of three arguments. *)
Definition hypot (a b : R) : R := sqrt (a * a + b * b).
Definition hypot3 (a b c : R) : R := sqrt (a * a + b * b + c * c).

(** [Math.atan2 (y, x)], from the arc tangent and the quadrant. *)
Definition atan2 (y x : R) : R :=
  if Rlt_dec 0 x then atan (y / x)
  else if Rlt_dec x 0 then
    if Rle_dec 0 y then atan (y / x) + PI else atan (y / x) - PI
  else if Rlt_dec 0 y then PI / 2
  else if Rlt_dec y 0 then - (PI / 2)
  else 0.

(** [Math.atan2 (y, -d)], the call of [bearingDeg], for [y] and [d] that are
    differences of coordinates: a zero [d] is the positive zero and makes the
    second argument the negative zero, and [Math.atan2 (0, -0)] is pi where
    [Math.atan2 (0, 0)] is 0. *)
Definition atan2_neg (y d : R) : R :=
  if Rlt_dec 0 (- d) then atan (y / - d)
  else if Rlt_dec (- d) 0 then
    if Rle_dec 0 y then atan (y / - d) + PI else atan (y / - d) - PI
  else if Rlt_dec 0 y then PI / 2
  else if Rlt_dec y 0 then - (PI / 2)
  else PI.

(** [a ?? d] on an optional value. *)
Definition orElse {A : Type} (a : option A) (d : A) : A :=
  match a with
  | Some v => v
  | None => d
  end.

(** *** Strings *)

(** The white space that [String.prototype.trim] removes, within U+0000..U+00FF:
    tab, line feed, vertical tab, form feed, carriage return, space and the
    no-break space. *)
Definition isWhiteSpace (c : ascii) : bool :=
  let n := N_of_ascii c in
  (N.leb 9 n && N.leb n 13) || N.eqb n 32 || N.eqb n 160.

Fixpoint trimStart (s : string) : string :=
  match s with
  | EmptyString => EmptyString
  | String c rest => if isWhiteSpace c then trimStart rest else s
  end.

Fixpoint trimEnd (s : string) : string :=
  match s with
  | EmptyString => EmptyString
  | String c rest =>
      match trimEnd rest with
      | EmptyString => if isWhiteSpace c then EmptyString else String c EmptyString
      | r => String c r
      end
  end.

Definition trim (s : string) : string := trimEnd (trimStart s).

(** The lower-case mapping within U+0000..U+00FF: A-Z, and the accented
    capitals U+00C0..U+00DE except the multiplication sign U+00D7. *)
Definition lowerChar (c : ascii) : ascii :=
  let n := N_of_ascii c in
  if (N.leb 65 n && N.leb n 90)
     || (N.leb 192 n && N.leb n 222 && negb (N.eqb n 215))
  then ascii_of_N (n + 32)
  else c.

Fixpoint toLowerCase (s : string) : string :=
  match s with
  | EmptyString => EmptyString
  | String c rest => String (lowerChar c) (toLowerCase rest)
  end.

(** A string is truthy unless it is empty. *)
Definition truthy (s : string) : bool :=
  match s with
  | EmptyString => false
  | String _ _ => true
  end.

(** An integer in a template literal: its decimal digits. JavaScript switches
    to exponent notation from 10^21 on, which this function does not follow. *)
Definition integerToString (m : Z) : string :=
  match m with
  | Zneg p => String "-" (NilZero.string_of_uint (N.to_uint (Npos p)))
  | _ => NilZero.string_of_uint (N.to_uint (Z.to_N m))
  end.

End Js.

(** ** JavaScript objects used as dictionaries, and sets *)

Module JsObject.

(** The own properties in creation order; a key occurs once. The dictionaries
    are objects that start as [{}]. *)
Definition t (V : Type) : Type := list (string * V).

(** On such an object the key [__proto__] is the accessor of the prototype
    and names no own property. *)
Definition protoKey : string := "__proto__".

(** The own property [k]. *)
Fixpoint getOwn {V : Type} (o : t V) (k : string) : option V :=
  match o with
  | [] => None
  | (k', v) :: rest => if String.eqb k' k then Some v else getOwn rest k
  end.

(** [o[k]]: [None] stands for [undefined], and for what the object inherits
    under a key that is no property of its own: the prototype itself under
    [__proto__], a method of [Object.prototype] under a name such as
    [constructor]. These are none of the values kept in the dictionary;
    [Number.isFinite] and [??] decide on them as on [undefined], and no loop
    reads their entries. Only [reconstruct] could go on with such a value,
    when asked for the path to an end of that name which is no node; that
    call is outside the model. *)
Definition get {V : Type} (o : t V) (k : string) : option V :=
  if String.eqb k protoKey then None else getOwn o k.

(** A new own property, or a new value for an existing one. *)
Fixpoint setOwn {V : Type} (o : t V) (k : string) (v : V) : t V :=
  match o with
  | [] => [(k, v)]
  | (k', v') :: rest =>
      if String.eqb k' k then (k, v) :: rest else (k', v') :: setOwn rest k v
  end.

(** [o[k] = v]: an existing property keeps its place, a new one goes last.
    [o['__proto__'] = v] replaces the prototype when [v] is an object or
    [null] and does nothing otherwise; it adds no own property, so
    [Object.keys] never lists the key. *)
Definition set {V : Type} (o : t V) (k : string) (v : V) : t V :=
  if String.eqb k protoKey then o else setOwn o k v.

Definition digitValue (c : ascii) : option N :=
  let n := N_of_ascii c in
  if N.leb 48 n && N.leb n 57 then Some (n - 48)%N else None.

Fixpoint parseDigits (s : string) (acc : N) : option N :=
  match s with
  | EmptyString => Some acc
  | String c rest =>
      match digitValue c with
      | Some d => parseDigits rest (acc * 10 + d)%N
      | None => None
      end
  end.

(** A key is an array index when it is the canonical decimal form of an
    integer below 2^32 - 1. *)
Definition arrayIndex (s : string) : option N :=
  match s with
  | EmptyString => None
  | String c rest =>
      match digitValue c with
      | None => None
      | Some 0%N => match rest with EmptyString => Some 0%N | _ => None end
      | Some d =>
          match parseDigits rest d with
          | Some v => if N.ltb v 4294967295 then Some v else None
          | None => None
          end
      end
  end.

Definition isArrayIndex (s : string) : bool :=
  match arrayIndex s with Some _ => true | None => false end.

Definition indexLeb (a b : string) : bool :=
  match arrayIndex a, arrayIndex b with
  | Some x, Some y => N.leb x y
  | _, _ => true
  end.

Fixpoint insertIndex (k : string) (sorted : list string) : list string :=
  match sorted with
  | [] => [k]
  | h :: rest => if indexLeb k h then k :: sorted else h :: insertIndex k rest
  end.

Definition sortIndices (ks : list string) : list string :=
  fold_right insertIndex [] ks.

(** [Object.keys(o)]: the array indices in ascending order, then the other
    keys in creation order. *)
Definition keys {V : Type} (o : t V) : list string :=
  let ks := map fst o in
  sortIndices (filter isArrayIndex ks)
  ++ filter (fun k => negb (isArrayIndex k)) ks.

End JsObject.

Module JsSet.

(** A [Set] of strings, in insertion order. *)
Definition t : Type := list string.

Definition has (s : t) (k : string) : bool := existsb (String.eqb k) s.

Definition add (s : t) (k : string) : t := if has s k then s else s ++ [k].

Definition delete (s : t) (k : string) : t := filter (fun x => negb (String.eqb k x)) s.

End JsSet.

(** ** positioning/pdrMath.ts *)

Module PdrMath.

Definition clamp (n min max : R) : R := Rmax min (Rmin max n).

Definition wrapHeading (deg : R) : R :=
  let h := Js.rem deg 360 in
  if Js.ltb h 0 then h + 360 else h.

Definition headingDiff (a b : R) : R := Js.rem (a - b + 540) 360 - 180.

Definition lowPassHeading (prevDeg nextDeg alpha : R) : R :=
  wrapHeading (prevDeg + headingDiff nextDeg prevDeg * clamp alpha 0 1).

End PdrMath.

(** ** mapmatching/geometry.ts *)

Module Geometry.

Record Point2 : Type := mkPoint2 { x : R; y : R }.

Definition clamp (n min max : R) : R := Rmax min (Rmin max n).

Definition dist (a b : Point2) : R := Js.hypot (x a - x b) (y a - y b).

Record Projection : Type := mkProjection {
  t : R;
  point : Point2;
  distance : R
}.

Definition projectPointToSegment (p a b : Point2) : Projection :=
  let abx := x b - x a in
  let aby := y b - y a in
  let apx := x p - x a in
  let apy := y p - y a in
  let denom := abx * abx + aby * aby in
  let t := if Js.leb denom (1 / 10 ^ 9) then 0
           else clamp ((apx * abx + apy * aby) / denom) 0 1 in
  let q := mkPoint2 (x a + abx * t) (y a + aby * t) in
  let d := Js.hypot (x p - x q) (y p - y q) in
  mkProjection t q d.

Definition lerpPoint (a b : Point2) (t : R) : Point2 :=
  mkPoint2 (x a + (x b - x a) * t) (y a + (y b - y a) * t).

End Geometry.

(** ** fusion/kalman2d.ts *)

Module Kalman2D.

Record Vec2 : Type := mkVec2 { vx : R; vy : R }.

(** The covariance matrix is [[p00, p01], [p10, p11]] with [p10 = p01], so only
    three entries are stored. *)
Record Kalman2DState : Type := mkState {
  x : R;
  y : R;
  p00 : R;
  p01 : R;
  p11 : R
}.

(** [posSigmaMeters] defaults to 1.5 when the argument is absent. *)
Definition createKalman2D (start : Vec2) (posSigmaMeters : option R) : Kalman2DState :=
  let sigma := Js.orElse posSigmaMeters (3 / 2) in
  let v := Rmax (1 / 10 ^ 6) (sigma * sigma) in
  mkState (vx start) (vy start) v 0 v.

Definition predictKalman2D (s : Kalman2DState) (delta : Vec2) (processSigmaMeters : R)
  : Kalman2DState :=
  let q := Rmax (1 / 10 ^ 6) (processSigmaMeters * processSigmaMeters) in
  mkState (x s + vx delta) (y s + vy delta) (p00 s + q) (p01 s) (p11 s + q).

(** The innovation covariance [S = P + R] and its determinant. *)
Definition innovationDet (s : Kalman2DState) (measSigmaMeters : R) : R :=
  let r := Rmax (1 / 10 ^ 6) (measSigmaMeters * measSigmaMeters) in
  let s00 := p00 s + r in
  let s01 := p01 s in
  let s11 := p11 s + r in
  s00 * s11 - s01 * s01.

(** The Kalman gain [K = P * inv(S)] as [(k00, k01, k10, k11)]. *)
Definition gain (s : Kalman2DState) (measSigmaMeters : R) : R * R * R * R :=
  let r := Rmax (1 / 10 ^ 6) (measSigmaMeters * measSigmaMeters) in
  let s00 := p00 s + r in
  let s01 := p01 s in
  let s11 := p11 s + r in
  let det := s00 * s11 - s01 * s01 in
  let inv00 := s11 / det in
  let inv01 := - s01 / det in
  let inv11 := s00 / det in
  let k00 := p00 s * inv00 + p01 s * inv01 in
  let k01 := p00 s * inv01 + p01 s * inv11 in
  let k10 := p01 s * inv00 + p11 s * inv01 in
  let k11 := p01 s * inv01 + p11 s * inv11 in
  (k00, k01, k10, k11).

Definition updateKalman2D (s : Kalman2DState) (z : Vec2) (measSigmaMeters : R)
  : Kalman2DState :=
  if Js.leb (innovationDet s measSigmaMeters) (1 / 10 ^ 12) then s
  else
    let '(k00, k01, k10, k11) := gain s measSigmaMeters in
    let y0 := vx z - x s in
    let y1 := vy z - y s in
    mkState (x s + (k00 * y0 + k01 * y1))
            (y s + (k10 * y0 + k11 * y1))
            ((1 - k00) * p00 s - k01 * p01 s)
            ((1 - k00) * p01 s - k01 * p11 s)
            (- k10 * p01 s + (1 - k11) * p11 s).

(** The lower-left entry of the covariance after the update, [(I - K) P] at
    (1, 0), which the source does not compute: it keeps the upper-right entry
    [p01] for both. A skipped update leaves the matrix as it was. *)
Definition updatedP10 (s : Kalman2DState) (measSigmaMeters : R) : R :=
  if Js.leb (innovationDet s measSigmaMeters) (1 / 10 ^ 12) then p01 s
  else
    let '(k00, k01, k10, k11) := gain s measSigmaMeters in
    - k10 * p00 s + (1 - k11) * p01 s.

Definition kalmanPosSigma (s : Kalman2DState) : R :=
  sqrt (Rmax (1 / 10 ^ 9) ((p00 s + p11 s) / 2)).

(** The calls a session makes on its filter after creating it. *)
Inductive Call : Type :=
| Predict (delta : Vec2) (processSigmaMeters : R)
| Update (z : Vec2) (measSigmaMeters : R).

Definition call (s : Kalman2DState) (c : Call) : Kalman2DState :=
  match c with
  | Predict delta sigma => predictKalman2D s delta sigma
  | Update z sigma => updateKalman2D s z sigma
  end.

Definition run (s : Kalman2DState) (calls : list Call) : Kalman2DState :=
  fold_left call calls s.

(** The covariance is a multiple of the identity. *)
Definition isotropic (s : Kalman2DState) : Prop := p01 s = 0 /\ p00 s = p11 s.

End Kalman2D.

(** ** navigation/storeMap.ts *)

Module StoreMap.

Inductive StoreMapNodeType : Type := entry | exit | aisle | poi | walkway.

Definition nodeType_eqb (a b : StoreMapNodeType) : bool :=
  match a, b with
  | entry, entry | exit, exit | aisle, aisle | poi, poi | walkway, walkway => true
  | _, _ => false
  end.

Module Node.
Record t : Type := mk {
  id : string;
  label : string;
  x : R;
  y : R;
  floor : Z;
  type : StoreMapNodeType;
  sectionId : option string
}.
End Node.

Module Edge.
Record t : Type := mk {
  from : string;
  to : string;
  distance : option R;
  bidirectional : option bool
}.
End Edge.

Inductive AnchorSource : Type := mock | live.

Module Anchor.
Record t : Type := mk {
  bssid : string;
  label : string;
  x : R;
  y : R;
  floor : Z;
  source : AnchorSource;
  confidence : option R
}.
End Anchor.

Record StoreMap : Type := mkStoreMap {
  id : string;
  label : string;
  gridSize : R;
  nodes : list Node.t;
  edges : option (list Edge.t);
  anchors : option (list Anchor.t)
}.

(** A node read as a point: the source passes nodes where a [Point2] is expected. *)
Definition nodePoint (n : Node.t) : Geometry.Point2 :=
  Geometry.mkPoint2 (Node.x n) (Node.y n).

(** [new Map(nodes.map((n) => [n.id, n]))] followed by [.get(id)]: of two nodes
    with one id the later one is kept. *)
Fixpoint nodeById (ns : list Node.t) (key : string) : option Node.t :=
  match ns with
  | [] => None
  | n :: rest =>
      match nodeById rest key with
      | Some m => Some m
      | None => if String.eqb (Node.id n) key then Some n else None
      end
  end.

End StoreMap.

(** ** mapmatching/snapToGraph.ts *)

Module SnapToGraph.

Import StoreMap.

Record EdgeId : Type := mkEdgeId { from : string; to : string }.

Record SnapResult : Type := mkSnapResult {
  snapped : Geometry.Point2;
  distance : Js.xreal;
  edge : option EdgeId;
  t : R
}.

Record Opts : Type := mkOpts {
  maxSnapMeters : option R;
  previousEdge : option EdgeId;
  switchPenaltyMeters : option R;
  hardClamp : option bool
}.

Definition isUsableEdge (e : Edge.t) : bool :=
  Js.ltb (1 / 10 ^ 6) (Js.orElse (Edge.distance e) 0)
  || negb (match Edge.bidirectional e with Some false => true | _ => false end).

(** The edge is the previous edge, in either orientation. *)
Definition isPrev (prev : option EdgeId) (edgeId : EdgeId) : bool :=
  match prev with
  | Some p =>
      (String.eqb (from p) (from edgeId) && String.eqb (to p) (to edgeId))
      || (String.eqb (from p) (to edgeId) && String.eqb (to p) (from edgeId))
  | None => false
  end.

(** The edge shares an endpoint with the previous edge. *)
Definition isConnectedToPrev (prev : option EdgeId) (edgeId : EdgeId) : bool :=
  match prev with
  | Some p =>
      String.eqb (from p) (from edgeId) || String.eqb (from p) (to edgeId)
      || String.eqb (to p) (from edgeId) || String.eqb (to p) (to edgeId)
  | None => false
  end.

Definition penalty (prev : option EdgeId) (switchPenaltyMeters : R) (edgeId : EdgeId) : R :=
  if isPrev prev edgeId then 0
  else if isConnectedToPrev prev edgeId then 8 / 100
  else switchPenaltyMeters.

(** The loop variables [best] and [bestScore] of [bestOnEdges]. *)
Definition Best : Type := (option SnapResult * Js.xreal)%type.

(** One iteration of the loop over the candidate edges. *)
Definition bestOnEdgesStep
  (ns : list Node.t) (point : Geometry.Point2) (prev : option EdgeId)
  (switchPenaltyMeters : R) (acc : Best) (e : Edge.t) : Best :=
  let '(best, bestScore) := acc in
  match nodeById ns (Edge.from e), nodeById ns (Edge.to e) with
  | Some a, Some b =>
      let segA := Geometry.mkPoint2 (Node.x a) (Node.y a) in
      let segB := Geometry.mkPoint2 (Node.x b) (Node.y b) in
      let proj := Geometry.projectPointToSegment point segA segB in
      let edgeId := mkEdgeId (Edge.from e) (Edge.to e) in
      let score := Geometry.distance proj + penalty prev switchPenaltyMeters edgeId in
      if match best with None => true | Some _ => false end || Js.lt_x score bestScore
      then (Some (mkSnapResult (Geometry.point proj) (Js.Fin (Geometry.distance proj))
                               (Some edgeId) (Geometry.t proj)),
            Js.Fin score)
      else acc
  | _, _ => acc
  end.

Definition bestOnEdges
  (ns : list Node.t) (point : Geometry.Point2) (prev : option EdgeId)
  (switchPenaltyMeters : R) (candidateEdges : list Edge.t) : option SnapResult :=
  fst (fold_left (bestOnEdgesStep ns point prev switchPenaltyMeters) candidateEdges
                 (None, Js.PInf)).

(** The edges that touch an endpoint of the previous edge. *)
Definition connectedEdges (p : EdgeId) (es : list Edge.t) : list Edge.t :=
  filter (fun e =>
            (String.eqb (Edge.from e) (from p) || String.eqb (Edge.from e) (to p))
            || (String.eqb (Edge.to e) (from p) || String.eqb (Edge.to e) (to p)))
         es.

(** The relocalisation test of the hard clamp. *)
Definition relocalize (maxSnapMeters : R) (bestConnected bestGlobal : SnapResult) : bool :=
  Js.xlt (Js.Fin (maxSnapMeters * (225 / 100))) (distance bestConnected)
  && Js.xlt (Js.xadd (distance bestGlobal) (2 / 10)) (distance bestConnected).

(** The options as the first lines of [snapToGraph] read them, with their
    defaults: [opts?.maxSnapMeters ?? 1.75] and so on. *)
Definition maxSnapMetersOf (opts : option Opts) : R :=
  Js.orElse (match opts with Some o => maxSnapMeters o | None => None end) (175 / 100).
Definition prevOf (opts : option Opts) : option EdgeId :=
  match opts with Some o => previousEdge o | None => None end.
Definition switchPenaltyMetersOf (opts : option Opts) : R :=
  Js.orElse (match opts with Some o => switchPenaltyMeters o | None => None end) (35 / 100).
Definition hardClampOf (opts : option Opts) : bool :=
  Js.orElse (match opts with Some o => hardClamp o | None => None end) false.

(** [(map.edges ?? []).filter(isUsableEdge)]. *)
Definition usableEdges (map : StoreMap) : list Edge.t :=
  filter isUsableEdge (Js.orElse (edges map) []).

Definition snapToGraph (map : StoreMap) (point : Geometry.Point2) (opts : option Opts)
  : SnapResult :=
  let maxSnapMeters := maxSnapMetersOf opts in
  let prev := prevOf opts in
  let switchPenaltyMeters := switchPenaltyMetersOf opts in
  let hardClamp := hardClampOf opts in
  let ns := nodes map in
  let es := usableEdges map in
  let bestOn := bestOnEdges ns point prev switchPenaltyMeters in
  let best :=
    match hardClamp, prev with
    | true, Some p =>
        let connected := connectedEdges p es in
        let bestConnected := bestOn connected in
        let bestGlobal := bestOn es in
        match bestConnected, bestGlobal with
        | Some bc, Some bg => if relocalize maxSnapMeters bc bg then Some bg else Some bc
        | _, _ => match bestConnected with Some bc => Some bc | None => bestGlobal end
        end
    | _, _ => bestOn es
    end in
  match best with
  | None => mkSnapResult point Js.PInf None 0
  | Some b =>
      if negb hardClamp && Js.xlt (Js.Fin maxSnapMeters) (distance b)
      then mkSnapResult point (distance b) (edge b) (t b)
      else b
  end.

Definition nearestNodeId
  (map : StoreMap) (point : Geometry.Point2) (types : option (list StoreMapNodeType))
  : option string :=
  fst (fold_left
         (fun (acc : option string * Js.xreal) (n : Node.t) =>
            let '(bestId, best) := acc in
            if match types with
               | Some ts => negb (existsb (nodeType_eqb (Node.type n)) ts)
               | None => false
               end
            then acc
            else
              let d := Geometry.dist point (Geometry.mkPoint2 (Node.x n) (Node.y n)) in
              if Js.lt_x d best then (Some (Node.id n), Js.Fin d) else acc)
         (nodes map) (None, Js.PInf)).

(** *** Vocabulary for the properties of the snap *)

Definition edgeIdOf (e : Edge.t) : EdgeId := mkEdgeId (Edge.from e) (Edge.to e).

(** The projection of the point onto an edge whose two endpoints are nodes of
    the map; an edge that names an unknown node has none. *)
Definition candidateProjection
  (ns : list Node.t) (point : Geometry.Point2) (e : Edge.t) : option Geometry.Projection :=
  match nodeById ns (Edge.from e), nodeById ns (Edge.to e) with
  | Some a, Some b => Some (Geometry.projectPointToSegment point (nodePoint a) (nodePoint b))
  | _, _ => None
  end.

(** The result [bestOnEdges] builds for an edge. *)
Definition resultOn (proj : Geometry.Projection) (e : Edge.t) : SnapResult :=
  mkSnapResult (Geometry.point proj) (Js.Fin (Geometry.distance proj))
               (Some (edgeIdOf e)) (Geometry.t proj).

(** What the loop of [bestOnEdges] holds after the edges [seen]: nothing when
    none of them has both endpoints in the map, and otherwise the result on an
    edge of least score among them. *)
Definition bestAmong
  (ns : list Node.t) (point : Geometry.Point2) (prev : option EdgeId)
  (switchPenaltyMeters : R) (seen : list Edge.t) (acc : Best) : Prop :=
  (acc = (None, Js.PInf) /\
   forall e, In e seen -> candidateProjection ns point e = None)
  \/
  (exists e0 proj0,
     In e0 seen /\ candidateProjection ns point e0 = Some proj0 /\
     acc = (Some (resultOn proj0 e0),
            Js.Fin (Geometry.distance proj0 + penalty prev switchPenaltyMeters (edgeIdOf e0))) /\
     forall e proj, In e seen -> candidateProjection ns point e = Some proj ->
       Geometry.distance proj0 + penalty prev switchPenaltyMeters (edgeIdOf e0)
       <= Geometry.distance proj + penalty prev switchPenaltyMeters (edgeIdOf e)).

End SnapToGraph.

(** ** nav/shortestPath.ts *)

Module ShortestPath.

Import StoreMap.

(** An adjacency entry [{ to, w }]. *)
Definition Adj : Type := JsObject.t (list (string * R)).

(** [adj[k].push(x)]; [k] is the id of a node wherever the source does this:
    a key of [adj], or [__proto__], where the entry goes to the prototype and
    [adj] keeps its properties. *)
Definition push (adj : Adj) (k : string) (x : string * R) : Adj :=
  match JsObject.get adj k with
  | Some l => JsObject.set adj k (l ++ [x])
  | None => adj
  end.

Definition buildAdjacency (ns : list Node.t) (es : list Edge.t) : Adj :=
  let adj := fold_left (fun adj n => JsObject.set adj (Node.id n) []) ns [] in
  fold_left
    (fun adj e =>
       match nodeById ns (Edge.from e), nodeById ns (Edge.to e) with
       | Some from, Some to =>
           let w := Js.orElse (Edge.distance e)
                              (Geometry.dist (nodePoint from) (nodePoint to)) in
           let adj := push adj (Edge.from e) (Edge.to e, w) in
           if negb (match Edge.bidirectional e with Some false => true | _ => false end)
           then push adj (Edge.to e) (Edge.from e, w)
           else adj
       | _, _ => adj
       end)
    es adj.

(** The variables of [dijkstra]: [distMap], [prev] and the set [q]. *)
Record State : Type := mkState {
  distMap : JsObject.t Js.xreal;
  prev : JsObject.t (option string);
  q : JsSet.t
}.

Definition initState (adj : Adj) (startId : string) : State :=
  fold_left
    (fun st id =>
       mkState (JsObject.set (distMap st) id
                             (if String.eqb id startId then Js.Fin 0 else Js.PInf))
               (JsObject.set (prev st) id None)
               (JsSet.add (q st) id))
    (JsObject.keys adj) (mkState [] [] []).

(** The scan of [q] for the node of least tentative distance: [(u, best)]. *)
Definition pickMin (d : JsObject.t Js.xreal) (q : JsSet.t) : option string * Js.xreal :=
  fold_left
    (fun (acc : option string * Js.xreal) id =>
       match JsObject.get d id with
       | Some di => if Js.xlt di (snd acc) then (Some id, di) else acc
       | None => acc
       end)
    q (None, Js.PInf).

(** The relaxation of one adjacency entry of [u]. *)
Definition relax (u : string) (st : State) (entry : string * R) : State :=
  let '(to, w) := entry in
  if negb (JsSet.has (q st) to) then st
  else
    match JsObject.get (distMap st) u, JsObject.get (distMap st) to with
    | Some du, Some dto =>
        let alt := Js.xadd du w in
        if Js.xlt alt dto
        then mkState (JsObject.set (distMap st) to alt)
                     (JsObject.set (prev st) to (Some u))
                     (q st)
        else st
    | _, _ => st
    end.

(** The [while (q.size)] loop. Every iteration removes a node from [q], so
    [fuel] iterations suffice when [fuel] is the size of [q]. *)
Fixpoint dijkstraLoop (fuel : nat) (adj : Adj) (st : State) : State :=
  match fuel with
  | O => st
  | S fuel =>
      match q st with
      | [] => st
      | _ =>
          match fst (pickMin (distMap st) (q st)) with
          | None => st
          | Some u =>
              if negb (Js.truthy u) then st
              else
                let st := mkState (distMap st) (prev st) (JsSet.delete (q st) u) in
                dijkstraLoop fuel adj
                  (fold_left (relax u) (Js.orElse (JsObject.get adj u) []) st)
          end
      end
  end.

Definition dijkstra (adj : Adj) (startId : string) : State :=
  let st := initState adj startId in
  dijkstraLoop (List.length (q st)) adj st.

(** The [while (cur)] loop of [reconstruct]; [None] when [fuel] iterations did
    not end it. *)
Fixpoint reconstructLoop (fuel : nat) (prev : JsObject.t (option string))
  (startId : string) (cur : option string) (path : list string) : option (list string) :=
  match fuel with
  | O => None
  | S fuel =>
      match cur with
      | None => Some path
      | Some c =>
          if negb (Js.truthy c) then Some path
          else
            let path := path ++ [c] in
            if String.eqb c startId then Some path
            else
              reconstructLoop fuel prev startId
                (match JsObject.get prev c with Some p => p | None => None end) path
      end
  end.

Definition reconstruct (fuel : nat) (prev : JsObject.t (option string))
  (startId endId : string) : option (list string) :=
  option_map (@rev string) (reconstructLoop fuel prev startId (Some endId) []).

Record PathResult : Type := mkPathResult {
  nodeIds : list string;
  points : list Geometry.Point2;
  lengthMeters : R
}.

Definition virtualId : string := "__start__".

Definition virtualNode (snapped : SnapToGraph.SnapResult) : Node.t :=
  Node.mk virtualId "Start" (Geometry.x (SnapToGraph.snapped snapped))
          (Geometry.y (SnapToGraph.snapped snapped)) 0 walkway None.

(** The snap of the start point, with [maxSnapMeters: 3.0]. *)
Definition snapStart (map : StoreMap) (startPoint : Geometry.Point2) : SnapToGraph.SnapResult :=
  SnapToGraph.snapToGraph map startPoint
    (Some (SnapToGraph.mkOpts (Some 3) None None None)).

(** The edges from the virtual node: to the two ends of the snapped edge, or to
    the nearest node when the snap found no edge. *)
Definition virtualEdges (map : StoreMap) (startPoint : Geometry.Point2) : list Edge.t :=
  let snapped := snapStart map startPoint in
  let v := virtualNode snapped in
  match SnapToGraph.edge snapped with
  | Some edge =>
      match nodeById (nodes map) (SnapToGraph.from edge),
            nodeById (nodes map) (SnapToGraph.to edge) with
      | Some a, Some b =>
          let da := Geometry.dist (nodePoint v) (nodePoint a) in
          let db := Geometry.dist (nodePoint v) (nodePoint b) in
          [ Edge.mk virtualId (Node.id a) (Some da) (Some true);
            Edge.mk virtualId (Node.id b) (Some db) (Some true) ]
      | _, _ => []
      end
  | None =>
      match SnapToGraph.nearestNodeId map startPoint None with
      | Some nearest =>
          if Js.truthy nearest then
            match nodeById (nodes map) nearest with
            | Some n =>
                [ Edge.mk virtualId (Node.id n)
                          (Some (Geometry.dist (nodePoint v) (nodePoint n))) (Some true) ]
            | None => []
            end
          else []
      | None => []
      end
  end.

(** The point of a node id of the path. *)
Definition pointOf (map : StoreMap) (v : Node.t) (id : string) : Geometry.Point2 :=
  if String.eqb id virtualId then Geometry.mkPoint2 (Node.x v) (Node.y v)
  else
    match nodeById (nodes map) id with
    | Some n => Geometry.mkPoint2 (Node.x n) (Node.y n)
    | None => Geometry.mkPoint2 0 0
    end.

(** The sum of [dist (points[i - 1], points[i])]. *)
Fixpoint polylineLength (points : list Geometry.Point2) : R :=
  match points with
  | a :: (b :: _) as rest => Geometry.dist a b + polylineLength rest
  | _ => 0
  end.

(** What a call does: it returns a value, or its [reconstruct] loop is still
    running after as many iterations as the graph has nodes. *)
Inductive Outcome (A : Type) : Type :=
| Returned (a : A)
| StillRunning.
Arguments Returned {A} a.
Arguments StillRunning {A}.

Definition shortestPathFromPoint
  (map : StoreMap) (startPoint : Geometry.Point2) (endNodeId : string)
  : Outcome (option PathResult) :=
  if negb (existsb (fun n => String.eqb (Node.id n) endNodeId) (nodes map))
  then Returned None
  else
    let snapped := snapStart map startPoint in
    let baseEdges := Js.orElse (edges map) [] in
    let v := virtualNode snapped in
    let ns := nodes map ++ [v] in
    let es := baseEdges ++ virtualEdges map startPoint in
    let adj := buildAdjacency ns es in
    let st := dijkstra adj virtualId in
    if negb (Js.isFinite (Js.orElse (JsObject.get (distMap st) endNodeId) Js.PInf))
    then Returned None
    else
      match reconstruct (S (List.length (JsObject.keys adj))) (prev st) virtualId endNodeId with
      | None => StillRunning
      | Some nodeIds =>
          let points := List.map (pointOf map v) nodeIds in
          Returned (Some (mkPathResult nodeIds points (polylineLength points)))
      end.

(** *** Vocabulary for the properties of the route *)

(** The graph has an arc from [u] to [v]: an edge both of whose endpoints are
    nodes, walked forward, or backward unless it is one-way. *)
Definition arc (ns : list Node.t) (es : list Edge.t) (u v : string) : Prop :=
  exists e,
    In e es /\ nodeById ns (Edge.from e) <> None /\ nodeById ns (Edge.to e) <> None /\
    ((Edge.from e = u /\ Edge.to e = v) \/
     (Edge.bidirectional e <> Some false /\ Edge.to e = u /\ Edge.from e = v)).

(** Consecutive elements of the list are related. *)
Fixpoint chain (step : string -> string -> Prop) (l : list string) : Prop :=
  match l with
  | a :: (b :: _) as rest => step a b /\ chain step rest
  | _ => True
  end.

(** A path of arcs leads from [u] to [v]. *)
Definition connected (step : string -> string -> Prop) (u v : string) : Prop :=
  exists l, hd_error l = Some u /\ last l u = v /\ chain step l.

(** The adjacency object has an entry from [u] to [v]. *)
Definition adjStep (adj : Adj) (u v : string) : Prop :=
  exists nbrs w, JsObject.get adj u = Some nbrs /\ In (v, w) nbrs.

(** The tentative distance of [k] is a number. *)
Definition finiteAt (d : JsObject.t Js.xreal) (k : string) : Prop :=
  exists r, JsObject.get d k = Some (Js.Fin r).

(** The invariant of the [while] loop of [dijkstra] from [s]; [done] lists the
    nodes taken out of [q], the latest first. [q] and [done] split the keys of
    [adj]; [distMap] and [prev] have exactly these keys; the start and every
    node of [done] have a finite distance; and every node of finite distance
    other than the start has as [prev] a node of [done] with an entry to it,
    taken out of [q] before the node itself. *)
Definition searching (adj : Adj) (s : string) (done : list string) (st : State) : Prop :=
  NoDup (q st) /\ NoDup done /\
  (forall k, In k (List.map fst adj) <-> In k (q st) \/ In k done) /\
  (forall k, In k (q st) -> ~ In k done) /\
  (forall k, In k (List.map fst adj) <-> JsObject.get (distMap st) k <> None) /\
  (forall k, In k (List.map fst adj) -> JsObject.get (prev st) k <> None) /\
  finiteAt (distMap st) s /\
  (forall u, In u done -> finiteAt (distMap st) u) /\
  (forall v, finiteAt (distMap st) v ->
     v = s \/
     exists u, JsObject.get (prev st) v = Some (Some u) /\ adjStep adj u v /\ In u done /\
               forall l1 l2, done = l1 ++ v :: l2 -> In u l2).

(** Every entry of a node of [done] leads to a node of finite distance. *)
Definition settled (adj : Adj) (done : list string) (st : State) : Prop :=
  forall u v, In u done -> adjStep adj u v -> finiteAt (distMap st) v.

(** The nodes and edges of the graph that [shortestPathFromPoint] searches. *)
Definition searchNodes (map : StoreMap) (startPoint : Geometry.Point2) : list Node.t :=
  nodes map ++ [virtualNode (snapStart map startPoint)].
Definition searchEdges (map : StoreMap) (startPoint : Geometry.Point2) : list Edge.t :=
  Js.orElse (edges map) [] ++ virtualEdges map startPoint.

End ShortestPath.

(** ** nav/turnByTurn.ts *)

Module TurnByTurn.

Inductive ManeuverType : Type := start | arrive | left | right | straight | uturn.

Record Maneuver : Type := mkManeuver {
  type : ManeuverType;
  atIndex : nat;
  point : Geometry.Point2;
  distanceFromStartMeters : R;
  instruction : string
}.

(** 0 degrees points to negative y (up on the plan), 90 degrees to positive x;
    from a point to itself the bearing is 180 degrees, [Math.atan2 (0, -0)]
    being pi. *)
Definition bearingDeg (a b : Geometry.Point2) : R :=
  let dx := Geometry.x b - Geometry.x a in
  let dy := Geometry.y b - Geometry.y a in
  let rad := Js.atan2_neg dx dy in
  let deg := rad * 180 / PI in
  let h := Js.rem deg 360 in
  if Js.ltb h 0 then h + 360 else h.

Definition angleDiff (a b : R) : R := Js.rem (a - b + 540) 360 - 180.

Definition classifyTurn (delta : R) : ManeuverType :=
  let abs := Rabs delta in
  if Js.ltb abs 28 then straight
  else if Js.ltb 150 abs then uturn
  else if Js.ltb 0 delta then right else left.

(** [polyline[i]] for an index within the array. *)
Definition at_ (polyline : list Geometry.Point2) (i : nat) : Geometry.Point2 :=
  nth i polyline (Geometry.mkPoint2 0 0).

(** The turn angle at the interior vertex [i]. *)
Definition turnDelta (polyline : list Geometry.Point2) (i : nat) : R :=
  let prev := at_ polyline (i - 1) in
  let cur := at_ polyline i in
  let next := at_ polyline (i + 1) in
  angleDiff (bearingDeg cur next) (bearingDeg prev cur).

(** One iteration of the loop over the interior vertices; the state is
    [cumulative] and the array [maneuvers]. *)
Definition interiorStep (polyline : list Geometry.Point2)
  (acc : R * list Maneuver) (i : nat) : R * list Maneuver :=
  let '(cumulative, maneuvers) := acc in
  let prev := at_ polyline (i - 1) in
  let cur := at_ polyline i in
  let cumulative := cumulative + Geometry.dist prev cur in
  let delta := turnDelta polyline i in
  let turn := classifyTurn delta in
  match turn with
  | straight => (cumulative, maneuvers)
  | _ =>
      let label :=
        match turn with
        | left => "Turn left"
        | right => "Turn right"
        | _ => "Make a U-turn"
        end%string in
      (cumulative, maneuvers ++ [mkManeuver turn i cur cumulative label])
  end.

(** [polyline.reduce((acc, p, idx) => idx === 0 ? 0 : acc + dist(polyline[idx - 1], p), 0)]. *)
Definition totalLength (polyline : list Geometry.Point2) : R :=
  fold_left
    (fun acc idx =>
       if Nat.eqb idx 0 then 0
       else acc + Geometry.dist (at_ polyline (idx - 1)) (at_ polyline idx))
    (seq 0 (List.length polyline)) 0.

Definition buildManeuvers (polyline : list Geometry.Point2) : list Maneuver :=
  if Nat.ltb (List.length polyline) 2 then []
  else
    let maneuvers := [mkManeuver start 0 (at_ polyline 0) 0 "Start"] in
    let '(_, maneuvers) :=
      fold_left (interiorStep polyline) (seq 1 (List.length polyline - 2)) (0, maneuvers) in
    let total := totalLength polyline in
    maneuvers ++ [mkManeuver arrive (List.length polyline - 1)
                             (at_ polyline (List.length polyline - 1)) total "Arrive"].

Definition formatNextInstruction (maneuver : option Maneuver) (distanceMeters : option R)
  : string :=
  match maneuver with
  | None => "Select a destination"
  | Some m =>
      match type m with
      | start => "Start walking"
      | arrive =>
          match distanceMeters with
          | Some d => if Js.ltb d 2 then "Arrive" else "Continue to destination"
          | None => "Continue to destination"
          end
      | _ =>
          match distanceMeters with
          | None => instruction m
          | Some d =>
              let n := Z.max 0 (Js.round d) in
              "In " ++ Js.integerToString n ++ "m, " ++ Js.toLowerCase (instruction m)
          end
      end
  end%string.

(** *** Vocabulary for the properties of the maneuvers *)

Definition isStart (m : Maneuver) : bool :=
  match type m with start => true | _ => false end.

Definition isArrive (m : Maneuver) : bool :=
  match type m with arrive => true | _ => false end.

Definition isTurn (m : Maneuver) : bool :=
  match type m with left | right | uturn => true | _ => false end.

End TurnByTurn.

(** ** positioning/wifiFix.ts *)

Module WifiFix.

Record WifiReading : Type := mkWifiReading { bssid : string; level : R }.

Record WifiFix : Type := mkWifiFix {
  x : R;
  y : R;
  matched : nat;
  best : option WifiReading
}.

Definition clamp (n min max : R) : R := Rmax min (Rmin max n).

Definition normalizeBssid (bssid : string) : string := Js.toLowerCase (Js.trim bssid).

(** [byBssid.get(key)] after [anchors.forEach((a) => byBssid.set(normalizeBssid(a.bssid), a))]:
    of two anchors with one normalised BSSID the later one is kept. *)
Fixpoint byBssid (anchors : list StoreMap.Anchor.t) (key : string)
  : option StoreMap.Anchor.t :=
  match anchors with
  | [] => None
  | a :: rest =>
      match byBssid rest key with
      | Some b => Some b
      | None =>
          if String.eqb (normalizeBssid (StoreMap.Anchor.bssid a)) key then Some a else None
      end
  end.

(** [byBssid.has(key)]. *)
Definition hasBssid (anchors : list StoreMap.Anchor.t) (key : string) : bool :=
  match byBssid anchors key with Some _ => true | None => false end.

(** The readings that name an anchor, with their BSSID normalised. *)
Definition matchedReadings (readings : list WifiReading) (anchors : list StoreMap.Anchor.t)
  : list WifiReading :=
  filter (fun r => hasBssid anchors (bssid r))
    (map (fun r => mkWifiReading (normalizeBssid (bssid r)) (level r))
       (filter (fun r => Js.truthy (bssid r)) readings)).

(** The weight of a reading: RSSI is only a rough proxy for distance. *)
Definition weight (level : R) : R :=
  clamp (exp ((clamp level (-95) (-35) + 100) / 10)) 1 400.

(** One iteration of the centroid loop; the state is [(sumW, x, y)]. *)
Definition centroidStep (anchors : list StoreMap.Anchor.t)
  (acc : R * R * R) (r : WifiReading) : R * R * R :=
  let '(sumW, x, y) := acc in
  match byBssid anchors (bssid r) with
  | None => acc
  | Some a =>
      let w := weight (level r) in
      (sumW + w, x + StoreMap.Anchor.x a * w, y + StoreMap.Anchor.y a * w)
  end.

Definition computeWifiFix (readings : list WifiReading) (anchors : list StoreMap.Anchor.t)
  : option WifiFix :=
  let matched := matchedReadings readings anchors in
  match matched with
  | [] => None
  | first :: _ =>
      let best :=
        fold_left (fun acc r => if Js.ltb (level acc) (level r) then r else acc)
                  matched first in
      let '(sumW, x, y) := fold_left (centroidStep anchors) matched (0, 0, 0) in
      if Js.leb sumW 0 then None
      else Some (mkWifiFix (x / sumW) (y / sumW) (List.length matched) (Some best))
  end.

Definition wifiConfidenceFromFix (fix_ : option WifiFix) : R :=
  match fix_ with
  | None => 0
  | Some f =>
      let bestLevel := match best f with Some b => level b | None => -90 end in
      let base := clamp ((bestLevel + 100) / 55) (15 / 100) (95 / 100) in
      let multiBoost := clamp (8 / 100 * (INR (matched f) - 1)) 0 (2 / 10) in
      clamp (base + multiBoost) (15 / 100) (98 / 100)
  end.

(** *** Vocabulary for the properties of the fix *)

(** The reading has a BSSID and, once both are normalised, it is the BSSID of
    an anchor. *)
Definition matches (anchors : list StoreMap.Anchor.t) (r : WifiReading) : bool :=
  Js.truthy (bssid r)
  && existsb (fun a => String.eqb (normalizeBssid (StoreMap.Anchor.bssid a))
                                  (normalizeBssid (bssid r)))
             anchors.

(** The sum of [f] over a list. *)
Definition sumOver {A : Type} (f : A -> R) (l : list A) : R :=
  fold_right (fun a acc => f a + acc) 0 l.

(** The anchor a matched reading stands for. *)
Definition anchorX (anchors : list StoreMap.Anchor.t) (r : WifiReading) : R :=
  match byBssid anchors (bssid r) with Some a => StoreMap.Anchor.x a | None => 0 end.
Definition anchorY (anchors : list StoreMap.Anchor.t) (r : WifiReading) : R :=
  match byBssid anchors (bssid r) with Some a => StoreMap.Anchor.y a | None => 0 end.

End WifiFix.

(** ** positioning/pdrEngine.ts *)

Module PdrEngine.

Inductive StepSource : Type := deviceMotion | pedometer.

(** A call of the [onStep] callback: [(source, stepLenMeters, now, count)]. *)
Record StepEvent : Type := mkStepEvent {
  source : StepSource;
  stepLenMeters : R;
  ts : Z;
  count : Z
}.

Record Vec3 : Type := mkVec3 { vx : R; vy : R; vz : R }.

Record Gravity : Type := mkGravity { gx : R; gy : R; gz : R; init : bool }.

Record Peak : Type := mkPeak { inPeak : bool; max : R }.

(** The fields of the class, with the initial values it declares below. *)
Record t : Type := mk {
  headingDeg : R;
  gyroHeadingDeg : R;
  magHeadingDeg : R;
  yawRateDegPerSec : R;
  magReliability : R;
  strideScale : R;
  stepLengthMeters : R;
  deviceSteps : Z;
  pedometerSteps : Z;
  lastStepAt : Z;
  lastIntervalMs : Z;
  lastMotionAt : option Z;
  stationarySince : option Z;
  magStrengthEma : option R;
  gravity : Gravity;
  linAccWindow : list R;
  peak : Peak
}.

(** [new PdrEngine()]. *)
Definition new : t :=
  mk 0 0 0 0 (1 / 2) 1 (6 / 10) 0 0 0 0 None None None
     (mkGravity 0 0 0 false) [] (mkPeak false 0).

Definition toDeg (v : R) : R :=
  if Js.leb (Rabs v) (PI * 2 + 1 / 2) then v * 180 / PI else v.

(** [reset(args)], with the optional fields of [args]. *)
Definition reset (e : t) (argHeadingDeg argStrideScale : option R) : t :=
  let h := PdrMath.wrapHeading (Js.orElse argHeadingDeg 0) in
  let stride := Js.orElse argStrideScale (strideScale e) in
  mk h h h 0 (1 / 2) stride (6 / 10 * stride) 0 0 0 0 None None None
     (mkGravity 0 0 0 false) [] (mkPeak false 0).

(** A magnetometer sample [{ x?, y?, z? }]. *)
Record MagSample : Type := mkMagSample { mx : option R; my : option R; mz : option R }.

Definition handleMagnetometer (e : t) (sample : MagSample) : t :=
  let x := Js.orElse (mx sample) 0 in
  let y := Js.orElse (my sample) 0 in
  let z := Js.orElse (mz sample) 0 in
  let strength := Js.hypot3 x y z in
  let emaPrev := Js.orElse (magStrengthEma e) strength in
  let ema := emaPrev * (92 / 100) + strength * (8 / 100) in
  let dev := Rabs (strength - ema) in
  let inRange := Js.ltb 15 ema && Js.ltb ema 80 in
  let stable := Js.ltb dev 10 in
  let relInstant :=
    PdrMath.clamp ((if inRange then 1 else 25 / 100) * (if stable then 1 else 1 / 2)
                   * (1 - PdrMath.clamp (dev / 25) 0 1)) 0 1 in
  let reliability :=
    PdrMath.clamp (magReliability e * (85 / 100) + relInstant * (15 / 100)) 0 1 in
  let angle := Js.atan2 y x * (180 / PI) in
  let heading := PdrMath.wrapHeading angle in
  let diff := PdrMath.headingDiff heading (magHeadingDeg e) in
  let factor := 3 / 100 + 9 / 100 * reliability in
  mk (headingDeg e) (gyroHeadingDeg e)
     (PdrMath.wrapHeading (magHeadingDeg e + diff * factor))
     (yawRateDegPerSec e) reliability
     (strideScale e) (stepLengthMeters e) (deviceSteps e) (pedometerSteps e)
     (lastStepAt e) (lastIntervalMs e) (lastMotionAt e) (stationarySince e)
     (Some ema) (gravity e) (linAccWindow e) (peak e).

(** A device-motion sample: [rotation.alpha] and [rotationRate.alpha] when they
    are numbers, and the two accelerations when present. *)
Record MotionSample : Type := mkMotionSample {
  rotationAlpha : option R;
  rotationRateAlpha : option R;
  acceleration : option Vec3;
  accelerationIncludingGravity : option Vec3
}.

(** The first half of [handleDeviceMotion]: heading from the attitude, the yaw
    rate and the slow magnetic correction. It writes [lastMotionAt], the yaw
    rate and the headings only. *)
Definition fuseHeading (e : t) (sample : MotionSample) (now : Z) : t :=
  let prevTs := Js.orElse (lastMotionAt e) now in
  let dt := PdrMath.clamp (IZR (now - prevTs) / 1000) (1 / 1000) (2 / 10) in
  let '(gyro1, heading1) :=
    match rotationAlpha sample with
    | Some alpha =>
        let attitudeYaw := PdrMath.wrapHeading (toDeg alpha) in
        let d := PdrMath.headingDiff attitudeYaw (headingDeg e) in
        (attitudeYaw, PdrMath.wrapHeading (headingDeg e + PdrMath.clamp d (-20) 20))
    | None => (gyroHeadingDeg e, headingDeg e)
    end in
  let '(yawRate, heading2) :=
    match rotationRateAlpha sample with
    | Some alpha =>
        let yawRate := PdrMath.clamp (toDeg alpha) (-720) 720 in
        (yawRate, PdrMath.wrapHeading (heading1 + yawRate * dt))
    | None => (0, heading1)
    end in
  let turningFast := Js.ltb 140 (Rabs yawRate) in
  let gain := (8 / 1000 + 5 / 100 * magReliability e) * (if turningFast then 2 / 10 else 1) in
  let err := PdrMath.headingDiff (magHeadingDeg e) heading2 in
  mk (PdrMath.wrapHeading (heading2 + err * gain)) gyro1 (magHeadingDeg e) yawRate
     (magReliability e)
     (strideScale e) (stepLengthMeters e) (deviceSteps e) (pedometerSteps e)
     (lastStepAt e) (lastIntervalMs e) (Some now) (stationarySince e)
     (magStrengthEma e) (gravity e) (linAccWindow e) (peak e).

(** The linear acceleration of a sample and the gravity estimate after it:
    the native linear acceleration when present, else the acceleration
    including gravity minus a low-pass estimate of gravity. *)
Definition linearAcceleration (g : Gravity) (sample : MotionSample) : Vec3 * Gravity :=
  match acceleration sample with
  | Some lin => (lin, g)
  | None =>
      match accelerationIncludingGravity sample with
      | Some incl =>
          let gg :=
            if negb (init g) then mkGravity (vx incl) (vy incl) (vz incl) true
            else
              let a := 92 / 100 in
              mkGravity (gx g * a + vx incl * (1 - a))
                        (gy g * a + vy incl * (1 - a))
                        (gz g * a + vz incl * (1 - a)) true in
          (mkVec3 (vx incl - gx gg) (vy incl - gy gg) (vz incl - gz gg), gg)
      | None => (mkVec3 0 0 0, g)
      end
  end.

(** [this.linAccWindow.push(linMag); if (length > 35) shift()]. *)
Definition pushWindow (w : list R) (linMag : R) : list R :=
  let w := w ++ [linMag] in
  if Nat.ltb 35 (List.length w) then tl w else w.

Definition mean (w : list R) : R :=
  fold_left Rplus w 0
  / (match List.length w with O => 1 | n => INR n end).

Definition variance (w : list R) : R :=
  let m := mean w in
  fold_left (fun acc v => acc + (v - m) * (v - m)) w 0
  / INR (Nat.max 1 (List.length w - 1)).

(** The second half of [handleDeviceMotion]: the step detector. It returns the
    engine and the call of [onStep], if any. *)
Definition detectStep (e : t) (sample : MotionSample) (now : Z) : t * option StepEvent :=
  let '(a, g) := linearAcceleration (gravity e) sample in
  let linMag := Js.hypot3 (vx a) (vy a) (vz a) in
  let w := pushWindow (linAccWindow e) linMag in
  let m := mean w in
  let std := sqrt (variance w) in
  let rawThreshold := m + std * (26 / 10) in
  let threshold := PdrMath.clamp rawThreshold (6 / 100) (16 / 10) in
  let low := Js.ltb linMag (Rmax (2 / 100) (threshold * (25 / 100))) in
  let since :=
    if low then
      match stationarySince e with None => Some now | Some s => Some s end
    else None in
  let isStationary :=
    match since with Some s => Z.ltb 600 (now - s) | None => false end in
  let withWindow (pk : Peak) : t :=
    mk (headingDeg e) (gyroHeadingDeg e) (magHeadingDeg e) (yawRateDegPerSec e)
       (magReliability e)
       (strideScale e) (stepLengthMeters e) (deviceSteps e) (pedometerSteps e)
       (lastStepAt e) (lastIntervalMs e) (lastMotionAt e) since
       (magStrengthEma e) g w pk in
  if negb (inPeak (peak e)) then
    if Js.ltb threshold linMag
    then (withWindow (mkPeak true linMag), None)
    else (withWindow (peak e), None)
  else
    let peakMax := Rmax (max (peak e)) linMag in
    if Js.ltb linMag m then
      let minInterval := 280%Z in
      if Z.ltb minInterval (now - lastStepAt e) && Js.ltb threshold peakMax
         && negb isStationary
      then
        let interval := if Z.eqb (lastStepAt e) 0 then 0%Z else (now - lastStepAt e)%Z in
        let stepLen :=
          Rmax (45 / 100) (Rmin (105 / 100) (62 / 100 + (peakMax - threshold) * (18 / 100))) in
        let len := stepLen * strideScale e in
        (mk (headingDeg e) (gyroHeadingDeg e) (magHeadingDeg e) (yawRateDegPerSec e)
            (magReliability e)
            (strideScale e) len (deviceSteps e + 1) (pedometerSteps e)
            now interval (lastMotionAt e) since
            (magStrengthEma e) g w (mkPeak false peakMax),
         Some (mkStepEvent deviceMotion len now 1))
      else (withWindow (mkPeak false peakMax), None)
    else (withWindow (mkPeak true peakMax), None).

(** [handleDeviceMotion (sample, now, onStep)]. The [MotionDebug] it returns is
    a read-out of the fields and is left out. The callback is given the count 1
    by its only caller. *)
Definition handleDeviceMotion (e : t) (sample : MotionSample) (now : Z)
  : t * option StepEvent :=
  detectStep (fuseHeading e sample now) sample now.

Definition handlePedometerSteps (e : t) (totalSteps : Z) (now : Z)
  (recentlyDeviceMotion : bool) : t * option StepEvent :=
  let prev := pedometerSteps e in
  let delta := if Z.eqb prev 0 then 0%Z else (totalSteps - prev)%Z in
  if Z.ltb 0 delta && negb recentlyDeviceMotion then
    let interval := if Z.eqb (lastStepAt e) 0 then 0%Z else (now - lastStepAt e)%Z in
    (mk (headingDeg e) (gyroHeadingDeg e) (magHeadingDeg e) (yawRateDegPerSec e)
        (magReliability e)
        (strideScale e) (stepLengthMeters e) (deviceSteps e) totalSteps
        now interval (lastMotionAt e) (stationarySince e)
        (magStrengthEma e) (gravity e) (linAccWindow e) (peak e),
     Some (mkStepEvent pedometer (stepLengthMeters e) now delta))
  else
    (mk (headingDeg e) (gyroHeadingDeg e) (magHeadingDeg e) (yawRateDegPerSec e)
        (magReliability e)
        (strideScale e) (stepLengthMeters e) (deviceSteps e) totalSteps
        (lastStepAt e) (lastIntervalMs e) (lastMotionAt e) (stationarySince e)
        (magStrengthEma e) (gravity e) (linAccWindow e) (peak e),
     None).

End PdrEngine.

(** ** positioning/useIndoorPositioning.ts: the sensor listeners *)

Module Positioning.

(** What the sensor subscriptions deliver, with the [Date.now()] of the
    delivery. *)
Inductive SensorInput : Type :=
| Magnetometer (sample : PdrEngine.MagSample) (now : Z)
| DeviceMotion (sample : PdrEngine.MotionSample) (now : Z)
| Pedometer (steps : Z) (now : Z).

Definition timeOf (i : SensorInput) : Z :=
  match i with
  | Magnetometer _ now | DeviceMotion _ now | Pedometer _ now => now
  end.

(** One listener call on the engine of the session; the result holds the calls
    of [onStep] it made. What [onStep] does with a step (Kalman prediction,
    snap, pose) does not touch the engine and is left out. *)
Definition listen (e : PdrEngine.t) (i : SensorInput) : PdrEngine.t * option PdrEngine.StepEvent :=
  match i with
  | Magnetometer m _ => (PdrEngine.handleMagnetometer e m, None)
  | DeviceMotion m now => PdrEngine.handleDeviceMotion e m now
  | Pedometer steps now =>
      let recentlyDeviceMotion :=
        Z.ltb 0 (PdrEngine.lastStepAt e) && Z.ltb (now - PdrEngine.lastStepAt e) 1800 in
      PdrEngine.handlePedometerSteps e steps now recentlyDeviceMotion
  end.

(** A sequence of listener calls: the engine and the step events so far, in the
    order of the calls. *)
Definition listenAll (e : PdrEngine.t) (inputs : list SensorInput)
  : PdrEngine.t * list PdrEngine.StepEvent :=
  fold_left
    (fun (acc : PdrEngine.t * list PdrEngine.StepEvent) i =>
       let '(e, events) := acc in
       let '(e', ev) := listen e i in
       (e', events ++ match ev with Some s => [s] | None => [] end))
    inputs (e, []).

(** *** Vocabulary for the properties of the step events *)

(** Every pedometer step event comes at least 1800 ms after every
    device-motion step event that precedes it in the sequence. *)
Fixpoint spaced (events : list PdrEngine.StepEvent) : Prop :=
  match events with
  | [] => True
  | d :: rest =>
      (PdrEngine.source d = PdrEngine.deviceMotion ->
       forall p, In p rest -> PdrEngine.source p = PdrEngine.pedometer ->
                 (PdrEngine.ts d + 1800 <= PdrEngine.ts p)%Z)
      /\ spaced rest
  end.

(** The fields of the engine that the step detector and the pedometer path
    read. *)
Definition stepFields (e : PdrEngine.t)
  : list R * PdrEngine.Peak * Z * option Z * R * Z * R :=
  (PdrEngine.linAccWindow e, PdrEngine.peak e, PdrEngine.lastStepAt e,
   PdrEngine.stationarySince e, PdrEngine.strideScale e, PdrEngine.pedometerSteps e,
   PdrEngine.stepLengthMeters e).

End Positioning.

(** ** Concrete inputs used by the examples *)

Module Scenarios.

Definition walkwayNode (id : string) (x y : R) : StoreMap.Node.t :=
  StoreMap.Node.mk id id x y 0 StoreMap.walkway None.

Definition plainEdge (from to : string) : StoreMap.Edge.t :=
  StoreMap.Edge.mk from to None None.

(** Two parallel corridors, E1 = (0,0)-(10,0) and E2 = (0,0.4)-(10,0.4), that
    share no node (scenarios S4 and S5 of the specification). *)
Definition corridorE1 : StoreMap.Edge.t := plainEdge "a0" "a1".
Definition corridorE2 : StoreMap.Edge.t := plainEdge "b0" "b1".

Definition corridorsMap : StoreMap.StoreMap :=
  StoreMap.mkStoreMap "s4" "parallel corridors" 50
    [ walkwayNode "a0" 0 0; walkwayNode "a1" 10 0;
      walkwayNode "b0" 0 (4 / 10); walkwayNode "b1" 10 (4 / 10) ]
    (Some [ corridorE1; corridorE2 ])
    None.

(** Options that only name E1 as the previous edge. *)
Definition stickyOpts : option SnapToGraph.Opts :=
  Some (SnapToGraph.mkOpts None (Some (SnapToGraph.mkEdgeId "a0" "a1")) None None).

(** The options of scenario S5: hard clamp, [maxSnapMeters = 0.5], previous
    edge E1. *)
Definition hardClampOpts : option SnapToGraph.Opts :=
  Some (SnapToGraph.mkOpts (Some (1 / 2)) (Some (SnapToGraph.mkEdgeId "a0" "a1")) None
                           (Some true)).

(** Scenario S3: anchor A at (0,0) heard at -60 dBm, anchor B at (10,0) heard
    at -80 dBm. *)
Definition anchorA : StoreMap.Anchor.t :=
  StoreMap.Anchor.mk "AA:BB:CC:DD:EE:01" "A" 0 0 0 StoreMap.mock None.
Definition anchorB : StoreMap.Anchor.t :=
  StoreMap.Anchor.mk "AA:BB:CC:DD:EE:02" "B" 10 0 0 StoreMap.mock None.
Definition scanAB : list WifiFix.WifiReading :=
  [ WifiFix.mkWifiReading "aa:bb:cc:dd:ee:01" (-60);
    WifiFix.mkWifiReading " AA:BB:CC:DD:EE:02 " (-80) ].

(** An anchor and a reading whose BSSIDs are both blank. *)
Definition blankAnchor : StoreMap.Anchor.t :=
  StoreMap.Anchor.mk " " "blank" 1 2 0 StoreMap.live None.
Definition blankScan : list WifiFix.WifiReading := [ WifiFix.mkWifiReading "" (-50) ].

(** A corridor a - junction - c whose junction node has the empty string as
    its id. *)
Definition junctionMap : StoreMap.StoreMap :=
  StoreMap.mkStoreMap "corridor" "corridor" 50
    [ walkwayNode "a" 0 0; walkwayNode "" 5 0; walkwayNode "c" 10 0 ]
    (Some [ plainEdge "a" ""; plainEdge "" "c" ])
    None.

(** A walk: three device-motion samples whose linear acceleration rises to
    4 m/s^2 and falls back, which the detector counts as one step at 1100 ms,
    then the pedometer counts 5, 6 at 5000 ms and 7000 ms. *)
Definition motionOf (ax : R) : PdrEngine.MotionSample :=
  PdrEngine.mkMotionSample None None (Some (PdrEngine.mkVec3 ax 0 0)) None.

Definition walk : list Positioning.SensorInput :=
  [ Positioning.DeviceMotion (motionOf 0) 1000;
    Positioning.DeviceMotion (motionOf 4) 1050;
    Positioning.DeviceMotion (motionOf 0) 1100;
    Positioning.Pedometer 5 5000;
    Positioning.Pedometer 6 7000 ].

End Scenarios.


(** ** mapmatching/routeProgress.ts *)

Module RouteProgress.

Record RouteProgress : Type := mkRouteProgress {
  alongMeters : R;
  closest : Geometry.Point2;
  distanceMeters : R;
  segmentIndex : nat;
  t : R
}.

(** [polyline[i]] for an index within the array. *)
Definition at_ (polyline : list Geometry.Point2) (i : nat) : Geometry.Point2 :=
  nth i polyline (Geometry.mkPoint2 0 0).

(** One iteration of the loop over the segments; the state is [best] and
    [cumulative]. *)
Definition progressStep (polyline : list Geometry.Point2) (point : Geometry.Point2)
  (acc : option RouteProgress * R) (i : nat) : option RouteProgress * R :=
  let '(best, cumulative) := acc in
  let a := at_ polyline i in
  let b := at_ polyline (i + 1) in
  let proj := Geometry.projectPointToSegment point a b in
  let segLen := Geometry.dist a b in
  let along := cumulative + segLen * Geometry.t proj in
  let best :=
    if match best with
       | None => true
       | Some bst => Js.ltb (Geometry.distance proj) (distanceMeters bst)
       end
    then Some (mkRouteProgress along (Geometry.point proj) (Geometry.distance proj)
                               i (Geometry.t proj))
    else best in
  (best, cumulative + segLen).

Definition computeRouteProgress (polyline : list Geometry.Point2) (point : Geometry.Point2)
  : option RouteProgress :=
  if Nat.ltb (List.length polyline) 2 then None
  else
    fst (fold_left (progressStep polyline point)
                   (seq 0 (List.length polyline - 1)) (None, 0)).

(** [polyline.reduce((acc, p, i) => (i === 0 ? 0 : acc + dist(polyline[i - 1], p)), 0)]. *)
Definition polylineLength (polyline : list Geometry.Point2) : R :=
  fold_left
    (fun acc i =>
       if Nat.eqb i 0 then 0
       else acc + Geometry.dist (at_ polyline (i - 1)) (at_ polyline i))
    (seq 0 (List.length polyline)) 0.

End RouteProgress.

(** ** Vocabulary for the maneuvers of nav/turnByTurn.ts *)

Module TurnVocabulary.

(** The instruction [buildManeuvers] gives a turn. *)
Definition labelOf (turn : TurnByTurn.ManeuverType) : string :=
  match turn with
  | TurnByTurn.left => "Turn left"
  | TurnByTurn.right => "Turn right"
  | _ => "Make a U-turn"
  end.

(** What the loop of [buildManeuvers] pushes at the interior vertex [i]:
    nothing where the route goes straight on, else the turn, at the distance
    of the vertex from the start along the polyline. *)
Definition maneuverAt (polyline : list Geometry.Point2) (i : nat) : list TurnByTurn.Maneuver :=
  let turn := TurnByTurn.classifyTurn (TurnByTurn.turnDelta polyline i) in
  match turn with
  | TurnByTurn.straight => []
  | _ =>
      [TurnByTurn.mkManeuver turn i (TurnByTurn.at_ polyline i)
         (RouteProgress.polylineLength (firstn (i + 1) polyline)) (labelOf turn)]
  end.

(** The route leaves [q] in the direction in which it came from [p]. *)
Definition sameDirection (p q r : Geometry.Point2) : Prop :=
  exists k, 0 < k /\
    Geometry.x r - Geometry.x q = k * (Geometry.x q - Geometry.x p) /\
    Geometry.y r - Geometry.y q = k * (Geometry.y q - Geometry.y p).

End TurnVocabulary.

(** ** Vocabulary for the step events of a positioning session *)

Module StepVocabulary.

(** A step event keeps its distance from every earlier one: a device-motion
    step comes more than 280 ms, a pedometer step at least 1800 ms, after each
    step event before it. *)
Fixpoint gapped (events : list PdrEngine.StepEvent) : Prop :=
  match events with
  | [] => True
  | x :: rest =>
      (forall y, In y rest ->
         match PdrEngine.source y with
         | PdrEngine.deviceMotion => (PdrEngine.ts x + 280 < PdrEngine.ts y)%Z
         | PdrEngine.pedometer => (PdrEngine.ts x + 1800 <= PdrEngine.ts y)%Z
         end)
      /\ gapped rest
  end.

(** The invariants of the engine's state: the three headings are wrapped, the
    magnetometer reliability is a fraction, the yaw rate is clamped and the
    window of accelerations holds at most 35 samples. *)
Definition wellFormed (e : PdrEngine.t) : Prop :=
  0 <= PdrEngine.headingDeg e < 360 /\
  0 <= PdrEngine.gyroHeadingDeg e < 360 /\
  0 <= PdrEngine.magHeadingDeg e < 360 /\
  0 <= PdrEngine.magReliability e <= 1 /\
  -720 <= PdrEngine.yawRateDegPerSec e <= 720 /\
  (List.length (PdrEngine.linAccWindow e) <= 35)%nat.

End StepVocabulary.

(** ** Vocabulary for shortest routes (nav/shortestPath.ts) *)

Module PathVocabulary.

(** The adjacency object has the entry [{ to: v, w }] under [u]. *)
Definition entry (adj : ShortestPath.Adj) (u v : string) (w : R) : Prop :=
  exists nbrs, JsObject.get adj u = Some nbrs /\ In (v, w) nbrs.

(** A walk from [u] along entries of the adjacency object: the nodes it visits
    after [u], each with the weight of the entry taken to it. *)
Fixpoint walk (adj : ShortestPath.Adj) (u : string) (steps : list (string * R)) : Prop :=
  match steps with
  | [] => True
  | (v, w) :: rest => entry adj u v w /\ walk adj v rest
  end.


Definition walkEnd (u : string) (steps : list (string * R)) : string :=
  last (List.map fst steps) u.




End PathVocabulary.

(** ** navigation/routing.ts *)

Module Routing.

Import StoreMap.

Definition distEuclid (a b : Node.t) : R :=
  Js.hypot (Node.x a - Node.x b) (Node.y a - Node.y b).

(** [buildAdjacency], [dijkstra] and [reconstruct] of routing.ts are, statement
    for statement, those of nav/shortestPath.ts; [buildAdjacency] takes the
    nodes and the edges from the map. *)
Definition buildAdjacency (map : StoreMap) : ShortestPath.Adj :=
  ShortestPath.buildAdjacency (nodes map) (Js.orElse (edges map) []).

Definition dijkstra (adj : ShortestPath.Adj) (startId : string) : ShortestPath.State :=
  ShortestPath.dijkstra adj startId.

Definition reconstruct (fuel : nat) (prev : JsObject.t (option string))
  (startId endId : string) : option (list string) :=
  ShortestPath.reconstruct fuel prev startId endId.

(** [map.nodes.find((n) => n.id === id)]. *)
Definition findNode (map : StoreMap) (id : string) : option Node.t :=
  find (fun n => String.eqb (Node.id n) id) (nodes map).

(** The last four lines of [pairDistance], which also serve a map without
    edges: the straight-line distance of two nodes of the map. *)
Definition straightLine (map : StoreMap) (aId bId : string) : Js.xreal :=
  match findNode map aId, findNode map bId with
  | Some a, Some b => Js.Fin (distEuclid a b)
  | _, _ => Js.PInf
  end.

Definition pairDistance (map : StoreMap) (adj : ShortestPath.Adj) (aId bId : string)
  : Js.xreal :=
  if Nat.eqb (List.length (Js.orElse (edges map) [])) 0 then straightLine map aId bId
  else
    let st := dijkstra adj aId in
    match JsObject.get (ShortestPath.distMap st) bId with
    | Some (Js.Fin d) => Js.Fin d
    | _ => straightLine map aId bId
    end.

(** The scan of [remaining] for the stop nearest to [current]:
    [(bestId, bestDist)]. *)
Definition nearestScan (map : StoreMap) (adj : ShortestPath.Adj) (current : string)
  (remaining : JsSet.t) : option string * Js.xreal :=
  fold_left
    (fun (acc : option string * Js.xreal) id =>
       let d := pairDistance map adj current id in
       if Js.xlt d (snd acc) then (Some id, d) else acc)
    remaining (None, Js.PInf).

(** The [while (remaining.size)] loop. Every iteration removes a stop from
    [remaining], so [fuel] iterations suffice when [fuel] is its size. *)
Fixpoint nearestLoop (fuel : nat) (map : StoreMap) (adj : ShortestPath.Adj)
  (current : string) (remaining : JsSet.t) (order : list string) : list string :=
  match fuel with
  | O => order
  | S fuel =>
      match remaining with
      | [] => order
      | _ =>
          match fst (nearestScan map adj current remaining) with
          | None => order
          | Some bestId =>
              if negb (Js.truthy bestId) then order
              else nearestLoop fuel map adj bestId (JsSet.delete remaining bestId)
                               (order ++ [bestId])
          end
      end
  end.

Definition nearestNeighborOrder (map : StoreMap) (adj : ShortestPath.Adj)
  (startId : string) (stops : list string) : list string :=
  let remaining := fold_left JsSet.add stops [] in
  nearestLoop (List.length remaining) map adj startId remaining [].

(** [a + b] where both may be infinite. *)
Definition xplus (a b : Js.xreal) : Js.xreal :=
  match a, b with
  | Js.Fin x, Js.Fin y => Js.Fin (x + y)
  | _, _ => Js.PInf
  end.

(** [seq[i]] for an index within the array. *)
Definition at_ (seq : list string) (i : nat) : string := nth i seq EmptyString.

(** [seq.reduce((acc, id, i) => (i === 0 ? 0 : acc + pairDistance(map, adj, seq[i - 1], id)), 0)]. *)
Definition cost (map : StoreMap) (adj : ShortestPath.Adj) (seq : list string) : Js.xreal :=
  fold_left
    (fun acc i =>
       if Nat.eqb i 0 then Js.Fin 0
       else xplus acc (pairDistance map adj (at_ seq (i - 1)) (at_ seq i)))
    (List.seq 0 (List.length seq)) (Js.Fin 0).

(** [[...best.slice(0, i), ...best.slice(i, k + 1).reverse(), ...best.slice(k + 1)]]. *)
Definition candidate (best : list string) (i k : nat) : list string :=
  firstn i best ++ rev (firstn (k + 1 - i) (skipn i best)) ++ skipn (k + 1) best.

(** The variables of the search of [twoOptImprove]. *)
Record Search : Type := mkSearch {
  best : list string;
  bestCost : Js.xreal;
  improved : bool
}.

(** The body of the inner [for] loop, at the indices [i] and [k]. *)
Definition tryPair (map : StoreMap) (adj : ShortestPath.Adj) (st : Search) (ik : nat * nat)
  : Search :=
  let cand := candidate (best st) (fst ik) (snd ik) in
  let c := cost map adj cand in
  if Js.xlt (Js.xadd c (1 / 1000000)) (bestCost st) then mkSearch cand c true else st.

(** The index pairs of the two [for] loops, in the order of the loops, for
    [best.length = n]: [1 <= i < n - 2] and [i + 1 <= k < n - 1]. Every
    candidate is as long as [best], so the bounds are the same throughout. *)
Definition pairs (n : nat) : list (nat * nat) :=
  flat_map (fun i => List.map (fun k => (i, k)) (List.seq (i + 1) (n - 1 - (i + 1))))
           (List.seq 1 (n - 2 - 1)).

(** One run of the body of [while (improved)]. *)
Definition pass (map : StoreMap) (adj : ShortestPath.Adj) (best : list string)
  (bestCost : Js.xreal) : Search :=
  fold_left (tryPair map adj) (pairs (List.length best)) (mkSearch best bestCost false).

(** The [while (improved)] loop; [None] when [fuel] runs of its body did not
    end it. *)
Fixpoint twoOptLoop (fuel : nat) (map : StoreMap) (adj : ShortestPath.Adj)
  (best : list string) (bestCost : Js.xreal) : option (list string) :=
  match fuel with
  | O => None
  | S fuel =>
      let st := pass map adj best bestCost in
      if improved st then twoOptLoop fuel map adj (Routing.best st) (Routing.bestCost st)
      else Some (Routing.best st)
  end.

(** [best.slice(1, -1)]. *)
Definition inner (best : list string) : list string :=
  firstn (List.length best - 1 - 1) (skipn 1 best).

Definition twoOptImprove (fuel : nat) (map : StoreMap) (adj : ShortestPath.Adj)
  (startId endId : string) (route : list string) : option (list string) :=
  let full := startId :: route ++ [endId] in
  option_map inner (twoOptLoop fuel map adj full (cost map adj full)).

(** [Array.from(new Set(stopNodeIds.filter((s) => s && s !== startId && s !== endId)))]. *)
Definition uniqueStops (startId endId : string) (stopNodeIds : list string) : list string :=
  fold_left JsSet.add
    (filter (fun s => Js.truthy s && negb (String.eqb s startId) && negb (String.eqb s endId))
            stopNodeIds) [].

Definition computeRouteOrder (fuel : nat) (map : StoreMap) (startId : string)
  (stopNodeIds : list string) (endId : string) : option (list string) :=
  let uniqueStops := uniqueStops startId endId stopNodeIds in
  let adj := buildAdjacency map in
  let baseOrder := nearestNeighborOrder map adj startId uniqueStops in
  option_map (fun improved => startId :: improved ++ [endId])
             (twoOptImprove fuel map adj startId endId baseOrder).

(** What [path.forEach] adds to [segments]: the path, without its first node
    when [segments] is not empty. *)
Definition pushPath (segments path : list string) : list string :=
  match segments with
  | [] => path
  | _ => segments ++ skipn 1 path
  end.

(** The body of the [for] loop over the legs of [order]; [None] when a
    [reconstruct] is still running after [fuel] iterations. For the ids of
    [order] that are no keys of the adjacency object see [JsObject.get]. *)
Definition legStep (fuel : nat) (adj : ShortestPath.Adj) (order : list string)
  (segments : option (list string)) (i : nat) : option (list string) :=
  match segments with
  | None => None
  | Some segments =>
      let a := at_ order i in
      let b := at_ order (i + 1) in
      let st := dijkstra adj a in
      option_map (pushPath segments) (reconstruct fuel (ShortestPath.prev st) a b)
  end.

Definition computePolylineForOrder (fuel : nat) (map : StoreMap) (order : list string)
  : option (list string) :=
  let adj := buildAdjacency map in
  if Nat.eqb (List.length (Js.orElse (edges map) [])) 0 then Some order
  else fold_left (legStep fuel adj order) (List.seq 0 (List.length order - 1)) (Some []).

End Routing.

(** ** Vocabulary for the orders of navigation/routing.ts *)

Module RouteVocabulary.

(** [a <= b] where both may be infinite. *)
Definition xle (a b : Js.xreal) : Prop :=
  match a, b with
  | Js.Fin x, Js.Fin y => x <= y
  | _, Js.PInf => True
  | Js.PInf, Js.Fin _ => False
  end.

(** [id] is the id of a node of the map. *)
Definition known (map : StoreMap.StoreMap) (id : string) : Prop :=
  exists n, In n (StoreMap.nodes map) /\ StoreMap.Node.id n = id.

(** A stop that [computeRouteOrder] keeps: not the empty string, not the start
    and not the end. *)
Definition properStop (startId endId s : string) : Prop :=
  s <> EmptyString /\ s <> startId /\ s <> endId.

(** [seq] is the start, a rearrangement of [route], and the end. *)
Definition rearranged (startId endId : string) (route seq : list string) : Prop :=
  exists mid, seq = startId :: mid ++ [endId] /\ Permutation mid route.

(** The state of [segments] after [i] legs of [order]: empty before the first
    leg; after it a path of arcs from the first node of the order to its node
    [i] that passes the nodes before. *)
Definition legsDone (map : StoreMap.StoreMap) (order : list string) (i : nat)
  (segments : list string) : Prop :=
  (i = 0%nat /\ segments = []) \/
  ((0 < i)%nat /\
   hd_error segments = Some (Routing.at_ order 0) /\
   last segments EmptyString = Routing.at_ order i /\
   ShortestPath.chain
     (ShortestPath.arc (StoreMap.nodes map) (Js.orElse (StoreMap.edges map) [])) segments /\
   forall j, (j <= i)%nat -> In (Routing.at_ order j) segments).

End RouteVocabulary.

(** ** nav/useIndoorNavigation.ts *)

Module IndoorNavigation.

Record IndoorRoute : Type := mkIndoorRoute {
  path : ShortestPath.PathResult;
  maneuvers : list TurnByTurn.Maneuver;
  lengthMeters : R
}.

Record Reroute : Type := mkReroute {
  offRouteMeters : R;
  persistMs : R
}.

Record Args : Type := mkArgs {
  enabled : bool;
  map : StoreMap.StoreMap;
  current : option Geometry.Point2;
  destinationId : option string;
  reroute : Reroute
}.

(** The two refs of the hook, [offRouteSinceRef] and [lastRecalcAtRef]; clock
    readings are whole milliseconds. *)
Record Refs : Type := mkRefs {
  offRouteSince : option Z;
  lastRecalcAt : Z
}.


(** [recalc ()]: the route it returns, which it has then also passed to
    [setRoute]; [StillRunning] when [shortestPathFromPoint] is. *)
Definition recalc (args : Args) : ShortestPath.Outcome (option IndoorRoute) :=
  match current args, destinationId args with
  | Some cur, Some dest =>
      if negb (Js.truthy dest) then ShortestPath.Returned None
      else
        match ShortestPath.shortestPathFromPoint (map args) cur dest with
        | ShortestPath.StillRunning => ShortestPath.StillRunning
        | ShortestPath.Returned None => ShortestPath.Returned None
        | ShortestPath.Returned (Some res) =>
            let maneuvers := TurnByTurn.buildManeuvers (ShortestPath.points res) in
            ShortestPath.Returned
              (Some (mkIndoorRoute res maneuvers (ShortestPath.lengthMeters res)))
        end
  | _, _ => ShortestPath.Returned None
  end.

(** What a run of an effect does to the state of the hook, in order: the
    setters it calls, and [recalc ()] with its outcome. *)
Inductive Call : Type :=
| setRoute (r : option IndoorRoute)
| setOffRoute (b : bool)
| setNextManeuver (m : option TurnByTurn.Maneuver)
| setDistanceToNext (d : option R)
| setNextInstruction (s : string)
| callRecalc (o : ShortestPath.Outcome (option IndoorRoute)).

(** The first effect. *)
Definition enableEffect (args : Args) (refs : Refs) : Refs * list Call :=
  if negb (enabled args)
  then (mkRefs None (lastRecalcAt refs),
        [setRoute None; setOffRoute false; setNextManeuver None; setDistanceToNext None;
         setNextInstruction "Select a destination"])
  else (refs, [callRecalc (recalc args)]).

(** The second effect, run with the state [route] and [offRoute] of the
    render and the clock reading [now]. A [recalc ()] that does not return
    leaves [offRouteSinceRef] as it is. *)
Definition progressEffect (args : Args) (route : option IndoorRoute) (offRoute : bool)
  (now : Z) (refs : Refs) : Refs * list Call :=
  if negb (enabled args) then (refs, [])
  else
    match current args, route with
    | Some cur, Some rt =>
        match RouteProgress.computeRouteProgress (ShortestPath.points (path rt)) cur with
        | None => (refs, [])
        | Some progress =>
            let along := RouteProgress.alongMeters progress in
            let total := RouteProgress.polylineLength (ShortestPath.points (path rt)) in
            let remaining := Rmax 0 (total - along) in
            let next :=
              find (fun m => Js.ltb (along + 1 / 2) (TurnByTurn.distanceFromStartMeters m))
                   (maneuvers rt) in
            let distToNext :=
              match next with
              | Some m => Rmax 0 (TurnByTurn.distanceFromStartMeters m - along)
              | None => remaining
              end in
            let shown :=
              [setNextManeuver next; setDistanceToNext (Some distToNext);
               setNextInstruction (TurnByTurn.formatNextInstruction next (Some distToNext))] in
            let isOff :=
              Js.ltb (offRouteMeters (reroute args)) (RouteProgress.distanceMeters progress) in
            if negb isOff
            then (mkRefs None (lastRecalcAt refs),
                  shown ++ (if offRoute then [setOffRoute false] else []))
            else
              let since :=
                match offRouteSince refs with
                | Some t => if Z.eqb t 0 then now else t
                | None => now
                end in
              let persist := (now - since)%Z in
              let should := Js.ltb (persistMs (reroute args)) (IZR persist) in
              let shown := shown ++ [setOffRoute true] in
              if negb should then (mkRefs (Some since) (lastRecalcAt refs), shown)
              else if Z.ltb (now - lastRecalcAt refs) 1500
              then (mkRefs (Some since) (lastRecalcAt refs), shown)
              else
                let o := recalc args in
                (mkRefs (match o with
                         | ShortestPath.Returned _ => None
                         | ShortestPath.StillRunning => Some since
                         end) now,
                 shown ++ [callRecalc o])
        end
    | _, _ => (refs, [])
    end.

(** A run of one of the two effects, with what it reads. *)
Inductive Run : Type :=
| enableRun (args : Args)
| progressRun (args : Args) (route : option IndoorRoute) (offRoute : bool) (now : Z).

Definition run (refs : Refs) (r : Run) : Refs * list Call :=
  match r with
  | enableRun args => enableEffect args refs
  | progressRun args route offRoute now => progressEffect args route offRoute now refs
  end.

(** *** Vocabulary for the properties of the hook *)

Definition isRecalc (c : Call) : bool :=
  match c with
  | callRecalc _ => true
  | _ => false
  end.

(** The clock readings of the runs of the second effect that called
    [recalc ()], over a sequence of runs from the refs [refs]. *)
Fixpoint rerouteTimes (refs : Refs) (runs : list Run) : list Z :=
  match runs with
  | [] => []
  | r :: rest =>
      let '(refs', calls) := run refs r in
      match r with
      | progressRun _ _ _ now =>
          if existsb isRecalc calls then now :: rerouteTimes refs' rest
          else rerouteTimes refs' rest
      | enableRun _ => rerouteTimes refs' rest
      end
  end.

(** The refs after a sequence of runs. *)
Definition refsAfter (refs : Refs) (runs : list Run) : Refs :=
  fold_left (fun refs r => fst (run refs r)) runs refs.

End IndoorNavigation.


(** * Properties *)

(** ** Comparisons and rounding *)

Lemma ltb_true (a b : R) : Js.ltb a b = true <-> a < b.
Proof. unfold Js.ltb. destruct (Rlt_dec a b); split; intros; auto; discriminate. Qed.

Lemma ltb_false (a b : R) : Js.ltb a b = false <-> b <= a.
Proof.
  unfold Js.ltb. destruct (Rlt_dec a b); split; intros; auto; try discriminate; lra.
Qed.

Lemma leb_true (a b : R) : Js.leb a b = true <-> a <= b.
Proof. unfold Js.leb. destruct (Rle_dec a b); split; intros; auto; discriminate. Qed.

Lemma leb_false (a b : R) : Js.leb a b = false <-> b < a.
Proof.
  unfold Js.leb. destruct (Rle_dec a b); split; intros; auto; try discriminate; lra.
Qed.

Lemma trunc_nonneg (r : R) (z : Z) : 0 <= r -> IZR z <= r < IZR z + 1 -> Js.trunc r = z.
Proof.
  intros H0 Hz. unfold Js.trunc. destruct (Rle_dec 0 r); [|lra]. now apply Zfloor_eq.
Qed.

Lemma trunc_neg (r : R) (z : Z) : r < 0 -> IZR z - 1 < r <= IZR z -> Js.trunc r = z.
Proof.
  intros H0 Hz. unfold Js.trunc. destruct (Rle_dec 0 r); [lra|]. now apply Zceil_eq.
Qed.

(** For a dividend that is not negative, [x % y] lies in [[0, y)]. *)
Lemma rem_nonneg_range (x y : R) : 0 <= x -> 0 < y -> 0 <= Js.rem x y < y.
Proof.
  intros Hx Hy. unfold Js.rem, Js.trunc.
  assert (Hq : 0 <= x / y) by (apply Rmult_le_pos; [lra | left; now apply Rinv_0_lt_compat]).
  destruct (Rle_dec 0 (x / y)); [|lra].
  pose proof (Zfloor_bound (x / y)) as [Hlo Hhi].
  assert (Hx' : x = y * (x / y)) by (field; lra).
  split.
  - apply (Rmult_le_compat_l y) in Hlo; lra.
  - apply (Rmult_lt_compat_l y) in Hhi; lra.
Qed.

(** For a negative dividend, [x % y] lies in [(-y, 0]]. *)
Lemma rem_neg_range (x y : R) : x < 0 -> 0 < y -> - y < Js.rem x y <= 0.
Proof.
  intros Hx Hy. unfold Js.rem, Js.trunc.
  assert (Hq : x / y < 0).
  { assert (Hi : 0 < / y) by now apply Rinv_0_lt_compat.
    unfold Rdiv. nra. }
  destruct (Rle_dec 0 (x / y)); [lra|].
  pose proof (Zceil_bound (x / y)) as [Hlo Hhi].
  assert (Hx' : x = y * (x / y)) by (field; lra).
  split.
  - apply (Rmult_lt_compat_l y) in Hlo; lra.
  - apply (Rmult_le_compat_l y) in Hhi; lra.
Qed.

Lemma rem_eval (x y : R) (z : Z) :
  0 <= x / y -> IZR z <= x / y < IZR z + 1 -> Js.rem x y = x - y * IZR z.
Proof. intros H0 Hz. unfold Js.rem. now rewrite (trunc_nonneg _ z). Qed.

Lemma rem_eval_neg (x y : R) (z : Z) :
  x / y < 0 -> IZR z - 1 < x / y <= IZR z -> Js.rem x y = x - y * IZR z.
Proof. intros H0 Hz. unfold Js.rem. now rewrite (trunc_neg _ z). Qed.

(** ** Lists *)

Lemma filter_all {A : Type} (f : A -> bool) (l : list A) :
  Forall (fun a => f a = true) l -> filter f l = l.
Proof.
  induction 1 as [|a l Ha _ IH]; [reflexivity|]. cbn. now rewrite Ha, IH.
Qed.

Lemma filter_none {A : Type} (f : A -> bool) (l : list A) :
  Forall (fun a => f a = false) l -> filter f l = [].
Proof.
  induction 1 as [|a l Ha _ IH]; [reflexivity|]. cbn. now rewrite Ha.
Qed.


Lemma last_default {A : Type} (l : list A) (x d d' : A) :
  last (x :: l) d = last (x :: l) d'.
Proof.
  revert x. induction l as [|y l IH]; intros x; [reflexivity|].
  change (last (x :: y :: l) d) with (last (y :: l) d).
  change (last (x :: y :: l) d') with (last (y :: l) d').
  apply IH.
Qed.

(** ** Strings *)

Lemma truthy_nonempty (s : string) : Js.truthy s = true <-> s <> EmptyString.
Proof. destruct s; cbn; split; congruence. Qed.



(** ** Heading differences (pdrMath.ts) *)

Lemma headingDiff_180_0 : PdrMath.headingDiff 180 0 = -180.
Proof.
  unfold PdrMath.headingDiff. rewrite (rem_eval _ _ 2%Z); lra.
Qed.

Lemma headingDiff_0_1000 : PdrMath.headingDiff 0 1000 = -280.
Proof.
  unfold PdrMath.headingDiff. rewrite (rem_eval_neg _ _ (-1)%Z); lra.
Qed.

(** C2, as stated, fails: the difference of the headings 180 and 0 is -180, which
    the interval (-180, 180] excludes, and for operands that are not wrapped the
    result leaves the interval altogether: headingDiff (0, 1000) = -280. *)
Lemma headingDiff_range_counterexample :
  ~ (-180 < PdrMath.headingDiff 180 0 <= 180) /\
  ~ (-180 < PdrMath.headingDiff 0 1000 <= 180).
Proof.
  rewrite headingDiff_180_0, headingDiff_0_1000. split; lra.
Qed.

(** C2, amended: whenever [a - b >= -540], which holds for any two headings
    wrapped to [[0, 360)], headingDiff (a, b) lies in the half-open interval
    [[-180, 180)]; and headingDiff (a, a) = 0 for every [a]. *)
Theorem headingDiff_range (a b : R) :
  -540 <= a - b ->
  (-180 <= PdrMath.headingDiff a b < 180) /\ PdrMath.headingDiff a a = 0.
Proof.
  intros H. split.
  - unfold PdrMath.headingDiff.
    pose proof (rem_nonneg_range (a - b + 540) 360). lra.
  - unfold PdrMath.headingDiff.
    replace (a - a + 540) with 540 by ring.
    rewrite (rem_eval _ _ 1%Z); lra.
Qed.

Lemma headingDiff_range_witness :
  (-180 <= PdrMath.headingDiff 350 10 < 180) /\ PdrMath.headingDiff 350 350 = 0.
Proof. apply (headingDiff_range 350 10). lra. Defined.

(** Without any assumption on the operands the result stays within (-540, 180). *)
Lemma headingDiff_range_any (a b : R) : -540 < PdrMath.headingDiff a b < 180.
Proof.
  unfold PdrMath.headingDiff.
  destruct (Rle_dec 0 (a - b + 540)).
  - pose proof (rem_nonneg_range (a - b + 540) 360). lra.
  - pose proof (rem_neg_range (a - b + 540) 360). lra.
Qed.

(** [wrapHeading] lands in [[0, 360)]. *)
Lemma wrapHeading_range (deg : R) : 0 <= PdrMath.wrapHeading deg < 360.
Proof.
  unfold PdrMath.wrapHeading. cbv zeta.
  destruct (Js.ltb (Js.rem deg 360) 0) eqn:E.
  - apply ltb_true in E.
    destruct (Rle_dec 0 deg).
    + pose proof (rem_nonneg_range deg 360). lra.
    + pose proof (rem_neg_range deg 360). lra.
  - apply ltb_false in E.
    destruct (Rle_dec 0 deg).
    + pose proof (rem_nonneg_range deg 360). lra.
    + pose proof (rem_neg_range deg 360). lra.
Qed.


(** ** The Kalman filter (kalman2d.ts) *)

Lemma measurement_noise_pos (measSigmaMeters : R) :
  1 / 10 ^ 6 <= Rmax (1 / 10 ^ 6) (measSigmaMeters * measSigmaMeters).
Proof. apply Rmax_l. Qed.

Lemma innovationDet_eq (s : Kalman2D.Kalman2DState) (measSigmaMeters : R) :
  Kalman2D.innovationDet s measSigmaMeters =
  (Kalman2D.p00 s + Rmax (1 / 10 ^ 6) (measSigmaMeters * measSigmaMeters)) *
  (Kalman2D.p11 s + Rmax (1 / 10 ^ 6) (measSigmaMeters * measSigmaMeters)) -
  Kalman2D.p01 s * Kalman2D.p01 s.
Proof. reflexivity. Qed.

(** The entries of the updated covariance, over the common denominator. *)
Lemma update_entries
  (s : Kalman2D.Kalman2DState) (z : Kalman2D.Vec2) (measSigmaMeters : R) :
  1 / 10 ^ 12 < Kalman2D.innovationDet s measSigmaMeters ->
  let a := Kalman2D.p00 s in
  let b := Kalman2D.p01 s in
  let c := Kalman2D.p11 s in
  let r := Rmax (1 / 10 ^ 6) (measSigmaMeters * measSigmaMeters) in
  let d := Kalman2D.innovationDet s measSigmaMeters in
  let s' := Kalman2D.updateKalman2D s z measSigmaMeters in
  Kalman2D.p00 s' = a - (a * (a * c - b * b) + r * (a * a + b * b)) / d /\
  Kalman2D.p11 s' = c - (c * (a * c - b * b) + r * (c * c + b * b)) / d /\
  Kalman2D.p01 s' = Kalman2D.updatedP10 s measSigmaMeters.
Proof.
  intros Hd. cbv zeta.
  assert (Hne : Kalman2D.innovationDet s measSigmaMeters <> 0) by lra.
  rewrite innovationDet_eq in Hne.
  unfold Kalman2D.updateKalman2D, Kalman2D.updatedP10.
  apply leb_false in Hd. rewrite Hd.
  unfold Kalman2D.gain. cbv zeta. cbn [Kalman2D.p00 Kalman2D.p01 Kalman2D.p11].
  rewrite innovationDet_eq.
  repeat split; field; exact Hne.
Qed.

(** C6: on a positive semidefinite covariance, [updateKalman2D] with any
    measurement sigma leaves the covariance symmetric (the entry it stores as
    [p01] differs from the lower-left entry of (I - K) P by at most 10^-9, in fact
    by nothing), does not increase the trace [p00 + p11], and leaves the state
    unchanged when it skips the update because det(S) <= 10^-12. *)
Theorem updateKalman2D_symmetric_trace
  (s : Kalman2D.Kalman2DState) (z : Kalman2D.Vec2) (measSigmaMeters : R) :
  0 <= Kalman2D.p00 s ->
  0 <= Kalman2D.p11 s ->
  0 <= Kalman2D.p00 s * Kalman2D.p11 s - Kalman2D.p01 s * Kalman2D.p01 s ->
  let s' := Kalman2D.updateKalman2D s z measSigmaMeters in
  Rabs (Kalman2D.p01 s' - Kalman2D.updatedP10 s measSigmaMeters) <= 1 / 10 ^ 9 /\
  Kalman2D.p00 s' + Kalman2D.p11 s' <= Kalman2D.p00 s + Kalman2D.p11 s /\
  (Kalman2D.innovationDet s measSigmaMeters <= 1 / 10 ^ 12 -> s' = s).
Proof.
  intros H00 H11 Hdet. cbv zeta.
  destruct (Rle_dec (Kalman2D.innovationDet s measSigmaMeters) (1 / 10 ^ 12)) as [Hskip | Hrun].
  - unfold Kalman2D.updateKalman2D, Kalman2D.updatedP10.
    apply leb_true in Hskip. rewrite Hskip.
    replace (Kalman2D.p01 s - Kalman2D.p01 s) with 0 by ring.
    rewrite Rabs_R0. repeat split; lra.
  - assert (Hd : 1 / 10 ^ 12 < Kalman2D.innovationDet s measSigmaMeters) by lra.
    destruct (update_entries s z measSigmaMeters Hd) as (E00 & E11 & E01).
    rewrite E00, E11, E01.
    set (r := Rmax (1 / 10 ^ 6) (measSigmaMeters * measSigmaMeters)) in *.
    assert (Hr : 0 < r) by (pose proof (measurement_noise_pos measSigmaMeters) as Hm; fold r in Hm; lra).
    set (d := Kalman2D.innovationDet s measSigmaMeters) in *.
    assert (Hdpos : 0 < d) by lra.
    assert (Hinv : 0 < / d) by now apply Rinv_0_lt_compat.
    set (a := Kalman2D.p00 s) in *. set (b := Kalman2D.p01 s) in *.
    set (c := Kalman2D.p11 s) in *.
    split; [|split].
    + replace (Kalman2D.updatedP10 s measSigmaMeters - Kalman2D.updatedP10 s measSigmaMeters)
        with 0 by ring.
      rewrite Rabs_R0. lra.
    + assert (N1 : 0 <= a * (a * c - b * b) + r * (a * a + b * b)) by nra.
      assert (N2 : 0 <= c * (a * c - b * b) + r * (c * c + b * b)) by nra.
      unfold Rdiv at 1 2.
      assert (0 <= (a * (a * c - b * b) + r * (a * a + b * b)) * / d) by nra.
      assert (0 <= (c * (a * c - b * b) + r * (c * c + b * b)) * / d) by nra.
      lra.
    + intros Hle. lra.
Qed.

Lemma updateKalman2D_symmetric_trace_witness :
  let s := Kalman2D.mkState 0 0 4 1 2 in
  let s' := Kalman2D.updateKalman2D s (Kalman2D.mkVec2 1 1) 2 in
  Rabs (Kalman2D.p01 s' - Kalman2D.updatedP10 s 2) <= 1 / 10 ^ 9 /\
  Kalman2D.p00 s' + Kalman2D.p11 s' <= Kalman2D.p00 s + Kalman2D.p11 s /\
  (Kalman2D.innovationDet s 2 <= 1 / 10 ^ 12 -> s' = s).
Proof.
  apply (updateKalman2D_symmetric_trace (Kalman2D.mkState 0 0 4 1 2) (Kalman2D.mkVec2 1 1) 2);
    simpl; lra.
Defined.

(** An update is skipped only on a zero covariance with the smallest
    measurement noise: on a positive semidefinite covariance det(S) >= 10^-12. *)
Lemma innovationDet_lower_bound (s : Kalman2D.Kalman2DState) (measSigmaMeters : R) :
  0 <= Kalman2D.p00 s ->
  0 <= Kalman2D.p11 s ->
  0 <= Kalman2D.p00 s * Kalman2D.p11 s - Kalman2D.p01 s * Kalman2D.p01 s ->
  1 / 10 ^ 12 <= Kalman2D.innovationDet s measSigmaMeters.
Proof.
  intros H00 H11 Hdet. rewrite innovationDet_eq.
  pose proof (measurement_noise_pos measSigmaMeters) as Hr.
  set (r := Rmax (1 / 10 ^ 6) (measSigmaMeters * measSigmaMeters)) in *.
  assert (1 / 10 ^ 12 <= r * r) by nra.
  nra.
Qed.

(** *** Isotropy of every reachable covariance *)

Lemma createKalman2D_isotropic (start : Kalman2D.Vec2) (posSigmaMeters : option R) :
  Kalman2D.isotropic (Kalman2D.createKalman2D start posSigmaMeters).
Proof. split; reflexivity. Qed.

Lemma gain_isotropic (s : Kalman2D.Kalman2DState) (measSigmaMeters : R) :
  Kalman2D.isotropic s ->
  exists k, Kalman2D.gain s measSigmaMeters = (k, 0, 0, k).
Proof.
  intros [H01 Heq]. unfold Kalman2D.gain. cbv zeta. rewrite H01, Heq.
  unfold Rdiv.
  match goal with
  | |- exists k, (?a, ?b, ?c, ?d) = _ =>
      exists a; replace b with 0 by ring; replace c with 0 by ring;
      replace d with a by ring
  end.
  reflexivity.
Qed.

Lemma call_isotropic (s : Kalman2D.Kalman2DState) (c : Kalman2D.Call) :
  Kalman2D.isotropic s -> Kalman2D.isotropic (Kalman2D.call s c).
Proof.
  intros Hs. destruct c as [delta sigma | z sigma]; cbn [Kalman2D.call].
  - destruct Hs as [H01 Heq]. split; cbn; [exact H01 | now rewrite Heq].
  - unfold Kalman2D.updateKalman2D.
    destruct (Js.leb _ _); [exact Hs|].
    destruct (gain_isotropic s sigma Hs) as [k Hk]. rewrite Hk.
    destruct Hs as [H01 Heq]. split; cbn; rewrite H01, ?Heq; ring.
Qed.

Lemma run_isotropic (calls : list Kalman2D.Call) (s : Kalman2D.Kalman2DState) :
  Kalman2D.isotropic s -> Kalman2D.isotropic (Kalman2D.run s calls).
Proof.
  revert s. induction calls as [|c calls IH]; intros s Hs; [exact Hs|].
  apply IH. now apply call_isotropic.
Qed.

(** C10: every state reached from [createKalman2D] by predict and update calls
    has [p01 = 0] and [p00 = p11]; in an update from such a state the gain terms
    [k01] and [k10] are zero and [k00 = k11], so the new [x] depends on the
    measured [x] only and the new [y] on the measured [y] only. *)
Theorem kalman_reachable_isotropic
  (start : Kalman2D.Vec2) (posSigmaMeters : option R) (calls : list Kalman2D.Call)
  (measSigmaMeters : R) (z z' : Kalman2D.Vec2) :
  let s := Kalman2D.run (Kalman2D.createKalman2D start posSigmaMeters) calls in
  (Kalman2D.p01 s = 0 /\ Kalman2D.p00 s = Kalman2D.p11 s) /\
  (exists k, Kalman2D.gain s measSigmaMeters = (k, 0, 0, k)) /\
  Kalman2D.x (Kalman2D.updateKalman2D s (Kalman2D.mkVec2 (Kalman2D.vx z) (Kalman2D.vy z')) measSigmaMeters)
  = Kalman2D.x (Kalman2D.updateKalman2D s z measSigmaMeters) /\
  Kalman2D.y (Kalman2D.updateKalman2D s (Kalman2D.mkVec2 (Kalman2D.vx z') (Kalman2D.vy z)) measSigmaMeters)
  = Kalman2D.y (Kalman2D.updateKalman2D s z measSigmaMeters).
Proof.
  cbv zeta.
  pose proof (run_isotropic calls _ (createKalman2D_isotropic start posSigmaMeters)) as Hs.
  set (s := Kalman2D.run _ calls) in *.
  destruct (gain_isotropic s measSigmaMeters Hs) as [k Hk].
  split; [exact Hs|]. split; [now exists k|].
  unfold Kalman2D.updateKalman2D.
  destruct (Js.leb _ _); [split; reflexivity|].
  rewrite Hk. cbn. split; ring.
Qed.


(** ** Projection onto a segment (geometry.ts) *)

Lemma hypot_eval (a b c : R) : 0 <= c -> a * a + b * b = c * c -> Js.hypot a b = c.
Proof. intros Hc H. unfold Js.hypot. rewrite H. now apply sqrt_square. Qed.

Lemma hypot_nonneg (a b : R) : 0 <= Js.hypot a b.
Proof. apply sqrt_pos. Qed.

Lemma clamp_cases (n : R) :
  (n <= 0 /\ Geometry.clamp n 0 1 = 0) \/
  (0 <= n <= 1 /\ Geometry.clamp n 0 1 = n) \/
  (1 <= n /\ Geometry.clamp n 0 1 = 1).
Proof.
  unfold Geometry.clamp, Rmax, Rmin.
  destruct (Rle_dec 1 n); destruct (Rle_dec 0 _); lra.
Qed.

Lemma project_t_range (p a b : Geometry.Point2) :
  0 <= Geometry.t (Geometry.projectPointToSegment p a b) <= 1.
Proof.
  unfold Geometry.projectPointToSegment. cbn.
  destruct (Js.leb _ _); [lra|].
  match goal with |- context [Geometry.clamp ?n 0 1] => destruct (clamp_cases n) as [[? E]|[[? E]|[? E]]] end;
    rewrite E; lra.
Qed.

(** The projection is at least as close to the point as the segment's first
    endpoint. *)
Lemma project_distance_le_from (p a b : Geometry.Point2) :
  Geometry.distance (Geometry.projectPointToSegment p a b) <= Geometry.dist p a.
Proof.
  unfold Geometry.projectPointToSegment, Geometry.dist, Js.hypot.
  cbn [Geometry.distance Geometry.x Geometry.y].
  apply sqrt_le_1_alt.
  destruct a as [ax ay], b as [bx by_], p as [px py].
  cbn [Geometry.distance Geometry.x Geometry.y].
  set (u1 := bx - ax). set (u2 := by_ - ay).
  replace (px - ax) with (px - ax) by reflexivity.
  set (v1 := px - ax). set (v2 := py - ay).
  set (D := u1 * u1 + u2 * u2).
  destruct (Js.leb D (1 / 10 ^ 9)) eqn:E.
  - replace (px - (ax + u1 * 0)) with v1 by (unfold v1; ring).
    replace (py - (ay + u2 * 0)) with v2 by (unfold v2; ring). lra.
  - apply leb_false in E.
    assert (HD : 0 < D) by lra.
    set (s := (v1 * u1 + v2 * u2) / D).
    assert (Hs : s * D = v1 * u1 + v2 * u2) by (unfold s; field; lra).
    destruct (clamp_cases s) as [[H E1]|[[H E1]|[H E1]]]; rewrite E1.
    + replace (px - (ax + u1 * 0)) with v1 by (unfold v1; ring).
      replace (py - (ay + u2 * 0)) with v2 by (unfold v2; ring). lra.
    + replace (px - (ax + u1 * s)) with (v1 - u1 * s) by (unfold v1; ring).
      replace (py - (ay + u2 * s)) with (v2 - u2 * s) by (unfold v2; ring).
      assert (E2 : (v1 - u1 * s) * (v1 - u1 * s) + (v2 - u2 * s) * (v2 - u2 * s)
                   = v1 * v1 + v2 * v2 - 2 * s * (v1 * u1 + v2 * u2) + s * s * D)
        by (unfold D; ring).
      rewrite E2, <- Hs.
      assert (0 <= s * s * D) by (apply Rmult_le_pos; nra).
      lra.
    + replace (px - (ax + u1 * 1)) with (v1 - u1) by (unfold v1; ring).
      replace (py - (ay + u2 * 1)) with (v2 - u2) by (unfold v2; ring).
      assert (E2 : (v1 - u1) * (v1 - u1) + (v2 - u2) * (v2 - u2)
                   = v1 * v1 + v2 * v2 + D - 2 * (v1 * u1 + v2 * u2))
        by (unfold D; ring).
      rewrite E2, <- Hs. nra.
Qed.

(** On a segment longer than the degeneracy threshold the projection is also at
    least as close as the second endpoint. *)
Lemma project_distance_le_to (p a b : Geometry.Point2) :
  1 / 10 ^ 9 < (Geometry.x b - Geometry.x a) * (Geometry.x b - Geometry.x a)
               + (Geometry.y b - Geometry.y a) * (Geometry.y b - Geometry.y a) ->
  Geometry.distance (Geometry.projectPointToSegment p a b) <= Geometry.dist p b.
Proof.
  unfold Geometry.projectPointToSegment, Geometry.dist, Js.hypot.
  cbn [Geometry.distance Geometry.x Geometry.y].
  destruct a as [ax ay], b as [bx by_], p as [px py].
  cbn [Geometry.distance Geometry.x Geometry.y].
  set (u1 := bx - ax). set (u2 := by_ - ay).
  set (v1 := px - ax). set (v2 := py - ay).
  set (D := u1 * u1 + u2 * u2).
  intros HD. apply sqrt_le_1_alt.
  apply leb_false in HD. rewrite HD. apply leb_false in HD.
  assert (HD0 : 0 < D) by lra.
  set (s := (v1 * u1 + v2 * u2) / D).
  assert (Hs : s * D = v1 * u1 + v2 * u2) by (unfold s; field; lra).
  replace (px - bx) with (v1 - u1) by (unfold v1, u1; ring).
  replace (py - by_) with (v2 - u2) by (unfold v2, u2; ring).
  assert (E3 : (v1 - u1) * (v1 - u1) + (v2 - u2) * (v2 - u2)
               = v1 * v1 + v2 * v2 + D - 2 * (v1 * u1 + v2 * u2))
    by (unfold D; ring).
  rewrite E3, <- Hs.
  destruct (clamp_cases s) as [[H E1]|[[H E1]|[H E1]]]; rewrite E1.
  - replace (px - (ax + u1 * 0)) with v1 by (unfold v1; ring).
    replace (py - (ay + u2 * 0)) with v2 by (unfold v2; ring). nra.
  - replace (px - (ax + u1 * s)) with (v1 - u1 * s) by (unfold v1; ring).
    replace (py - (ay + u2 * s)) with (v2 - u2 * s) by (unfold v2; ring).
    assert (E2 : (v1 - u1 * s) * (v1 - u1 * s) + (v2 - u2 * s) * (v2 - u2 * s)
                 = v1 * v1 + v2 * v2 - 2 * s * (v1 * u1 + v2 * u2) + s * s * D)
      by (unfold D; ring).
    rewrite E2, <- Hs.
    assert (0 <= (1 - s) * (1 - s) * D) by (apply Rmult_le_pos; nra).
    nra.
  - replace (px - (ax + u1 * 1)) with (v1 - u1) by (unfold v1; ring).
    replace (py - (ay + u2 * 1)) with (v2 - u2) by (unfold v2; ring).
    rewrite E3, <- Hs. lra.
Qed.

(** The triangle inequality for [dist]. *)
Lemma dist_triangle (p a b : Geometry.Point2) :
  Geometry.dist p a <= Geometry.dist p b + Geometry.dist b a.
Proof.
  unfold Geometry.dist, Js.hypot.
  pose proof (triangle (Geometry.x p) (Geometry.y p) (Geometry.x a) (Geometry.y a)
                       (Geometry.x b) (Geometry.y b)) as T.
  unfold dist_euc, Rsqr in T. exact T.
Qed.

(** On a degenerate segment the projection is the first endpoint, and the
    second endpoint is less than 10^-4 away from it. *)
Lemma project_distance_le_to_degenerate (p a b : Geometry.Point2) :
  Geometry.distance (Geometry.projectPointToSegment p a b)
  <= Geometry.dist p b + 1 / 10 ^ 4.
Proof.
  set (D := (Geometry.x b - Geometry.x a) * (Geometry.x b - Geometry.x a)
            + (Geometry.y b - Geometry.y a) * (Geometry.y b - Geometry.y a)).
  destruct (Rlt_dec (1 / 10 ^ 9) D) as [Hlong | Hshort].
  - pose proof (project_distance_le_to p a b Hlong). lra.
  - pose proof (project_distance_le_from p a b) as Hfrom.
    pose proof (dist_triangle p a b) as Htri.
    assert (Hba : Geometry.dist b a <= 1 / 10 ^ 4).
    { unfold Geometry.dist, Js.hypot. fold D.
      replace (1 / 10 ^ 4) with (sqrt ((1 / 10 ^ 4) * (1 / 10 ^ 4))) by (apply sqrt_square; lra).
      apply sqrt_le_1_alt. lra. }
    lra.
Qed.

(** ** Snap to graph (snapToGraph.ts) *)

Section BestOnEdges.

Variable ns : list StoreMap.Node.t.
Variable point : Geometry.Point2.
Variable prev : option SnapToGraph.EdgeId.
Variable switchPenaltyMeters : R.

(** One iteration, read through [candidateProjection]. *)
Lemma bestOnEdgesStep_unfold
  (best : option SnapToGraph.SnapResult) (bestScore : Js.xreal) (e : StoreMap.Edge.t) :
  SnapToGraph.bestOnEdgesStep ns point prev switchPenaltyMeters (best, bestScore) e =
  match SnapToGraph.candidateProjection ns point e with
  | Some proj =>
      let score := Geometry.distance proj
                   + SnapToGraph.penalty prev switchPenaltyMeters (SnapToGraph.edgeIdOf e) in
      if match best with None => true | Some _ => false end || Js.lt_x score bestScore
      then (Some (SnapToGraph.resultOn proj e), Js.Fin score)
      else (best, bestScore)
  | None => (best, bestScore)
  end.
Proof.
  unfold SnapToGraph.bestOnEdgesStep, SnapToGraph.candidateProjection.
  destruct (StoreMap.nodeById ns (StoreMap.Edge.from e)); [|reflexivity].
  destruct (StoreMap.nodeById ns (StoreMap.Edge.to e)); reflexivity.
Qed.

Lemma bestOnEdgesStep_bestAmong
  (seen : list StoreMap.Edge.t) (acc : SnapToGraph.Best) (e : StoreMap.Edge.t) :
  SnapToGraph.bestAmong ns point prev switchPenaltyMeters seen acc ->
  SnapToGraph.bestAmong ns point prev switchPenaltyMeters (seen ++ [e])
    (SnapToGraph.bestOnEdgesStep ns point prev switchPenaltyMeters acc e).
Proof.
  intros Hacc. destruct acc as [best bestScore].
  rewrite bestOnEdgesStep_unfold.
  destruct (SnapToGraph.candidateProjection ns point e) as [proj|] eqn:Hproj.
  - cbv zeta.
    destruct Hacc as [[Hnone Hall] | (e0 & proj0 & Hin & Hp0 & Hacc & Hmin)].
    + injection Hnone as -> ->. cbn [orb].
      right. exists e, proj. repeat split.
      * apply in_or_app. right. now left.
      * exact Hproj.
      * intros e' proj' Hin' Hp'. apply in_app_or in Hin' as [Hin' | [<- | []]].
        -- rewrite (Hall _ Hin') in Hp'. discriminate.
        -- rewrite Hproj in Hp'. injection Hp' as <-. lra.
    + injection Hacc as -> ->. cbn [orb Js.lt_x].
      destruct (Js.ltb _ _) eqn:Hlt.
      * apply ltb_true in Hlt.
        right. exists e, proj. repeat split.
        -- apply in_or_app. right. now left.
        -- exact Hproj.
        -- intros e' proj' Hin' Hp'. apply in_app_or in Hin' as [Hin' | [<- | []]].
           ++ specialize (Hmin _ _ Hin' Hp'). lra.
           ++ rewrite Hproj in Hp'. injection Hp' as <-. lra.
      * apply ltb_false in Hlt.
        right. exists e0, proj0. repeat split.
        -- apply in_or_app. now left.
        -- exact Hp0.
        -- intros e' proj' Hin' Hp'. apply in_app_or in Hin' as [Hin' | [<- | []]].
           ++ exact (Hmin _ _ Hin' Hp').
           ++ rewrite Hproj in Hp'. injection Hp' as <-. lra.
  - destruct Hacc as [[Hnone Hall] | (e0 & proj0 & Hin & Hp0 & Hacc & Hmin)].
    + left. split; [exact Hnone|].
      intros e' Hin'. apply in_app_or in Hin' as [Hin' | [<- | []]]; auto.
    + right. exists e0, proj0. repeat split; auto.
      * apply in_or_app. now left.
      * intros e' proj' Hin' Hp'. apply in_app_or in Hin' as [Hin' | [<- | []]].
        -- exact (Hmin _ _ Hin' Hp').
        -- rewrite Hproj in Hp'. discriminate.
Qed.

Lemma bestOnEdges_fold_bestAmong
  (l seen : list StoreMap.Edge.t) (acc : SnapToGraph.Best) :
  SnapToGraph.bestAmong ns point prev switchPenaltyMeters seen acc ->
  SnapToGraph.bestAmong ns point prev switchPenaltyMeters (seen ++ l)
    (fold_left (SnapToGraph.bestOnEdgesStep ns point prev switchPenaltyMeters) l acc).
Proof.
  revert seen acc. induction l as [|e l IH]; intros seen acc Hacc.
  - now rewrite app_nil_r.
  - cbn [fold_left].
    replace (seen ++ e :: l) with ((seen ++ [e]) ++ l) by now rewrite <- app_assoc.
    apply IH. now apply bestOnEdgesStep_bestAmong.
Qed.

(** [bestOnEdges] returns nothing exactly when no candidate has both endpoints
    in the map, and otherwise the result on a candidate of least score. *)
Lemma bestOnEdges_spec (candidateEdges : list StoreMap.Edge.t) :
  (SnapToGraph.bestOnEdges ns point prev switchPenaltyMeters candidateEdges = None /\
   forall e, In e candidateEdges -> SnapToGraph.candidateProjection ns point e = None)
  \/
  (exists e0 proj0,
     In e0 candidateEdges /\
     SnapToGraph.candidateProjection ns point e0 = Some proj0 /\
     SnapToGraph.bestOnEdges ns point prev switchPenaltyMeters candidateEdges
     = Some (SnapToGraph.resultOn proj0 e0) /\
     forall e proj, In e candidateEdges ->
       SnapToGraph.candidateProjection ns point e = Some proj ->
       Geometry.distance proj0
       + SnapToGraph.penalty prev switchPenaltyMeters (SnapToGraph.edgeIdOf e0)
       <= Geometry.distance proj
          + SnapToGraph.penalty prev switchPenaltyMeters (SnapToGraph.edgeIdOf e)).
Proof.
  unfold SnapToGraph.bestOnEdges.
  assert (H0 : SnapToGraph.bestAmong ns point prev switchPenaltyMeters [] (None, Js.PInf)).
  { left. split; [reflexivity | intros e []]. }
  pose proof (bestOnEdges_fold_bestAmong candidateEdges [] _ H0) as H.
  cbn [app] in H.
  destruct H as [[E Hall] | (e0 & proj0 & Hin & Hp0 & E & Hmin)]; rewrite E; cbn [fst].
  - left. now split.
  - right. exists e0, proj0. now repeat split.
Qed.

End BestOnEdges.

(** Without a previous edge every candidate pays the same penalty. *)
Lemma penalty_no_prev (switchPenaltyMeters : R) (edgeId : SnapToGraph.EdgeId) :
  SnapToGraph.penalty None switchPenaltyMeters edgeId = switchPenaltyMeters.
Proof. reflexivity. Qed.

(** The distance of the result is that of the best candidate, with or without
    the unsnap of a soft clamp. *)
Lemma snapToGraph_no_prev_distance
  (map : StoreMap.StoreMap) (point : Geometry.Point2) (opts : option SnapToGraph.Opts) :
  SnapToGraph.prevOf opts = None ->
  SnapToGraph.distance (SnapToGraph.snapToGraph map point opts) =
  match SnapToGraph.bestOnEdges (StoreMap.nodes map) point None
          (SnapToGraph.switchPenaltyMetersOf opts) (SnapToGraph.usableEdges map) with
  | Some b => SnapToGraph.distance b
  | None => Js.PInf
  end.
Proof.
  intros Hprev. unfold SnapToGraph.snapToGraph. cbv zeta. rewrite Hprev.
  assert (E : forall (h : bool) (X Y : option SnapToGraph.SnapResult),
             match h, @None SnapToGraph.EdgeId with
             | true, Some _ => X
             | _, _ => Y
             end = Y) by (intros [|]; reflexivity).
  destruct (SnapToGraph.hardClampOf opts);
    destruct (SnapToGraph.bestOnEdges _ _ _ _ _) as [b|]; cbn [negb andb]; try reflexivity.
  destruct (Js.xlt _ _); reflexivity.
Qed.


(** *** Evaluating the snap on concrete inputs *)

Lemma isUsableEdge_bidirectional (e : StoreMap.Edge.t) :
  StoreMap.Edge.bidirectional e <> Some false -> SnapToGraph.isUsableEdge e = true.
Proof.
  intros H. unfold SnapToGraph.isUsableEdge.
  destruct (StoreMap.Edge.bidirectional e) as [[|]|]; try (now rewrite orb_true_r).
  now elim H.
Qed.

(** The projection when the foot of the perpendicular falls on the segment. *)
Lemma project_eval (p a b : Geometry.Point2) (tt d : R) :
  let abx := Geometry.x b - Geometry.x a in
  let aby := Geometry.y b - Geometry.y a in
  let apx := Geometry.x p - Geometry.x a in
  let apy := Geometry.y p - Geometry.y a in
  1 / 10 ^ 9 < abx * abx + aby * aby ->
  0 <= tt <= 1 ->
  tt * (abx * abx + aby * aby) = apx * abx + apy * aby ->
  0 <= d ->
  (apx - abx * tt) * (apx - abx * tt) + (apy - aby * tt) * (apy - aby * tt) = d * d ->
  Geometry.projectPointToSegment p a b =
  Geometry.mkProjection tt
    (Geometry.mkPoint2 (Geometry.x a + abx * tt) (Geometry.y a + aby * tt)) d.
Proof.
  intros abx aby apx apy HD Htt Hs Hd Hdist.
  unfold Geometry.projectPointToSegment. cbv zeta.
  fold abx aby apx apy.
  apply leb_false in HD. rewrite HD. apply leb_false in HD.
  assert (E : Geometry.clamp ((apx * abx + apy * aby) / (abx * abx + aby * aby)) 0 1 = tt).
  { replace ((apx * abx + apy * aby) / (abx * abx + aby * aby)) with tt
      by (rewrite <- Hs; field; lra).
    destruct (clamp_cases tt) as [[? E]|[[? E]|[? E]]]; rewrite E; lra. }
  rewrite E. f_equal.
  cbn [Geometry.x Geometry.y].
  apply hypot_eval; [exact Hd|].
  rewrite <- Hdist. unfold apx, apy. ring.
Qed.

Section StepEval.

Variable ns : list StoreMap.Node.t.
Variable point : Geometry.Point2.
Variable prev : option SnapToGraph.EdgeId.
Variable switchPenaltyMeters : R.

Lemma bestOnEdgesStep_first (bestScore : Js.xreal) (e : StoreMap.Edge.t)
  (proj : Geometry.Projection) :
  SnapToGraph.candidateProjection ns point e = Some proj ->
  SnapToGraph.bestOnEdgesStep ns point prev switchPenaltyMeters (None, bestScore) e =
  (Some (SnapToGraph.resultOn proj e),
   Js.Fin (Geometry.distance proj
           + SnapToGraph.penalty prev switchPenaltyMeters (SnapToGraph.edgeIdOf e))).
Proof. intros H. rewrite bestOnEdgesStep_unfold, H. reflexivity. Qed.

Lemma bestOnEdgesStep_take (best : option SnapToGraph.SnapResult) (bestScore : R)
  (e : StoreMap.Edge.t) (proj : Geometry.Projection) :
  SnapToGraph.candidateProjection ns point e = Some proj ->
  Geometry.distance proj
  + SnapToGraph.penalty prev switchPenaltyMeters (SnapToGraph.edgeIdOf e) < bestScore ->
  SnapToGraph.bestOnEdgesStep ns point prev switchPenaltyMeters (best, Js.Fin bestScore) e =
  (Some (SnapToGraph.resultOn proj e),
   Js.Fin (Geometry.distance proj
           + SnapToGraph.penalty prev switchPenaltyMeters (SnapToGraph.edgeIdOf e))).
Proof.
  intros H Hlt. rewrite bestOnEdgesStep_unfold, H. cbv zeta. cbn [Js.lt_x].
  apply ltb_true in Hlt. rewrite Hlt. now rewrite orb_true_r.
Qed.

Lemma bestOnEdgesStep_keep (r : SnapToGraph.SnapResult) (bestScore : R)
  (e : StoreMap.Edge.t) (proj : Geometry.Projection) :
  SnapToGraph.candidateProjection ns point e = Some proj ->
  bestScore <= Geometry.distance proj
               + SnapToGraph.penalty prev switchPenaltyMeters (SnapToGraph.edgeIdOf e) ->
  SnapToGraph.bestOnEdgesStep ns point prev switchPenaltyMeters (Some r, Js.Fin bestScore) e =
  (Some r, Js.Fin bestScore).
Proof.
  intros H Hle. rewrite bestOnEdgesStep_unfold, H. cbv zeta. cbn [Js.lt_x orb].
  apply ltb_false in Hle. now rewrite Hle.
Qed.

End StepEval.

Lemma corridors_usableEdges :
  SnapToGraph.usableEdges Scenarios.corridorsMap
  = [Scenarios.corridorE1; Scenarios.corridorE2].
Proof.
  unfold SnapToGraph.usableEdges. cbn [Scenarios.corridorsMap StoreMap.edges Js.orElse].
  apply filter_all. repeat constructor; apply isUsableEdge_bidirectional; discriminate.
Qed.

(** The projections of the query point (0, 0.25) onto the two corridors. *)
Lemma corridorE1_projection_near :
  SnapToGraph.candidateProjection (StoreMap.nodes Scenarios.corridorsMap)
    (Geometry.mkPoint2 0 (1 / 4)) Scenarios.corridorE1
  = Some (Geometry.mkProjection 0 (Geometry.mkPoint2 (0 + (10 - 0) * 0) (0 + (0 - 0) * 0)) (1 / 4)).
Proof.
  unfold SnapToGraph.candidateProjection. cbn [StoreMap.nodeById Scenarios.corridorsMap StoreMap.nodes].
  cbn. f_equal. apply project_eval; cbn; lra.
Qed.

Lemma corridorE2_projection_near :
  SnapToGraph.candidateProjection (StoreMap.nodes Scenarios.corridorsMap)
    (Geometry.mkPoint2 0 (1 / 4)) Scenarios.corridorE2
  = Some (Geometry.mkProjection 0
            (Geometry.mkPoint2 (0 + (10 - 0) * 0) (4 / 10 + (4 / 10 - 4 / 10) * 0)) (3 / 20)).
Proof.
  unfold SnapToGraph.candidateProjection. cbn. f_equal. apply project_eval; cbn; lra.
Qed.

(** The projections of the query point (5, 4) of scenario S5. *)
Lemma corridorE1_projection_far :
  SnapToGraph.candidateProjection (StoreMap.nodes Scenarios.corridorsMap)
    (Geometry.mkPoint2 5 4) Scenarios.corridorE1
  = Some (Geometry.mkProjection (1 / 2)
            (Geometry.mkPoint2 (0 + (10 - 0) * (1 / 2)) (0 + (0 - 0) * (1 / 2))) 4).
Proof.
  unfold SnapToGraph.candidateProjection. cbn. f_equal. apply project_eval; cbn; lra.
Qed.

Lemma corridorE2_projection_far :
  SnapToGraph.candidateProjection (StoreMap.nodes Scenarios.corridorsMap)
    (Geometry.mkPoint2 5 4) Scenarios.corridorE2
  = Some (Geometry.mkProjection (1 / 2)
            (Geometry.mkPoint2 (0 + (10 - 0) * (1 / 2)) (4 / 10 + (4 / 10 - 4 / 10) * (1 / 2)))
            (36 / 10)).
Proof.
  unfold SnapToGraph.candidateProjection. cbn. f_equal. apply project_eval; cbn; lra.
Qed.

(** With E1 as the previous edge the snap of (0, 0.25) stays on E1. *)
Lemma corridors_sticky_snap :
  SnapToGraph.snapToGraph Scenarios.corridorsMap (Geometry.mkPoint2 0 (1 / 4))
    Scenarios.stickyOpts
  = SnapToGraph.mkSnapResult
      (Geometry.mkPoint2 (0 + (10 - 0) * 0) (0 + (0 - 0) * 0)) (Js.Fin (1 / 4))
      (Some (SnapToGraph.mkEdgeId "a0" "a1")) 0.
Proof.
  unfold SnapToGraph.snapToGraph. cbv zeta.
  rewrite corridors_usableEdges.
  change (SnapToGraph.hardClampOf Scenarios.stickyOpts) with false.
  change (SnapToGraph.prevOf Scenarios.stickyOpts)
    with (Some (SnapToGraph.mkEdgeId "a0" "a1")).
  change (SnapToGraph.switchPenaltyMetersOf Scenarios.stickyOpts) with (35 / 100).
  change (SnapToGraph.maxSnapMetersOf Scenarios.stickyOpts) with (175 / 100).
  unfold SnapToGraph.bestOnEdges. cbn [fold_left].
  rewrite (bestOnEdgesStep_first _ _ _ _ _ _ _ corridorE1_projection_near).
  rewrite (bestOnEdgesStep_keep _ _ _ _ _ _ _ _ corridorE2_projection_near)
    by (cbn; lra).
  cbn [fst negb andb SnapToGraph.resultOn SnapToGraph.distance Geometry.distance
       Geometry.point Geometry.t Js.xlt Js.lt_x].
  assert (E : Js.ltb (175 / 100) (1 / 4) = false) by (apply ltb_false; lra).
  rewrite E. reflexivity.
Qed.

(** C1, as stated, fails. Two parallel corridors E1 = (0,0)-(10,0) and
    E2 = (0,0.4)-(10,0.4), previous edge E1, query point (0, 0.25): the snap
    stays on E1 at distance 0.25, although the endpoint (0, 0.4) of the edge E2
    of the map is only 0.15 away. *)
Lemma snapToGraph_endpoint_bound_counterexample :
  exists d,
    SnapToGraph.distance
      (SnapToGraph.snapToGraph Scenarios.corridorsMap (Geometry.mkPoint2 0 (1 / 4))
         Scenarios.stickyOpts) = Js.Fin d /\
    In Scenarios.corridorE2 (Js.orElse (StoreMap.edges Scenarios.corridorsMap) []) /\
    StoreMap.nodeById (StoreMap.nodes Scenarios.corridorsMap)
      (StoreMap.Edge.from Scenarios.corridorE2) = Some (Scenarios.walkwayNode "b0" 0 (4 / 10)) /\
    ~ d <= Geometry.dist (Geometry.mkPoint2 0 (1 / 4))
             (StoreMap.nodePoint (Scenarios.walkwayNode "b0" 0 (4 / 10))) + 1 / 10 ^ 6.
Proof.
  exists (1 / 4). rewrite corridors_sticky_snap. repeat split.
  - cbn. auto.
  - unfold Geometry.dist. cbn [StoreMap.nodePoint Scenarios.walkwayNode StoreMap.Node.x
      StoreMap.Node.y Geometry.x Geometry.y].
    rewrite (hypot_eval _ _ (3 / 20)); lra.
Qed.

(** C1, amended: when no previous edge is given (whatever maxSnapMeters,
    switchPenaltyMeters and hardClamp are), the distance of the result is finite
    and, for every usable edge of the map whose two endpoints are nodes of the
    map, it is at most the distance from the query point to the edge's [from]
    endpoint, at most the distance to its [to] endpoint when the edge's squared
    length exceeds 10^-9, and at most that distance plus 10^-4 for a shorter
    edge. *)
Theorem snapToGraph_distance_le_endpoint
  (map : StoreMap.StoreMap) (point : Geometry.Point2) (opts : option SnapToGraph.Opts)
  (e : StoreMap.Edge.t) (a b : StoreMap.Node.t) :
  SnapToGraph.prevOf opts = None ->
  In e (SnapToGraph.usableEdges map) ->
  StoreMap.nodeById (StoreMap.nodes map) (StoreMap.Edge.from e) = Some a ->
  StoreMap.nodeById (StoreMap.nodes map) (StoreMap.Edge.to e) = Some b ->
  exists d,
    SnapToGraph.distance (SnapToGraph.snapToGraph map point opts) = Js.Fin d /\
    d <= Geometry.dist point (StoreMap.nodePoint a) /\
    (1 / 10 ^ 9 < (StoreMap.Node.x b - StoreMap.Node.x a) * (StoreMap.Node.x b - StoreMap.Node.x a)
                  + (StoreMap.Node.y b - StoreMap.Node.y a) * (StoreMap.Node.y b - StoreMap.Node.y a) ->
     d <= Geometry.dist point (StoreMap.nodePoint b)) /\
    d <= Geometry.dist point (StoreMap.nodePoint b) + 1 / 10 ^ 4.
Proof.
  intros Hprev Hin Ha Hb.
  rewrite (snapToGraph_no_prev_distance map point opts Hprev).
  assert (Hproj : SnapToGraph.candidateProjection (StoreMap.nodes map) point e
                  = Some (Geometry.projectPointToSegment point (StoreMap.nodePoint a)
                            (StoreMap.nodePoint b))).
  { unfold SnapToGraph.candidateProjection. now rewrite Ha, Hb. }
  destruct (bestOnEdges_spec (StoreMap.nodes map) point None
              (SnapToGraph.switchPenaltyMetersOf opts) (SnapToGraph.usableEdges map))
    as [[_ Hall] | (e0 & proj0 & _ & _ & E & Hmin)].
  - rewrite (Hall e Hin) in Hproj. discriminate.
  - rewrite E. exists (Geometry.distance proj0).
    specialize (Hmin e _ Hin Hproj). rewrite !penalty_no_prev in Hmin.
    pose proof (project_distance_le_from point (StoreMap.nodePoint a) (StoreMap.nodePoint b)).
    pose proof (project_distance_le_to point (StoreMap.nodePoint a) (StoreMap.nodePoint b)) as Hto.
    pose proof (project_distance_le_to_degenerate point (StoreMap.nodePoint a) (StoreMap.nodePoint b)).
    cbn [StoreMap.nodePoint Geometry.x Geometry.y] in Hto.
    split; [reflexivity|]. split; [lra|]. split; [|lra].
    intros Hlong. specialize (Hto Hlong). lra.
Qed.

Lemma snapToGraph_distance_le_endpoint_witness :
  exists d,
    SnapToGraph.distance
      (SnapToGraph.snapToGraph Scenarios.corridorsMap (Geometry.mkPoint2 0 (1 / 4)) None)
    = Js.Fin d /\
    d <= Geometry.dist (Geometry.mkPoint2 0 (1 / 4))
           (StoreMap.nodePoint (Scenarios.walkwayNode "b0" 0 (4 / 10))).
Proof.
  destruct (snapToGraph_distance_le_endpoint Scenarios.corridorsMap
              (Geometry.mkPoint2 0 (1 / 4)) None Scenarios.corridorE2
              (Scenarios.walkwayNode "b0" 0 (4 / 10))
              (Scenarios.walkwayNode "b1" 10 (4 / 10)))
    as (d & Hd & Hfrom & _).
  - reflexivity.
  - rewrite corridors_usableEdges. right. left. reflexivity.
  - reflexivity.
  - reflexivity.
  - exists d. split; [exact Hd | exact Hfrom].
Defined.

(** *** The hard clamp *)

Lemma connectedEdges_incident (p : SnapToGraph.EdgeId) (es : list StoreMap.Edge.t)
  (e : StoreMap.Edge.t) :
  In e (SnapToGraph.connectedEdges p es) ->
  In e es /\ SnapToGraph.isConnectedToPrev (Some p) (SnapToGraph.edgeIdOf e) = true.
Proof.
  unfold SnapToGraph.connectedEdges. intros H. apply filter_In in H as [Hin Hc].
  split; [exact Hin|].
  unfold SnapToGraph.isConnectedToPrev, SnapToGraph.edgeIdOf.
  cbn [SnapToGraph.from SnapToGraph.to].
  rewrite (String.eqb_sym (SnapToGraph.from p) (StoreMap.Edge.from e)).
  rewrite (String.eqb_sym (SnapToGraph.from p) (StoreMap.Edge.to e)).
  rewrite (String.eqb_sym (SnapToGraph.to p) (StoreMap.Edge.from e)).
  rewrite (String.eqb_sym (SnapToGraph.to p) (StoreMap.Edge.to e)).
  destruct (String.eqb (StoreMap.Edge.from e) (SnapToGraph.from p)),
           (String.eqb (StoreMap.Edge.from e) (SnapToGraph.to p)),
           (String.eqb (StoreMap.Edge.to e) (SnapToGraph.from p)),
           (String.eqb (StoreMap.Edge.to e) (SnapToGraph.to p)); cbn in *; congruence.
Qed.

Lemma incident_connectedEdges (p : SnapToGraph.EdgeId) (es : list StoreMap.Edge.t)
  (e : StoreMap.Edge.t) :
  In e es -> SnapToGraph.isConnectedToPrev (Some p) (SnapToGraph.edgeIdOf e) = true ->
  In e (SnapToGraph.connectedEdges p es).
Proof.
  intros Hin Hc. unfold SnapToGraph.connectedEdges. apply filter_In. split; [exact Hin|].
  unfold SnapToGraph.isConnectedToPrev, SnapToGraph.edgeIdOf in Hc.
  cbn [SnapToGraph.from SnapToGraph.to] in Hc.
  rewrite (String.eqb_sym (SnapToGraph.from p) (StoreMap.Edge.from e)) in Hc.
  rewrite (String.eqb_sym (SnapToGraph.from p) (StoreMap.Edge.to e)) in Hc.
  rewrite (String.eqb_sym (SnapToGraph.to p) (StoreMap.Edge.from e)) in Hc.
  rewrite (String.eqb_sym (SnapToGraph.to p) (StoreMap.Edge.to e)) in Hc.
  destruct (String.eqb (StoreMap.Edge.from e) (SnapToGraph.from p)),
           (String.eqb (StoreMap.Edge.from e) (SnapToGraph.to p)),
           (String.eqb (StoreMap.Edge.to e) (SnapToGraph.from p)),
           (String.eqb (StoreMap.Edge.to e) (SnapToGraph.to p)); cbn in *; congruence.
Qed.

(** The hard clamp with a previous edge, for the options
    [{ maxSnapMeters, previousEdge: p, switchPenaltyMeters, hardClamp: true }]
    with [maxSnapMeters] and [switchPenaltyMeters] given or left out. *)
Lemma hardClamp_cases
  (map : StoreMap.StoreMap) (point : Geometry.Point2)
  (maxSnap : option R) (p : SnapToGraph.EdgeId) (switchPenalty : option R) :
  let opts := Some (SnapToGraph.mkOpts maxSnap (Some p) switchPenalty (Some true)) in
  let maxSnapMeters := match maxSnap with Some m => m | None => 175 / 100 end in
  let bestOn :=
    SnapToGraph.bestOnEdges (StoreMap.nodes map) point (Some p)
      (match switchPenalty with Some s => s | None => 35 / 100 end) in
  let connected := SnapToGraph.connectedEdges p (SnapToGraph.usableEdges map) in
  match bestOn connected, bestOn (SnapToGraph.usableEdges map) with
  | Some bc, Some bg =>
      exists dc dg eid,
        SnapToGraph.distance bc = Js.Fin dc /\ SnapToGraph.distance bg = Js.Fin dg /\
        SnapToGraph.edge bc = Some eid /\
        SnapToGraph.isConnectedToPrev (Some p) eid = true /\
        (maxSnapMeters * (225 / 100) < dc /\ dg + 2 / 10 < dc ->
         SnapToGraph.snapToGraph map point opts = bg) /\
        (~ (maxSnapMeters * (225 / 100) < dc /\ dg + 2 / 10 < dc) ->
         SnapToGraph.snapToGraph map point opts = bc)
  | Some bc, None => False
  | None, Some bg =>
      (forall e, In e connected ->
                 SnapToGraph.candidateProjection (StoreMap.nodes map) point e = None) /\
      SnapToGraph.snapToGraph map point opts = bg
  | None, None =>
      SnapToGraph.snapToGraph map point opts
      = SnapToGraph.mkSnapResult point Js.PInf None 0
  end.
Proof.
  cbv zeta.
  set (opts := Some (SnapToGraph.mkOpts maxSnap (Some p) switchPenalty (Some true))).
  set (m := match maxSnap with Some m => m | None => 175 / 100 end).
  set (sp := match switchPenalty with Some s => s | None => 35 / 100 end).
  set (ns := StoreMap.nodes map). set (es := SnapToGraph.usableEdges map).
  assert (Hsnap :
    SnapToGraph.snapToGraph map point opts
    = match
        match SnapToGraph.bestOnEdges ns point (Some p) sp (SnapToGraph.connectedEdges p es),
              SnapToGraph.bestOnEdges ns point (Some p) sp es with
        | Some bc, Some bg => if SnapToGraph.relocalize m bc bg then Some bg else Some bc
        | _, _ =>
            match SnapToGraph.bestOnEdges ns point (Some p) sp (SnapToGraph.connectedEdges p es)
            with
            | Some bc => Some bc
            | None => SnapToGraph.bestOnEdges ns point (Some p) sp es
            end
        end
      with
      | None => SnapToGraph.mkSnapResult point Js.PInf None 0
      | Some b => b
      end).
  { unfold SnapToGraph.snapToGraph. cbv zeta.
    change (SnapToGraph.hardClampOf opts) with true.
    change (SnapToGraph.prevOf opts) with (Some p).
    change (SnapToGraph.switchPenaltyMetersOf opts) with sp.
    change (SnapToGraph.maxSnapMetersOf opts) with m.
    fold ns es. cbn [negb andb]. reflexivity. }
  rewrite Hsnap. clear Hsnap.
  destruct (bestOnEdges_spec ns point (Some p) sp (SnapToGraph.connectedEdges p es))
    as [[Ec Hnone] | (e0 & proj0 & Hin0 & Hp0 & Ec & _)]; rewrite Ec.
  - destruct (SnapToGraph.bestOnEdges ns point (Some p) sp es) as [bg|]; [|reflexivity].
    split; [exact Hnone | reflexivity].
  - apply connectedEdges_incident in Hin0 as [Hin0 Hinc].
    destruct (bestOnEdges_spec ns point (Some p) sp es)
      as [[_ Hall] | (e1 & proj1 & _ & _ & Eg & _)].
    { rewrite (Hall e0 Hin0) in Hp0. discriminate. }
    rewrite Eg.
    exists (Geometry.distance proj0), (Geometry.distance proj1), (SnapToGraph.edgeIdOf e0).
    split; [reflexivity|]. split; [reflexivity|]. split; [reflexivity|].
    split; [exact Hinc|].
    unfold SnapToGraph.relocalize, SnapToGraph.resultOn.
    cbn [SnapToGraph.distance Js.xlt Js.lt_x Js.xadd].
    split.
    + intros [H1 H2]. apply ltb_true in H1. apply ltb_true in H2. now rewrite H1, H2.
    + intros Hnot.
      destruct (Js.ltb (m * (225 / 100)) (Geometry.distance proj0)) eqn:E1; [|reflexivity].
      destruct (Js.ltb (Geometry.distance proj1 + 2 / 10) (Geometry.distance proj0)) eqn:E2;
        [|reflexivity].
      exfalso. apply Hnot. split; now apply ltb_true.
Qed.

(** Scenario S5 on the code: the connected best is E1 at distance 4.0, the global
    best is E2 at distance 3.6. *)
Lemma corridors_bestConnected_far :
  SnapToGraph.bestOnEdges (StoreMap.nodes Scenarios.corridorsMap) (Geometry.mkPoint2 5 4)
    (Some (SnapToGraph.mkEdgeId "a0" "a1")) (35 / 100)
    (SnapToGraph.connectedEdges (SnapToGraph.mkEdgeId "a0" "a1")
       (SnapToGraph.usableEdges Scenarios.corridorsMap))
  = Some (SnapToGraph.mkSnapResult
            (Geometry.mkPoint2 (0 + (10 - 0) * (1 / 2)) (0 + (0 - 0) * (1 / 2)))
            (Js.Fin 4) (Some (SnapToGraph.mkEdgeId "a0" "a1")) (1 / 2)).
Proof.
  rewrite corridors_usableEdges.
  change (SnapToGraph.connectedEdges _ _) with [Scenarios.corridorE1].
  unfold SnapToGraph.bestOnEdges. cbn [fold_left].
  rewrite (bestOnEdgesStep_first _ _ _ _ _ _ _ corridorE1_projection_far).
  reflexivity.
Qed.

Lemma corridors_bestGlobal_far (prev : SnapToGraph.EdgeId) :
  SnapToGraph.penalty (Some prev) (35 / 100) (SnapToGraph.edgeIdOf Scenarios.corridorE2)
  < 4 / 10 + SnapToGraph.penalty (Some prev) (35 / 100)
               (SnapToGraph.edgeIdOf Scenarios.corridorE1) ->
  SnapToGraph.bestOnEdges (StoreMap.nodes Scenarios.corridorsMap) (Geometry.mkPoint2 5 4)
    (Some prev) (35 / 100) (SnapToGraph.usableEdges Scenarios.corridorsMap)
  = Some (SnapToGraph.mkSnapResult
            (Geometry.mkPoint2 (0 + (10 - 0) * (1 / 2)) (4 / 10 + (4 / 10 - 4 / 10) * (1 / 2)))
            (Js.Fin (36 / 10)) (Some (SnapToGraph.mkEdgeId "b0" "b1")) (1 / 2)).
Proof.
  intros Hpen. rewrite corridors_usableEdges.
  unfold SnapToGraph.bestOnEdges. cbn [fold_left].
  rewrite (bestOnEdgesStep_first _ _ _ _ _ _ _ corridorE1_projection_far).
  rewrite (bestOnEdgesStep_take _ _ _ _ _ _ _ _ corridorE2_projection_far).
  - reflexivity.
  - cbn [Geometry.distance]. lra.
Qed.

(** Scenario S5: hard clamp, maxSnapMeters = 0.5, previous edge E1, query point
    (5, 4): the snap leaves E1 for E2, 3.6 m away. *)
Lemma corridors_hardClamp_snap :
  SnapToGraph.snapToGraph Scenarios.corridorsMap (Geometry.mkPoint2 5 4)
    Scenarios.hardClampOpts
  = SnapToGraph.mkSnapResult
      (Geometry.mkPoint2 (0 + (10 - 0) * (1 / 2)) (4 / 10 + (4 / 10 - 4 / 10) * (1 / 2)))
      (Js.Fin (36 / 10)) (Some (SnapToGraph.mkEdgeId "b0" "b1")) (1 / 2).
Proof.
  pose proof (hardClamp_cases Scenarios.corridorsMap (Geometry.mkPoint2 5 4)
                (Some (1 / 2)) (SnapToGraph.mkEdgeId "a0" "a1") None) as H.
  cbv beta iota zeta in H.
  rewrite corridors_bestConnected_far in H.
  rewrite corridors_bestGlobal_far in H by (cbn; lra).
  destruct H as (dc & dg & eid & Edc & Edg & _ & _ & Hyes & _).
  cbn [SnapToGraph.distance] in Edc, Edg. injection Edc as <-. injection Edg as <-.
  apply Hyes. lra.
Qed.

(** C7 as stated fails where the previous edge touches no usable edge: on the
    corridors of S4, with hardClamp on and a previous edge between two nodes
    [x] and [y] that the corridors do not have, the snap of (5, 4) is on E2,
    an edge that is not incident to the previous one. *)
Lemma snapToGraph_hardClamp_unrestricted_counterexample :
  let prev := SnapToGraph.mkEdgeId "x" "y" in
  let opts := Some (SnapToGraph.mkOpts (Some (1 / 2)) (Some prev) None (Some true)) in
  SnapToGraph.hardClampOf opts = true /\
  SnapToGraph.prevOf opts = Some prev /\
  SnapToGraph.edge (SnapToGraph.snapToGraph Scenarios.corridorsMap (Geometry.mkPoint2 5 4) opts)
  = Some (SnapToGraph.mkEdgeId "b0" "b1") /\
  SnapToGraph.isConnectedToPrev (Some prev) (SnapToGraph.mkEdgeId "b0" "b1") = false.
Proof.
  cbv zeta. split; [reflexivity|]. split; [reflexivity|]. split; [|reflexivity].
  pose proof (hardClamp_cases Scenarios.corridorsMap (Geometry.mkPoint2 5 4)
                (Some (1 / 2)) (SnapToGraph.mkEdgeId "x" "y") None) as H.
  cbv beta iota zeta in H.
  rewrite corridors_bestGlobal_far in H by (cbn; lra).
  rewrite corridors_usableEdges in H.
  change (SnapToGraph.connectedEdges _ _) with (@nil StoreMap.Edge.t) in H.
  change (SnapToGraph.bestOnEdges _ _ _ _ []) with (@None SnapToGraph.SnapResult) in H.
  destruct H as [_ H]. rewrite H. reflexivity.
Qed.

(** C7 (amended): with hardClamp on and a previous edge set, the connected
    candidates are the usable edges that share an endpoint with the previous
    edge. When one of them can be projected on, [snapToGraph] returns the
    global best exactly when bestConnected.distance > 2.25 * maxSnapMeters,
    for the maxSnapMeters of the options or 1.75 when the options give none,
    and bestGlobal.distance + 0.2 < bestConnected.distance, and the connected
    best otherwise. When none can, it returns the global best over all usable
    edges, or the point itself when there is none either. In scenario S5
    (maxSnapMeters = 0.5, previous edge E1, query point (5, 4), connected best
    at distance 4.0, global best at distance 3.6) the result is the global
    best, on E2. *)
Theorem snapToGraph_hardClamp_relocalize
  (map : StoreMap.StoreMap) (point : Geometry.Point2)
  (maxSnap : option R) (p : SnapToGraph.EdgeId) (switchPenalty : option R) :
  let opts := Some (SnapToGraph.mkOpts maxSnap (Some p) switchPenalty (Some true)) in
  let maxSnapMeters := match maxSnap with Some m => m | None => 175 / 100 end in
  let bestOn :=
    SnapToGraph.bestOnEdges (StoreMap.nodes map) point (Some p)
      (match switchPenalty with Some s => s | None => 35 / 100 end) in
  let connected := SnapToGraph.connectedEdges p (SnapToGraph.usableEdges map) in
  (forall e, In e connected <->
             In e (SnapToGraph.usableEdges map) /\
             SnapToGraph.isConnectedToPrev (Some p) (SnapToGraph.edgeIdOf e) = true) /\
  match bestOn connected, bestOn (SnapToGraph.usableEdges map) with
  | Some bc, Some bg =>
      exists dc dg eid,
        SnapToGraph.distance bc = Js.Fin dc /\ SnapToGraph.distance bg = Js.Fin dg /\
        SnapToGraph.edge bc = Some eid /\
        SnapToGraph.isConnectedToPrev (Some p) eid = true /\
        (maxSnapMeters * (225 / 100) < dc /\ dg + 2 / 10 < dc ->
         SnapToGraph.snapToGraph map point opts = bg) /\
        (~ (maxSnapMeters * (225 / 100) < dc /\ dg + 2 / 10 < dc) ->
         SnapToGraph.snapToGraph map point opts = bc)
  | Some bc, None => False
  | None, Some bg =>
      (forall e, In e connected ->
                 SnapToGraph.candidateProjection (StoreMap.nodes map) point e = None) /\
      SnapToGraph.snapToGraph map point opts = bg
  | None, None =>
      SnapToGraph.snapToGraph map point opts
      = SnapToGraph.mkSnapResult point Js.PInf None 0
  end /\
  SnapToGraph.bestOnEdges (StoreMap.nodes Scenarios.corridorsMap) (Geometry.mkPoint2 5 4)
    (Some (SnapToGraph.mkEdgeId "a0" "a1")) (35 / 100)
    (SnapToGraph.connectedEdges (SnapToGraph.mkEdgeId "a0" "a1")
       (SnapToGraph.usableEdges Scenarios.corridorsMap))
  = Some (SnapToGraph.mkSnapResult
            (Geometry.mkPoint2 (0 + (10 - 0) * (1 / 2)) (0 + (0 - 0) * (1 / 2)))
            (Js.Fin 4) (Some (SnapToGraph.mkEdgeId "a0" "a1")) (1 / 2)) /\
  SnapToGraph.snapToGraph Scenarios.corridorsMap (Geometry.mkPoint2 5 4)
    (Some (SnapToGraph.mkOpts (Some (1 / 2)) (Some (SnapToGraph.mkEdgeId "a0" "a1")) None
                              (Some true)))
  = SnapToGraph.mkSnapResult
      (Geometry.mkPoint2 (0 + (10 - 0) * (1 / 2)) (4 / 10 + (4 / 10 - 4 / 10) * (1 / 2)))
      (Js.Fin (36 / 10)) (Some (SnapToGraph.mkEdgeId "b0" "b1")) (1 / 2).
Proof.
  cbv zeta. split; [|split; [|split]].
  - intros e. split.
    + apply connectedEdges_incident.
    + intros [Hin Hc]. now apply incident_connectedEdges.
  - apply (hardClamp_cases map point maxSnap p switchPenalty).
  - exact corridors_bestConnected_far.
  - exact corridors_hardClamp_snap.
Qed.


(** ** Turn-by-turn (turnByTurn.ts) *)

Lemma classifyTurn_not_straight (delta : R) :
  TurnByTurn.classifyTurn delta <> TurnByTurn.straight -> 28 <= Rabs delta.
Proof.
  unfold TurnByTurn.classifyTurn. cbv zeta.
  destruct (Js.ltb (Rabs delta) 28) eqn:E; [congruence|].
  intros _. now apply ltb_false in E.
Qed.

Lemma classifyTurn_cases (delta : R) :
  match TurnByTurn.classifyTurn delta with
  | TurnByTurn.straight => Rabs delta < 28
  | TurnByTurn.uturn => 150 < Rabs delta
  | TurnByTurn.right => 28 <= delta <= 150
  | TurnByTurn.left => -150 <= delta <= -28
  | _ => False
  end.
Proof.
  unfold TurnByTurn.classifyTurn. cbv zeta.
  destruct (Js.ltb (Rabs delta) 28) eqn:E1.
  { now apply ltb_true in E1. }
  apply ltb_false in E1.
  destruct (Js.ltb 150 (Rabs delta)) eqn:E2.
  { now apply ltb_true in E2. }
  apply ltb_false in E2.
  destruct (Js.ltb 0 delta) eqn:E3.
  - apply ltb_true in E3. rewrite Rabs_right in E1, E2; lra.
  - apply ltb_false in E3. rewrite Rabs_left1 in E1, E2; lra.
Qed.

(** What one iteration of the interior loop appends. *)
Lemma interiorStep_spec (polyline : list Geometry.Point2)
  (cumulative : R) (maneuvers : list TurnByTurn.Maneuver) (i : nat) :
  exists cumulative' extra,
    TurnByTurn.interiorStep polyline (cumulative, maneuvers) i
    = (cumulative', maneuvers ++ extra) /\
    Forall (fun m => TurnByTurn.isTurn m = true
                     /\ TurnByTurn.atIndex m = i
                     /\ 28 <= Rabs (TurnByTurn.turnDelta polyline i)) extra.
Proof.
  unfold TurnByTurn.interiorStep. cbv zeta.
  pose proof (classifyTurn_not_straight (TurnByTurn.turnDelta polyline i)) as Hns.
  pose proof (classifyTurn_cases (TurnByTurn.turnDelta polyline i)) as Hc.
  destruct (TurnByTurn.classifyTurn (TurnByTurn.turnDelta polyline i)) eqn:E;
    try (exfalso; exact Hc).
  (* [start] and [arrive] do not come out of [classifyTurn] *)
  1, 2, 4: eexists; eexists; (split; [reflexivity|]);
    (constructor; [|constructor]);
    repeat split; try reflexivity; apply Hns; discriminate.
  eexists; exists []. split; [now rewrite app_nil_r | constructor].
Qed.

Lemma interior_fold_spec (polyline : list Geometry.Point2) (indices : list nat)
  (cumulative : R) (maneuvers : list TurnByTurn.Maneuver) :
  exists cumulative' extra,
    fold_left (TurnByTurn.interiorStep polyline) indices (cumulative, maneuvers)
    = (cumulative', maneuvers ++ extra) /\
    Forall (fun m => TurnByTurn.isTurn m = true
                     /\ In (TurnByTurn.atIndex m) indices
                     /\ 28 <= Rabs (TurnByTurn.turnDelta polyline (TurnByTurn.atIndex m)))
           extra.
Proof.
  revert cumulative maneuvers.
  induction indices as [|i indices IH]; intros cumulative maneuvers.
  - exists cumulative, []. split; [now rewrite app_nil_r | constructor].
  - cbn [fold_left].
    destruct (interiorStep_spec polyline cumulative maneuvers i) as (c1 & ex1 & E1 & F1).
    rewrite E1.
    destruct (IH c1 (maneuvers ++ ex1)) as (c2 & ex2 & E2 & F2).
    exists c2, (ex1 ++ ex2). split.
    + now rewrite E2, app_assoc.
    + apply Forall_app. split.
      * eapply Forall_impl; [|exact F1].
        intros m (Ht & Hi & Hd). rewrite Hi. repeat split; auto. now left.
      * eapply Forall_impl; [|exact F2].
        intros m (Ht & Hi & Hd). repeat split; auto. now right.
Qed.

(** C5, as stated, fails on a polyline of fewer than two points: the result is
    empty, so there is no start maneuver (and no arrive maneuver). *)
Lemma buildManeuvers_short_counterexample :
  TurnByTurn.buildManeuvers [Geometry.mkPoint2 3 4] = [] /\
  ~ (exists m, In m (TurnByTurn.buildManeuvers [Geometry.mkPoint2 3 4])
               /\ TurnByTurn.type m = TurnByTurn.start).
Proof.
  split; [reflexivity|]. intros (m & [] & _).
Qed.

(** C5, amended: for every polyline of n >= 2 points, [buildManeuvers] returns
    one start maneuver at index 0, then the interior maneuvers, then one arrive
    maneuver at index n - 1; no other maneuver is a start or an arrive, and every
    interior maneuver is a left, right or U-turn at an interior index whose turn
    angle has absolute value at least 28 degrees. *)
Theorem buildManeuvers_structure (polyline : list Geometry.Point2) :
  (2 <= List.length polyline)%nat ->
  exists s interior a,
    TurnByTurn.buildManeuvers polyline = s :: interior ++ [a] /\
    TurnByTurn.type s = TurnByTurn.start /\ TurnByTurn.atIndex s = 0%nat /\
    TurnByTurn.type a = TurnByTurn.arrive /\
    TurnByTurn.atIndex a = (List.length polyline - 1)%nat /\
    Forall (fun m =>
              TurnByTurn.isTurn m = true /\
              (1 <= TurnByTurn.atIndex m <= List.length polyline - 2)%nat /\
              28 <= Rabs (TurnByTurn.turnDelta polyline (TurnByTurn.atIndex m)))
           interior /\
    filter TurnByTurn.isStart (TurnByTurn.buildManeuvers polyline) = [s] /\
    filter TurnByTurn.isArrive (TurnByTurn.buildManeuvers polyline) = [a].
Proof.
  intros Hn. unfold TurnByTurn.buildManeuvers.
  assert (E : Nat.ltb (List.length polyline) 2 = false) by (apply Nat.ltb_ge; lia).
  rewrite E. cbv zeta.
  destruct (interior_fold_spec polyline (seq 1 (List.length polyline - 2)) 0
              [TurnByTurn.mkManeuver TurnByTurn.start 0 (TurnByTurn.at_ polyline 0) 0 "Start"])
    as (c & interior & Efold & Hint).
  rewrite Efold. cbn [app].
  assert (Hint' :
    Forall (fun m =>
              TurnByTurn.isTurn m = true /\
              (1 <= TurnByTurn.atIndex m <= List.length polyline - 2)%nat /\
              28 <= Rabs (TurnByTurn.turnDelta polyline (TurnByTurn.atIndex m)))
           interior).
  { eapply Forall_impl; [|exact Hint].
    intros m (Ht & Hi & Hd). repeat split; auto; apply in_seq in Hi; lia. }
  do 3 eexists. split; [reflexivity|].
  repeat split; auto.
  - cbn [filter TurnByTurn.isStart TurnByTurn.type].
    rewrite filter_app. cbn [filter TurnByTurn.isStart TurnByTurn.type].
    rewrite filter_none; [reflexivity|].
    eapply Forall_impl; [|exact Hint].
    intros m (Ht & _). unfold TurnByTurn.isTurn, TurnByTurn.isStart in *.
    destruct (TurnByTurn.type m); congruence.
  - cbn [filter TurnByTurn.isArrive TurnByTurn.type].
    rewrite filter_app. cbn [filter TurnByTurn.isArrive TurnByTurn.type].
    rewrite filter_none; [reflexivity|].
    eapply Forall_impl; [|exact Hint].
    intros m (Ht & _). unfold TurnByTurn.isTurn, TurnByTurn.isArrive in *.
    destruct (TurnByTurn.type m); congruence.
Qed.

Lemma buildManeuvers_structure_witness :
  exists s interior a,
    TurnByTurn.buildManeuvers
      [Geometry.mkPoint2 0 0; Geometry.mkPoint2 0 (-5); Geometry.mkPoint2 5 (-5)]
    = s :: interior ++ [a] /\
    TurnByTurn.atIndex s = 0%nat /\ TurnByTurn.atIndex a = 2%nat.
Proof.
  destruct (buildManeuvers_structure
              [Geometry.mkPoint2 0 0; Geometry.mkPoint2 0 (-5); Geometry.mkPoint2 5 (-5)])
    as (s & interior & a & E & _ & Hs & _ & Ha & _).
  - cbn. lia.
  - exists s, interior, a. repeat split; assumption.
Defined.

(** [Math.round] picks the integer within half a unit, halves upward. *)
Lemma round_spec (x : R) : IZR (Js.round x) - 1 / 2 <= x < IZR (Js.round x) + 1 / 2.
Proof.
  unfold Js.round. pose proof (Zfloor_bound (x + / 2)). lra.
Qed.

Lemma round_eval (x : R) (z : Z) : IZR z - 1 / 2 <= x < IZR z + 1 / 2 -> Js.round x = z.
Proof.
  intros H. unfold Js.round. apply Zfloor_eq. lra.
Qed.

(** C4, as stated, fails: 1.2 m before a left turn the code prints the distance
    rounded to the nearest metre, not rounded up, lower-cases the instruction
    and puts no space before the unit. *)
Lemma formatNextInstruction_counterexample :
  TurnByTurn.formatNextInstruction
    (Some (TurnByTurn.mkManeuver TurnByTurn.left 1 (Geometry.mkPoint2 0 0) 5 "Turn left"))
    (Some (6 / 5)) = "In 1m, turn left"%string /\
  Zceil (6 / 5) = 2%Z /\
  TurnByTurn.formatNextInstruction
    (Some (TurnByTurn.mkManeuver TurnByTurn.left 1 (Geometry.mkPoint2 0 0) 5 "Turn left"))
    (Some (6 / 5))
  <> ("In " ++ Js.integerToString (Zceil (6 / 5)) ++ " m, " ++ "Turn left")%string.
Proof.
  assert (Er : Js.round (6 / 5) = 1%Z) by (apply round_eval; lra).
  assert (Ec : Zceil (6 / 5) = 2%Z) by (apply Zceil_eq; lra).
  unfold TurnByTurn.formatNextInstruction.
  cbn [TurnByTurn.type TurnByTurn.instruction].
  rewrite Er, Ec. repeat split; discriminate.
Qed.

(** C4, amended: [formatNextInstruction] returns "Select a destination" when
    there is no maneuver; "Start walking" for a start maneuver; for an arrive
    maneuver "Arrive" when the distance is a number below 2 and
    "Continue to destination" otherwise; and for every other maneuver type the
    maneuver's instruction itself when the distance is null and otherwise
    "In <n>m, <instruction in lower case>", where n is the distance rounded to
    the nearest whole number (halves upward), and 0 when that is negative. *)
Theorem formatNextInstruction_cases (m : TurnByTurn.Maneuver) (d : R) :
  (forall dist, TurnByTurn.formatNextInstruction None dist = "Select a destination"%string) /\
  (TurnByTurn.type m = TurnByTurn.start ->
   forall dist, TurnByTurn.formatNextInstruction (Some m) dist = "Start walking"%string) /\
  (TurnByTurn.type m = TurnByTurn.arrive ->
   (d < 2 -> TurnByTurn.formatNextInstruction (Some m) (Some d) = "Arrive"%string) /\
   (2 <= d ->
    TurnByTurn.formatNextInstruction (Some m) (Some d) = "Continue to destination"%string) /\
   TurnByTurn.formatNextInstruction (Some m) None = "Continue to destination"%string) /\
  (TurnByTurn.type m <> TurnByTurn.start ->
   TurnByTurn.type m <> TurnByTurn.arrive ->
   TurnByTurn.formatNextInstruction (Some m) None = TurnByTurn.instruction m /\
   (* from 10^21 on a template literal prints an exponent *)
   (d < 10 ^ 21 ->
   exists n : Z,
     (0 <= n)%Z /\
     (d < 1 / 2 -> n = 0%Z) /\
     (1 / 2 <= d -> IZR n - 1 / 2 <= d < IZR n + 1 / 2) /\
     TurnByTurn.formatNextInstruction (Some m) (Some d)
     = ("In " ++ Js.integerToString n ++ "m, "
        ++ Js.toLowerCase (TurnByTurn.instruction m))%string)).
Proof.
  split; [reflexivity|]. split; [|split].
  - intros Ht dist. unfold TurnByTurn.formatNextInstruction. now rewrite Ht.
  - intros Ht. unfold TurnByTurn.formatNextInstruction. rewrite Ht.
    repeat split.
    + intros Hd. apply ltb_true in Hd. now rewrite Hd.
    + intros Hd. apply ltb_false in Hd. now rewrite Hd.
  - intros Hs Ha.
    assert (E : forall dist,
      TurnByTurn.formatNextInstruction (Some m) dist =
      match dist with
      | None => TurnByTurn.instruction m
      | Some d =>
          ("In " ++ Js.integerToString (Z.max 0 (Js.round d)) ++ "m, "
           ++ Js.toLowerCase (TurnByTurn.instruction m))%string
      end).
    { intros dist. unfold TurnByTurn.formatNextInstruction.
      destruct (TurnByTurn.type m); try congruence; reflexivity. }
    split; [apply E|]. intros _.
    exists (Z.max 0 (Js.round d)). rewrite E.
    pose proof (round_spec d) as Hr.
    repeat split.
    + lia.
    + intros Hd.
      assert (Js.round d < 1)%Z by (apply lt_IZR; lra).
      lia.
    + assert (0 < Js.round d)%Z by (apply lt_IZR; lra).
      rewrite Z.max_r by lia. lra.
    + assert (0 < Js.round d)%Z by (apply lt_IZR; lra).
      rewrite Z.max_r by lia. lra.
Qed.


(** ** Wi-Fi fix (wifiFix.ts) *)

Lemma byBssid_some (anchors : list StoreMap.Anchor.t) (key : string) (a : StoreMap.Anchor.t) :
  WifiFix.byBssid anchors key = Some a ->
  In a anchors /\ WifiFix.normalizeBssid (StoreMap.Anchor.bssid a) = key.
Proof.
  induction anchors as [|a0 anchors IH]; [discriminate|].
  cbn [WifiFix.byBssid].
  destruct (WifiFix.byBssid anchors key) as [b|].
  - intros H. injection H as ->. destruct (IH eq_refl). split; [now right | assumption].
  - destruct (String.eqb _ key) eqn:E; [|discriminate].
    intros H. injection H as ->. apply String.eqb_eq in E. split; [now left | assumption].
Qed.

Lemma hasBssid_existsb (anchors : list StoreMap.Anchor.t) (key : string) :
  WifiFix.hasBssid anchors key
  = existsb (fun a => String.eqb (WifiFix.normalizeBssid (StoreMap.Anchor.bssid a)) key) anchors.
Proof.
  unfold WifiFix.hasBssid.
  induction anchors as [|a0 anchors IH]; [reflexivity|].
  cbn [WifiFix.byBssid existsb].
  destruct (WifiFix.byBssid anchors key).
  - rewrite <- IH. now rewrite orb_true_r.
  - rewrite <- IH. rewrite orb_false_r. now destruct (String.eqb _ key).
Qed.

(** The matched readings are the readings that match, normalised, in the order
    of the scan. *)
Lemma matchedReadings_matches
  (readings : list WifiFix.WifiReading) (anchors : list StoreMap.Anchor.t) :
  WifiFix.matchedReadings readings anchors
  = map (fun r => WifiFix.mkWifiReading (WifiFix.normalizeBssid (WifiFix.bssid r))
                                        (WifiFix.level r))
        (filter (WifiFix.matches anchors) readings).
Proof.
  unfold WifiFix.matchedReadings.
  induction readings as [|r readings IH]; [reflexivity|].
  cbn [filter]. unfold WifiFix.matches at 1.
  destruct (Js.truthy (WifiFix.bssid r)); cbn [andb map filter WifiFix.bssid].
  - rewrite hasBssid_existsb.
    destruct (existsb _ anchors); cbn [map]; now rewrite IH.
  - exact IH.
Qed.

Lemma matchedReadings_hasBssid
  (readings : list WifiFix.WifiReading) (anchors : list StoreMap.Anchor.t)
  (r : WifiFix.WifiReading) :
  In r (WifiFix.matchedReadings readings anchors) ->
  WifiFix.hasBssid anchors (WifiFix.bssid r) = true.
Proof.
  unfold WifiFix.matchedReadings. intros H. now apply filter_In in H.
Qed.

Lemma matches_iff (anchors : list StoreMap.Anchor.t) (r : WifiFix.WifiReading) :
  WifiFix.matches anchors r = true <->
  WifiFix.bssid r <> EmptyString /\
  exists a, In a anchors /\
            WifiFix.normalizeBssid (WifiFix.bssid r)
            = WifiFix.normalizeBssid (StoreMap.Anchor.bssid a).
Proof.
  unfold WifiFix.matches. rewrite andb_true_iff, truthy_nonempty, existsb_exists.
  split; intros [H1 (a & Ha & E)]; (split; [exact H1 | exists a; split; [exact Ha|]]).
  - apply String.eqb_eq in E. now symmetry.
  - apply String.eqb_eq. now symmetry.
Qed.

(** The weight of a reading lies between 1 and 400. *)
Lemma weight_range (level : R) : 1 <= WifiFix.weight level <= 400.
Proof.
  unfold WifiFix.weight, WifiFix.clamp. split.
  - apply Rmax_l.
  - apply Rmax_lub; [lra | apply Rmin_l].
Qed.

(** The centroid loop adds up the weights and the weighted coordinates. *)
Lemma centroid_fold (anchors : list StoreMap.Anchor.t) (l : list WifiFix.WifiReading)
  (sumW x y : R) :
  Forall (fun r => WifiFix.hasBssid anchors (WifiFix.bssid r) = true) l ->
  fold_left (WifiFix.centroidStep anchors) l (sumW, x, y)
  = (sumW + WifiFix.sumOver (fun r => WifiFix.weight (WifiFix.level r)) l,
     x + WifiFix.sumOver (fun r => WifiFix.anchorX anchors r * WifiFix.weight (WifiFix.level r)) l,
     y + WifiFix.sumOver (fun r => WifiFix.anchorY anchors r * WifiFix.weight (WifiFix.level r)) l).
Proof.
  intros H. revert sumW x y.
  induction H as [|r l Hr _ IH]; intros sumW x y.
  - cbn. f_equal; [f_equal|]; ring.
  - cbn [fold_left WifiFix.sumOver fold_right].
    unfold WifiFix.centroidStep at 2. unfold WifiFix.anchorX, WifiFix.anchorY.
    unfold WifiFix.hasBssid in Hr.
    destruct (WifiFix.byBssid anchors (WifiFix.bssid r)) as [a|]; [|discriminate].
    rewrite IH. unfold WifiFix.sumOver, WifiFix.anchorX, WifiFix.anchorY.
    f_equal; [f_equal|]; ring.
Qed.

Lemma sumOver_weight_pos (l : list WifiFix.WifiReading) :
  l <> [] -> 0 < WifiFix.sumOver (fun r => WifiFix.weight (WifiFix.level r)) l.
Proof.
  assert (H0 : forall l', 0 <= WifiFix.sumOver (fun r => WifiFix.weight (WifiFix.level r)) l').
  { induction l' as [|r l' IH]; unfold WifiFix.sumOver in *; cbn [fold_right]; [lra|].
    pose proof (weight_range (WifiFix.level r)). lra. }
  destruct l as [|r l]; [congruence|]. intros _.
  pose proof (weight_range (WifiFix.level r)). specialize (H0 l).
  unfold WifiFix.sumOver in *. cbn [fold_right]. lra.
Qed.

(** The reduction that picks [best] returns a reading of the list (or the
    initial one) with the greatest level. *)
Lemma best_fold (l : list WifiFix.WifiReading) (first : WifiFix.WifiReading) :
  let b := fold_left (fun acc r => if Js.ltb (WifiFix.level acc) (WifiFix.level r) then r else acc)
                     l first in
  (b = first \/ In b l) /\
  WifiFix.level first <= WifiFix.level b /\
  forall r, In r l -> WifiFix.level r <= WifiFix.level b.
Proof.
  revert first. induction l as [|r l IH]; intros first; cbn [fold_left].
  - repeat split; auto; try lra. intros r [].
  - destruct (Js.ltb (WifiFix.level first) (WifiFix.level r)) eqn:E.
    + apply ltb_true in E. destruct (IH r) as (Hin & Hge & Hall).
      repeat split.
      * right. destruct Hin as [-> | Hin]; [now left | now right].
      * cbv zeta in *. lra.
      * intros r' [<- | Hr']; [exact Hge | now apply Hall].
    + apply ltb_false in E. destruct (IH first) as (Hin & Hge & Hall).
      repeat split.
      * destruct Hin as [-> | Hin]; [now left | right; now right].
      * exact Hge.
      * intros r' [<- | Hr']; [cbv zeta in *; lra | now apply Hall].
Qed.

(** The fix, when there is a matched reading. *)
Lemma computeWifiFix_some
  (readings : list WifiFix.WifiReading) (anchors : list StoreMap.Anchor.t) :
  WifiFix.matchedReadings readings anchors <> [] ->
  let m := WifiFix.matchedReadings readings anchors in
  let W := WifiFix.sumOver (fun r => WifiFix.weight (WifiFix.level r)) m in
  exists b,
    WifiFix.computeWifiFix readings anchors
    = Some (WifiFix.mkWifiFix
              (WifiFix.sumOver (fun r => WifiFix.anchorX anchors r
                                         * WifiFix.weight (WifiFix.level r)) m / W)
              (WifiFix.sumOver (fun r => WifiFix.anchorY anchors r
                                         * WifiFix.weight (WifiFix.level r)) m / W)
              (List.length m) (Some b)) /\
    In b m /\ (forall r, In r m -> WifiFix.level r <= WifiFix.level b).
Proof.
  intros Hne. cbv zeta. unfold WifiFix.computeWifiFix.
  assert (Hall : Forall (fun r => WifiFix.hasBssid anchors (WifiFix.bssid r) = true)
                        (WifiFix.matchedReadings readings anchors)).
  { apply Forall_forall. intros r. apply matchedReadings_hasBssid. }
  pose proof (sumOver_weight_pos _ Hne) as HW.
  destruct (WifiFix.matchedReadings readings anchors) as [|first rest]; [congruence|].
  set (m := first :: rest) in *.
  set (W := WifiFix.sumOver (fun r => WifiFix.weight (WifiFix.level r)) m) in *.
  rewrite (centroid_fold anchors _ 0 0 0 Hall). fold W.
  assert (E : Js.leb (0 + W) 0 = false) by (apply leb_false; lra).
  rewrite E.
  pose proof (best_fold m first) as (Hin & _ & Hmax).
  eexists. split; [|split; [|exact Hmax]].
  - f_equal. f_equal; f_equal; ring.
  - destruct Hin as [-> | Hin]; [now left | exact Hin].
Qed.

(** *** Bounds on e^2 for scenario S3 *)

Lemma exp_lower_step (x a b : R) : a <= exp x -> 0 <= a -> b <= a * a -> b <= exp (2 * x).
Proof.
  intros Ha H0 Hb. replace (2 * x) with (x + x) by ring. rewrite exp_plus. nra.
Qed.

Lemma exp_upper_step (x a b : R) : exp x <= a -> a * a <= b -> exp (2 * x) <= b.
Proof.
  intros Ha Hb. replace (2 * x) with (x + x) by ring. rewrite exp_plus.
  pose proof (exp_pos x). nra.
Qed.

Lemma exp_2_bounds : 738 / 100 < exp 2 < 740 / 100.
Proof.
  assert (L0 : 1025 / 1024 <= exp (1 / 1024)).
  { pose proof (exp_ineq1_le (1 / 1024)). lra. }
  assert (U0 : exp (1 / 1024) <= 1024 / 1023).
  { pose proof (exp_ineq1_le (- (1 / 1024))) as Hm.
    pose proof (exp_pos (1 / 1024)) as Hp.
    assert (E : exp (1 / 1024) * exp (- (1 / 1024)) = 1).
    { rewrite <- exp_plus. replace (1 / 1024 + - (1 / 1024)) with 0 by lra. apply exp_0. }
    assert (exp (1 / 1024) * (1023 / 1024) <= 1) by nra.
    lra. }
  assert (L1 : 500977039337 / 500000000000 <= exp (1 / 512)).
  { replace (1 / 512) with (2 * (1 / 1024)) by lra.
    apply (exp_lower_step _ _ _ L0); lra. }
  assert (U1 : exp (1 / 512) <= 1001955989753 / 1000000000000).
  { replace (1 / 512) with (2 * (1 / 1024)) by lra.
    apply (exp_upper_step _ _ _ U0); lra. }
  assert (L2 : 1003911975771 / 1000000000000 <= exp (1 / 256)).
  { replace (1 / 256) with (2 * (1 / 512)) by lra.
    apply (exp_lower_step _ _ _ L1); lra. }
  assert (U2 : exp (1 / 256) <= 501957902701 / 500000000000).
  { replace (1 / 256) with (2 * (1 / 512)) by lra.
    apply (exp_upper_step _ _ _ U1); lra. }
  assert (L3 : 125979906887 / 125000000000 <= exp (1 / 128)).
  { replace (1 / 128) with (2 * (1 / 256)) by lra.
    apply (exp_lower_step _ _ _ L2); lra. }
  assert (U3 : exp (1 / 128) <= 62990434021 / 62500000000).
  { replace (1 / 128) with (2 * (1 / 256)) by lra.
    apply (exp_upper_step _ _ _ U2); lra. }
  assert (L4 : 63483747757 / 62500000000 <= exp (1 / 64)).
  { replace (1 / 64) with (2 * (1 / 128)) by lra.
    apply (exp_lower_step _ _ _ L3); lra. }
  assert (U4 : exp (1 / 64) <= 126969432901 / 125000000000).
  { replace (1 / 64) with (2 * (1 / 128)) by lra.
    apply (exp_upper_step _ _ _ U3); lra. }
  assert (L5 : 515863837347 / 500000000000 <= exp (1 / 32)).
  { replace (1 / 32) with (2 * (1 / 64)) by lra.
    apply (exp_lower_step _ _ _ L4); lra. }
  assert (U5 : exp (1 / 32) <= 1031759161037 / 1000000000000).
  { replace (1 / 32) with (2 * (1 / 64)) by lra.
    apply (exp_upper_step _ _ _ U4); lra. }
  assert (L6 : 1064461994729 / 1000000000000 <= exp (1 / 16)).
  { replace (1 / 16) with (2 * (1 / 32)) by lra.
    apply (exp_lower_step _ _ _ L5); lra. }
  assert (U6 : exp (1 / 16) <= 66532935399 / 62500000000).
  { replace (1 / 16) with (2 * (1 / 32)) by lra.
    apply (exp_upper_step _ _ _ U5); lra. }
  assert (L7 : 566539669111 / 500000000000 <= exp (1 / 8)).
  { replace (1 / 8) with (2 * (1 / 16)) by lra.
    apply (exp_lower_step _ _ _ L6); lra. }
  assert (U7 : exp (1 / 8) <= 1133217662159 / 1000000000000).
  { replace (1 / 8) with (2 * (1 / 16)) by lra.
    apply (exp_upper_step _ _ _ U6); lra. }
  assert (L8 : 256773757341 / 200000000000 <= exp (1 / 4)).
  { replace (1 / 4) with (2 * (1 / 8)) by lra.
    apply (exp_lower_step _ _ _ L7); lra. }
  assert (U8 : exp (1 / 4) <= 128418226983 / 100000000000).
  { replace (1 / 4) with (2 * (1 / 8)) by lra.
    apply (exp_upper_step _ _ _ U7); lra. }
  assert (L9 : 65932762459 / 40000000000 <= exp (1 / 2)).
  { replace (1 / 2) with (2 * (1 / 4)) by lra.
    apply (exp_lower_step _ _ _ L8); lra. }
  assert (U9 : exp (1 / 2) <= 824562051073 / 500000000000).
  { replace (1 / 2) with (2 * (1 / 4)) by lra.
    apply (exp_upper_step _ _ _ U8); lra. }
  assert (L10 : 2716955728421 / 1000000000000 <= exp (1)).
  { replace (1) with (2 * (1 / 2)) by lra.
    apply (exp_lower_step _ _ _ L9); lra. }
  assert (U10 : exp (1) <= 2719610304279 / 1000000000000).
  { replace (1) with (2 * (1 / 2)) by lra.
    apply (exp_upper_step _ _ _ U9); lra. }
  assert (L11 : 7381848430199 / 1000000000000 <= exp (2)).
  { replace (2) with (2 * (1)) by lra.
    apply (exp_lower_step _ _ _ L10); lra. }
  assert (U11 : exp (2) <= 7396280207141 / 1000000000000).
  { replace (2) with (2 * (1)) by lra.
    apply (exp_upper_step _ _ _ U10); lra. }
  lra.
Qed.

Lemma weight_eval (level e : R) :
  -95 <= level <= -35 -> 1 <= exp e <= 400 -> e = (level + 100) / 10 ->
  WifiFix.weight level = exp e.
Proof.
  intros Hl He ->. unfold WifiFix.weight, WifiFix.clamp.
  rewrite (Rmin_right (-35) level) by lra.
  rewrite (Rmax_right (-95) level) by lra.
  rewrite Rmin_right by lra. rewrite Rmax_right by lra. reflexivity.
Qed.

Lemma exp_4_eq : exp 4 = exp 2 * exp 2.
Proof. rewrite <- exp_plus. f_equal. lra. Qed.

(** Scenario S3 on the code. *)
Lemma computeWifiFix_scanAB :
  exists b,
    WifiFix.computeWifiFix Scenarios.scanAB [Scenarios.anchorA; Scenarios.anchorB]
    = Some (WifiFix.mkWifiFix (10 * exp 2 / (exp 4 + exp 2)) 0 2 (Some b)) /\
    b = WifiFix.mkWifiReading "aa:bb:cc:dd:ee:01" (-60).
Proof.
  pose proof exp_2_bounds as H2. pose proof exp_4_eq as H4.
  assert (W1 : WifiFix.weight (-60) = exp 4).
  { apply weight_eval; [lra | nra | lra]. }
  assert (W2 : WifiFix.weight (-80) = exp 2).
  { apply weight_eval; [lra | nra | lra]. }
  assert (Em : WifiFix.matchedReadings Scenarios.scanAB [Scenarios.anchorA; Scenarios.anchorB]
               = [ WifiFix.mkWifiReading "aa:bb:cc:dd:ee:01" (-60);
                   WifiFix.mkWifiReading "aa:bb:cc:dd:ee:02" (-80) ]) by reflexivity.
  destruct (computeWifiFix_some Scenarios.scanAB [Scenarios.anchorA; Scenarios.anchorB])
    as (b & Hb & Hin & Hmax).
  { rewrite Em. discriminate. }
  rewrite Em in Hb, Hin, Hmax.
  unfold WifiFix.sumOver in Hb. cbn [fold_right WifiFix.level List.length] in Hb.
  change (WifiFix.anchorX [Scenarios.anchorA; Scenarios.anchorB]
            (WifiFix.mkWifiReading "aa:bb:cc:dd:ee:01" (-60))) with 0 in Hb.
  change (WifiFix.anchorX [Scenarios.anchorA; Scenarios.anchorB]
            (WifiFix.mkWifiReading "aa:bb:cc:dd:ee:02" (-80))) with 10 in Hb.
  change (WifiFix.anchorY [Scenarios.anchorA; Scenarios.anchorB]
            (WifiFix.mkWifiReading "aa:bb:cc:dd:ee:01" (-60))) with 0 in Hb.
  change (WifiFix.anchorY [Scenarios.anchorA; Scenarios.anchorB]
            (WifiFix.mkWifiReading "aa:bb:cc:dd:ee:02" (-80))) with 0 in Hb.
  rewrite W1, W2 in Hb.
  assert (Eb : b = WifiFix.mkWifiReading "aa:bb:cc:dd:ee:01" (-60)).
  { destruct Hin as [<- | [<- | []]]; [reflexivity|].
    specialize (Hmax (WifiFix.mkWifiReading "aa:bb:cc:dd:ee:01" (-60)) (or_introl eq_refl)).
    cbn [WifiFix.level] in Hmax. lra. }
  exists b. split; [|exact Eb]. rewrite Hb.
  f_equal. f_equal; field; nra.
Qed.

(** C9, as stated, fails: a reading with an empty BSSID is dropped before it is
    compared, so it yields no fix even when an anchor's BSSID trims to the
    empty string as well. *)
Lemma computeWifiFix_blank_counterexample :
  WifiFix.computeWifiFix Scenarios.blankScan [Scenarios.blankAnchor] = None /\
  exists r a,
    In r Scenarios.blankScan /\ In a [Scenarios.blankAnchor] /\
    WifiFix.normalizeBssid (WifiFix.bssid r)
    = WifiFix.normalizeBssid (StoreMap.Anchor.bssid a).
Proof.
  split; [reflexivity|].
  exists (WifiFix.mkWifiReading "" (-50)), Scenarios.blankAnchor.
  repeat split; now left.
Qed.

(** C9, amended: [computeWifiFix] returns None exactly when no reading with a
    non-empty BSSID has, trimmed and lower-cased, the trimmed and lower-cased
    BSSID of an anchor. Otherwise it returns the weighted centroid of the
    anchors of the matched readings with the weights
    clamp(exp((clamp(rssi, -95, -35) + 100) / 10), 1, 400), [matched] is the number
    of matching readings and [best] is a matched reading of maximum rssi. For
    anchors A = (0,0) heard at -60 dBm and B = (10,0) at -80 dBm the fix x is
    10 e^2 / (e^4 + e^2), which lies between 1.19 and 1.195. The function is
    total: it returns for every input. *)
Theorem computeWifiFix_spec
  (readings : list WifiFix.WifiReading) (anchors : list StoreMap.Anchor.t) :
  (WifiFix.computeWifiFix readings anchors = None <->
   ~ exists r a, In r readings /\ WifiFix.bssid r <> EmptyString /\ In a anchors /\
                 WifiFix.normalizeBssid (WifiFix.bssid r)
                 = WifiFix.normalizeBssid (StoreMap.Anchor.bssid a)) /\
  (forall f, WifiFix.computeWifiFix readings anchors = Some f ->
     let m := WifiFix.matchedReadings readings anchors in
     let W := WifiFix.sumOver (fun r => WifiFix.weight (WifiFix.level r)) m in
     0 < W /\
     WifiFix.x f = WifiFix.sumOver (fun r => WifiFix.anchorX anchors r
                                             * WifiFix.weight (WifiFix.level r)) m / W /\
     WifiFix.y f = WifiFix.sumOver (fun r => WifiFix.anchorY anchors r
                                             * WifiFix.weight (WifiFix.level r)) m / W /\
     WifiFix.matched f = List.length (filter (WifiFix.matches anchors) readings) /\
     exists b, WifiFix.best f = Some b /\ In b m /\
               forall r, In r m -> WifiFix.level r <= WifiFix.level b) /\
  (forall level,
     WifiFix.weight level
     = WifiFix.clamp (exp ((WifiFix.clamp level (-95) (-35) + 100) / 10)) 1 400) /\
  (exists f,
     WifiFix.computeWifiFix Scenarios.scanAB [Scenarios.anchorA; Scenarios.anchorB] = Some f /\
     WifiFix.x f = 10 * exp 2 / (exp 4 + exp 2) /\
     119 / 100 < WifiFix.x f < 1195 / 1000).
Proof.
  assert (Hsome := computeWifiFix_some readings anchors).
  assert (Hempty : WifiFix.matchedReadings readings anchors = [] ->
                   WifiFix.computeWifiFix readings anchors = None).
  { intros E. unfold WifiFix.computeWifiFix. now rewrite E. }
  assert (Hmatch : WifiFix.matchedReadings readings anchors = [] <->
                   ~ exists r a, In r readings /\ WifiFix.bssid r <> EmptyString /\
                                 In a anchors /\
                                 WifiFix.normalizeBssid (WifiFix.bssid r)
                                 = WifiFix.normalizeBssid (StoreMap.Anchor.bssid a)).
  { rewrite matchedReadings_matches. split.
    - intros E (r & a & Hr & Hne & Ha & Heq).
      assert (Hin : In r (filter (WifiFix.matches anchors) readings)).
      { apply filter_In. split; [exact Hr|]. apply matches_iff. split; [exact Hne|].
        now exists a. }
      apply (in_map (fun r => WifiFix.mkWifiReading (WifiFix.normalizeBssid (WifiFix.bssid r))
                                                    (WifiFix.level r))) in Hin.
      rewrite E in Hin. destruct Hin.
    - intros Hno.
      destruct (filter (WifiFix.matches anchors) readings) as [|r l] eqn:E; [reflexivity|].
      exfalso. apply Hno.
      assert (Hin : In r (filter (WifiFix.matches anchors) readings)) by (rewrite E; now left).
      apply filter_In in Hin as [Hr Hm]. apply matches_iff in Hm as [Hne (a & Ha & Heq)].
      now exists r, a. }
  split; [|split; [|split]].
  - rewrite <- Hmatch. split; [|exact Hempty].
    intros Hnone.
    destruct (WifiFix.matchedReadings readings anchors) as [|r l] eqn:E; [reflexivity|].
    destruct Hsome as (b & Hb & _); [discriminate|]. congruence.
  - intros f Hf. cbv zeta.
    assert (Hne : WifiFix.matchedReadings readings anchors <> []).
    { intros E. rewrite (Hempty E) in Hf. discriminate. }
    destruct (Hsome Hne) as (b & Hb & Hin & Hmax).
    rewrite Hb in Hf. injection Hf as <-. cbn [WifiFix.x WifiFix.y WifiFix.matched WifiFix.best].
    split; [now apply sumOver_weight_pos|]. split; [reflexivity|]. split; [reflexivity|].
    split; [now rewrite matchedReadings_matches, length_map|].
    now exists b.
  - reflexivity.
  - destruct computeWifiFix_scanAB as (b & E & _).
    eexists. split; [exact E|]. cbn [WifiFix.x]. split; [reflexivity|].
    pose proof exp_2_bounds as H2. rewrite exp_4_eq.
    assert (Hx : 10 * exp 2 / (exp 2 * exp 2 + exp 2) = 10 / (exp 2 + 1)) by (field; nra).
    rewrite Hx.
    assert (Hpos : 0 < exp 2 + 1) by lra.
    assert (Hq : 10 / (exp 2 + 1) * (exp 2 + 1) = 10) by (field; lra).
    revert Hq. generalize (10 / (exp 2 + 1)). revert H2. generalize (exp 2).
    clear. intros e He q Hq. split; nra.
Qed.


(** ** Step events of a positioning session (pdrEngine.ts, useIndoorPositioning.ts) *)

Lemma spaced_app (events : list PdrEngine.StepEvent) (p : PdrEngine.StepEvent) :
  Positioning.spaced events ->
  (forall d, In d events -> PdrEngine.source d = PdrEngine.deviceMotion ->
             PdrEngine.source p = PdrEngine.pedometer ->
             (PdrEngine.ts d + 1800 <= PdrEngine.ts p)%Z) ->
  Positioning.spaced (events ++ [p]).
Proof.
  induction events as [|d events IH]; intros Hs Hp; cbn [app Positioning.spaced].
  - split; [intros _ q [] | exact I].
  - destruct Hs as [Hd Hs]. split.
    + intros Hsrc q Hq Hq'. apply in_app_or in Hq as [Hq | [<- | []]].
      * now apply Hd.
      * apply Hp; auto. now left.
    + apply IH; [exact Hs|]. intros d' Hd'. apply Hp. now right.
Qed.

Lemma spaced_split (events l1 l2 l3 : list PdrEngine.StepEvent) (d p : PdrEngine.StepEvent) :
  Positioning.spaced events ->
  events = l1 ++ d :: l2 ++ p :: l3 ->
  PdrEngine.source d = PdrEngine.deviceMotion ->
  PdrEngine.source p = PdrEngine.pedometer ->
  (PdrEngine.ts d + 1800 <= PdrEngine.ts p)%Z.
Proof.
  revert events. induction l1 as [|x l1 IH]; intros events Hs -> Hd Hp.
  - cbn [app Positioning.spaced] in Hs. destruct Hs as [H _].
    apply H; auto. apply in_or_app. right. now left.
  - cbn [app Positioning.spaced] in Hs. destruct Hs as [_ Hs].
    now apply (IH _ Hs eq_refl).
Qed.

(** What a listener call does to [lastStepAt]: it moves only with a step event,
    to the time of the event; a device-motion step comes more than 280 ms
    after the previous step, and a pedometer step only when the previous step
    is at least 1800 ms old. *)
Lemma listen_lastStepAt (e : PdrEngine.t) (i : Positioning.SensorInput) :
  match snd (Positioning.listen e i) with
  | None => PdrEngine.lastStepAt (fst (Positioning.listen e i)) = PdrEngine.lastStepAt e
  | Some s =>
      PdrEngine.ts s = Positioning.timeOf i /\
      PdrEngine.lastStepAt (fst (Positioning.listen e i)) = Positioning.timeOf i /\
      match PdrEngine.source s with
      | PdrEngine.deviceMotion => (PdrEngine.lastStepAt e + 280 < Positioning.timeOf i)%Z
      | PdrEngine.pedometer =>
          (PdrEngine.lastStepAt e <= 0
           \/ PdrEngine.lastStepAt e + 1800 <= Positioning.timeOf i)%Z
      end
  end.
Proof.
  destruct i as [m now | m now | steps now]; cbn [Positioning.listen Positioning.timeOf].
  - reflexivity.
  - unfold PdrEngine.handleDeviceMotion, PdrEngine.detectStep.
    assert (El : PdrEngine.lastStepAt (PdrEngine.fuseHeading e m now) = PdrEngine.lastStepAt e).
    { unfold PdrEngine.fuseHeading. cbv zeta.
      destruct (PdrEngine.rotationAlpha m), (PdrEngine.rotationRateAlpha m); reflexivity. }
    destruct (PdrEngine.linearAcceleration _ m) as [a g]. cbv zeta.
    destruct (negb (PdrEngine.inPeak _)).
    + destruct (Js.ltb _ _); cbn [fst snd PdrEngine.lastStepAt]; exact El.
    + destruct (Js.ltb _ (PdrEngine.mean _)); [|cbn [fst snd PdrEngine.lastStepAt]; exact El].
      destruct (Z.ltb 280 _) eqn:E280; cbn [andb];
        [|cbn [fst snd PdrEngine.lastStepAt]; exact El].
      destruct (Js.ltb _ _ && negb _); cbn [fst snd PdrEngine.lastStepAt PdrEngine.ts
                                              PdrEngine.source];
        [|exact El].
      rewrite El in E280. apply Z.ltb_lt in E280. repeat split; lia.
  - unfold PdrEngine.handlePedometerSteps. cbv zeta.
    destruct (Z.ltb 0 (if Z.eqb _ 0 then _ else _)); cbn [andb fst snd PdrEngine.lastStepAt];
      [|reflexivity].
    destruct (Z.ltb 0 (PdrEngine.lastStepAt e)) eqn:E0; cbn [andb negb].
    + destruct (Z.ltb (now - PdrEngine.lastStepAt e) 1800) eqn:E18;
        cbn [negb fst snd PdrEngine.lastStepAt PdrEngine.ts PdrEngine.source];
        [reflexivity|].
      apply Z.ltb_ge in E18. repeat split. right. lia.
    + cbn [fst snd PdrEngine.lastStepAt PdrEngine.ts PdrEngine.source].
      apply Z.ltb_ge in E0. repeat split. now left.
Qed.

(** The invariant of a session that starts with [lastStepAt = 0] and receives
    positive timestamps: every event so far is no later than [lastStepAt], which
    is the time of one of them unless it is still 0, and the events are spaced. *)
Lemma listenAll_invariant (inputs : list Positioning.SensorInput)
  (e : PdrEngine.t) (events : list PdrEngine.StepEvent) :
  (forall i, In i inputs -> (0 < Positioning.timeOf i)%Z) ->
  (forall ev, In ev events -> (0 < PdrEngine.ts ev <= PdrEngine.lastStepAt e)%Z) ->
  (PdrEngine.lastStepAt e = 0%Z
   \/ exists ev, In ev events /\ PdrEngine.ts ev = PdrEngine.lastStepAt e) ->
  Positioning.spaced events ->
  let r := fold_left
             (fun (acc : PdrEngine.t * list PdrEngine.StepEvent) i =>
                let '(e, events) := acc in
                let '(e', ev) := Positioning.listen e i in
                (e', events ++ match ev with Some s => [s] | None => [] end))
             inputs (e, events) in
  (forall ev, In ev (snd r) -> (0 < PdrEngine.ts ev <= PdrEngine.lastStepAt (fst r))%Z) /\
  (PdrEngine.lastStepAt (fst r) = 0%Z
   \/ exists ev, In ev (snd r) /\ PdrEngine.ts ev = PdrEngine.lastStepAt (fst r)) /\
  Positioning.spaced (snd r).
Proof.
  revert e events. induction inputs as [|i inputs IH]; intros e events Hpos Hle Hlast Hsp.
  - cbn. auto.
  - cbn [fold_left].
    pose proof (listen_lastStepAt e i) as Hl.
    destruct (Positioning.listen e i) as [e' [s|]]; cbn [fst snd] in Hl.
    + destruct Hl as (Hts & He' & Hsrc).
      assert (Hi : (0 < Positioning.timeOf i)%Z) by (apply Hpos; now left).
      apply IH.
      * intros j Hj. apply Hpos. now right.
      * intros ev Hev. apply in_app_or in Hev as [Hev | [<- | []]]; [|lia].
        specialize (Hle ev Hev).
        destruct (PdrEngine.source s); [lia|].
        destruct Hsrc as [Hz | Hz]; lia.
      * right. exists s. split; [|lia]. apply in_or_app. right. now left.
      * apply spaced_app; [exact Hsp|].
        intros d Hd _ Hp. rewrite Hp in Hsrc. specialize (Hle d Hd).
        destruct Hsrc as [Hz | Hz]; lia.
    + rewrite app_nil_r. apply IH.
      * intros j Hj. apply Hpos. now right.
      * intros ev Hev. rewrite Hl. now apply Hle.
      * rewrite Hl. exact Hlast.
      * exact Hsp.
Qed.

(** What the session does about double counts: when it starts from an engine
    without a step ([lastStepAt = 0], as after [new PdrEngine()] or [reset])
    and receives magnetometer, device-motion and pedometer inputs with positive
    timestamps, no pedometer step event is emitted less than 1800 ms after a
    device-motion step event; and a pedometer count above the last-seen count,
    when that is not 0, does emit a pedometer step event, whose count is the
    difference, once every earlier step event is at least 1800 ms old. *)
Theorem pedometer_anti_double_count
  (e0 : PdrEngine.t) (inputs : list Positioning.SensorInput) :
  PdrEngine.lastStepAt e0 = 0%Z ->
  (forall i, In i inputs -> (0 < Positioning.timeOf i)%Z) ->
  let e := fst (Positioning.listenAll e0 inputs) in
  let events := snd (Positioning.listenAll e0 inputs) in
  (forall l1 d l2 p l3,
     events = l1 ++ d :: l2 ++ p :: l3 ->
     PdrEngine.source d = PdrEngine.deviceMotion ->
     PdrEngine.source p = PdrEngine.pedometer ->
     (PdrEngine.ts d + 1800 <= PdrEngine.ts p)%Z) /\
  (forall steps now,
     PdrEngine.pedometerSteps e <> 0%Z ->
     (PdrEngine.pedometerSteps e < steps)%Z ->
     (forall ev, In ev events -> (PdrEngine.ts ev + 1800 <= now)%Z) ->
     snd (Positioning.listen e (Positioning.Pedometer steps now))
     = Some (PdrEngine.mkStepEvent PdrEngine.pedometer (PdrEngine.stepLengthMeters e) now
                                   (steps - PdrEngine.pedometerSteps e))).
Proof.
  intros H0 Hpos. cbv zeta. unfold Positioning.listenAll.
  destruct (listenAll_invariant inputs e0 [] Hpos) as (Hle & Hlast & Hsp).
  { intros ev []. }
  { now left. }
  { exact I. }
  cbv zeta in Hle, Hlast, Hsp.
  set (r := fold_left _ inputs (e0, [])) in *.
  split.
  - intros l1 d l2 p l3 E Hd Hp. exact (spaced_split _ _ _ _ _ _ Hsp E Hd Hp).
  - intros steps now Hne Hlt Hold.
    cbn [Positioning.listen]. unfold PdrEngine.handlePedometerSteps. cbv zeta.
    apply Z.eqb_neq in Hne. rewrite Hne.
    assert (E1 : Z.ltb 0 (steps - PdrEngine.pedometerSteps (fst r)) = true)
      by (apply Z.ltb_lt; lia).
    rewrite E1.
    assert (E2 : Z.ltb 0 (PdrEngine.lastStepAt (fst r))
                 && Z.ltb (now - PdrEngine.lastStepAt (fst r)) 1800 = false).
    { destruct Hlast as [-> | (ev & Hev & Hts)]; [reflexivity|].
      specialize (Hold ev Hev). apply andb_false_iff. right. apply Z.ltb_ge. lia. }
    rewrite E2. reflexivity.
Qed.

(** *** The walk of the examples, evaluated *)

Lemma hypot3_eval (a b c d : R) :
  0 <= d -> a * a + b * b + c * c = d * d -> Js.hypot3 a b c = d.
Proof. intros Hd H. unfold Js.hypot3. rewrite H. now apply sqrt_square. Qed.

Lemma pdr_clamp_high (n lo hi : R) : lo <= hi -> hi <= n -> PdrMath.clamp n lo hi = hi.
Proof.
  intros H1 H2. unfold PdrMath.clamp. rewrite Rmin_left by lra. now rewrite Rmax_right by lra.
Qed.

Lemma pdr_clamp_low (n lo hi : R) : lo <= hi -> n <= lo -> PdrMath.clamp n lo hi = lo.
Proof.
  intros H1 H2. unfold PdrMath.clamp. rewrite Rmin_right by lra. now rewrite Rmax_left by lra.
Qed.

(** The first sample: at rest, below the threshold. *)
Lemma walk_sample1 (e : PdrEngine.t) :
  Positioning.stepFields e = ([], PdrEngine.mkPeak false 0, 0%Z, None, 1, 0%Z, 6 / 10) ->
  exists e1,
    Positioning.listen e (Positioning.DeviceMotion (Scenarios.motionOf 0) 1000) = (e1, None) /\
    Positioning.stepFields e1
    = ([0], PdrEngine.mkPeak false 0, 0%Z, Some 1000%Z, 1, 0%Z, 6 / 10).
Proof.
  destruct e as [h gy mh yr mr ss sl ds ps ls li lm st me gr w pk].
  unfold Positioning.stepFields. cbn [PdrEngine.linAccWindow PdrEngine.peak
    PdrEngine.lastStepAt PdrEngine.stationarySince PdrEngine.strideScale
    PdrEngine.pedometerSteps PdrEngine.stepLengthMeters].
  intros E. injection E as -> -> -> -> -> -> ->.
  eexists. split.
  - cbn [Positioning.listen]. unfold PdrEngine.handleDeviceMotion, PdrEngine.fuseHeading.
    cbn [Scenarios.motionOf PdrEngine.rotationAlpha PdrEngine.rotationRateAlpha].
    cbv zeta. unfold PdrEngine.detectStep, PdrEngine.linearAcceleration.
    cbn [Scenarios.motionOf PdrEngine.acceleration PdrEngine.gravity PdrEngine.vx
         PdrEngine.vy PdrEngine.vz PdrEngine.linAccWindow PdrEngine.peak PdrEngine.inPeak
         PdrEngine.max PdrEngine.lastStepAt PdrEngine.stationarySince negb].
    rewrite (hypot3_eval 0 0 0 0) by lra.
    change (PdrEngine.pushWindow [] 0) with [0].
    assert (Em : PdrEngine.mean [0] = 0) by (unfold PdrEngine.mean; cbn; lra).
    assert (Ev : PdrEngine.variance [0] = 0).
    { unfold PdrEngine.variance. rewrite Em. cbn. lra. }
    rewrite Em, Ev, sqrt_0.
    rewrite (pdr_clamp_low (0 + 0 * (26 / 10))) by lra.
    assert (E1 : Js.ltb 0 (Rmax (2 / 100) (6 / 100 * (25 / 100))) = true).
    { apply ltb_true. rewrite Rmax_left by lra. lra. }
    assert (E2 : Js.ltb (6 / 100) 0 = false) by (apply ltb_false; lra).
    rewrite E1, E2. reflexivity.
  - reflexivity.
Qed.

(** The second sample: the acceleration crosses the threshold, a peak opens. *)
Lemma walk_sample2 (e : PdrEngine.t) :
  Positioning.stepFields e
  = ([0], PdrEngine.mkPeak false 0, 0%Z, Some 1000%Z, 1, 0%Z, 6 / 10) ->
  exists e2,
    Positioning.listen e (Positioning.DeviceMotion (Scenarios.motionOf 4) 1050) = (e2, None) /\
    Positioning.stepFields e2
    = ([0; 4], PdrEngine.mkPeak true 4, 0%Z, None, 1, 0%Z, 6 / 10).
Proof.
  destruct e as [h gy mh yr mr ss sl ds ps ls li lm st me gr w pk].
  unfold Positioning.stepFields. cbn [PdrEngine.linAccWindow PdrEngine.peak
    PdrEngine.lastStepAt PdrEngine.stationarySince PdrEngine.strideScale
    PdrEngine.pedometerSteps PdrEngine.stepLengthMeters].
  intros E. injection E as -> -> -> -> -> -> ->.
  eexists. split.
  - cbn [Positioning.listen]. unfold PdrEngine.handleDeviceMotion, PdrEngine.fuseHeading.
    cbn [Scenarios.motionOf PdrEngine.rotationAlpha PdrEngine.rotationRateAlpha].
    cbv zeta. unfold PdrEngine.detectStep, PdrEngine.linearAcceleration.
    cbn [Scenarios.motionOf PdrEngine.acceleration PdrEngine.gravity PdrEngine.vx
         PdrEngine.vy PdrEngine.vz PdrEngine.linAccWindow PdrEngine.peak PdrEngine.inPeak
         PdrEngine.max PdrEngine.lastStepAt PdrEngine.stationarySince negb].
    rewrite (hypot3_eval 4 0 0 4) by lra.
    change (PdrEngine.pushWindow [0] 4) with [0; 4].
    assert (Em : PdrEngine.mean [0; 4] = 2) by (unfold PdrEngine.mean; cbn; lra).
    assert (Ev : 0 <= sqrt (PdrEngine.variance [0; 4])) by apply sqrt_pos.
    rewrite Em. rewrite (pdr_clamp_high (2 + _ * (26 / 10))) by nra.
    assert (E1 : Js.ltb 4 (Rmax (2 / 100) (16 / 10 * (25 / 100))) = false).
    { apply ltb_false. rewrite Rmax_right by lra. lra. }
    assert (E2 : Js.ltb (16 / 10) 4 = true) by (apply ltb_true; lra).
    rewrite E1, E2. reflexivity.
  - reflexivity.
Qed.

(** The third sample: the acceleration falls below the mean, the peak closes
    and counts as a step of 1.05 m. *)
Lemma walk_sample3 (e : PdrEngine.t) :
  Positioning.stepFields e
  = ([0; 4], PdrEngine.mkPeak true 4, 0%Z, None, 1, 0%Z, 6 / 10) ->
  exists e3,
    Positioning.listen e (Positioning.DeviceMotion (Scenarios.motionOf 0) 1100)
    = (e3, Some (PdrEngine.mkStepEvent PdrEngine.deviceMotion (105 / 100 * 1) 1100 1)) /\
    Positioning.stepFields e3
    = ([0; 4; 0], PdrEngine.mkPeak false 4, 1100%Z, Some 1100%Z, 1, 0%Z, 105 / 100 * 1).
Proof.
  destruct e as [h gy mh yr mr ss sl ds ps ls li lm st me gr w pk].
  unfold Positioning.stepFields. cbn [PdrEngine.linAccWindow PdrEngine.peak
    PdrEngine.lastStepAt PdrEngine.stationarySince PdrEngine.strideScale
    PdrEngine.pedometerSteps PdrEngine.stepLengthMeters].
  intros E. injection E as -> -> -> -> -> -> ->.
  eexists. split.
  - cbn [Positioning.listen]. unfold PdrEngine.handleDeviceMotion, PdrEngine.fuseHeading.
    cbn [Scenarios.motionOf PdrEngine.rotationAlpha PdrEngine.rotationRateAlpha].
    cbv zeta. unfold PdrEngine.detectStep, PdrEngine.linearAcceleration.
    cbn [Scenarios.motionOf PdrEngine.acceleration PdrEngine.gravity PdrEngine.vx
         PdrEngine.vy PdrEngine.vz PdrEngine.linAccWindow PdrEngine.peak PdrEngine.inPeak
         PdrEngine.max PdrEngine.lastStepAt PdrEngine.stationarySince PdrEngine.strideScale
         negb].
    rewrite (hypot3_eval 0 0 0 0) by lra.
    change (PdrEngine.pushWindow [0; 4] 0) with [0; 4; 0].
    assert (Em : PdrEngine.mean [0; 4; 0] = 4 / 3) by (unfold PdrEngine.mean; cbn; lra).
    assert (Ev : 1 <= sqrt (PdrEngine.variance [0; 4; 0])).
    { rewrite <- sqrt_1 at 1. apply sqrt_le_1_alt.
      unfold PdrEngine.variance. rewrite Em. cbn. lra. }
    rewrite Em. rewrite (pdr_clamp_high (4 / 3 + _ * (26 / 10))) by nra.
    rewrite (Rmax_left 4 0) by lra.
    assert (E1 : Js.ltb 0 (Rmax (2 / 100) (16 / 10 * (25 / 100))) = true).
    { apply ltb_true. rewrite Rmax_right by lra. lra. }
    assert (E2 : Js.ltb 0 (4 / 3) = true) by (apply ltb_true; lra).
    assert (E3 : Js.ltb (16 / 10) 4 = true) by (apply ltb_true; lra).
    rewrite E1, E2, E3.
    rewrite (Rmin_left (105 / 100)) by lra.
    rewrite (Rmax_right (45 / 100)) by lra.
    reflexivity.
  - reflexivity.
Qed.

(** The pedometer path on known fields. *)
Lemma listen_pedometer_fields (e : PdrEngine.t) (steps now : Z)
  (w : list R) (pk : PdrEngine.Peak) (last : Z) (st : option Z) (ss : R) (prev : Z) (sl : R) :
  Positioning.stepFields e = (w, pk, last, st, ss, prev, sl) ->
  let delta := if Z.eqb prev 0 then 0%Z else (steps - prev)%Z in
  let recently := Z.ltb 0 last && Z.ltb (now - last) 1800 in
  exists e',
    Positioning.listen e (Positioning.Pedometer steps now)
    = (e', if Z.ltb 0 delta && negb recently
           then Some (PdrEngine.mkStepEvent PdrEngine.pedometer sl now delta)
           else None) /\
    Positioning.stepFields e'
    = (w, pk, (if Z.ltb 0 delta && negb recently then now else last), st, ss, steps, sl).
Proof.
  destruct e as [h gy mh yr mr ss0 sl0 ds ps ls li lm st0 me gr w0 pk0].
  unfold Positioning.stepFields. cbn [PdrEngine.linAccWindow PdrEngine.peak
    PdrEngine.lastStepAt PdrEngine.stationarySince PdrEngine.strideScale
    PdrEngine.pedometerSteps PdrEngine.stepLengthMeters].
  intros E. injection E as -> -> -> -> -> -> ->. cbv zeta.
  cbn [Positioning.listen]. unfold PdrEngine.handlePedometerSteps.
  cbn [PdrEngine.pedometerSteps PdrEngine.lastStepAt PdrEngine.stepLengthMeters].
  destruct (Z.ltb 0 (if Z.eqb prev 0 then 0%Z else (steps - prev)%Z)
            && negb (Z.ltb 0 last && Z.ltb (now - last) 1800));
    eexists; split; reflexivity.
Qed.

(** The walk yields one device-motion step at 1100 ms and one pedometer step at
    7000 ms. *)
Lemma walk_events :
  exists e,
    Positioning.listenAll PdrEngine.new Scenarios.walk
    = (e, [ PdrEngine.mkStepEvent PdrEngine.deviceMotion (105 / 100 * 1) 1100 1;
            PdrEngine.mkStepEvent PdrEngine.pedometer (105 / 100 * 1) 7000 1 ]) /\
    Positioning.stepFields e
    = ([0; 4; 0], PdrEngine.mkPeak false 4, 7000%Z, Some 1100%Z, 1, 6%Z, 105 / 100 * 1).
Proof.
  unfold Positioning.listenAll, Scenarios.walk. cbn [fold_left].
  destruct (walk_sample1 PdrEngine.new eq_refl) as (e1 & E1 & F1). rewrite E1.
  destruct (walk_sample2 e1 F1) as (e2 & E2 & F2). rewrite E2.
  destruct (walk_sample3 e2 F2) as (e3 & E3 & F3). rewrite E3.
  destruct (listen_pedometer_fields e3 5 5000 _ _ _ _ _ _ _ F3) as (e4 & E4 & F4).
  rewrite E4.
  destruct (listen_pedometer_fields e4 6 7000 _ _ _ _ _ _ _ F4) as (e5 & E5 & F5).
  rewrite E5.
  exists e5. split; [reflexivity | exact F5].
Qed.

(** C3 on the code, at the input where it departs from the claim: after the
    walk the last device-motion step is 6900 ms old at 8000 ms and the
    pedometer count rises from 6 to 7, yet no step event is emitted, because
    the pedometer step at 7000 ms has moved [lastStepAt], from which the
    listener computes [recentlyDeviceMotion]. The engine notes the count 7
    all the same, so the step is not made up for later. *)
Theorem pedometer_delta_lost :
  exists e e',
    Positioning.listenAll PdrEngine.new Scenarios.walk
    = (e, [ PdrEngine.mkStepEvent PdrEngine.deviceMotion (105 / 100 * 1) 1100 1;
            PdrEngine.mkStepEvent PdrEngine.pedometer (105 / 100 * 1) 7000 1 ]) /\
    PdrEngine.pedometerSteps e = 6%Z /\
    (1100 + 1800 < 8000)%Z /\
    Positioning.listen e (Positioning.Pedometer 7 8000) = (e', None) /\
    PdrEngine.pedometerSteps e' = 7%Z.
Proof.
  destruct walk_events as (e & E & F).
  destruct (listen_pedometer_fields e 7 8000 _ _ _ _ _ _ _ F) as (e' & E' & F').
  exists e, e'. split; [exact E|].
  unfold Positioning.stepFields in F, F'.
  injection F as _ _ _ _ _ Hp _. injection F' as _ _ _ _ _ Hp' _.
  split; [exact Hp|]. split; [lia|]. split; [exact E' | exact Hp'].
Qed.

Lemma pedometer_anti_double_count_witness :
  let e := fst (Positioning.listenAll PdrEngine.new Scenarios.walk) in
  let events := snd (Positioning.listenAll PdrEngine.new Scenarios.walk) in
  (forall l1 d l2 p l3,
     events = l1 ++ d :: l2 ++ p :: l3 ->
     PdrEngine.source d = PdrEngine.deviceMotion ->
     PdrEngine.source p = PdrEngine.pedometer ->
     (PdrEngine.ts d + 1800 <= PdrEngine.ts p)%Z) /\
  (forall steps now,
     PdrEngine.pedometerSteps e <> 0%Z ->
     (PdrEngine.pedometerSteps e < steps)%Z ->
     (forall ev, In ev events -> (PdrEngine.ts ev + 1800 <= now)%Z) ->
     snd (Positioning.listen e (Positioning.Pedometer steps now))
     = Some (PdrEngine.mkStepEvent PdrEngine.pedometer (PdrEngine.stepLengthMeters e) now
                                   (steps - PdrEngine.pedometerSteps e))).
Proof.
  apply (pedometer_anti_double_count PdrEngine.new Scenarios.walk).
  - reflexivity.
  - intros i Hi. cbn in Hi.
    repeat (destruct Hi as [<- | Hi]; [cbn; lia|]). destruct Hi.
Defined.


(** ** Objects and sets *)

Section ObjectLemmas.

Context {V : Type}.

Lemma getOwn_setOwn_same (o : JsObject.t V) (k : string) (v : V) :
  JsObject.getOwn (JsObject.setOwn o k v) k = Some v.
Proof.
  induction o as [|[k' v'] o IH]; cbn.
  - now rewrite String.eqb_refl.
  - destruct (String.eqb k' k) eqn:E; cbn.
    + now rewrite String.eqb_refl.
    + now rewrite E.
Qed.

Lemma getOwn_setOwn_other (o : JsObject.t V) (k k' : string) (v : V) :
  k <> k' -> JsObject.getOwn (JsObject.setOwn o k v) k' = JsObject.getOwn o k'.
Proof.
  intros Hne. induction o as [|[k0 v0] o IH]; cbn.
  - apply String.eqb_neq in Hne. now rewrite Hne.
  - destruct (String.eqb k0 k) eqn:E; cbn.
    + apply String.eqb_eq in E. subst k0.
      apply String.eqb_neq in Hne. now rewrite Hne.
    + destruct (String.eqb k0 k'); [reflexivity | exact IH].
Qed.

Lemma getOwn_in (o : JsObject.t V) (k : string) :
  In k (map fst o) <-> JsObject.getOwn o k <> None.
Proof.
  induction o as [|[k0 v0] o IH]; cbn.
  - split; [intros [] | congruence].
  - destruct (String.eqb k0 k) eqn:E.
    + apply String.eqb_eq in E. split; [discriminate | now left].
    + apply String.eqb_neq in E. rewrite <- IH. split; [intros [?|?]|]; tauto.
Qed.

Lemma setOwn_keys (o : JsObject.t V) (k : string) (v : V) (k' : string) :
  In k' (map fst (JsObject.setOwn o k v)) <-> k' = k \/ In k' (map fst o).
Proof.
  rewrite !getOwn_in. destruct (String.eqb_spec k k') as [-> | Hne].
  - rewrite getOwn_setOwn_same. split; [now left | discriminate].
  - rewrite getOwn_setOwn_other by exact Hne. split; [now right | intros [E | H]; congruence].
Qed.

Lemma setOwn_keys_nodup (o : JsObject.t V) (k : string) (v : V) :
  NoDup (map fst o) -> NoDup (map fst (JsObject.setOwn o k v)).
Proof.
  induction o as [|[k0 v0] o IH]; cbn; intros Hnd.
  - constructor; [intros [] | constructor].
  - inversion Hnd as [|? ? Hnotin Hnd']; subst.
    destruct (String.eqb k0 k) eqn:E; cbn.
    + apply String.eqb_eq in E. subst k0. now constructor.
    + constructor; [|now apply IH].
      rewrite setOwn_keys. apply String.eqb_neq in E. intros [? | ?]; congruence.
Qed.

(** The key [__proto__] is read as [undefined] and written without effect. *)
Lemma get_proto (o : JsObject.t V) : JsObject.get o JsObject.protoKey = None.
Proof. unfold JsObject.get. now rewrite String.eqb_refl. Qed.

Lemma set_proto (o : JsObject.t V) (v : V) : JsObject.set o JsObject.protoKey v = o.
Proof. unfold JsObject.set. now rewrite String.eqb_refl. Qed.

Lemma get_nil (k : string) : JsObject.get (@nil (string * V)) k = None.
Proof. unfold JsObject.get. now destruct (String.eqb k JsObject.protoKey). Qed.

Lemma get_plain (o : JsObject.t V) (k : string) :
  k <> JsObject.protoKey -> JsObject.get o k = JsObject.getOwn o k.
Proof. intros H. unfold JsObject.get. apply String.eqb_neq in H. now rewrite H. Qed.

Lemma set_plain (o : JsObject.t V) (k : string) (v : V) :
  k <> JsObject.protoKey -> JsObject.set o k v = JsObject.setOwn o k v.
Proof. intros H. unfold JsObject.set. apply String.eqb_neq in H. now rewrite H. Qed.

Lemma get_some_plain (o : JsObject.t V) (k : string) :
  JsObject.get o k <> None -> k <> JsObject.protoKey.
Proof. intros H ->. now rewrite get_proto in H. Qed.

Lemma get_set_same (o : JsObject.t V) (k : string) (v : V) :
  k <> JsObject.protoKey -> JsObject.get (JsObject.set o k v) k = Some v.
Proof.
  intros H. rewrite get_plain, set_plain by exact H. apply getOwn_setOwn_same.
Qed.

Lemma get_set_other (o : JsObject.t V) (k k' : string) (v : V) :
  k <> k' -> JsObject.get (JsObject.set o k v) k' = JsObject.get o k'.
Proof.
  intros Hne. destruct (string_dec k JsObject.protoKey) as [-> | Hk].
  - now rewrite set_proto.
  - rewrite set_plain by exact Hk.
    destruct (string_dec k' JsObject.protoKey) as [-> | Hk'].
    + now rewrite !get_proto.
    + rewrite !get_plain by exact Hk'. now apply getOwn_setOwn_other.
Qed.

(** The properties that can be read are own properties; all of them can be
    read on an object without an own property [__proto__], as [set] builds
    them. *)
Lemma get_in (o : JsObject.t V) (k : string) :
  JsObject.get o k <> None -> In k (map fst o).
Proof.
  intros H. pose proof (get_some_plain o k H) as Hk.
  rewrite get_plain in H by exact Hk. now apply getOwn_in.
Qed.

Lemma in_get (o : JsObject.t V) (k : string) :
  k <> JsObject.protoKey -> In k (map fst o) -> JsObject.get o k <> None.
Proof. intros Hk H. rewrite get_plain by exact Hk. now apply getOwn_in. Qed.

Lemma set_keys (o : JsObject.t V) (k : string) (v : V) (k' : string) :
  k <> JsObject.protoKey ->
  In k' (map fst (JsObject.set o k v)) <-> k' = k \/ In k' (map fst o).
Proof. intros H. rewrite set_plain by exact H. apply setOwn_keys. Qed.

Lemma set_keys_nodup (o : JsObject.t V) (k : string) (v : V) :
  NoDup (map fst o) -> NoDup (map fst (JsObject.set o k v)).
Proof.
  intros H. destruct (string_dec k JsObject.protoKey) as [-> | Hk].
  - now rewrite set_proto.
  - rewrite set_plain by exact Hk. now apply setOwn_keys_nodup.
Qed.

Lemma set_keeps_plain (o : JsObject.t V) (k : string) (v : V) :
  ~ In JsObject.protoKey (map fst o) -> ~ In JsObject.protoKey (map fst (JsObject.set o k v)).
Proof.
  intros H. destruct (string_dec k JsObject.protoKey) as [-> | Hk].
  - now rewrite set_proto.
  - rewrite set_keys by exact Hk. intros [E | Hin]; [congruence | contradiction].
Qed.

End ObjectLemmas.

Lemma insertIndex_perm (k : string) (l : list string) :
  Permutation (JsObject.insertIndex k l) (k :: l).
Proof.
  induction l as [|h l IH]; cbn; [reflexivity|].
  destruct (JsObject.indexLeb k h); [reflexivity|].
  rewrite IH. apply perm_swap.
Qed.

Lemma sortIndices_perm (l : list string) : Permutation (JsObject.sortIndices l) l.
Proof.
  induction l as [|h l IH]; cbn; [reflexivity|].
  rewrite insertIndex_perm. now constructor.
Qed.

Lemma filter_split_perm {A : Type} (f : A -> bool) (l : list A) :
  Permutation (filter f l ++ filter (fun a => negb (f a)) l) l.
Proof.
  induction l as [|a l IH]; cbn; [reflexivity|].
  destruct (f a); cbn.
  - now constructor.
  - rewrite <- Permutation_middle. now constructor.
Qed.

(** [Object.keys] lists every key once, in some order. *)
Lemma keys_perm {V : Type} (o : JsObject.t V) : Permutation (JsObject.keys o) (map fst o).
Proof.
  unfold JsObject.keys. rewrite sortIndices_perm. apply filter_split_perm.
Qed.

Lemma has_in (s : JsSet.t) (k : string) : JsSet.has s k = true <-> In k s.
Proof.
  unfold JsSet.has. rewrite existsb_exists. split.
  - intros (x & Hx & E). apply String.eqb_eq in E. now subst.
  - intros H. exists k. split; [exact H | apply String.eqb_refl].
Qed.

Lemma delete_in (s : JsSet.t) (k x : string) :
  In x (JsSet.delete s k) <-> In x s /\ x <> k.
Proof.
  unfold JsSet.delete. rewrite filter_In. rewrite negb_true_iff, String.eqb_neq.
  split; intros [? ?]; split; auto.
Qed.

Lemma delete_nodup (s : JsSet.t) (k : string) : NoDup s -> NoDup (JsSet.delete s k).
Proof. apply NoDup_filter. Qed.

Lemma delete_length (s : JsSet.t) (k : string) :
  NoDup s -> In k s -> S (List.length (JsSet.delete s k)) = List.length s.
Proof.
  unfold JsSet.delete. induction s as [|x s IH]; intros Hnd Hin; [destruct Hin|].
  inversion Hnd as [|? ? Hx Hnd']; subst. cbn.
  destruct (String.eqb_spec k x) as [-> | Hne]; cbn.
  - f_equal.
    assert (E : filter (fun y => negb (String.eqb x y)) s = s).
    { apply filter_all. apply Forall_forall. intros y Hy.
      apply negb_true_iff, String.eqb_neq. intros ->. contradiction. }
    now rewrite E.
  - f_equal. apply IH; [exact Hnd'|]. destruct Hin; congruence.
Qed.

(** ** The adjacency object (shortestPath.ts) *)

Lemma nodeById_some (ns : list StoreMap.Node.t) (k : string) (n : StoreMap.Node.t) :
  StoreMap.nodeById ns k = Some n -> In n ns /\ StoreMap.Node.id n = k.
Proof.
  induction ns as [|n0 ns IH]; cbn; [discriminate|].
  destruct (StoreMap.nodeById ns k) as [m|].
  - intros H. injection H as ->. destruct (IH eq_refl). split; [now right | assumption].
  - destruct (String.eqb_spec (StoreMap.Node.id n0) k) as [E | _]; [|discriminate].
    intros H. injection H as ->. split; [now left | exact E].
Qed.

Lemma nodeById_in (ns : list StoreMap.Node.t) (k : string) :
  StoreMap.nodeById ns k <> None <-> exists n, In n ns /\ StoreMap.Node.id n = k.
Proof.
  split.
  - destruct (StoreMap.nodeById ns k) as [n|] eqn:E; [|congruence].
    intros _. exists n. now apply nodeById_some.
  - intros (n & Hn & <-). induction ns as [|n0 ns IH]; [destruct Hn|]. cbn.
    destruct (StoreMap.nodeById ns (StoreMap.Node.id n)) as [m|] eqn:E; [discriminate|].
    destruct Hn as [-> | Hn].
    + now rewrite String.eqb_refl.
    + exfalso. now apply IH.
Qed.

Lemma set_existing_keys {V : Type} (o : JsObject.t V) (k : string) (v : V) :
  JsObject.get o k <> None -> map fst (JsObject.set o k v) = map fst o.
Proof.
  intros H. pose proof (get_some_plain o k H) as Hk.
  rewrite get_plain in H by exact Hk. rewrite set_plain by exact Hk.
  induction o as [|[k0 v0] o IH]; cbn in *; [congruence|].
  destruct (String.eqb_spec k0 k) as [-> | Hne]; cbn; [reflexivity|].
  f_equal. now apply IH.
Qed.

Lemma push_keys (adj : ShortestPath.Adj) (k : string) (x : string * R) :
  map fst (ShortestPath.push adj k x) = map fst adj.
Proof.
  unfold ShortestPath.push. destruct (JsObject.get adj k) eqn:E; [|reflexivity].
  apply set_existing_keys. congruence.
Qed.

Lemma push_step (adj : ShortestPath.Adj) (k v : string) (w : R) (u' v' : string) :
  k <> JsObject.protoKey ->
  In k (map fst adj) ->
  ShortestPath.adjStep (ShortestPath.push adj k (v, w)) u' v' <->
  ShortestPath.adjStep adj u' v' \/ (u' = k /\ v' = v).
Proof.
  intros Hplain Hk. apply (in_get _ _ Hplain) in Hk.
  unfold ShortestPath.push, ShortestPath.adjStep.
  destruct (JsObject.get adj k) as [l|] eqn:E; [|congruence].
  destruct (String.eqb_spec k u') as [<- | Hne].
  - rewrite get_set_same by exact Hplain. split.
    + intros (nbrs & w' & Hn & Hin). injection Hn as <-.
      apply in_app_or in Hin as [Hin | [Hin | []]].
      * left. now exists l, w'.
      * right. injection Hin as -> _. now split.
    + intros [(nbrs & w' & Hn & Hin) | [_ ->]].
      * rewrite E in Hn. injection Hn as <-. exists (l ++ [(v, w)]), w'. split; [reflexivity|].
        apply in_or_app. now left.
      * exists (l ++ [(v, w)]), w. split; [reflexivity|]. apply in_or_app. right. now left.
  - rewrite get_set_other by exact Hne. split; [now left|].
    intros [H | [-> _]]; [exact H | congruence].
Qed.

Section BuildAdjacency.

Variable ns : list StoreMap.Node.t.

Hypothesis ids_plain : forall n, In n ns -> StoreMap.Node.id n <> JsObject.protoKey.

Lemma nodeById_plain (k : string) : StoreMap.nodeById ns k <> None -> k <> JsObject.protoKey.
Proof. intros H. apply nodeById_in in H as (n & Hn & <-). now apply ids_plain. Qed.

(** The first loop creates an empty entry list for every node id. *)
Lemma emptyEntries_spec (l : list StoreMap.Node.t) (adj : ShortestPath.Adj) :
  (forall n, In n l -> StoreMap.Node.id n <> JsObject.protoKey) ->
  NoDup (map fst adj) ->
  let adj' := fold_left (fun adj n => JsObject.set adj (StoreMap.Node.id n) []) l adj in
  NoDup (map fst adj') /\
  (forall k, In k (map fst adj') <->
             In k (map fst adj) \/ exists n, In n l /\ StoreMap.Node.id n = k) /\
  ((forall u v, ~ ShortestPath.adjStep adj u v) ->
   forall u v, ~ ShortestPath.adjStep adj' u v).
Proof.
  revert adj. induction l as [|n l IH]; intros adj Hplain Hnd; cbn [fold_left].
  - repeat split; auto. intros [H | (n & [] & _)]. exact H.
  - assert (Hn : StoreMap.Node.id n <> JsObject.protoKey) by (apply Hplain; now left).
    destruct (IH (JsObject.set adj (StoreMap.Node.id n) [])
                (fun m Hm => Hplain m (or_intror Hm)) (set_keys_nodup _ _ _ Hnd))
      as (Hnd' & Hkeys & Hempty).
    cbv zeta in *. split; [exact Hnd'|]. split.
    + intros k. rewrite Hkeys, set_keys by exact Hn. split.
      * intros [[-> | H] | (m & Hm & E)].
        -- right. exists n. split; [now left | reflexivity].
        -- now left.
        -- right. exists m. split; [now right | exact E].
      * intros [H | (m & [<- | Hm] & E)].
        -- left. now right.
        -- left. left. now symmetry.
        -- right. now exists m.
    + intros H0. apply Hempty. intros u v (nbrs & w & Hg & Hin).
      destruct (String.eqb_spec (StoreMap.Node.id n) u) as [<- | Hne].
      * rewrite get_set_same in Hg by exact Hn. injection Hg as <-. destruct Hin.
      * rewrite get_set_other in Hg by exact Hne. apply (H0 u v). now exists nbrs, w.
Qed.

(** One iteration of the loop over the edges adds the arcs of the edge. *)
Lemma edgeEntries_step (adj : ShortestPath.Adj) (e : StoreMap.Edge.t) :
  (forall k, In k (map fst adj) <-> StoreMap.nodeById ns k <> None) ->
  let adj' :=
    match StoreMap.nodeById ns (StoreMap.Edge.from e),
          StoreMap.nodeById ns (StoreMap.Edge.to e) with
    | Some from, Some to =>
        let w := Js.orElse (StoreMap.Edge.distance e)
                           (Geometry.dist (StoreMap.nodePoint from) (StoreMap.nodePoint to)) in
        let adj := ShortestPath.push adj (StoreMap.Edge.from e) (StoreMap.Edge.to e, w) in
        if negb (match StoreMap.Edge.bidirectional e with Some false => true | _ => false end)
        then ShortestPath.push adj (StoreMap.Edge.to e) (StoreMap.Edge.from e, w)
        else adj
    | _, _ => adj
    end in
  map fst adj' = map fst adj /\
  forall u v, ShortestPath.adjStep adj' u v <->
              ShortestPath.adjStep adj u v \/ ShortestPath.arc ns [e] u v.
Proof.
  intros Hkeys. cbv zeta.
  assert (Harc : forall u v, ShortestPath.arc ns [e] u v <->
            StoreMap.nodeById ns (StoreMap.Edge.from e) <> None /\
            StoreMap.nodeById ns (StoreMap.Edge.to e) <> None /\
            ((StoreMap.Edge.from e = u /\ StoreMap.Edge.to e = v) \/
             (StoreMap.Edge.bidirectional e <> Some false /\
              StoreMap.Edge.to e = u /\ StoreMap.Edge.from e = v))).
  { intros u v. unfold ShortestPath.arc. split.
    - intros (e' & [<- | []] & H). exact H.
    - intros H. exists e. split; [now left | exact H]. }
  destruct (StoreMap.nodeById ns (StoreMap.Edge.from e)) as [from|] eqn:Ef.
  2:{ split; [reflexivity|]. intros u v. rewrite Harc. split; [now left|].
      intros [H | (H & _)]; [exact H | congruence]. }
  destruct (StoreMap.nodeById ns (StoreMap.Edge.to e)) as [to|] eqn:Et.
  2:{ split; [reflexivity|]. intros u v. rewrite Harc. split; [now left|].
      intros [H | (_ & H & _)]; [exact H | congruence]. }
  assert (Hf : In (StoreMap.Edge.from e) (map fst adj)) by (apply Hkeys; congruence).
  assert (Ht : In (StoreMap.Edge.to e) (map fst adj)) by (apply Hkeys; congruence).
  set (w := Js.orElse _ _).
  destruct (StoreMap.Edge.bidirectional e) as [[|]|] eqn:Eb; cbn [negb].
  - split; [now rewrite !push_keys|]. intros u v.
    rewrite push_step by (try apply nodeById_plain; try rewrite push_keys; congruence || assumption).
    rewrite push_step by (try apply nodeById_plain; congruence || assumption).
    rewrite Harc. split.
    + intros [[H | [<- <-]] | [<- <-]]; [now left | right | right];
        (split; [congruence|]; split; [congruence|]).
      * now left.
      * right. repeat split. congruence.
    + intros [H | (_ & _ & [[<- <-] | (_ & <- & <-)])]; tauto.
  - split; [now rewrite push_keys|]. intros u v.
    rewrite push_step by (try apply nodeById_plain; congruence || assumption). rewrite Harc. split.
    + intros [H | [<- <-]]; [now left | right].
      split; [congruence|]. split; [congruence|]. now left.
    + intros [H | (_ & _ & [[<- <-] | (Hb & _)])]; [tauto | tauto | congruence].
  - split; [now rewrite !push_keys|]. intros u v.
    rewrite push_step by (try apply nodeById_plain; try rewrite push_keys; congruence || assumption).
    rewrite push_step by (try apply nodeById_plain; congruence || assumption).
    rewrite Harc. split.
    + intros [[H | [<- <-]] | [<- <-]]; [now left | right | right];
        (split; [congruence|]; split; [congruence|]).
      * now left.
      * right. repeat split. congruence.
    + intros [H | (_ & _ & [[<- <-] | (_ & <- & <-)])]; tauto.
Qed.

Lemma arc_app (es1 es2 : list StoreMap.Edge.t) (u v : string) :
  ShortestPath.arc ns (es1 ++ es2) u v <->
  ShortestPath.arc ns es1 u v \/ ShortestPath.arc ns es2 u v.
Proof.
  unfold ShortestPath.arc. split.
  - intros (e & Hin & H). apply in_app_or in Hin as [Hin | Hin]; [left | right]; now exists e.
  - intros [(e & Hin & H) | (e & Hin & H)]; exists e; (split; [|exact H]);
      apply in_or_app; [now left | now right].
Qed.

(** [buildAdjacency] has one key per node id and an entry from [u] to [v]
    exactly for the arcs of the graph. *)
Lemma buildAdjacency_spec (es : list StoreMap.Edge.t) :
  let adj := ShortestPath.buildAdjacency ns es in
  NoDup (map fst adj) /\
  (forall k, In k (map fst adj) <-> StoreMap.nodeById ns k <> None) /\
  (forall u v, ShortestPath.adjStep adj u v <-> ShortestPath.arc ns es u v).
Proof.
  cbv zeta. unfold ShortestPath.buildAdjacency.
  destruct (emptyEntries_spec ns [] ids_plain (NoDup_nil _)) as (Hnd & Hkeys & Hempty).
  cbv zeta in *.
  set (adj0 := fold_left (fun adj n => JsObject.set adj (StoreMap.Node.id n) []) ns []) in *.
  assert (Hkeys0 : forall k, In k (map fst adj0) <-> StoreMap.nodeById ns k <> None).
  { intros k. rewrite Hkeys, nodeById_in. split; [intros [[] | H]; exact H | now right]. }
  assert (Hstep0 : forall u v, ShortestPath.adjStep adj0 u v <-> ShortestPath.arc ns [] u v).
  { intros u v. split.
    - intros H. exfalso. revert H. apply Hempty. intros u' v' (nbrs & w & Hn & _).
      rewrite get_nil in Hn. discriminate.
    - intros (e & [] & _). }
  clear Hkeys Hempty.
  assert (Hgen : forall l seen adj,
    NoDup (map fst adj) ->
    (forall k, In k (map fst adj) <-> StoreMap.nodeById ns k <> None) ->
    (forall u v, ShortestPath.adjStep adj u v <-> ShortestPath.arc ns seen u v) ->
    let adj' := fold_left
      (fun adj e =>
         match StoreMap.nodeById ns (StoreMap.Edge.from e),
               StoreMap.nodeById ns (StoreMap.Edge.to e) with
         | Some from, Some to =>
             let w := Js.orElse (StoreMap.Edge.distance e)
                        (Geometry.dist (StoreMap.nodePoint from) (StoreMap.nodePoint to)) in
             let adj := ShortestPath.push adj (StoreMap.Edge.from e) (StoreMap.Edge.to e, w) in
             if negb (match StoreMap.Edge.bidirectional e with Some false => true | _ => false end)
             then ShortestPath.push adj (StoreMap.Edge.to e) (StoreMap.Edge.from e, w)
             else adj
         | _, _ => adj
         end) l adj in
    NoDup (map fst adj') /\
    (forall k, In k (map fst adj') <-> StoreMap.nodeById ns k <> None) /\
    (forall u v, ShortestPath.adjStep adj' u v <-> ShortestPath.arc ns (seen ++ l) u v)).
  { induction l as [|e l IH]; intros seen adj Hnd' Hk Hs; cbn [fold_left].
    - rewrite app_nil_r. auto.
    - destruct (edgeEntries_step adj e Hk) as (Ekeys & Estep). cbv zeta in Ekeys, Estep.
      replace (seen ++ e :: l) with ((seen ++ [e]) ++ l) by now rewrite <- app_assoc.
      apply IH.
      + now rewrite Ekeys.
      + intros k. now rewrite Ekeys.
      + intros u v. rewrite Estep, arc_app, Hs. reflexivity. }
  exact (Hgen es [] adj0 Hnd Hkeys0 Hstep0).
Qed.

End BuildAdjacency.

(** Whatever the ids of the nodes, the adjacency object has no property
    [__proto__]: a node of that id gets no key, and [dijkstra] never queues
    it. *)
Lemma buildAdjacency_no_proto (ns : list StoreMap.Node.t) (es : list StoreMap.Edge.t) :
  ~ In JsObject.protoKey (map fst (ShortestPath.buildAdjacency ns es)).
Proof.
  unfold ShortestPath.buildAdjacency. cbv zeta.
  set (adj0 := fold_left (fun adj n => JsObject.set adj (StoreMap.Node.id n) []) ns []).
  assert (H0 : ~ In JsObject.protoKey (map fst adj0)).
  { unfold adj0.
    assert (Hgen : forall l (adj : ShortestPath.Adj),
              ~ In JsObject.protoKey (map fst adj) ->
              ~ In JsObject.protoKey
                  (map fst (fold_left
                              (fun adj n => JsObject.set adj (StoreMap.Node.id n) []) l adj))).
    { induction l as [|n l IH]; intros adj Hadj; [exact Hadj|].
      cbn [fold_left]. apply IH. now apply set_keeps_plain. }
    apply (Hgen ns []). intros []. }
  clearbody adj0. revert adj0 H0.
  induction es as [|e es IH]; intros adj H0; [exact H0|].
  cbn [fold_left]. apply IH.
  destruct (StoreMap.nodeById ns (StoreMap.Edge.from e)) as [from|]; [|exact H0].
  destruct (StoreMap.nodeById ns (StoreMap.Edge.to e)) as [to|]; [|exact H0].
  cbv zeta. destruct (negb _); now rewrite ?push_keys.
Qed.

(** ** Dijkstra's loop (shortestPath.ts) *)

(** The scan for the minimum finds a node of [q] with a finite distance, or
    there is none. *)
Lemma pickMin_spec (d : JsObject.t Js.xreal) (q : JsSet.t) :
  match fst (ShortestPath.pickMin d q) with
  | Some u => In u q /\ ShortestPath.finiteAt d u
  | None => forall k, In k q -> ~ ShortestPath.finiteAt d k
  end.
Proof.
  unfold ShortestPath.pickMin.
  assert (Hgen : forall l seen acc,
    match acc with
    | (Some u, Js.Fin r) => In u seen /\ JsObject.get d u = Some (Js.Fin r)
    | (None, Js.PInf) => forall k, In k seen -> ~ ShortestPath.finiteAt d k
    | _ => False
    end ->
    match fst (fold_left
                 (fun (acc : option string * Js.xreal) id =>
                    match JsObject.get d id with
                    | Some di => if Js.xlt di (snd acc) then (Some id, di) else acc
                    | None => acc
                    end) l acc) with
    | Some u => In u (seen ++ l) /\ ShortestPath.finiteAt d u
    | None => forall k, In k (seen ++ l) -> ~ ShortestPath.finiteAt d k
    end).
  { induction l as [|id l IH]; intros seen acc Hacc; cbn [fold_left].
    - rewrite app_nil_r. destruct acc as [[u|] [r|]]; cbn [fst]; try contradiction.
      + destruct Hacc as [Hin Hg]. split; [exact Hin | now exists r].
      + exact Hacc.
    - replace (seen ++ id :: l) with ((seen ++ [id]) ++ l) by now rewrite <- app_assoc.
      apply IH.
      destruct (JsObject.get d id) as [[ri|]|] eqn:Eg.
      + destruct acc as [[u|] [r|]]; cbn [snd Js.xlt Js.lt_x]; try contradiction.
        * destruct (Js.ltb ri r).
          -- split; [apply in_or_app; right; now left | exact Eg].
          -- destruct Hacc as [Hin Hg]. split; [apply in_or_app; now left | exact Hg].
        * split; [apply in_or_app; right; now left | exact Eg].
      + destruct acc as [[u|] [r|]]; cbn [snd Js.xlt]; try contradiction.
        * destruct Hacc as [Hin Hg]. split; [apply in_or_app; now left | exact Hg].
        * intros k Hk. apply in_app_or in Hk as [Hk | [<- | []]]; [now apply Hacc|].
          intros (r & Hr). congruence.
      + destruct acc as [[u|] [r|]]; try contradiction.
        * destruct Hacc as [Hin Hg]. split; [apply in_or_app; now left | exact Hg].
        * intros k Hk. apply in_app_or in Hk as [Hk | [<- | []]]; [now apply Hacc|].
          intros (r & Hr). congruence. }
  apply (Hgen q [] (None, Js.PInf)). intros k [].
Qed.

(** The initial state: every key is in [q], the start has distance 0 and every
    other key infinity. *)
Lemma initState_fold (s : string) (ks : list string) (st : ShortestPath.State) :
  let st' :=
    fold_left
      (fun st id =>
         ShortestPath.mkState
           (JsObject.set (ShortestPath.distMap st) id
                         (if String.eqb id s then Js.Fin 0 else Js.PInf))
           (JsObject.set (ShortestPath.prev st) id None)
           (JsSet.add (ShortestPath.q st) id))
      ks st in
  (forall k, In k ks -> k <> JsObject.protoKey ->
     JsObject.get (ShortestPath.distMap st') k
     = Some (if String.eqb k s then Js.Fin 0 else Js.PInf) /\
     JsObject.get (ShortestPath.prev st') k = Some None) /\
  (forall k, ~ In k ks ->
     JsObject.get (ShortestPath.distMap st') k = JsObject.get (ShortestPath.distMap st) k /\
     JsObject.get (ShortestPath.prev st') k = JsObject.get (ShortestPath.prev st) k) /\
  (forall k, In k (ShortestPath.q st') <-> In k (ShortestPath.q st) \/ In k ks) /\
  (NoDup (ShortestPath.q st) -> NoDup (ShortestPath.q st')).
Proof.
  revert st. induction ks as [|id ks IH]; intros st; cbn [fold_left].
  - split; [intros k []|]. split; [intros k _; split; reflexivity|].
    split; [intros k; cbn; tauto | auto].
  - specialize (IH (ShortestPath.mkState
                      (JsObject.set (ShortestPath.distMap st) id
                                    (if String.eqb id s then Js.Fin 0 else Js.PInf))
                      (JsObject.set (ShortestPath.prev st) id None)
                      (JsSet.add (ShortestPath.q st) id))).
    cbv zeta in *. destruct IH as (Hin & Hout & Hq & Hnd).
    cbn [ShortestPath.distMap ShortestPath.prev ShortestPath.q] in *.
    assert (Hadd : forall k, In k (JsSet.add (ShortestPath.q st) id)
                             <-> In k (ShortestPath.q st) \/ k = id).
    { intros k. unfold JsSet.add. destruct (JsSet.has (ShortestPath.q st) id) eqn:Eh.
      - apply has_in in Eh. split; [now left | intros [H | ->]; assumption].
      - rewrite in_app_iff. cbn. split; intros [H | H]; auto.
        destruct H as [-> | []]. now right. }
    split; [|split; [|split]].
    + intros k H Hplain.
      destruct (in_dec string_dec k ks) as [Hk | Hk]; [now apply Hin|].
      destruct H as [-> | H]; [|contradiction].
      destruct (Hout k Hk) as [E1 E2]. rewrite E1, E2. split; now apply get_set_same.
    + intros k H.
      assert (Hk : ~ In k ks) by (intros Hk; apply H; now right).
      destruct (Hout k Hk) as [E1 E2]. rewrite E1, E2.
      split; apply get_set_other; intros ->; apply H; now left.
    + intros k. rewrite Hq, Hadd. cbn. split; [intros [[H | ->] | H] | intros [H | [-> | H]]]; auto.
    + intros Hnd0. apply Hnd. unfold JsSet.add.
      destruct (JsSet.has (ShortestPath.q st) id) eqn:Eh; [exact Hnd0|].
      apply NoDup_app; [exact Hnd0 | constructor; [intros [] | constructor] |].
      intros x Hx [-> | []].
      assert (JsSet.has (ShortestPath.q st) x = true) by now apply has_in.
      congruence.
Qed.

Section Dijkstra.

Variable adj : ShortestPath.Adj.
Variable s : string.

Hypothesis keys_nodup : NoDup (map fst adj).
Hypothesis entries_closed : forall u v, ShortestPath.adjStep adj u v -> In v (map fst adj).
Hypothesis start_key : In s (map fst adj).
Hypothesis keys_plain : forall k, In k (map fst adj) -> k <> JsObject.protoKey.

Lemma finiteAt_set (d : JsObject.t Js.xreal) (k : string) (r : R) (k' : string) :
  ShortestPath.finiteAt d k' -> ShortestPath.finiteAt (JsObject.set d k (Js.Fin r)) k'.
Proof.
  intros (r' & H). destruct (String.eqb_spec k k') as [-> | Hne].
  - exists r. apply get_set_same. apply (get_some_plain d k'). congruence.
  - exists r'. now rewrite get_set_other.
Qed.

Lemma initState_searching :
  ShortestPath.searching adj s [] (ShortestPath.initState adj s) /\
  ShortestPath.settled adj [] (ShortestPath.initState adj s).
Proof.
  unfold ShortestPath.initState.
  destruct (initState_fold s (JsObject.keys adj) (ShortestPath.mkState [] [] []))
    as (Hin & Hout & Hq & Hnd).
  cbv zeta in *.
  set (st := fold_left _ (JsObject.keys adj) _) in *.
  cbn [ShortestPath.distMap ShortestPath.prev ShortestPath.q] in *.
  assert (Hk : forall k, In k (JsObject.keys adj) <-> In k (map fst adj)).
  { intros k. split; apply Permutation_in; [|symmetry]; apply keys_perm. }
  split; [|intros u v []].
  unfold ShortestPath.searching.
  split; [apply Hnd; constructor|]. split; [constructor|].
  split; [intros k; rewrite Hq, <- Hk; cbn; tauto|].
  split; [intros k _ []|].
  split.
  { intros k. rewrite <- Hk. split.
    - intros H. destruct (Hin k H (keys_plain k (proj1 (Hk k) H))) as [E _].
      rewrite E. discriminate.
    - intros H. destruct (in_dec string_dec k (JsObject.keys adj)) as [Hi | Hi]; [exact Hi|].
      destruct (Hout k Hi) as [E _]. rewrite E, get_nil in H. now elim H. }
  split.
  { intros k H. pose proof (keys_plain k H) as Hp. apply Hk in H.
    destruct (Hin k H Hp) as [_ E]. rewrite E. discriminate. }
  split.
  { exists 0. pose proof (keys_plain s start_key) as Hp. apply Hk in start_key.
    destruct (Hin s start_key Hp) as [E _].
    now rewrite E, String.eqb_refl. }
  split; [intros u []|].
  intros v (r & Hr). left.
  destruct (in_dec string_dec v (JsObject.keys adj)) as [Hi | Hi].
  - destruct (Hin v Hi (keys_plain v (proj1 (Hk v) Hi))) as [E _]. rewrite E in Hr.
    destruct (String.eqb_spec v s); [assumption | discriminate].
  - destruct (Hout v Hi) as [E _]. rewrite E, get_nil in Hr. discriminate.
Qed.

(** Taking [u] out of [q]. *)
Lemma take_searching (done : list string) (st : ShortestPath.State) (u : string) :
  ShortestPath.searching adj s done st ->
  In u (ShortestPath.q st) ->
  ShortestPath.finiteAt (ShortestPath.distMap st) u ->
  ShortestPath.searching adj s (u :: done)
    (ShortestPath.mkState (ShortestPath.distMap st) (ShortestPath.prev st)
                          (JsSet.delete (ShortestPath.q st) u)).
Proof.
  intros (Hndq & Hndd & Hsplit & Hdisj & Hdom & Hpdom & Hs & Hfin & Hprev) Hu Hfu.
  unfold ShortestPath.searching.
  cbn [ShortestPath.distMap ShortestPath.prev ShortestPath.q].
  split; [now apply delete_nodup|].
  split; [constructor; [now apply Hdisj | exact Hndd]|].
  split.
  { intros k. rewrite Hsplit, delete_in. cbn.
    destruct (string_dec k u) as [-> | Hne]; [tauto|].
    split; [intros [H | H]; auto | intros [[H _] | [H | H]]; auto]. congruence. }
  split.
  { intros k Hk [<- | Hd]; apply delete_in in Hk as [Hk Hne]; [congruence|].
    now apply (Hdisj k). }
  split; [exact Hdom|]. split; [exact Hpdom|]. split; [exact Hs|].
  split; [intros u' [<- | H]; [exact Hfu | now apply Hfin]|].
  intros v Hv. destruct (Hprev v Hv) as [-> | (u0 & Hp & Hst & Hin & Hafter)]; [now left|].
  right. exists u0. split; [exact Hp|]. split; [exact Hst|]. split; [now right|].
  intros l1 l2 E. destruct l1 as [|x l1]; cbn in E; injection E as -> E.
  - now subst.
  - now apply (Hafter l1 l2).
Qed.

(** The relaxation of one entry of [u], a node of [done]. *)
Lemma relax_searching (done : list string) (st : ShortestPath.State)
  (u v : string) (w : R) :
  ShortestPath.searching adj s done st ->
  In u done ->
  ShortestPath.adjStep adj u v ->
  let st' := ShortestPath.relax u st (v, w) in
  ShortestPath.searching adj s done st' /\
  ShortestPath.q st' = ShortestPath.q st /\
  ShortestPath.finiteAt (ShortestPath.distMap st') v /\
  (forall k, ShortestPath.finiteAt (ShortestPath.distMap st) k ->
             ShortestPath.finiteAt (ShortestPath.distMap st') k).
Proof.
  intros Hinv Hu Hstep. cbv zeta.
  pose proof Hinv as (Hndq & Hndd & Hsplit & Hdisj & Hdom & Hpdom & Hs & Hfin & Hprev).
  assert (Hvk : In v (map fst adj)) by exact (entries_closed u v Hstep).
  pose proof (keys_plain v Hvk) as Hvp.
  unfold ShortestPath.relax.
  destruct (JsSet.has (ShortestPath.q st) v) eqn:Ehas; cbn [negb].
  2:{ split; [exact Hinv|]. split; [reflexivity|]. split; [|auto].
      apply Hfin. apply Hsplit in Hvk as [Hq | Hd]; [|exact Hd].
      apply has_in in Hq. congruence. }
  apply has_in in Ehas.
  destruct (Hfin u Hu) as (du & Edu). rewrite Edu.
  destruct (JsObject.get (ShortestPath.distMap st) v) as [dv|] eqn:Edv.
  2:{ exfalso. apply Hdom in Hvk. congruence. }
  cbn [Js.xadd Js.xlt].
  destruct (Js.lt_x (du + w) dv) eqn:Elt.
  - cbn [ShortestPath.distMap ShortestPath.prev ShortestPath.q].
    split; [|split; [reflexivity|split; [exists (du + w); apply get_set_same; exact Hvp|]]].
    2:{ intros k. apply finiteAt_set. }
    unfold ShortestPath.searching.
    cbn [ShortestPath.distMap ShortestPath.prev ShortestPath.q].
    split; [exact Hndq|]. split; [exact Hndd|]. split; [exact Hsplit|].
    split; [exact Hdisj|].
    split.
    { intros k. rewrite Hdom. destruct (String.eqb_spec v k) as [<- | Hne].
      - rewrite get_set_same by exact Hvp. rewrite Edv. split; discriminate.
      - now rewrite get_set_other. }
    split.
    { intros k Hk. destruct (String.eqb_spec v k) as [<- | Hne].
      - rewrite get_set_same by exact Hvp. discriminate.
      - rewrite get_set_other by exact Hne. now apply Hpdom. }
    split; [now apply finiteAt_set|].
    split; [intros u' Hu'; apply finiteAt_set; now apply Hfin|].
    intros k (r & Hr). destruct (String.eqb_spec v k) as [<- | Hne].
    + right. exists u. split; [apply get_set_same; exact Hvp|]. split; [exact Hstep|].
      split; [exact Hu|]. intros l1 l2 E. exfalso. apply (Hdisj v Ehas).
      rewrite E. apply in_or_app. right. now left.
    + rewrite get_set_other in Hr by exact Hne.
      destruct (Hprev k (ex_intro _ r Hr)) as [-> | (u0 & Hp & Hrest)]; [now left|].
      right. exists u0. split; [|exact Hrest]. now rewrite get_set_other.
  - split; [exact Hinv|]. split; [reflexivity|]. split; [|auto].
    destruct dv as [rv|]; [now exists rv | discriminate].
Qed.

Lemma relax_fold (done : list string) (u : string) (l : list (string * R))
  (st : ShortestPath.State) :
  ShortestPath.searching adj s done st ->
  In u done ->
  (forall v w, In (v, w) l -> ShortestPath.adjStep adj u v) ->
  let st' := fold_left (ShortestPath.relax u) l st in
  ShortestPath.searching adj s done st' /\
  ShortestPath.q st' = ShortestPath.q st /\
  (forall v w, In (v, w) l -> ShortestPath.finiteAt (ShortestPath.distMap st') v) /\
  (forall k, ShortestPath.finiteAt (ShortestPath.distMap st) k ->
             ShortestPath.finiteAt (ShortestPath.distMap st') k).
Proof.
  revert st. induction l as [|[v w] l IH]; intros st Hinv Hu Hl; cbn [fold_left].
  - split; [exact Hinv|]. split; [reflexivity|]. split; [intros v w [] | auto].
  - destruct (relax_searching done st u v w Hinv Hu) as (Hinv1 & Hq1 & Hfv & Hmono1).
    { apply (Hl v w). now left. }
    cbv zeta in *.
    destruct (IH (ShortestPath.relax u st (v, w)) Hinv1 Hu) as (Hinv2 & Hq2 & Hall & Hmono2).
    { intros v' w' H. apply (Hl v' w'). now right. }
    split; [exact Hinv2|]. split; [congruence|]. split; [|auto].
    intros v' w' [E | H].
    + injection E as <- <-. now apply Hmono2.
    + now apply (Hall v' w').
Qed.

(** One iteration of the loop keeps the invariant and settles the node it
    took. *)
Lemma iteration_searching (done : list string) (st : ShortestPath.State) (u : string) :
  ShortestPath.searching adj s done st ->
  ShortestPath.settled adj done st ->
  In u (ShortestPath.q st) ->
  ShortestPath.finiteAt (ShortestPath.distMap st) u ->
  let st' :=
    fold_left (ShortestPath.relax u) (Js.orElse (JsObject.get adj u) [])
      (ShortestPath.mkState (ShortestPath.distMap st) (ShortestPath.prev st)
                            (JsSet.delete (ShortestPath.q st) u)) in
  ShortestPath.searching adj s (u :: done) st' /\
  ShortestPath.settled adj (u :: done) st' /\
  ShortestPath.q st' = JsSet.delete (ShortestPath.q st) u.
Proof.
  intros Hinv Hset Hu Hfu. cbv zeta.
  pose proof (take_searching done st u Hinv Hu Hfu) as Hinv1.
  destruct (relax_fold (u :: done) u (Js.orElse (JsObject.get adj u) []) _ Hinv1)
    as (Hinv2 & Hq2 & Hall & Hmono).
  { now left. }
  { intros v w Hin. destruct (JsObject.get adj u) as [nbrs|] eqn:E; [|destruct Hin].
    now exists nbrs, w. }
  cbv zeta in *. split; [exact Hinv2|]. split; [|exact Hq2].
  intros u' v [<- | Hu'] (nbrs & w & Hn & Hin).
  - apply (Hall v w). now rewrite Hn.
  - apply Hmono. cbn [ShortestPath.distMap]. apply (Hset u' v Hu'). now exists nbrs, w.
Qed.

End Dijkstra.

Section DijkstraResult.

Variable adj : ShortestPath.Adj.
Variable s : string.

Hypothesis keys_nodup : NoDup (map fst adj).
Hypothesis entries_closed : forall u v, ShortestPath.adjStep adj u v -> In v (map fst adj).
Hypothesis start_key : In s (map fst adj).
Hypothesis keys_plain : forall k, In k (map fst adj) -> k <> JsObject.protoKey.
Hypothesis keys_truthy : forall k, In k (map fst adj) -> Js.truthy k = true.

Lemma dijkstraLoop_nonempty (fuel : nat) (st : ShortestPath.State) :
  ShortestPath.q st <> [] ->
  ShortestPath.dijkstraLoop (S fuel) adj st =
  match fst (ShortestPath.pickMin (ShortestPath.distMap st) (ShortestPath.q st)) with
  | None => st
  | Some u =>
      if negb (Js.truthy u) then st
      else
        ShortestPath.dijkstraLoop fuel adj
          (fold_left (ShortestPath.relax u) (Js.orElse (JsObject.get adj u) [])
             (ShortestPath.mkState (ShortestPath.distMap st) (ShortestPath.prev st)
                                   (JsSet.delete (ShortestPath.q st) u)))
  end.
Proof.
  intros Hne. cbn [ShortestPath.dijkstraLoop].
  destruct (ShortestPath.q st); [congruence | reflexivity].
Qed.

(** The loop ends, within as many iterations as [q] has nodes, in a state
    where no node left in [q] has a finite distance. *)
Lemma dijkstraLoop_spec (fuel : nat) (st : ShortestPath.State) (done : list string) :
  ShortestPath.searching adj s done st ->
  ShortestPath.settled adj done st ->
  (List.length (ShortestPath.q st) <= fuel)%nat ->
  exists done',
    ShortestPath.searching adj s done' (ShortestPath.dijkstraLoop fuel adj st) /\
    ShortestPath.settled adj done' (ShortestPath.dijkstraLoop fuel adj st) /\
    forall k, In k (ShortestPath.q (ShortestPath.dijkstraLoop fuel adj st)) ->
              ~ ShortestPath.finiteAt (ShortestPath.distMap (ShortestPath.dijkstraLoop fuel adj st)) k.
Proof.
  revert st done. induction fuel as [|fuel IH]; intros st done Hinv Hset Hlen.
  - exists done. cbn [ShortestPath.dijkstraLoop]. split; [exact Hinv|]. split; [exact Hset|].
    destruct (ShortestPath.q st) eqn:Eq; [intros k [] | cbn in Hlen; lia].
  - destruct (ShortestPath.q st) as [|x rest] eqn:Eq.
    { exists done. cbn [ShortestPath.dijkstraLoop]. rewrite Eq.
      split; [exact Hinv|]. split; [exact Hset|]. rewrite Eq. intros k []. }
    rewrite dijkstraLoop_nonempty by (rewrite Eq; discriminate).
    pose proof (pickMin_spec (ShortestPath.distMap st) (ShortestPath.q st)) as Hpick.
    destruct (fst (ShortestPath.pickMin (ShortestPath.distMap st) (ShortestPath.q st)))
      as [u|].
    2:{ exists done. split; [exact Hinv|]. split; [exact Hset | exact Hpick]. }
    destruct Hpick as [Hu Hfu].
    assert (Hk : In u (map fst adj)).
    { destruct Hinv as (_ & _ & Hsplit & _). apply Hsplit. now left. }
    rewrite (keys_truthy u Hk). cbn [negb].
    destruct (iteration_searching adj s entries_closed keys_plain done st u Hinv Hset Hu Hfu)
      as (Hinv' & Hset' & Hq').
    cbv zeta in *.
    apply (IH _ (u :: done) Hinv' Hset').
    rewrite Hq'.
    assert (Hndq : NoDup (ShortestPath.q st)) by (destruct Hinv as (H & _); exact H).
    pose proof (delete_length _ u Hndq Hu) as Hdel.
    rewrite Eq in *. cbn [List.length] in Hlen, Hdel. lia.
Qed.

Lemma dijkstra_spec :
  exists done,
    ShortestPath.searching adj s done (ShortestPath.dijkstra adj s) /\
    ShortestPath.settled adj done (ShortestPath.dijkstra adj s) /\
    forall k, In k (ShortestPath.q (ShortestPath.dijkstra adj s)) ->
              ~ ShortestPath.finiteAt (ShortestPath.distMap (ShortestPath.dijkstra adj s)) k.
Proof.
  unfold ShortestPath.dijkstra. cbv zeta.
  destruct (initState_searching adj s start_key keys_plain) as [Hinv Hset].
  now apply (dijkstraLoop_spec _ _ [] Hinv Hset).
Qed.

(** In the final state every node of finite distance has been taken out of
    [q]. *)
Lemma finite_done (done : list string) (st : ShortestPath.State) (v : string) :
  ShortestPath.searching adj s done st ->
  (forall k, In k (ShortestPath.q st) -> ~ ShortestPath.finiteAt (ShortestPath.distMap st) k) ->
  ShortestPath.finiteAt (ShortestPath.distMap st) v ->
  In v done.
Proof.
  intros (_ & _ & Hsplit & _ & Hdom & _) Hq Hv.
  assert (Hk : In v (map fst adj)).
  { apply Hdom. destruct Hv as (r & Hr). congruence. }
  apply Hsplit in Hk as [Hk | Hk]; [|exact Hk]. now elim (Hq v Hk).
Qed.

(** Completeness: whatever a path of entries reaches from the start has a
    finite distance. *)
Lemma chain_finite (done : list string) (st : ShortestPath.State) :
  ShortestPath.searching adj s done st ->
  ShortestPath.settled adj done st ->
  (forall k, In k (ShortestPath.q st) -> ~ ShortestPath.finiteAt (ShortestPath.distMap st) k) ->
  forall l a,
    ShortestPath.finiteAt (ShortestPath.distMap st) a ->
    hd_error l = Some a ->
    ShortestPath.chain (ShortestPath.adjStep adj) l ->
    ShortestPath.finiteAt (ShortestPath.distMap st) (last l a).
Proof.
  intros Hinv Hset Hq.
  induction l as [|x l IH]; intros a Ha Hhd Hchain; [discriminate|].
  cbn in Hhd. injection Hhd as ->.
  destruct l as [|y l]; [exact Ha|].
  cbn [ShortestPath.chain] in Hchain. destruct Hchain as [Hstep Hchain].
  assert (Hy : ShortestPath.finiteAt (ShortestPath.distMap st) y).
  { apply (Hset a y); [|exact Hstep]. now apply (finite_done done st a Hinv Hq). }
  change (last (a :: y :: l) a) with (last (y :: l) a).
  rewrite (last_default l y a y).
  exact (IH y Hy eq_refl Hchain).
Qed.

Lemma connected_finite (done : list string) (st : ShortestPath.State) (v : string) :
  ShortestPath.searching adj s done st ->
  ShortestPath.settled adj done st ->
  (forall k, In k (ShortestPath.q st) -> ~ ShortestPath.finiteAt (ShortestPath.distMap st) k) ->
  ShortestPath.connected (ShortestPath.adjStep adj) s v ->
  ShortestPath.finiteAt (ShortestPath.distMap st) v.
Proof.
  intros Hinv Hset Hq (l & Hhd & Hlast & Hchain). subst v.
  apply (chain_finite done st Hinv Hset Hq l s); auto.
  destruct Hinv as (_ & _ & _ & _ & _ & _ & H & _). exact H.
Qed.

(** Following [prev] from a node taken out of [q] leads to the start, within
    as many iterations as nodes were taken before it, along entries of [adj]. *)
Lemma reconstructLoop_chain (done : list string) (st : ShortestPath.State) :
  ShortestPath.searching adj s done st ->
  forall fuel l1 v l2 acc,
    done = l1 ++ v :: l2 ->
    (List.length l2 < fuel)%nat ->
    exists L,
      ShortestPath.reconstructLoop fuel (ShortestPath.prev st) s (Some v) acc
      = Some (acc ++ v :: L) /\
      last (v :: L) v = s /\
      ShortestPath.chain (fun a b => ShortestPath.adjStep adj b a) (v :: L).
Proof.
  intros Hinv.
  pose proof Hinv as (_ & _ & Hsplit & _ & _ & _ & _ & Hfin & Hprev).
  induction fuel as [|fuel IH]; intros l1 v l2 acc Hdone Hlen; [lia|].
  assert (Hv : In v done) by (rewrite Hdone; apply in_or_app; right; now left).
  cbn [ShortestPath.reconstructLoop].
  rewrite keys_truthy by (apply Hsplit; now right). cbn [negb].
  destruct (String.eqb_spec v s) as [-> | Hne].
  - exists []. repeat split.
  - destruct (Hprev v (Hfin v Hv)) as [-> | (u & Hp & Hstep & Hu & Hafter)]; [congruence|].
    rewrite Hp.
    destruct (in_split u l2 (Hafter l1 l2 Hdone)) as (l2a & l2b & E).
    destruct (IH (l1 ++ v :: l2a) u l2b (acc ++ [v])) as (L & EL & Hlast & Hchain).
    { rewrite Hdone, E. now rewrite <- app_assoc. }
    { rewrite E, length_app in Hlen. cbn in Hlen. lia. }
    exists (u :: L). split; [|split].
    + rewrite EL. now rewrite <- app_assoc.
    + change (last (v :: u :: L) v) with (last (u :: L) v).
      now rewrite (last_default L u v u).
    + split; [exact Hstep | exact Hchain].
Qed.

End DijkstraResult.

Lemma chain_snoc (step : string -> string -> Prop) (l : list string) (a b : string) :
  ShortestPath.chain step (l ++ [a]) -> step a b -> ShortestPath.chain step (l ++ [a; b]).
Proof.
  induction l as [|x l IH]; intros Hc Hs.
  - cbn. auto.
  - destruct l as [|y l].
    + cbn in *. tauto.
    + cbn [app ShortestPath.chain] in *. destruct Hc as [Hxy Hc]. split; [exact Hxy|].
      now apply IH.
Qed.

(** A backward chain, reversed, is a path. *)
Lemma chain_rev (step : string -> string -> Prop) (l : list string) :
  ShortestPath.chain (fun a b => step b a) l -> ShortestPath.chain step (rev l).
Proof.
  induction l as [|a l IH]; intros Hc; [exact I|].
  destruct l as [|b l]; [exact I|].
  cbn [ShortestPath.chain] in Hc. destruct Hc as [Hba Hc].
  specialize (IH Hc). cbn [rev] in *.
  rewrite <- app_assoc. cbn [app]. now apply chain_snoc.
Qed.

Lemma hd_error_rev {A : Type} (l : list A) (x d : A) :
  hd_error (rev (x :: l)) = Some (last (x :: l) d).
Proof.
  revert x. induction l as [|y l IH]; intros x; [reflexivity|].
  change (last (x :: y :: l) d) with (last (y :: l) d).
  rewrite <- (IH y). cbn [rev].
  destruct (rev l ++ [y]) eqn:E; [|reflexivity].
  destruct (rev l); discriminate.
Qed.

Lemma last_rev {A : Type} (l : list A) (x d : A) : last (rev (x :: l)) d = x.
Proof. cbn [rev]. apply last_last. Qed.

Lemma chain_impl (step step' : string -> string -> Prop) (l : list string) :
  (forall a b, step a b -> step' a b) ->
  ShortestPath.chain step l -> ShortestPath.chain step' l.
Proof.
  intros H. induction l as [|a l IH]; [auto|].
  destruct l as [|b l]; [auto|].
  cbn [ShortestPath.chain]. intros [Hab Hc]. split; [now apply H | now apply IH].
Qed.

Lemma connected_impl (step step' : string -> string -> Prop) (u v : string) :
  (forall a b, step a b -> step' a b) ->
  ShortestPath.connected step u v -> ShortestPath.connected step' u v.
Proof.
  intros H (l & Hhd & Hlast & Hc). exists l. repeat split; auto.
  now apply (chain_impl step step').
Qed.

(** ** Routing from a free point (shortestPath.ts) *)

(** The adjacency object of a graph without a node [__proto__]: one key per
    node id, none of them [__proto__], and the entries are the arcs. *)
Lemma buildAdjacency_plain (ns : list StoreMap.Node.t) (es : list StoreMap.Edge.t) :
  (forall n, In n ns -> StoreMap.Node.id n <> "__proto__"%string) ->
  let adj := ShortestPath.buildAdjacency ns es in
  NoDup (map fst adj) /\
  (forall k, In k (map fst adj) <-> StoreMap.nodeById ns k <> None) /\
  (forall u v, ShortestPath.adjStep adj u v <-> ShortestPath.arc ns es u v) /\
  (forall k, In k (map fst adj) -> k <> JsObject.protoKey).
Proof.
  intros Hplain. cbv zeta.
  destruct (buildAdjacency_spec ns Hplain es) as (Hnd & Hkeys & Hstep).
  split; [exact Hnd|]. split; [exact Hkeys|]. split; [exact Hstep|].
  intros k Hk. apply Hkeys, nodeById_in in Hk as (n & Hn & <-). now apply Hplain.
Qed.

Lemma searchNodes_plain (map : StoreMap.StoreMap) (startPoint : Geometry.Point2) :
  (forall n, In n (StoreMap.nodes map) -> StoreMap.Node.id n <> "__proto__"%string) ->
  forall es,
    let ns := ShortestPath.searchNodes map startPoint in
    let adj := ShortestPath.buildAdjacency ns es in
    NoDup (List.map fst adj) /\
    (forall k, In k (List.map fst adj) <-> StoreMap.nodeById ns k <> None) /\
    (forall u v, ShortestPath.adjStep adj u v <-> ShortestPath.arc ns es u v) /\
    (forall k, In k (List.map fst adj) -> k <> JsObject.protoKey).
Proof.
  intros Hproto es. apply buildAdjacency_plain.
  intros n Hn. unfold ShortestPath.searchNodes in Hn.
  apply in_app_or in Hn as [Hn | [<- | []]]; [now apply Hproto | discriminate].
Qed.

(** The route on a map whose node ids are neither empty nor [__proto__]: the
    call returns; it returns no route exactly when the destination is not a
    node of the map or no path of arcs leads from the virtual start node to it;
    and a route starts at the virtual node, placed at the snapped start,
    follows arcs of the graph and ends at the destination. *)
Theorem shortestPathFromPoint_spec
  (map : StoreMap.StoreMap) (startPoint : Geometry.Point2) (endNodeId : string) :
  (forall n, In n (StoreMap.nodes map) -> StoreMap.Node.id n <> EmptyString) ->
  (forall n, In n (StoreMap.nodes map) -> StoreMap.Node.id n <> "__proto__"%string) ->
  let ns := ShortestPath.searchNodes map startPoint in
  let es := ShortestPath.searchEdges map startPoint in
  exists r,
    ShortestPath.shortestPathFromPoint map startPoint endNodeId = ShortestPath.Returned r /\
    (r = None <->
     (~ exists n, In n (StoreMap.nodes map) /\ StoreMap.Node.id n = endNodeId) \/
     ~ ShortestPath.connected (ShortestPath.arc ns es) ShortestPath.virtualId endNodeId) /\
    (forall res, r = Some res ->
       hd_error (ShortestPath.nodeIds res) = Some ShortestPath.virtualId /\
       last (ShortestPath.nodeIds res) ShortestPath.virtualId = endNodeId /\
       ShortestPath.chain (ShortestPath.arc ns es) (ShortestPath.nodeIds res) /\
       ShortestPath.points res
       = List.map (ShortestPath.pointOf map
                     (ShortestPath.virtualNode (ShortestPath.snapStart map startPoint)))
                  (ShortestPath.nodeIds res) /\
       hd_error (ShortestPath.points res)
       = Some (SnapToGraph.snapped (ShortestPath.snapStart map startPoint)) /\
       ShortestPath.lengthMeters res = ShortestPath.polylineLength (ShortestPath.points res)).
Proof.
  intros Hids Hproto ns es. unfold ShortestPath.shortestPathFromPoint.
  destruct (existsb _ (StoreMap.nodes map)) eqn:Eex; cbn [negb].
  2:{ exists None. split; [reflexivity|]. split; [|discriminate].
      split; [|reflexivity]. intros _. left. intros (n & Hn & E).
      assert (existsb (fun n => String.eqb (StoreMap.Node.id n) endNodeId) (StoreMap.nodes map)
              = true).
      { apply existsb_exists. exists n. split; [exact Hn | now apply String.eqb_eq]. }
      congruence. }
  apply existsb_exists in Eex as (nEnd & HnEnd & EnEnd). apply String.eqb_eq in EnEnd.
  cbv zeta. fold (ShortestPath.searchNodes map startPoint). fold ns.
  fold (ShortestPath.searchEdges map startPoint). fold es.
  set (v := ShortestPath.virtualNode (ShortestPath.snapStart map startPoint)).
  set (adj := ShortestPath.buildAdjacency ns es).
  destruct (searchNodes_plain map startPoint Hproto es)
    as (Hnd & Hkeys & Hstep & Hplain). fold ns adj in Hnd, Hkeys, Hstep, Hplain.
  assert (Hclosed : forall a b, ShortestPath.adjStep adj a b -> In b (List.map fst adj)).
  { intros a b H. apply Hstep in H as (e & _ & Hf & Ht & [[_ <-] | (_ & _ & <-)]);
      now apply Hkeys. }
  assert (Hstart : In ShortestPath.virtualId (List.map fst adj)).
  { apply Hkeys, nodeById_in. exists v. split; [|reflexivity].
    unfold ns, ShortestPath.searchNodes. apply in_or_app. right. now left. }
  assert (Htruthy : forall k, In k (List.map fst adj) -> Js.truthy k = true).
  { intros k Hk. apply Hkeys, nodeById_in in Hk as (n & Hn & <-).
    unfold ns, ShortestPath.searchNodes in Hn. apply in_app_or in Hn as [Hn | [<- | []]].
    - apply truthy_nonempty. now apply Hids.
    - reflexivity. }
  destruct (dijkstra_spec adj ShortestPath.virtualId Hclosed Hstart Hplain Htruthy)
    as (done & Hinv & Hset & Hq).
  set (st := ShortestPath.dijkstra adj ShortestPath.virtualId) in *.
  destruct (Js.isFinite (Js.orElse (JsObject.get (ShortestPath.distMap st) endNodeId) Js.PInf))
    eqn:Efin; cbn [negb].
  2:{ exists None. split; [reflexivity|]. split; [|discriminate].
      split; [|reflexivity]. intros _. right. intros Hconn.
      apply (connected_impl _ (ShortestPath.adjStep adj)) in Hconn.
      2:{ intros a b. apply Hstep. }
      destruct (connected_finite adj ShortestPath.virtualId done st endNodeId Hinv Hset Hq Hconn)
        as (r & Hr).
      rewrite Hr in Efin. discriminate. }
  assert (Hfend : ShortestPath.finiteAt (ShortestPath.distMap st) endNodeId).
  { unfold ShortestPath.finiteAt. revert Efin.
    destruct (JsObject.get (ShortestPath.distMap st) endNodeId) as [[r|]|];
      try discriminate. intros _. now exists r. }
  pose proof (finite_done adj ShortestPath.virtualId done st endNodeId Hinv Hq Hfend) as Hend.
  destruct (in_split _ _ Hend) as (l1 & l2 & Edone).
  assert (Hlen : (List.length l2 < S (List.length (JsObject.keys adj)))%nat).
  { rewrite (Permutation_length (keys_perm adj)).
    assert (Hle : (List.length done <= List.length (List.map fst adj))%nat).
    { destruct Hinv as (_ & Hndd & Hsplit & _).
      apply NoDup_incl_length; [exact Hndd|]. intros k Hk. apply Hsplit. now right. }
    rewrite Edone, length_app in Hle. cbn in Hle. lia. }
  destruct (reconstructLoop_chain adj ShortestPath.virtualId Htruthy done st Hinv
              _ l1 endNodeId l2 [] Edone Hlen) as (L & EL & Hlast & Hchain).
  unfold ShortestPath.reconstruct. rewrite EL. cbn [option_map app].
  assert (Hpath : ShortestPath.chain (ShortestPath.arc ns es) (rev (endNodeId :: L))).
  { apply chain_rev. eapply chain_impl; [|exact Hchain].
    intros a b. apply Hstep. }
  assert (Hhd : hd_error (rev (endNodeId :: L)) = Some ShortestPath.virtualId).
  { rewrite (hd_error_rev L endNodeId endNodeId). now rewrite Hlast. }
  assert (Hend' : last (rev (endNodeId :: L)) ShortestPath.virtualId = endNodeId)
    by apply last_rev.
  set (path := rev (endNodeId :: L)) in *. clearbody path.
  eexists. split; [reflexivity|].
  split.
  - split; [discriminate|]. intros [Hno | Hno]; exfalso; apply Hno.
    + now exists nEnd.
    + exists path. repeat split; auto.
  - intros res Hres. injection Hres as <-.
    cbn [ShortestPath.nodeIds ShortestPath.points ShortestPath.lengthMeters].
    split; [exact Hhd|]. split; [exact Hend'|]. split; [exact Hpath|].
    split; [reflexivity|]. split; [|reflexivity].
    destruct path as [|x l]; [discriminate|].
    cbn in Hhd. injection Hhd as ->. cbn [List.map hd_error]. f_equal.
    unfold ShortestPath.pointOf. rewrite String.eqb_refl.
    unfold v, ShortestPath.virtualNode. cbn [StoreMap.Node.x StoreMap.Node.y].
    now destruct (SnapToGraph.snapped _).
Qed.

Lemma shortestPathFromPoint_spec_witness :
  exists r,
    ShortestPath.shortestPathFromPoint Scenarios.corridorsMap (Geometry.mkPoint2 0 (1 / 4)) "a1"
    = ShortestPath.Returned r /\
    (r = None <->
     (~ exists n, In n (StoreMap.nodes Scenarios.corridorsMap) /\ StoreMap.Node.id n = "a1"%string) \/
     ~ ShortestPath.connected
         (ShortestPath.arc
            (ShortestPath.searchNodes Scenarios.corridorsMap (Geometry.mkPoint2 0 (1 / 4)))
            (ShortestPath.searchEdges Scenarios.corridorsMap (Geometry.mkPoint2 0 (1 / 4))))
         ShortestPath.virtualId "a1").
Proof.
  destruct (shortestPathFromPoint_spec Scenarios.corridorsMap (Geometry.mkPoint2 0 (1 / 4)) "a1")
    as (r & Hr & Hnone & _).
  - intros n [<- | [<- | [<- | [<- | []]]]]; discriminate.
  - intros n [<- | [<- | [<- | [<- | []]]]]; discriminate.
  - exists r. split; [exact Hr | exact Hnone].
Defined.

(** ** A node whose id is the empty string *)

Lemma junction_usableEdges :
  SnapToGraph.usableEdges Scenarios.junctionMap
  = [Scenarios.plainEdge "a" ""; Scenarios.plainEdge "" "c"].
Proof.
  unfold SnapToGraph.usableEdges. cbn [Scenarios.junctionMap StoreMap.edges Js.orElse].
  apply filter_all. repeat constructor; apply isUsableEdge_bidirectional; discriminate.
Qed.

(** The projection when the point lies behind the first end of the segment:
    the parameter is clamped to 0 and the distance is that to the first end. *)
Lemma project_eval_start (p a b : Geometry.Point2) (d : R) :
  let abx := Geometry.x b - Geometry.x a in
  let aby := Geometry.y b - Geometry.y a in
  let apx := Geometry.x p - Geometry.x a in
  let apy := Geometry.y p - Geometry.y a in
  apx * abx + apy * aby <= 0 ->
  0 <= d ->
  apx * apx + apy * apy = d * d ->
  Geometry.projectPointToSegment p a b =
  Geometry.mkProjection 0
    (Geometry.mkPoint2 (Geometry.x a + abx * 0) (Geometry.y a + aby * 0)) d.
Proof.
  intros abx aby apx apy Hdot Hd Hdist.
  unfold Geometry.projectPointToSegment. cbv zeta.
  fold abx aby apx apy.
  assert (E : (if Js.leb (abx * abx + aby * aby) (1 / 10 ^ 9) then 0
               else Geometry.clamp ((apx * abx + apy * aby) / (abx * abx + aby * aby)) 0 1) = 0).
  { destruct (Js.leb _ _) eqn:El; [reflexivity|]. apply leb_false in El.
    assert (Hq : (apx * abx + apy * aby) / (abx * abx + aby * aby) <= 0).
    { assert (0 < / (abx * abx + aby * aby)) by (apply Rinv_0_lt_compat; lra).
      unfold Rdiv. nra. }
    destruct (clamp_cases ((apx * abx + apy * aby) / (abx * abx + aby * aby)))
      as [[? E]|[[? E]|[? E]]]; rewrite E; lra. }
  rewrite E. f_equal.
  cbn [Geometry.x Geometry.y].
  apply hypot_eval; [exact Hd|].
  rewrite <- Hdist. unfold apx, apy. ring.
Qed.

(** The start (0, 0) snaps onto the edge from "a" to the junction, at "a". *)
Lemma junction_snap :
  ShortestPath.snapStart Scenarios.junctionMap (Geometry.mkPoint2 0 0)
  = SnapToGraph.mkSnapResult (Geometry.mkPoint2 (0 + (5 - 0) * 0) (0 + (0 - 0) * 0))
      (Js.Fin 0) (Some (SnapToGraph.mkEdgeId "a" "")) 0.
Proof.
  unfold ShortestPath.snapStart, SnapToGraph.snapToGraph. cbv zeta.
  rewrite junction_usableEdges.
  cbn [SnapToGraph.hardClampOf SnapToGraph.prevOf SnapToGraph.switchPenaltyMetersOf
       SnapToGraph.maxSnapMetersOf SnapToGraph.hardClamp SnapToGraph.previousEdge
       SnapToGraph.switchPenaltyMeters SnapToGraph.maxSnapMeters Js.orElse].
  assert (P1 : SnapToGraph.candidateProjection (StoreMap.nodes Scenarios.junctionMap)
                 (Geometry.mkPoint2 0 0) (Scenarios.plainEdge "a" "")
               = Some (Geometry.mkProjection 0
                         (Geometry.mkPoint2 (0 + (5 - 0) * 0) (0 + (0 - 0) * 0)) 0)).
  { unfold SnapToGraph.candidateProjection. cbn. f_equal. apply project_eval_start; cbn; lra. }
  assert (P2 : SnapToGraph.candidateProjection (StoreMap.nodes Scenarios.junctionMap)
                 (Geometry.mkPoint2 0 0) (Scenarios.plainEdge "" "c")
               = Some (Geometry.mkProjection 0
                         (Geometry.mkPoint2 (5 + (10 - 5) * 0) (0 + (0 - 0) * 0)) 5)).
  { unfold SnapToGraph.candidateProjection. cbn. f_equal. apply project_eval_start; cbn; lra. }
  unfold SnapToGraph.bestOnEdges. cbn [fold_left].
  rewrite (bestOnEdgesStep_first _ _ _ _ _ _ _ P1).
  rewrite (bestOnEdgesStep_keep _ _ _ _ _ _ _ _ P2) by (cbn; lra).
  cbn [fst negb andb SnapToGraph.resultOn SnapToGraph.distance Geometry.distance
       Geometry.point Geometry.t Js.xlt Js.lt_x].
  assert (E : Js.ltb 3 0 = false) by (apply ltb_false; lra).
  rewrite E. reflexivity.
Qed.

(** The virtual start node is joined to "a", 0 m away, and to the junction,
    5 m away. *)
Lemma junction_virtualEdges :
  ShortestPath.virtualEdges Scenarios.junctionMap (Geometry.mkPoint2 0 0)
  = [ StoreMap.Edge.mk ShortestPath.virtualId "a" (Some 0) (Some true);
      StoreMap.Edge.mk ShortestPath.virtualId "" (Some 5) (Some true) ].
Proof.
  unfold ShortestPath.virtualEdges. cbv zeta. rewrite junction_snap.
  cbn [SnapToGraph.edge SnapToGraph.from SnapToGraph.to].
  change (StoreMap.nodeById (StoreMap.nodes Scenarios.junctionMap) "a")
    with (Some (Scenarios.walkwayNode "a" 0 0)).
  change (StoreMap.nodeById (StoreMap.nodes Scenarios.junctionMap) "")
    with (Some (Scenarios.walkwayNode "" 5 0)).
  cbv iota.
  set (v := ShortestPath.virtualNode _).
  assert (Hda : Geometry.dist (StoreMap.nodePoint v)
                  (StoreMap.nodePoint (Scenarios.walkwayNode "a" 0 0)) = 0).
  { unfold Geometry.dist. cbn. apply hypot_eval; lra. }
  assert (Hdb : Geometry.dist (StoreMap.nodePoint v)
                  (StoreMap.nodePoint (Scenarios.walkwayNode "" 5 0)) = 5).
  { unfold Geometry.dist. cbn. apply hypot_eval; lra. }
  rewrite Hda, Hdb. reflexivity.
Qed.

(** C8, at a map whose junction node has the empty string as its id: the route
    from (0, 0) to "c" is refused, although "c" is a node of the map and arcs
    lead from the virtual start node through the junction to it. The loop of
    [dijkstra] takes the junction out of the queue as its nearest node and
    leaves at [if (!u) break], the empty id being falsy, before "c" gets a
    distance. *)
Theorem shortestPathFromPoint_empty_id :
  ShortestPath.shortestPathFromPoint Scenarios.junctionMap (Geometry.mkPoint2 0 0) "c"
  = ShortestPath.Returned None /\
  (exists n, In n (StoreMap.nodes Scenarios.junctionMap) /\ StoreMap.Node.id n = "c"%string) /\
  ShortestPath.connected
    (ShortestPath.arc
       (ShortestPath.searchNodes Scenarios.junctionMap (Geometry.mkPoint2 0 0))
       (ShortestPath.searchEdges Scenarios.junctionMap (Geometry.mkPoint2 0 0)))
    ShortestPath.virtualId "c".
Proof.
  split; [|split].
  - unfold ShortestPath.shortestPathFromPoint.
    change (existsb _ (StoreMap.nodes Scenarios.junctionMap)) with true. cbn [negb].
    cbv zeta. rewrite junction_virtualEdges, junction_snap.
    assert (Hw : Geometry.dist (Geometry.mkPoint2 0 0) (Geometry.mkPoint2 5 0) = 5).
    { unfold Geometry.dist. cbn. apply hypot_eval; lra. }
    unfold ShortestPath.dijkstra.
    lazy -[Geometry.dist Js.ltb IZR Rplus].
    rewrite Hw.
    replace (Js.ltb (0 + 5) (0 + 0)) with false by (symmetry; apply ltb_false; lra).
    lazy -[Geometry.dist Js.ltb IZR Rplus].
    replace (Js.ltb (0 + 0 + 5) (0 + 5)) with false by (symmetry; apply ltb_false; lra).
    lazy -[Geometry.dist Js.ltb IZR Rplus].
    reflexivity.
  - exists (Scenarios.walkwayNode "c" 10 0). split; [|reflexivity].
    right. right. left. reflexivity.
  - exists [ShortestPath.virtualId; ""%string; "c"%string].
    split; [reflexivity|]. split; [reflexivity|].
    unfold ShortestPath.searchEdges. rewrite junction_virtualEdges.
    cbn [ShortestPath.chain]. split; [|split; [|exact I]].
    + eexists. split; [right; right; right; left; reflexivity|].
      split; [discriminate|]. split; [discriminate|]. left. split; reflexivity.
    + exists (Scenarios.plainEdge "" "c").
      split; [right; left; reflexivity|].
      split; [discriminate|]. split; [discriminate|]. left. split; reflexivity.
Qed.

(** ** A node whose id is [__proto__] *)

(** No route leads to a node of the id [__proto__], connected or not: its
    distance is read from the prototype of [distMap], which is no finite
    number. *)
Lemma shortestPathFromPoint_proto_end (map : StoreMap.StoreMap) (startPoint : Geometry.Point2) :
  ShortestPath.shortestPathFromPoint map startPoint "__proto__" = ShortestPath.Returned None.
Proof.
  unfold ShortestPath.shortestPathFromPoint.
  destruct (negb (existsb _ (StoreMap.nodes map))); [reflexivity|].
  cbv zeta.
  change "__proto__"%string with JsObject.protoKey.
  rewrite get_proto. reflexivity.
Qed.


(** ** Distances, interpolation and clamping (geometry.ts, pdrMath.ts) *)

Lemma dist_nonneg (a b : Geometry.Point2) : 0 <= Geometry.dist a b.
Proof. apply hypot_nonneg. Qed.

Lemma dist_sym (a b : Geometry.Point2) : Geometry.dist a b = Geometry.dist b a.
Proof. unfold Geometry.dist, Js.hypot. f_equal. ring. Qed.

Lemma dist_same (a : Geometry.Point2) : Geometry.dist a a = 0.
Proof. unfold Geometry.dist. apply hypot_eval; [lra | ring]. Qed.

Lemma dist_zero (a b : Geometry.Point2) : Geometry.dist a b = 0 -> a = b.
Proof.
  unfold Geometry.dist, Js.hypot. intros H.
  destruct a as [ax ay], b as [bx by_]. cbn [Geometry.x Geometry.y] in H.
  pose proof (Rle_0_sqr (ax - bx)) as H1. pose proof (Rle_0_sqr (ay - by_)) as H2.
  unfold Rsqr in H1, H2.
  apply sqrt_eq_0 in H; [|lra].
  assert (ax - bx = 0) by nra. assert (ay - by_ = 0) by nra.
  f_equal; lra.
Qed.

(** [dist] is a metric on the plane: it is never negative, symmetric, zero
    exactly between a point and itself, and obeys the triangle inequality. *)
Theorem dist_metric (a b c : Geometry.Point2) :
  0 <= Geometry.dist a b /\
  Geometry.dist a b = Geometry.dist b a /\
  (Geometry.dist a b = 0 <-> a = b) /\
  Geometry.dist a c <= Geometry.dist a b + Geometry.dist b c.
Proof.
  split; [apply dist_nonneg|]. split; [apply dist_sym|]. split.
  - split; [apply dist_zero | intros ->; apply dist_same].
  - apply dist_triangle.
Qed.

Lemma dist_lerp_from (a b : Geometry.Point2) (t : R) :
  Geometry.dist a (Geometry.lerpPoint a b t) = Rabs t * Geometry.dist a b.
Proof.
  unfold Geometry.dist, Geometry.lerpPoint, Js.hypot. cbn [Geometry.x Geometry.y].
  rewrite <- (sqrt_Rsqr_abs t), <- sqrt_mult_alt by apply Rle_0_sqr.
  f_equal. unfold Rsqr. ring.
Qed.

Lemma dist_lerp_to (a b : Geometry.Point2) (t : R) :
  Geometry.dist (Geometry.lerpPoint a b t) b = Rabs (1 - t) * Geometry.dist a b.
Proof.
  unfold Geometry.dist, Geometry.lerpPoint, Js.hypot. cbn [Geometry.x Geometry.y].
  rewrite <- (sqrt_Rsqr_abs (1 - t)), <- sqrt_mult_alt by apply Rle_0_sqr.
  f_equal. unfold Rsqr. ring.
Qed.

(** [lerpPoint] runs from the first point at 0 to the second at 1, and cuts the
    distance between them in the ratio |t| : |1 - t|; for t between 0 and 1 the
    point lies on the segment, the two parts adding up to the whole. *)
Theorem lerpPoint_divides (a b : Geometry.Point2) (t : R) :
  Geometry.lerpPoint a b 0 = a /\
  Geometry.lerpPoint a b 1 = b /\
  Geometry.dist a (Geometry.lerpPoint a b t) = Rabs t * Geometry.dist a b /\
  Geometry.dist (Geometry.lerpPoint a b t) b = Rabs (1 - t) * Geometry.dist a b /\
  (0 <= t <= 1 ->
   Geometry.dist a (Geometry.lerpPoint a b t) + Geometry.dist (Geometry.lerpPoint a b t) b
   = Geometry.dist a b).
Proof.
  split; [|split; [|split; [|split]]].
  - destruct a, b. unfold Geometry.lerpPoint. cbn. f_equal; ring.
  - destruct a, b. unfold Geometry.lerpPoint. cbn. f_equal; ring.
  - apply dist_lerp_from.
  - apply dist_lerp_to.
  - intros Ht. rewrite dist_lerp_from, dist_lerp_to.
    rewrite !Rabs_pos_eq by lra. ring.
Qed.

(** [clamp] as pdrMath.ts, geometry.ts and wifiFix.ts write it: with bounds in
    order the result lies between them and is the argument itself when that
    already does; with the bounds swapped the result is always the lower
    bound [min]. *)
Theorem clamp_between (n lo hi : R) :
  Geometry.clamp n lo hi = PdrMath.clamp n lo hi /\
  WifiFix.clamp n lo hi = PdrMath.clamp n lo hi /\
  (lo <= hi -> lo <= PdrMath.clamp n lo hi <= hi) /\
  (lo <= n <= hi -> PdrMath.clamp n lo hi = n) /\
  (n <= lo -> PdrMath.clamp n lo hi = lo) /\
  (lo <= hi <= n -> PdrMath.clamp n lo hi = hi) /\
  (hi <= lo -> PdrMath.clamp n lo hi = lo).
Proof.
  split; [reflexivity|]. split; [reflexivity|].
  unfold PdrMath.clamp, Rmax, Rmin.
  repeat split; intros; destruct (Rle_dec hi n); destruct (Rle_dec lo _); lra.
Qed.

(** ** Projection onto a segment (geometry.ts) *)

Lemma project_point_lerp (p a b : Geometry.Point2) :
  Geometry.point (Geometry.projectPointToSegment p a b)
  = Geometry.lerpPoint a b (Geometry.t (Geometry.projectPointToSegment p a b)).
Proof. reflexivity. Qed.

Lemma project_distance_dist (p a b : Geometry.Point2) :
  Geometry.distance (Geometry.projectPointToSegment p a b)
  = Geometry.dist p (Geometry.point (Geometry.projectPointToSegment p a b)).
Proof. reflexivity. Qed.

Lemma project_degenerate (p a b : Geometry.Point2) :
  (Geometry.x b - Geometry.x a) * (Geometry.x b - Geometry.x a)
  + (Geometry.y b - Geometry.y a) * (Geometry.y b - Geometry.y a) <= 1 / 10 ^ 9 ->
  Geometry.t (Geometry.projectPointToSegment p a b) = 0.
Proof.
  intros H. unfold Geometry.projectPointToSegment. cbn [Geometry.t].
  apply leb_true in H. now rewrite H.
Qed.

Lemma project_nearest (p a b : Geometry.Point2) (s : R) :
  1 / 10 ^ 9 < (Geometry.x b - Geometry.x a) * (Geometry.x b - Geometry.x a)
               + (Geometry.y b - Geometry.y a) * (Geometry.y b - Geometry.y a) ->
  0 <= s <= 1 ->
  Geometry.distance (Geometry.projectPointToSegment p a b)
  <= Geometry.dist p (Geometry.lerpPoint a b s).
Proof.
  unfold Geometry.projectPointToSegment, Geometry.dist, Geometry.lerpPoint, Js.hypot.
  cbn [Geometry.distance Geometry.x Geometry.y].
  destruct a as [ax ay], b as [bx by_], p as [px py].
  cbn [Geometry.distance Geometry.x Geometry.y].
  set (u1 := bx - ax). set (u2 := by_ - ay).
  set (v1 := px - ax). set (v2 := py - ay).
  set (D := u1 * u1 + u2 * u2).
  intros HD Hs. apply sqrt_le_1_alt.
  apply leb_false in HD. rewrite HD. apply leb_false in HD.
  assert (HD0 : 0 < D) by lra.
  set (s0 := (v1 * u1 + v2 * u2) / D).
  assert (Hs0 : s0 * D = v1 * u1 + v2 * u2) by (unfold s0; field; lra).
  assert (E : forall r, (px - (ax + u1 * r)) * (px - (ax + u1 * r))
                        + (py - (ay + u2 * r)) * (py - (ay + u2 * r))
                        = v1 * v1 + v2 * v2 + D * ((r - s0) * (r - s0) - s0 * s0)).
  { intros r.
    replace (px - (ax + u1 * r)) with (v1 - u1 * r) by (unfold v1; ring).
    replace (py - (ay + u2 * r)) with (v2 - u2 * r) by (unfold v2; ring).
    transitivity (v1 * v1 + v2 * v2 - 2 * r * (v1 * u1 + v2 * u2) + r * r * D);
      [unfold D; ring | rewrite <- Hs0; ring]. }
  rewrite !E.
  assert (Hsq : forall r, 0 <= r <= 1 ->
            (Geometry.clamp s0 0 1 - s0) * (Geometry.clamp s0 0 1 - s0) <= (r - s0) * (r - s0)).
  { intros r Hr. destruct (clamp_cases s0) as [[H E1]|[[H E1]|[H E1]]]; rewrite E1.
    - assert (0 <= r * (r - 2 * s0)) by (apply Rmult_le_pos; lra). lra.
    - pose proof (Rle_0_sqr (r - s0)) as Hq. unfold Rsqr in Hq. lra.
    - assert (0 <= (1 - r) * (2 * s0 - r - 1)) by (apply Rmult_le_pos; lra). lra. }
  specialize (Hsq s Hs).
  assert (D * ((Geometry.clamp s0 0 1 - s0) * (Geometry.clamp s0 0 1 - s0))
          <= D * ((s - s0) * (s - s0))) by (apply Rmult_le_compat_l; lra).
  lra.
Qed.

(** [projectPointToSegment] returns a point of the segment, [lerpPoint a b t]
    with t between 0 and 1, and its distance from [p]; on a segment whose
    squared length is above the threshold 1e-9 no point of the segment is
    nearer to [p]. *)
Theorem projectPointToSegment_nearest (p a b : Geometry.Point2) (s : R) :
  1 / 10 ^ 9 < (Geometry.x b - Geometry.x a) * (Geometry.x b - Geometry.x a)
               + (Geometry.y b - Geometry.y a) * (Geometry.y b - Geometry.y a) ->
  0 <= s <= 1 ->
  let proj := Geometry.projectPointToSegment p a b in
  0 <= Geometry.t proj <= 1 /\
  Geometry.point proj = Geometry.lerpPoint a b (Geometry.t proj) /\
  Geometry.distance proj = Geometry.dist p (Geometry.point proj) /\
  Geometry.distance proj <= Geometry.dist p (Geometry.lerpPoint a b s).
Proof.
  intros HD Hs proj.
  split; [apply project_t_range|]. split; [reflexivity|]. split; [reflexivity|].
  now apply project_nearest.
Qed.

Lemma projectPointToSegment_nearest_witness :
  let proj := Geometry.projectPointToSegment (Geometry.mkPoint2 3 4)
                (Geometry.mkPoint2 0 0) (Geometry.mkPoint2 10 0) in
  0 <= Geometry.t proj <= 1 /\
  Geometry.point proj = Geometry.lerpPoint (Geometry.mkPoint2 0 0) (Geometry.mkPoint2 10 0)
                          (Geometry.t proj) /\
  Geometry.distance proj = Geometry.dist (Geometry.mkPoint2 3 4) (Geometry.point proj) /\
  Geometry.distance proj
  <= Geometry.dist (Geometry.mkPoint2 3 4)
       (Geometry.lerpPoint (Geometry.mkPoint2 0 0) (Geometry.mkPoint2 10 0) (1 / 2)).
Proof.
  apply (projectPointToSegment_nearest (Geometry.mkPoint2 3 4) (Geometry.mkPoint2 0 0)
           (Geometry.mkPoint2 10 0) (1 / 2)); cbn; lra.
Defined.

(** A segment too short to have a direction (squared length at most 1e-9) is
    treated as its first endpoint: the parameter is 0, the point is [a] and the
    distance is that from [p] to [a]. *)
Theorem projectPointToSegment_degenerate (p a b : Geometry.Point2) :
  (Geometry.x b - Geometry.x a) * (Geometry.x b - Geometry.x a)
  + (Geometry.y b - Geometry.y a) * (Geometry.y b - Geometry.y a) <= 1 / 10 ^ 9 ->
  let proj := Geometry.projectPointToSegment p a b in
  Geometry.t proj = 0 /\ Geometry.point proj = a /\ Geometry.distance proj = Geometry.dist p a.
Proof.
  intros H proj.
  assert (Et : Geometry.t proj = 0) by now apply project_degenerate.
  assert (Ep : Geometry.point proj = a).
  { unfold proj. rewrite project_point_lerp. fold proj. rewrite Et.
    destruct a, b. unfold Geometry.lerpPoint. cbn. f_equal; ring. }
  split; [exact Et|]. split; [exact Ep|].
  unfold proj. rewrite project_distance_dist. fold proj. now rewrite Ep.
Qed.

Lemma projectPointToSegment_degenerate_witness :
  let proj := Geometry.projectPointToSegment (Geometry.mkPoint2 3 4)
                (Geometry.mkPoint2 1 1) (Geometry.mkPoint2 1 1) in
  Geometry.t proj = 0 /\ Geometry.point proj = Geometry.mkPoint2 1 1 /\
  Geometry.distance proj = Geometry.dist (Geometry.mkPoint2 3 4) (Geometry.mkPoint2 1 1).
Proof.
  apply (projectPointToSegment_degenerate (Geometry.mkPoint2 3 4) (Geometry.mkPoint2 1 1)
           (Geometry.mkPoint2 1 1)); cbn; lra.
Defined.

(** ** Length of a polyline (routeProgress.ts, turnByTurn.ts, shortestPath.ts) *)

Lemma polylineLength_nonneg (l : list Geometry.Point2) : 0 <= ShortestPath.polylineLength l.
Proof.
  induction l as [|a [|b r] IH]; cbn [ShortestPath.polylineLength]; try lra.
  pose proof (dist_nonneg a b). cbn [ShortestPath.polylineLength] in IH. lra.
Qed.

Lemma skipn_nth_cons {A : Type} (l : list A) (n : nat) (d : A) :
  (n < List.length l)%nat -> skipn n l = nth n l d :: skipn (S n) l.
Proof.
  revert n. induction l as [|a l IH]; intros n Hn; [cbn in Hn; lia|].
  destruct n as [|n]; [reflexivity|].
  cbn [skipn nth]. apply IH. cbn in Hn. lia.
Qed.

(** The index loop of [reduce] from index [k] on adds the length of the
    polyline from vertex [k - 1] on. *)
Lemma length_fold_from (l : list Geometry.Point2) (m k : nat) (acc : R) :
  (1 <= k)%nat -> (k + m = List.length l)%nat ->
  fold_left
    (fun acc i =>
       if Nat.eqb i 0 then 0
       else acc + Geometry.dist (RouteProgress.at_ l (i - 1)) (RouteProgress.at_ l i))
    (seq k m) acc
  = acc + ShortestPath.polylineLength (skipn (k - 1) l).
Proof.
  revert k acc. induction m as [|m IH]; intros k acc Hk Hlen.
  - cbn [seq fold_left].
    rewrite (skipn_nth_cons l (k - 1) (Geometry.mkPoint2 0 0)) by lia.
    replace (S (k - 1)) with k by lia.
    rewrite skipn_all2 by lia. cbn. lra.
  - cbn [seq fold_left].
    destruct (Nat.eqb_spec k 0) as [E | _]; [lia|].
    rewrite IH by lia.
    replace (S k - 1)%nat with k by lia.
    rewrite (skipn_nth_cons l (k - 1) (Geometry.mkPoint2 0 0)) by lia.
    replace (S (k - 1)) with k by lia.
    rewrite (skipn_nth_cons l k (Geometry.mkPoint2 0 0)) by lia.
    cbn [ShortestPath.polylineLength]. unfold RouteProgress.at_. lra.
Qed.

Lemma polylineLength_structural (l : list Geometry.Point2) :
  RouteProgress.polylineLength l = ShortestPath.polylineLength l.
Proof.
  unfold RouteProgress.polylineLength.
  destruct l as [|a l]; [reflexivity|].
  cbn [List.length seq fold_left Nat.eqb].
  rewrite (length_fold_from (a :: l) (List.length l) 1 0) by (cbn; lia).
  cbn [Nat.sub skipn]. lra.
Qed.

Lemma polylineLength_cons2 (a b : Geometry.Point2) (l : list Geometry.Point2) :
  ShortestPath.polylineLength (a :: b :: l)
  = Geometry.dist a b + ShortestPath.polylineLength (b :: l).
Proof. reflexivity. Qed.

Lemma polylineLength_firstn_SS (l : list Geometry.Point2) (k : nat) :
  (S k < List.length l)%nat ->
  ShortestPath.polylineLength (firstn (S (S k)) l)
  = ShortestPath.polylineLength (firstn (S k) l)
    + Geometry.dist (RouteProgress.at_ l k) (RouteProgress.at_ l (S k)).
Proof.
  revert l. induction k as [|k IH]; intros l Hl.
  - destruct l as [|a [|b r]]; cbn in Hl; try lia. cbn. lra.
  - destruct l as [|a [|b r]]; cbn in Hl; try lia.
    specialize (IH (b :: r) ltac:(cbn; lia)).
    rewrite (firstn_cons (S (S k)) a), (firstn_cons (S k) a).
    rewrite (firstn_cons (S k) b) in *. rewrite (firstn_cons k b) in *.
    rewrite !polylineLength_cons2, IH.
    unfold RouteProgress.at_. cbn [nth]. lra.
Qed.

Lemma polylineLength_firstn_S (l : list Geometry.Point2) (k : nat) :
  (k + 1 < List.length l)%nat ->
  ShortestPath.polylineLength (firstn (k + 2) l)
  = ShortestPath.polylineLength (firstn (k + 1) l)
    + Geometry.dist (RouteProgress.at_ l k) (RouteProgress.at_ l (k + 1)).
Proof.
  intros H. replace (k + 2)%nat with (S (S k)) by lia.
  replace (k + 1)%nat with (S k) by lia. apply polylineLength_firstn_SS. lia.
Qed.

Lemma polylineLength_firstn_le (l : list Geometry.Point2) (k : nat) :
  ShortestPath.polylineLength (firstn k l) <= ShortestPath.polylineLength l.
Proof.
  revert k. induction l as [|a l IH]; intros k.
  - rewrite firstn_nil. lra.
  - destruct k as [|k]; [cbn [firstn]; apply polylineLength_nonneg|].
    cbn [firstn]. specialize (IH k).
    destruct l as [|b r].
    + rewrite firstn_nil. cbn. lra.
    + destruct k as [|k].
      * cbn. pose proof (polylineLength_nonneg (b :: r)). pose proof (dist_nonneg a b).
        cbn [ShortestPath.polylineLength] in *. lra.
      * cbn [firstn] in *. cbn [ShortestPath.polylineLength] in *. lra.
Qed.

Lemma polylineLength_chord (a : Geometry.Point2) (l : list Geometry.Point2) :
  Geometry.dist a (last l a) <= ShortestPath.polylineLength (a :: l).
Proof.
  revert a. induction l as [|b r IH]; intros a.
  - cbn. rewrite dist_same. lra.
  - rewrite polylineLength_cons2. specialize (IH b).
    replace (last (b :: r) a) with (last r b).
    + pose proof (dist_triangle a (last r b) b) as T. lra.
    + destruct r as [|c r]; [reflexivity|]. cbn [last].
      change (last (c :: r) b = last (c :: r) a). apply last_default.
Qed.

Lemma polylineLength_app (l1 l2 : list Geometry.Point2) (a : Geometry.Point2) :
  ShortestPath.polylineLength (l1 ++ a :: l2)
  = ShortestPath.polylineLength (l1 ++ [a]) + ShortestPath.polylineLength (a :: l2).
Proof.
  induction l1 as [|b [|c r] IH].
  - cbn. lra.
  - cbn. destruct l2; cbn; lra.
  - cbn [app ShortestPath.polylineLength] in *. lra.
Qed.

(** [polylineLength] is 0 for fewer than two points and never negative; it is
    at least the straight-line distance between the first and the last point;
    joining two polylines at a shared point adds their lengths; and it is the
    number that [buildManeuvers] computes as the total and that
    [shortestPathFromPoint] accumulates as [lengthMeters]. *)
Theorem polylineLength_properties (l1 l2 : list Geometry.Point2) (a : Geometry.Point2) :
  RouteProgress.polylineLength [] = 0 /\
  RouteProgress.polylineLength [a] = 0 /\
  0 <= RouteProgress.polylineLength l1 /\
  Geometry.dist a (last l1 a) <= RouteProgress.polylineLength (a :: l1) /\
  RouteProgress.polylineLength (l1 ++ a :: l2)
  = RouteProgress.polylineLength (l1 ++ [a]) + RouteProgress.polylineLength (a :: l2) /\
  TurnByTurn.totalLength l1 = RouteProgress.polylineLength l1 /\
  ShortestPath.polylineLength l1 = RouteProgress.polylineLength l1.
Proof.
  rewrite !polylineLength_structural.
  split; [reflexivity|]. split; [reflexivity|].
  split; [apply polylineLength_nonneg|].
  split; [apply polylineLength_chord|].
  split; [apply polylineLength_app|].
  split; [|reflexivity].
  rewrite <- polylineLength_structural. reflexivity.
Qed.

(** ** Progress along a route (routeProgress.ts) *)

(** The projection of the point onto segment [j] of the polyline. *)
Lemma progressStep_unfold (l : list Geometry.Point2) (point : Geometry.Point2)
  (best : option RouteProgress.RouteProgress) (cumulative : R) (i : nat) :
  RouteProgress.progressStep l point (best, cumulative) i
  = let proj := Geometry.projectPointToSegment point (RouteProgress.at_ l i)
                  (RouteProgress.at_ l (i + 1)) in
    let segLen := Geometry.dist (RouteProgress.at_ l i) (RouteProgress.at_ l (i + 1)) in
    ((if match best with
          | None => true
          | Some bst => Js.ltb (Geometry.distance proj) (RouteProgress.distanceMeters bst)
          end
      then Some (RouteProgress.mkRouteProgress (cumulative + segLen * Geometry.t proj)
                   (Geometry.point proj) (Geometry.distance proj) i (Geometry.t proj))
      else best),
     cumulative + segLen).
Proof. reflexivity. Qed.

(** The state of the loop of [computeRouteProgress] after [k] segments. *)
Lemma progress_fold (l : list Geometry.Point2) (point : Geometry.Point2) (k : nat) :
  (k + 1 <= List.length l)%nat ->
  let seg j := Geometry.projectPointToSegment point (RouteProgress.at_ l j)
                 (RouteProgress.at_ l (j + 1)) in
  exists best,
    fold_left (RouteProgress.progressStep l point) (seq 0 k) (None, 0)
    = (best, ShortestPath.polylineLength (firstn (k + 1) l)) /\
    match best with
    | None => k = 0%nat
    | Some r =>
        let i := RouteProgress.segmentIndex r in
        (i < k)%nat /\
        r = RouteProgress.mkRouteProgress
              (ShortestPath.polylineLength (firstn (i + 1) l)
               + Geometry.dist (RouteProgress.at_ l i) (RouteProgress.at_ l (i + 1))
                 * Geometry.t (seg i))
              (Geometry.point (seg i)) (Geometry.distance (seg i)) i (Geometry.t (seg i)) /\
        (forall j, (j < k)%nat -> Geometry.distance (seg i) <= Geometry.distance (seg j)) /\
        (forall j, (j < i)%nat -> Geometry.distance (seg i) < Geometry.distance (seg j))
    end.
Proof.
  intros Hk seg. induction k as [|k IH].
  - exists None. split; [|reflexivity]. cbn [seq fold_left].
    destruct l as [|a r]; [reflexivity|]. cbn. reflexivity.
  - destruct IH as (best & Efold & Hbest); [lia|].
    rewrite seq_S, fold_left_app, Efold. cbn [fold_left].
    change (0 + k)%nat with k.
    rewrite progressStep_unfold. cbv zeta.
    replace (S k + 1)%nat with (k + 2)%nat by lia.
    rewrite (polylineLength_firstn_S l k) by lia.
    fold (seg k).
    destruct best as [r|].
    + destruct Hbest as (Hi & Er & Hmin & Hfirst).
      assert (Ed : RouteProgress.distanceMeters r
                   = Geometry.distance (seg (RouteProgress.segmentIndex r)))
        by (rewrite Er at 1; reflexivity).
      destruct (Js.ltb _ _) eqn:El.
      * apply ltb_true in El. rewrite Ed in El.
        eexists. split; [reflexivity|]. cbn [RouteProgress.segmentIndex].
        split; [lia|]. split; [reflexivity|]. split.
        -- intros j Hj. destruct (Nat.eq_dec j k) as [-> | Hne]; [lra|].
           specialize (Hmin j ltac:(lia)). lra.
        -- intros j Hj. specialize (Hmin j Hj). lra.
      * apply ltb_false in El. rewrite Ed in El.
        exists (Some r). split; [reflexivity|].
        split; [lia|]. split; [exact Er|]. split; [|exact Hfirst].
        intros j Hj. destruct (Nat.eq_dec j k) as [-> | Hne]; [exact El|].
        apply Hmin. lia.
    + subst k. eexists. split; [reflexivity|]. cbn [RouteProgress.segmentIndex].
      split; [lia|]. split; [reflexivity|]. split.
      * intros j Hj. replace j with 0%nat by lia. lra.
      * intros j Hj. lia.
Qed.

(** [computeRouteProgress] returns None exactly for a polyline of fewer than
    two points. Otherwise it reports the first segment whose projection of the
    point is nearest: [closest], [t] and [distanceMeters] are that projection,
    no segment is nearer and every earlier one is farther; and [alongMeters]
    is the length of the route from its start to [closest], a number between 0
    and the length of the whole polyline. *)
Theorem computeRouteProgress_spec (polyline : list Geometry.Point2) (point : Geometry.Point2) :
  let seg j := Geometry.projectPointToSegment point (RouteProgress.at_ polyline j)
                 (RouteProgress.at_ polyline (j + 1)) in
  (RouteProgress.computeRouteProgress polyline point = None
   <-> (List.length polyline < 2)%nat) /\
  (forall r, RouteProgress.computeRouteProgress polyline point = Some r ->
     let i := RouteProgress.segmentIndex r in
     (i + 1 < List.length polyline)%nat /\
     RouteProgress.closest r = Geometry.point (seg i) /\
     RouteProgress.t r = Geometry.t (seg i) /\
     RouteProgress.distanceMeters r = Geometry.distance (seg i) /\
     (forall j, (j + 1 < List.length polyline)%nat ->
                RouteProgress.distanceMeters r <= Geometry.distance (seg j)) /\
     (forall j, (j < i)%nat -> RouteProgress.distanceMeters r < Geometry.distance (seg j)) /\
     RouteProgress.alongMeters r
     = RouteProgress.polylineLength (firstn (i + 1) polyline ++ [RouteProgress.closest r]) /\
     0 <= RouteProgress.alongMeters r <= RouteProgress.polylineLength polyline).
Proof.
  intros seg. unfold RouteProgress.computeRouteProgress.
  destruct (Nat.ltb_spec (List.length polyline) 2) as [Hlt | Hge].
  { split; [tauto | discriminate]. }
  destruct (progress_fold polyline point (List.length polyline - 1)) as (best & Efold & Hbest);
    [lia|].
  rewrite Efold. cbn [fst].
  destruct best as [r|]; [|lia].
  split; [split; [discriminate | lia]|].
  intros r' Hr'. injection Hr' as <-.
  destruct Hbest as (Hi & Er & Hmin & Hfirst). fold seg in Er, Hmin, Hfirst.
  set (i := RouteProgress.segmentIndex r) in *. cbv zeta.
  assert (Ec : RouteProgress.closest r = Geometry.point (seg i)) by (rewrite Er; reflexivity).
  assert (Et : RouteProgress.t r = Geometry.t (seg i)) by (rewrite Er; reflexivity).
  assert (Ed : RouteProgress.distanceMeters r = Geometry.distance (seg i))
    by (rewrite Er; reflexivity).
  assert (Ea : RouteProgress.alongMeters r
               = ShortestPath.polylineLength (firstn (i + 1) polyline)
                 + Geometry.dist (RouteProgress.at_ polyline i) (RouteProgress.at_ polyline (i + 1))
                   * Geometry.t (seg i)) by (rewrite Er; reflexivity).
  pose proof (project_t_range point (RouteProgress.at_ polyline i)
                (RouteProgress.at_ polyline (i + 1))) as Ht. fold (seg i) in Ht.
  pose proof (dist_nonneg (RouteProgress.at_ polyline i) (RouteProgress.at_ polyline (i + 1)))
    as Hseg.
  split; [lia|]. split; [exact Ec|]. split; [exact Et|]. split; [exact Ed|].
  split; [intros j Hj; rewrite Ed; apply Hmin; lia|].
  split; [intros j Hj; rewrite Ed; now apply Hfirst|].
  split.
  - rewrite polylineLength_structural, Ea.
    assert (Efirst : firstn (i + 1) polyline
                     = firstn i polyline ++ [RouteProgress.at_ polyline i]).
    { replace (i + 1)%nat with (S i) by lia.
      rewrite <- (firstn_skipn i polyline) at 1.
      rewrite (skipn_nth_cons polyline i (Geometry.mkPoint2 0 0)) by lia.
      rewrite firstn_app, firstn_firstn.
      rewrite length_firstn.
      replace (Nat.min i (List.length polyline)) with i by lia.
      replace (Nat.min (S i) i) with i by lia.
      replace (S i - i)%nat with 1%nat by lia. reflexivity. }
    rewrite Efirst at 2. rewrite <- app_assoc. cbn [app].
    rewrite polylineLength_app, <- Efirst.
    cbn [ShortestPath.polylineLength].
    rewrite Ec. unfold seg at 2. rewrite project_point_lerp. fold (seg i).
    rewrite dist_lerp_from, Rabs_pos_eq by lra. lra.
  - rewrite polylineLength_structural, Ea. split.
    + pose proof (polylineLength_nonneg (firstn (i + 1) polyline)).
      assert (0 <= Geometry.dist (RouteProgress.at_ polyline i) (RouteProgress.at_ polyline (i + 1))
                   * Geometry.t (seg i)) by (apply Rmult_le_pos; lra).
      lra.
    + pose proof (polylineLength_firstn_le polyline (i + 2)) as Hle.
      rewrite (polylineLength_firstn_S polyline i) in Hle by lia.
      assert (Geometry.dist (RouteProgress.at_ polyline i) (RouteProgress.at_ polyline (i + 1))
              * Geometry.t (seg i)
              <= Geometry.dist (RouteProgress.at_ polyline i) (RouteProgress.at_ polyline (i + 1)) * 1)
        by (apply Rmult_le_compat_l; lra).
      lra.
Qed.


(** ** Headings modulo 360 (pdrMath.ts) *)

(** [x % 360] differs from [x] by a whole number of turns. *)
Lemma rem_turns (x : R) : exists k : Z, Js.rem x 360 = x + 360 * IZR k.
Proof.
  exists (- Js.trunc (x / 360))%Z. unfold Js.rem. rewrite opp_IZR. ring.
Qed.

Lemma wrapHeading_turns (deg : R) :
  exists k : Z, PdrMath.wrapHeading deg = deg + 360 * IZR k.
Proof.
  unfold PdrMath.wrapHeading. cbv zeta.
  destruct (rem_turns deg) as (k & E). rewrite E.
  destruct (Js.ltb _ _).
  - exists (k + 1)%Z. rewrite plus_IZR. ring.
  - now exists k.
Qed.

(** Two headings of [[0, 360)] that differ by whole turns are equal. *)
Lemma heading_unique (u v : R) (k : Z) :
  0 <= u < 360 -> 0 <= v < 360 -> u = v + 360 * IZR k -> u = v.
Proof.
  intros Hu Hv E.
  assert (Hk : (-1 < k < 1)%Z) by (split; apply lt_IZR; lra).
  replace k with 0%Z in E by lia. lra.
Qed.

Lemma wrapHeading_congruent (a b : R) (k : Z) :
  a = b + 360 * IZR k -> PdrMath.wrapHeading a = PdrMath.wrapHeading b.
Proof.
  intros E.
  destruct (wrapHeading_turns a) as (ka & Ea), (wrapHeading_turns b) as (kb & Eb).
  apply (heading_unique _ _ (ka + k - kb)%Z); try apply wrapHeading_range.
  rewrite Ea, Eb, E, minus_IZR, plus_IZR. ring.
Qed.

Lemma wrapHeading_fixed (deg : R) : 0 <= deg < 360 -> PdrMath.wrapHeading deg = deg.
Proof.
  intros H. destruct (wrapHeading_turns deg) as (k & E).
  apply (heading_unique _ _ k); [apply wrapHeading_range | exact H | exact E].
Qed.

(** [wrapHeading] brings any angle into [[0, 360)] by adding whole turns: the
    result differs from the argument by a multiple of 360, angles that differ
    by whole turns get the same result, and an angle already in [[0, 360)] is
    returned as it is, so wrapping twice is wrapping once. *)
Theorem wrapHeading_spec (deg : R) (n : Z) :
  0 <= PdrMath.wrapHeading deg < 360 /\
  (exists k : Z, PdrMath.wrapHeading deg = deg + 360 * IZR k) /\
  PdrMath.wrapHeading (deg + 360 * IZR n) = PdrMath.wrapHeading deg /\
  (0 <= deg < 360 -> PdrMath.wrapHeading deg = deg) /\
  PdrMath.wrapHeading (PdrMath.wrapHeading deg) = PdrMath.wrapHeading deg.
Proof.
  split; [apply wrapHeading_range|]. split; [apply wrapHeading_turns|].
  split; [now apply (wrapHeading_congruent _ _ n)|].
  split; [apply wrapHeading_fixed|].
  apply wrapHeading_fixed, wrapHeading_range.
Qed.

Lemma headingDiff_turns (a b : R) :
  exists k : Z, PdrMath.headingDiff a b = a - b + 360 * IZR k.
Proof.
  unfold PdrMath.headingDiff.
  destruct (rem_turns (a - b + 540)) as (k & E). rewrite E.
  exists (k + 1)%Z. rewrite plus_IZR. ring.
Qed.

Lemma headingDiff_leads (a b : R) :
  PdrMath.wrapHeading (b + PdrMath.headingDiff a b) = PdrMath.wrapHeading a.
Proof.
  destruct (headingDiff_turns a b) as (k & E).
  apply (wrapHeading_congruent _ _ k). rewrite E. ring.
Qed.

(** [headingDiff (a, b)] is the difference [a - b] up to whole turns: adding
    it to [b] leads to the heading [a]. Between two headings of [[0, 360)] it
    is the signed turn of at most 180 degrees, [a - b] itself or [a - b] plus
    or minus 360, and swapping the headings swaps its sign unless they are
    opposite. *)
Theorem headingDiff_turn (a b : R) :
  PdrMath.wrapHeading (b + PdrMath.headingDiff a b) = PdrMath.wrapHeading a /\
  (0 <= a < 360 -> 0 <= b < 360 ->
   -180 <= PdrMath.headingDiff a b < 180 /\
   (PdrMath.headingDiff a b = a - b \/ PdrMath.headingDiff a b = a - b + 360
    \/ PdrMath.headingDiff a b = a - b - 360) /\
   (PdrMath.headingDiff a b <> -180 ->
    PdrMath.headingDiff b a = - PdrMath.headingDiff a b)).
Proof.
  destruct (headingDiff_turns a b) as (k & E).
  split; [apply headingDiff_leads|].
  - intros Ha Hb.
    assert (Hr : -180 <= PdrMath.headingDiff a b < 180)
      by (apply (headingDiff_range a b); lra).
    split; [exact Hr|]. split.
    + assert (Hk : (-2 < k < 2)%Z) by (split; apply lt_IZR; lra).
      assert (Hc : k = 0%Z \/ k = 1%Z \/ k = (-1)%Z) by lia.
      destruct Hc as [-> | [-> | ->]]; rewrite E; [left | right; left | right; right]; lra.
    + intros Hne.
      destruct (headingDiff_turns b a) as (k' & E').
      assert (Hr' : -180 <= PdrMath.headingDiff b a < 180)
        by (apply (headingDiff_range b a); lra).
      assert (Hs : IZR (k + k') = (PdrMath.headingDiff a b + PdrMath.headingDiff b a) / 360)
        by (rewrite plus_IZR, E, E'; field).
      assert (Hk : (-1 < k + k' < 1)%Z) by (split; apply lt_IZR; lra).
      replace (k + k')%Z with 0%Z in Hs by lia. lra.
Qed.

Lemma headingDiff_turn_witness :
  -180 <= PdrMath.headingDiff 350 10 < 180 /\
  (PdrMath.headingDiff 350 10 = 350 - 10 \/ PdrMath.headingDiff 350 10 = 350 - 10 + 360
   \/ PdrMath.headingDiff 350 10 = 350 - 10 - 360) /\
  (PdrMath.headingDiff 350 10 <> -180 ->
   PdrMath.headingDiff 10 350 = - PdrMath.headingDiff 350 10).
Proof.
  apply (headingDiff_turn 350 10); lra.
Defined.

(** [lowPassHeading] always returns a heading of [[0, 360)]. It starts from
    [prevDeg] and turns by the fraction clamp (alpha, 0, 1) of the difference
    to [nextDeg], up to whole turns: with alpha at most 0 it stays at the
    previous heading and with alpha at least 1 it lands on the next one. *)
Theorem lowPassHeading_spec (prevDeg nextDeg alpha : R) :
  0 <= PdrMath.lowPassHeading prevDeg nextDeg alpha < 360 /\
  (exists k : Z,
     PdrMath.lowPassHeading prevDeg nextDeg alpha
     = prevDeg + PdrMath.headingDiff nextDeg prevDeg * PdrMath.clamp alpha 0 1
       + 360 * IZR k) /\
  (alpha <= 0 -> PdrMath.lowPassHeading prevDeg nextDeg alpha = PdrMath.wrapHeading prevDeg) /\
  (1 <= alpha -> PdrMath.lowPassHeading prevDeg nextDeg alpha = PdrMath.wrapHeading nextDeg).
Proof.
  unfold PdrMath.lowPassHeading.
  split; [apply wrapHeading_range|]. split; [apply wrapHeading_turns|]. split.
  - intros Ha. f_equal.
    replace (PdrMath.clamp alpha 0 1) with 0; [ring|].
    unfold PdrMath.clamp, Rmax, Rmin.
    destruct (Rle_dec 1 alpha); destruct (Rle_dec 0 _); lra.
  - intros Ha.
    replace (PdrMath.clamp alpha 0 1) with 1.
    + rewrite Rmult_1_r. apply headingDiff_leads.
    + unfold PdrMath.clamp, Rmax, Rmin.
      destruct (Rle_dec 1 alpha); destruct (Rle_dec 0 _); lra.
Qed.


(** ** The filter on an isotropic covariance (kalman2d.ts) *)

Lemma noise_floor (sigma : R) : 1 / 1000000 <= Rmax (1 / 10 ^ 6) (sigma * sigma).
Proof. apply Rle_trans with (1 / 10 ^ 6); [cbn; lra | apply Rmax_l]. Qed.

(** On a covariance [p * I] with [p > 0] the update is never skipped and is
    the scalar filter on each axis. *)
Lemma update_isotropic (s : Kalman2D.Kalman2DState) (z : Kalman2D.Vec2) (measSigmaMeters : R) :
  Kalman2D.isotropic s -> 0 < Kalman2D.p00 s ->
  let p := Kalman2D.p00 s in
  let r := Rmax (1 / 10 ^ 6) (measSigmaMeters * measSigmaMeters) in
  let k := p / (p + r) in
  Kalman2D.updateKalman2D s z measSigmaMeters
  = Kalman2D.mkState (Kalman2D.x s + k * (Kalman2D.vx z - Kalman2D.x s))
                     (Kalman2D.y s + k * (Kalman2D.vy z - Kalman2D.y s))
                     (p * r / (p + r)) 0 (p * r / (p + r)).
Proof.
  intros [H01 Heq] Hp p r k.
  pose proof (noise_floor measSigmaMeters) as Hr'. fold r in Hr'. fold p in Hp.
  unfold Kalman2D.updateKalman2D.
  assert (Edet : Kalman2D.innovationDet s measSigmaMeters = (p + r) * (p + r)).
  { rewrite innovationDet_eq. fold r. rewrite H01, <- Heq. fold p. ring. }
  assert (Hdet : Js.leb (Kalman2D.innovationDet s measSigmaMeters) (1 / 10 ^ 12) = false).
  { apply leb_false. rewrite Edet.
    assert (1 / 1000000 * (1 / 1000000) < (p + r) * (p + r))
      by (apply Rmult_le_0_lt_compat; lra).
    replace (1 / 10 ^ 12) with (1 / 1000000 * (1 / 1000000)) by (cbn; lra). lra. }
  rewrite Hdet.
  unfold Kalman2D.gain. cbv zeta. fold r. rewrite H01, <- Heq. fold p.
  unfold k. f_equal; field; nra.
Qed.

Lemma call_positive (s : Kalman2D.Kalman2DState) (c : Kalman2D.Call) :
  Kalman2D.isotropic s -> 0 < Kalman2D.p00 s -> 0 < Kalman2D.p00 (Kalman2D.call s c).
Proof.
  intros Hs Hp. destruct c as [delta sigma | z sigma]; cbn [Kalman2D.call].
  - cbn [Kalman2D.predictKalman2D Kalman2D.p00].
    pose proof (noise_floor sigma) as Hq. lra.
  - rewrite (update_isotropic s z sigma Hs Hp). cbn [Kalman2D.p00].
    pose proof (noise_floor sigma) as Hr.
    set (r := Rmax _ _) in *.
    apply Rdiv_lt_0_compat; [apply Rmult_lt_0_compat|]; lra.
Qed.

Lemma run_positive (calls : list Kalman2D.Call) (s : Kalman2D.Kalman2DState) :
  Kalman2D.isotropic s -> 0 < Kalman2D.p00 s ->
  Kalman2D.isotropic (Kalman2D.run s calls) /\ 0 < Kalman2D.p00 (Kalman2D.run s calls).
Proof.
  revert s. induction calls as [|c calls IH]; intros s Hs Hp; [now split|].
  cbn [Kalman2D.run fold_left]. apply IH; [now apply call_isotropic | now apply call_positive].
Qed.

Lemma create_positive (start : Kalman2D.Vec2) (posSigmaMeters : option R) :
  1 / 1000000 <= Kalman2D.p00 (Kalman2D.createKalman2D start posSigmaMeters).
Proof. unfold Kalman2D.createKalman2D. cbn [Kalman2D.p00]. apply noise_floor. Qed.

Lemma reachable_positive (start : Kalman2D.Vec2) (posSigmaMeters : option R)
  (calls : list Kalman2D.Call) :
  let s := Kalman2D.run (Kalman2D.createKalman2D start posSigmaMeters) calls in
  Kalman2D.isotropic s /\ 0 < Kalman2D.p00 s.
Proof.
  apply run_positive; [apply createKalman2D_isotropic|].
  pose proof (create_positive start posSigmaMeters) as H. lra.
Qed.

(** In every state that a filter reaches from [createKalman2D] by predictions
    and updates the variance is positive, and an update with a measurement [z]
    is the scalar filter on each axis: the estimate moves from where it was
    toward the measurement by the fraction k = p / (p + r), strictly between 0
    and 1, where r = max (1e-6, sigma^2) is the measurement variance, and the
    variance drops to p r / (p + r), below both p and r. The update is never
    skipped there. *)
Theorem updateKalman2D_blend
  (start : Kalman2D.Vec2) (posSigmaMeters : option R) (calls : list Kalman2D.Call)
  (z : Kalman2D.Vec2) (measSigmaMeters : R) :
  let s := Kalman2D.run (Kalman2D.createKalman2D start posSigmaMeters) calls in
  let s' := Kalman2D.updateKalman2D s z measSigmaMeters in
  let p := Kalman2D.p00 s in
  let r := Rmax (1 / 10 ^ 6) (measSigmaMeters * measSigmaMeters) in
  let k := p / (p + r) in
  0 < p /\ 0 < k < 1 /\
  Kalman2D.x s' = (1 - k) * Kalman2D.x s + k * Kalman2D.vx z /\
  Kalman2D.y s' = (1 - k) * Kalman2D.y s + k * Kalman2D.vy z /\
  Kalman2D.p00 s' = p * r / (p + r) /\
  Kalman2D.p11 s' = p * r / (p + r) /\
  Kalman2D.p01 s' = 0 /\
  Kalman2D.p00 s' < p /\ Kalman2D.p00 s' < r /\
  1 / 10 ^ 12 < Kalman2D.innovationDet s measSigmaMeters.
Proof.
  intros s s' p r k.
  destruct (reachable_positive start posSigmaMeters calls) as [Hiso Hp].
  fold s in Hiso, Hp. fold p in Hp.
  pose proof (noise_floor measSigmaMeters) as Hr'. fold r in Hr'.
  assert (Hpr : 0 < p + r) by lra.
  assert (Hk : 0 < k < 1).
  { unfold k. split; [apply Rdiv_lt_0_compat; lra|].
    apply (Rmult_lt_reg_r (p + r)); [lra|]. unfold Rdiv.
    rewrite Rmult_assoc, Rinv_l by lra. lra. }
  assert (Ek : k * (p + r) = p) by (unfold k; field; lra).
  unfold s'. rewrite (update_isotropic s z measSigmaMeters Hiso Hp).
  fold p r k. cbn [Kalman2D.x Kalman2D.y Kalman2D.p00 Kalman2D.p01 Kalman2D.p11].
  assert (Ev : p * r / (p + r) = k * r) by (unfold k; field; lra).
  split; [exact Hp|]. split; [exact Hk|].
  split; [ring|]. split; [ring|].
  split; [reflexivity|]. split; [reflexivity|]. split; [reflexivity|].
  rewrite Ev. split; [|split].
  - assert (k * r < k * (p + r)) by (apply Rmult_lt_compat_l; lra). lra.
  - assert (k * r < 1 * r) by (apply Rmult_lt_compat_r; lra). lra.
  - destruct Hiso as [H01 Heq]. rewrite innovationDet_eq. fold r.
    rewrite H01, <- Heq. fold p.
    assert (1 / 1000000 * (1 / 1000000) < (p + r) * (p + r))
      by (apply Rmult_le_0_lt_compat; lra).
    replace (1 / 10 ^ 12) with (1 / 1000000 * (1 / 1000000)) by (cbn; lra). lra.
Qed.

(** ** The reported uncertainty (kalman2d.ts) *)

Lemma posSigma_isotropic (s : Kalman2D.Kalman2DState) :
  Kalman2D.isotropic s ->
  Kalman2D.kalmanPosSigma s = sqrt (Rmax (1 / 10 ^ 9) (Kalman2D.p00 s)).
Proof.
  intros [_ Heq]. unfold Kalman2D.kalmanPosSigma. rewrite <- Heq. f_equal. f_equal. field.
Qed.

(** [kalmanPosSigma] of a new filter gives back the standard deviation it was
    created with, 1.5 by default and never less than 0.001. In every state
    reached from there it is the square root of the variance, floored at
    sqrt (1e-9); a prediction strictly increases it and an update never
    increases it. *)
Theorem kalmanPosSigma_reachable
  (start : Kalman2D.Vec2) (posSigmaMeters : option R) (sigma : R)
  (calls : list Kalman2D.Call) (c : Kalman2D.Call) :
  let s := Kalman2D.run (Kalman2D.createKalman2D start posSigmaMeters) calls in
  Kalman2D.kalmanPosSigma (Kalman2D.createKalman2D start (Some sigma))
  = Rmax (1 / 1000) (Rabs sigma) /\
  Kalman2D.kalmanPosSigma (Kalman2D.createKalman2D start None) = 3 / 2 /\
  Kalman2D.kalmanPosSigma s = sqrt (Rmax (1 / 10 ^ 9) (Kalman2D.p00 s)) /\
  match c with
  | Kalman2D.Predict _ _ => Kalman2D.kalmanPosSigma s < Kalman2D.kalmanPosSigma (Kalman2D.call s c)
  | Kalman2D.Update _ _ => Kalman2D.kalmanPosSigma (Kalman2D.call s c) <= Kalman2D.kalmanPosSigma s
  end.
Proof.
  intros s.
  assert (Hcreate : forall sg,
    Kalman2D.kalmanPosSigma (Kalman2D.createKalman2D start (Some sg))
    = Rmax (1 / 1000) (Rabs sg)).
  { intros sg. rewrite posSigma_isotropic by apply createKalman2D_isotropic.
    unfold Kalman2D.createKalman2D. cbn [Kalman2D.p00 Js.orElse].
    rewrite (Rmax_right (1 / 10 ^ 9)).
    2:{ apply Rle_trans with (1 / 10 ^ 6); [cbn; lra | apply Rmax_l]. }
    apply sqrt_lem_1.
    - apply Rle_trans with (1 / 10 ^ 6); [cbn; lra | apply Rmax_l].
    - apply Rle_trans with (1 / 1000); [lra | apply Rmax_l].
    - replace (sg * sg) with (Rabs sg * Rabs sg)
        by (unfold Rabs; destruct (Rcase_abs sg); ring).
      pose proof (Rabs_pos sg) as Ha.
      unfold Rmax. destruct (Rle_dec (1 / 1000) (Rabs sg)) as [H1 | H1];
        destruct (Rle_dec (1 / 10 ^ 6) (Rabs sg * Rabs sg)) as [H2 | H2]; cbn in *;
        try nra. }
  split; [apply Hcreate|]. split.
  { change (Kalman2D.createKalman2D start None)
      with (Kalman2D.createKalman2D start (Some (3 / 2))).
    rewrite Hcreate. rewrite Rabs_pos_eq by lra. apply Rmax_right. lra. }
  destruct (reachable_positive start posSigmaMeters calls) as [Hiso Hp].
  fold s in Hiso, Hp.
  split; [now apply posSigma_isotropic|].
  rewrite (posSigma_isotropic s Hiso).
  rewrite (posSigma_isotropic (Kalman2D.call s c)) by now apply call_isotropic.
  destruct c as [delta q | z r]; cbn [Kalman2D.call].
  - apply sqrt_lt_1_alt. cbn [Kalman2D.predictKalman2D Kalman2D.p00].
    pose proof (noise_floor q) as Hq. set (qq := Rmax _ (q * q)) in *. split; [apply Rle_trans with (1 / 10 ^ 9); [cbn; lra | apply Rmax_l]|].
    unfold Rmax. cbn.
    destruct (Rle_dec _ (Kalman2D.p00 s)); destruct (Rle_dec _ (Kalman2D.p00 s + qq)); lra.
  - apply sqrt_le_1_alt.
    rewrite (update_isotropic s z r Hiso Hp). cbn [Kalman2D.p00].
    pose proof (noise_floor r) as Hr. set (rr := Rmax _ (r * r)) in *.
    assert (Kalman2D.p00 s * rr / (Kalman2D.p00 s + rr) <= Kalman2D.p00 s).
    { apply (Rmult_le_reg_r (Kalman2D.p00 s + rr)); [lra|].
      unfold Rdiv. rewrite Rmult_assoc, Rinv_l by lra. nra. }
    unfold Rmax. cbn.
    destruct (Rle_dec _ (Kalman2D.p00 s)); destruct (Rle_dec _ (_ / _)); lra.
Qed.


(** ** The fix is a weighted mean (wifiFix.ts) *)

Lemma weighted_sum_bounds (anchors : list StoreMap.Anchor.t)
  (coord : StoreMap.Anchor.t -> R) (pick : WifiFix.WifiReading -> R)
  (lo hi : R) (l : list WifiFix.WifiReading) :
  (forall r, In r l -> lo <= pick r <= hi) ->
  lo * WifiFix.sumOver (fun r => WifiFix.weight (WifiFix.level r)) l
  <= WifiFix.sumOver (fun r => pick r * WifiFix.weight (WifiFix.level r)) l
  <= hi * WifiFix.sumOver (fun r => WifiFix.weight (WifiFix.level r)) l.
Proof.
  intros H. induction l as [|r l IH]; unfold WifiFix.sumOver in *; cbn [fold_right].
  - lra.
  - specialize (IH (fun r' Hr' => H r' (or_intror Hr'))).
    pose proof (H r (or_introl eq_refl)) as Hr.
    pose proof (weight_range (WifiFix.level r)) as Hw.
    assert (lo * WifiFix.weight (WifiFix.level r) <= pick r * WifiFix.weight (WifiFix.level r))
      by (apply Rmult_le_compat_r; lra).
    assert (pick r * WifiFix.weight (WifiFix.level r) <= hi * WifiFix.weight (WifiFix.level r))
      by (apply Rmult_le_compat_r; lra).
    lra.
Qed.

Lemma quotient_bounds (lo hi s w : R) : 0 < w -> lo * w <= s <= hi * w -> lo <= s / w <= hi.
Proof.
  intros Hw [H1 H2]. split.
  - apply (Rmult_le_reg_r w); [exact Hw|]. unfold Rdiv. rewrite Rmult_assoc, Rinv_l; lra.
  - apply (Rmult_le_reg_r w); [exact Hw|]. unfold Rdiv. rewrite Rmult_assoc, Rinv_l; lra.
Qed.

(** A fix lies within the bounding box of the anchors: when every anchor has
    its x between [xlo] and [xhi] and its y between [ylo] and [yhi], so has
    the fix, whatever the signal levels are. *)
Theorem computeWifiFix_within_anchors
  (readings : list WifiFix.WifiReading) (anchors : list StoreMap.Anchor.t)
  (f : WifiFix.WifiFix) (xlo xhi ylo yhi : R) :
  WifiFix.computeWifiFix readings anchors = Some f ->
  (forall a, In a anchors ->
     xlo <= StoreMap.Anchor.x a <= xhi /\ ylo <= StoreMap.Anchor.y a <= yhi) ->
  xlo <= WifiFix.x f <= xhi /\ ylo <= WifiFix.y f <= yhi.
Proof.
  intros Hf Hbox.
  assert (Hne : WifiFix.matchedReadings readings anchors <> []).
  { intros E. unfold WifiFix.computeWifiFix in Hf. rewrite E in Hf. discriminate. }
  destruct (computeWifiFix_some readings anchors Hne) as (b & Eb & _).
  cbv zeta in Eb. rewrite Eb in Hf. injection Hf as <-.
  cbn [WifiFix.x WifiFix.y].
  set (m := WifiFix.matchedReadings readings anchors) in *.
  pose proof (sumOver_weight_pos m Hne) as HW.
  assert (Hin : forall r, In r m ->
            exists a, In a anchors /\ WifiFix.byBssid anchors (WifiFix.bssid r) = Some a).
  { intros r Hr. apply matchedReadings_hasBssid in Hr. unfold WifiFix.hasBssid in Hr.
    destruct (WifiFix.byBssid anchors (WifiFix.bssid r)) as [a|] eqn:Ea; [|discriminate].
    exists a. split; [|reflexivity]. now apply byBssid_some in Ea. }
  split; apply quotient_bounds; try exact HW;
    apply (weighted_sum_bounds anchors StoreMap.Anchor.x); intros r Hr;
    destruct (Hin r Hr) as (a & Ha & Ea);
    unfold WifiFix.anchorX, WifiFix.anchorY; rewrite Ea; now apply Hbox.
Qed.

Lemma computeWifiFix_within_anchors_witness :
  exists f,
    WifiFix.computeWifiFix Scenarios.scanAB [Scenarios.anchorA; Scenarios.anchorB] = Some f /\
    0 <= WifiFix.x f <= 10 /\ 0 <= WifiFix.y f <= 0.
Proof.
  destruct computeWifiFix_scanAB as (b & E & _).
  eexists. split; [exact E|].
  apply (computeWifiFix_within_anchors Scenarios.scanAB
           [Scenarios.anchorA; Scenarios.anchorB] _ 0 10 0 0 E).
  intros a [<- | [<- | []]]; cbn; lra.
Defined.

(** ** Confidence of a fix (wifiFix.ts) *)

Lemma wifi_clamp_range (n lo hi : R) : lo <= hi -> lo <= WifiFix.clamp n lo hi <= hi.
Proof.
  intros H. unfold WifiFix.clamp, Rmax, Rmin.
  destruct (Rle_dec hi n); destruct (Rle_dec lo _); lra.
Qed.

Lemma wifi_clamp_mono (n m lo hi : R) :
  n <= m -> WifiFix.clamp n lo hi <= WifiFix.clamp m lo hi.
Proof.
  intros H. unfold WifiFix.clamp, Rmax, Rmin.
  destruct (Rle_dec hi n); destruct (Rle_dec hi m);
    repeat match goal with |- context [Rle_dec ?a ?b] => destruct (Rle_dec a b) end; lra.
Qed.

(** [wifiConfidenceFromFix] is 0 without a fix and otherwise lies between 0.15
    and 0.98; it does not decrease when the best signal gets stronger or when
    more readings match. *)
Theorem wifiConfidenceFromFix_range (f g : WifiFix.WifiFix) :
  let bestLevel h := match WifiFix.best h with Some b => WifiFix.level b | None => -90 end in
  WifiFix.wifiConfidenceFromFix None = 0 /\
  15 / 100 <= WifiFix.wifiConfidenceFromFix (Some f) <= 98 / 100 /\
  (bestLevel f <= bestLevel g -> (WifiFix.matched f <= WifiFix.matched g)%nat ->
   WifiFix.wifiConfidenceFromFix (Some f) <= WifiFix.wifiConfidenceFromFix (Some g)).
Proof.
  intros bestLevel. split; [reflexivity|]. split.
  - unfold WifiFix.wifiConfidenceFromFix. apply wifi_clamp_range. lra.
  - intros Hl Hm. unfold WifiFix.wifiConfidenceFromFix. fold (bestLevel f) (bestLevel g).
    apply wifi_clamp_mono. apply Rplus_le_compat; apply wifi_clamp_mono.
    + unfold Rdiv. apply Rmult_le_compat_r; lra.
    + apply le_INR in Hm. lra.
Qed.

(** ** Normalised BSSIDs (wifiFix.ts) *)

Lemma lowerChar_whiteSpace (c : ascii) : Js.isWhiteSpace (Js.lowerChar c) = Js.isWhiteSpace c.
Proof. destruct c as [[] [] [] [] [] [] [] []]; reflexivity. Qed.

Lemma lowerChar_idempotent (c : ascii) : Js.lowerChar (Js.lowerChar c) = Js.lowerChar c.
Proof. destruct c as [[] [] [] [] [] [] [] []]; reflexivity. Qed.

Lemma toLowerCase_idempotent (s : string) :
  Js.toLowerCase (Js.toLowerCase s) = Js.toLowerCase s.
Proof.
  induction s as [|c s IH]; [reflexivity|].
  cbn [Js.toLowerCase]. now rewrite lowerChar_idempotent, IH.
Qed.

Lemma trimStart_toLowerCase (s : string) :
  Js.trimStart (Js.toLowerCase s) = Js.toLowerCase (Js.trimStart s).
Proof.
  induction s as [|c s IH]; [reflexivity|].
  cbn [Js.toLowerCase Js.trimStart]. rewrite lowerChar_whiteSpace.
  destruct (Js.isWhiteSpace c); [exact IH | reflexivity].
Qed.

Lemma trimEnd_toLowerCase (s : string) :
  Js.trimEnd (Js.toLowerCase s) = Js.toLowerCase (Js.trimEnd s).
Proof.
  induction s as [|c s IH]; [reflexivity|].
  cbn [Js.toLowerCase Js.trimEnd]. rewrite IH, lowerChar_whiteSpace.
  destruct (Js.trimEnd s); cbn [Js.toLowerCase]; [|reflexivity].
  destruct (Js.isWhiteSpace c); reflexivity.
Qed.

Lemma trim_toLowerCase (s : string) : Js.trim (Js.toLowerCase s) = Js.toLowerCase (Js.trim s).
Proof. unfold Js.trim. now rewrite trimStart_toLowerCase, trimEnd_toLowerCase. Qed.

(** The string is empty or starts with a character that is not white space. *)
Lemma trimStart_head (s : string) :
  match Js.trimStart s with
  | EmptyString => True
  | String c _ => Js.isWhiteSpace c = false
  end.
Proof.
  induction s as [|c s IH]; [exact I|].
  cbn [Js.trimStart]. destruct (Js.isWhiteSpace c) eqn:E; [exact IH | exact E].
Qed.

Lemma trimEnd_head (s : string) :
  match s with EmptyString => True | String c _ => Js.isWhiteSpace c = false end ->
  match Js.trimEnd s with EmptyString => True | String c _ => Js.isWhiteSpace c = false end.
Proof.
  destruct s as [|c s]; [trivial|]. intros H. cbn [Js.trimEnd].
  destruct (Js.trimEnd s); [rewrite H|]; exact H.
Qed.

Lemma trimStart_fixed (s : string) :
  match s with EmptyString => True | String c _ => Js.isWhiteSpace c = false end ->
  Js.trimStart s = s.
Proof. destruct s as [|c s]; [trivial|]. intros H. cbn [Js.trimStart]. now rewrite H. Qed.

Lemma trimEnd_cons (c : ascii) (s : string) :
  Js.trimEnd (String c s)
  = match Js.trimEnd s with
    | EmptyString => if Js.isWhiteSpace c then EmptyString else String c EmptyString
    | r => String c r
    end.
Proof. reflexivity. Qed.

Lemma trimEnd_idempotent (s : string) : Js.trimEnd (Js.trimEnd s) = Js.trimEnd s.
Proof.
  induction s as [|c s IH]; [reflexivity|].
  rewrite (trimEnd_cons c s). destruct (Js.trimEnd s) as [|c' r] eqn:E.
  - destruct (Js.isWhiteSpace c) eqn:Ec; [reflexivity|].
    rewrite trimEnd_cons. cbn [Js.trimEnd]. now rewrite Ec.
  - rewrite trimEnd_cons, IH. reflexivity.
Qed.

Lemma trim_idempotent (s : string) : Js.trim (Js.trim s) = Js.trim s.
Proof.
  unfold Js.trim.
  rewrite (trimStart_fixed (Js.trimEnd (Js.trimStart s))).
  - apply trimEnd_idempotent.
  - apply trimEnd_head, trimStart_head.
Qed.

(** [normalizeBssid] is idempotent, and it gives the same string for a BSSID,
    for its lower-case form and for the BSSID with the surrounding white space
    removed: a reading and an anchor match whatever their case and padding. *)
Theorem normalizeBssid_idempotent (s : string) :
  WifiFix.normalizeBssid (WifiFix.normalizeBssid s) = WifiFix.normalizeBssid s /\
  WifiFix.normalizeBssid (Js.toLowerCase s) = WifiFix.normalizeBssid s /\
  WifiFix.normalizeBssid (Js.trim s) = WifiFix.normalizeBssid s.
Proof.
  unfold WifiFix.normalizeBssid. split; [|split].
  - now rewrite trim_toLowerCase, trim_idempotent, toLowerCase_idempotent.
  - now rewrite trim_toLowerCase, toLowerCase_idempotent.
  - now rewrite trim_idempotent.
Qed.


(** ** What [snapToGraph] returns (snapToGraph.ts) *)

Lemma connectedEdges_incl (p : SnapToGraph.EdgeId) (es : list StoreMap.Edge.t)
  (e : StoreMap.Edge.t) :
  In e (SnapToGraph.connectedEdges p es) -> In e es.
Proof. intros H. now apply connectedEdges_incident in H. Qed.

(** The variable [best] of [snapToGraph] before the last two lines: nothing
    when no usable edge has both endpoints in the map, and otherwise the
    projection onto one of them. *)
Lemma snap_best (map : StoreMap.StoreMap) (point : Geometry.Point2)
  (opts : option SnapToGraph.Opts) :
  let ns := StoreMap.nodes map in
  let es := SnapToGraph.usableEdges map in
  let bestOn := SnapToGraph.bestOnEdges ns point (SnapToGraph.prevOf opts)
                  (SnapToGraph.switchPenaltyMetersOf opts) in
  let best :=
    match SnapToGraph.hardClampOf opts, SnapToGraph.prevOf opts with
    | true, Some p =>
        match bestOn (SnapToGraph.connectedEdges p es), bestOn es with
        | Some bc, Some bg =>
            if SnapToGraph.relocalize (SnapToGraph.maxSnapMetersOf opts) bc bg
            then Some bg else Some bc
        | _, _ =>
            match bestOn (SnapToGraph.connectedEdges p es) with
            | Some bc => Some bc
            | None => bestOn es
            end
        end
    | _, _ => bestOn es
    end in
  (best = None /\ forall e, In e es -> SnapToGraph.candidateProjection ns point e = None)
  \/
  (exists e proj, In e es /\ SnapToGraph.candidateProjection ns point e = Some proj /\
                  best = Some (SnapToGraph.resultOn proj e)).
Proof.
  intros ns es bestOn best.
  pose proof (bestOnEdges_spec ns point (SnapToGraph.prevOf opts)
                (SnapToGraph.switchPenaltyMetersOf opts) es) as Hg.
  fold bestOn in Hg.
  assert (Hplain : (bestOn es = None /\
                    forall e, In e es -> SnapToGraph.candidateProjection ns point e = None)
                   \/ (exists e proj, In e es /\
                         SnapToGraph.candidateProjection ns point e = Some proj /\
                         bestOn es = Some (SnapToGraph.resultOn proj e))).
  { destruct Hg as [Hg | (e & proj & Hin & Hp & E & _)]; [now left|].
    right. now exists e, proj. }
  unfold best.
  destruct (SnapToGraph.hardClampOf opts); [|exact Hplain].
  destruct (SnapToGraph.prevOf opts) as [p|] eqn:Hprev; [|exact Hplain].
  pose proof (bestOnEdges_spec ns point (Some p)
                (SnapToGraph.switchPenaltyMetersOf opts)
                (SnapToGraph.connectedEdges p es)) as Hc.
  fold bestOn in Hc.
  destruct Hc as [[Ec _] | (e0 & proj0 & Hin0 & Hp0 & Ec & _)]; rewrite Ec.
  - destruct (bestOn es); exact Hplain.
  - apply connectedEdges_incl in Hin0.
    destruct Hplain as [[Eg Hall] | (e1 & proj1 & Hin1 & Hp1 & Eg)]; rewrite Eg.
    + right. now exists e0, proj0.
    + destruct (SnapToGraph.relocalize _ _ _); right;
        [now exists e1, proj1 | now exists e0, proj0].
Qed.

(** [snapToGraph] finds no edge exactly when no usable edge of the map has both
    endpoints among the nodes, and then returns the point as it is with an
    infinite distance. Otherwise it names a usable edge and reports the
    projection of the point onto it: the parameter t between 0 and 1 and the
    distance. The snapped position is the projected point, except that without
    the hard clamp a point farther than [maxSnapMeters] from the edge is left
    where it is. *)
Theorem snapToGraph_result
  (map : StoreMap.StoreMap) (point : Geometry.Point2) (opts : option SnapToGraph.Opts) :
  let r := SnapToGraph.snapToGraph map point opts in
  let ns := StoreMap.nodes map in
  (SnapToGraph.edge r = None <->
   forall e, In e (SnapToGraph.usableEdges map) ->
             SnapToGraph.candidateProjection ns point e = None) /\
  (SnapToGraph.edge r = None -> r = SnapToGraph.mkSnapResult point Js.PInf None 0) /\
  (forall eid, SnapToGraph.edge r = Some eid ->
     exists e proj,
       In e (SnapToGraph.usableEdges map) /\ eid = SnapToGraph.edgeIdOf e /\
       SnapToGraph.candidateProjection ns point e = Some proj /\
       SnapToGraph.distance r = Js.Fin (Geometry.distance proj) /\
       SnapToGraph.t r = Geometry.t proj /\ 0 <= SnapToGraph.t r <= 1 /\
       SnapToGraph.snapped r
       = if negb (SnapToGraph.hardClampOf opts)
            && Js.ltb (SnapToGraph.maxSnapMetersOf opts) (Geometry.distance proj)
         then point else Geometry.point proj).
Proof.
  intros r ns.
  pose proof (snap_best map point opts) as Hbest. cbv zeta in Hbest.
  unfold r, SnapToGraph.snapToGraph. cbv zeta. fold ns in Hbest |- *.
  set (best := match SnapToGraph.hardClampOf opts, SnapToGraph.prevOf opts with
               | true, Some p => _
               | _, _ => _
               end) in *.
  destruct Hbest as [[E Hall] | (e & proj & Hin & Hp & E)]; rewrite E.
  - cbn [SnapToGraph.edge]. split; [split; [intros _; exact Hall | reflexivity]|].
    split; [reflexivity | discriminate].
  - assert (Ht : 0 <= Geometry.t proj <= 1).
    { unfold SnapToGraph.candidateProjection in Hp.
      destruct (StoreMap.nodeById ns (StoreMap.Edge.from e)); [|discriminate].
      destruct (StoreMap.nodeById ns (StoreMap.Edge.to e)); [|discriminate].
      injection Hp as <-. apply project_t_range. }
    set (cond := negb (SnapToGraph.hardClampOf opts)
                 && Js.ltb (SnapToGraph.maxSnapMetersOf opts) (Geometry.distance proj)).
    change (negb (SnapToGraph.hardClampOf opts)
            && Js.xlt (Js.Fin (SnapToGraph.maxSnapMetersOf opts))
                      (SnapToGraph.distance (SnapToGraph.resultOn proj e))) with cond.
    assert (Hres : forall res : SnapToGraph.SnapResult,
      SnapToGraph.edge res = Some (SnapToGraph.edgeIdOf e) ->
      SnapToGraph.distance res = Js.Fin (Geometry.distance proj) ->
      SnapToGraph.t res = Geometry.t proj ->
      SnapToGraph.snapped res = (if cond then point else Geometry.point proj) ->
      (SnapToGraph.edge res = None <->
       forall e', In e' (SnapToGraph.usableEdges map) ->
                  SnapToGraph.candidateProjection ns point e' = None) /\
      (SnapToGraph.edge res = None -> res = SnapToGraph.mkSnapResult point Js.PInf None 0) /\
      (forall eid, SnapToGraph.edge res = Some eid ->
         exists e' proj',
           In e' (SnapToGraph.usableEdges map) /\ eid = SnapToGraph.edgeIdOf e' /\
           SnapToGraph.candidateProjection ns point e' = Some proj' /\
           SnapToGraph.distance res = Js.Fin (Geometry.distance proj') /\
           SnapToGraph.t res = Geometry.t proj' /\ 0 <= SnapToGraph.t res <= 1 /\
           SnapToGraph.snapped res
           = if negb (SnapToGraph.hardClampOf opts)
                && Js.ltb (SnapToGraph.maxSnapMetersOf opts) (Geometry.distance proj')
             then point else Geometry.point proj')).
    { intros res He Hd Htr Hs. rewrite He.
      split; [split; [discriminate|]|].
      { intros Hall. rewrite (Hall e Hin) in Hp. discriminate. }
      split; [discriminate|]. intros eid Heid. injection Heid as <-.
      exists e, proj. rewrite Htr.
      split; [exact Hin|]. split; [reflexivity|]. split; [exact Hp|].
      split; [exact Hd|]. split; [reflexivity|]. split; [exact Ht|]. exact Hs. }
    destruct cond eqn:Ec; apply Hres; try reflexivity.
Qed.

(** Without the hard clamp the snap leaves the previous edge only for an edge
    that is nearer by its penalty: when the previous edge is a usable edge of
    the map, the distance to the edge returned plus the penalty of that edge
    (0 on the previous edge, 0.08 on an edge that shares a node with it,
    [switchPenaltyMeters] elsewhere) is at most the distance to the previous
    edge. *)
Theorem snapToGraph_hysteresis
  (map : StoreMap.StoreMap) (point : Geometry.Point2) (opts : option SnapToGraph.Opts)
  (p : SnapToGraph.EdgeId) (ep : StoreMap.Edge.t) (projp : Geometry.Projection) :
  SnapToGraph.hardClampOf opts = false ->
  SnapToGraph.prevOf opts = Some p ->
  In ep (SnapToGraph.usableEdges map) ->
  SnapToGraph.isPrev (Some p) (SnapToGraph.edgeIdOf ep) = true ->
  SnapToGraph.candidateProjection (StoreMap.nodes map) point ep = Some projp ->
  exists eid d,
    SnapToGraph.edge (SnapToGraph.snapToGraph map point opts) = Some eid /\
    SnapToGraph.distance (SnapToGraph.snapToGraph map point opts) = Js.Fin d /\
    d + SnapToGraph.penalty (Some p) (SnapToGraph.switchPenaltyMetersOf opts) eid
    <= Geometry.distance projp.
Proof.
  intros Hclamp Hprev Hin Hisprev Hproj.
  unfold SnapToGraph.snapToGraph. cbv zeta. rewrite Hclamp, Hprev.
  destruct (bestOnEdges_spec (StoreMap.nodes map) point (Some p)
              (SnapToGraph.switchPenaltyMetersOf opts) (SnapToGraph.usableEdges map))
    as [[_ Hall] | (e0 & proj0 & Hin0 & Hp0 & E & Hmin)].
  { rewrite (Hall ep Hin) in Hproj. discriminate. }
  rewrite E. specialize (Hmin ep projp Hin Hproj).
  assert (Epen : SnapToGraph.penalty (Some p) (SnapToGraph.switchPenaltyMetersOf opts)
                   (SnapToGraph.edgeIdOf ep) = 0).
  { unfold SnapToGraph.penalty. now rewrite Hisprev. }
  rewrite Epen in Hmin.
  exists (SnapToGraph.edgeIdOf e0), (Geometry.distance proj0).
  destruct (_ && _); cbn; (split; [reflexivity|]); (split; [reflexivity|]); lra.
Qed.

Lemma snapToGraph_hysteresis_witness :
  exists eid d,
    SnapToGraph.edge (SnapToGraph.snapToGraph Scenarios.corridorsMap
                        (Geometry.mkPoint2 0 (1 / 4)) Scenarios.stickyOpts) = Some eid /\
    SnapToGraph.distance (SnapToGraph.snapToGraph Scenarios.corridorsMap
                            (Geometry.mkPoint2 0 (1 / 4)) Scenarios.stickyOpts) = Js.Fin d /\
    d + SnapToGraph.penalty (Some (SnapToGraph.mkEdgeId "a0" "a1"))
          (SnapToGraph.switchPenaltyMetersOf Scenarios.stickyOpts) eid
    <= 1 / 4.
Proof.
  apply (snapToGraph_hysteresis Scenarios.corridorsMap (Geometry.mkPoint2 0 (1 / 4))
           Scenarios.stickyOpts (SnapToGraph.mkEdgeId "a0" "a1") Scenarios.corridorE1
           (Geometry.mkProjection 0 (Geometry.mkPoint2 (0 + (10 - 0) * 0) (0 + (0 - 0) * 0))
              (1 / 4))).
  - reflexivity.
  - reflexivity.
  - rewrite corridors_usableEdges. now left.
  - reflexivity.
  - exact corridorE1_projection_near.
Defined.

(** ** The nearest node (snapToGraph.ts) *)

(** The loop of [nearestNodeId] after the nodes [seen]: nothing when none of
    them is of an admitted type, and otherwise the first admitted node among
    those of least distance. *)
Lemma nearest_fold (point : Geometry.Point2) (types : option (list StoreMap.StoreMapNodeType))
  (l seen : list StoreMap.Node.t) (acc : option string * Js.xreal) :
  let admitted n :=
    match types with
    | Some ts => existsb (StoreMap.nodeType_eqb (StoreMap.Node.type n)) ts
    | None => true
    end in
  let d n := Geometry.dist point (Geometry.mkPoint2 (StoreMap.Node.x n) (StoreMap.Node.y n)) in
  let step (acc : option string * Js.xreal) (n : StoreMap.Node.t) :=
    let '(bestId, best) := acc in
    if match types with
       | Some ts => negb (existsb (StoreMap.nodeType_eqb (StoreMap.Node.type n)) ts)
       | None => false
       end
    then acc
    else if Js.lt_x (d n) best then (Some (StoreMap.Node.id n), Js.Fin (d n)) else acc in
  let inv seen acc :=
    (acc = (None, Js.PInf) /\ forall m, In m seen -> admitted m = false)
    \/ (exists l1 n l2,
          seen = l1 ++ n :: l2 /\ admitted n = true /\
          acc = (Some (StoreMap.Node.id n), Js.Fin (d n)) /\
          (forall m, In m l1 -> admitted m = true -> d n < d m) /\
          (forall m, In m l2 -> admitted m = true -> d n <= d m)) in
  inv seen acc -> inv (seen ++ l) (fold_left step l acc).
Proof.
  intros admitted d step inv. revert seen acc.
  induction l as [|n l IH]; intros seen acc Hacc.
  - now rewrite app_nil_r.
  - cbn [fold_left].
    replace (seen ++ n :: l) with ((seen ++ [n]) ++ l) by now rewrite <- app_assoc.
    apply IH. clear IH.
    assert (Eadm : match types with
                   | Some ts => negb (existsb (StoreMap.nodeType_eqb (StoreMap.Node.type n)) ts)
                   | None => false
                   end = negb (admitted n)).
    { unfold admitted. now destruct types. }
    destruct acc as [bestId best]. unfold step. rewrite Eadm.
    destruct (admitted n) eqn:En; cbn [negb].
    + destruct Hacc as [[E Hall] | (l1 & n0 & l2 & Es & Hn0 & E & Hl1 & Hl2)].
      * injection E as -> ->. cbn [Js.lt_x].
        right. exists seen, n, []. split; [reflexivity|]. split; [exact En|].
        split; [reflexivity|]. split; [|intros m []].
        intros m Hm Ha. rewrite (Hall m Hm) in Ha. discriminate.
      * injection E as -> ->. cbn [Js.lt_x].
        destruct (Js.ltb (d n) (d n0)) eqn:El.
        -- apply ltb_true in El.
           right. exists seen, n, []. split; [reflexivity|]. split; [exact En|].
           split; [reflexivity|]. split; [|intros m []].
           intros m Hm Ha. rewrite Es in Hm.
           apply in_app_or in Hm as [Hm | [<- | Hm]].
           ++ specialize (Hl1 m Hm Ha). lra.
           ++ exact El.
           ++ specialize (Hl2 m Hm Ha). lra.
        -- apply ltb_false in El.
           right. exists l1, n0, (l2 ++ [n]).
           split; [rewrite Es, <- app_assoc; reflexivity|]. split; [exact Hn0|].
           split; [reflexivity|]. split; [exact Hl1|].
           intros m Hm Ha. apply in_app_or in Hm as [Hm | [<- | []]]; [now apply Hl2 | exact El].
    + destruct Hacc as [[E Hall] | (l1 & n0 & l2 & Es & Hn0 & E & Hl1 & Hl2)].
      * left. split; [exact E|]. intros m Hm.
        apply in_app_or in Hm as [Hm | [<- | []]]; [now apply Hall | exact En].
      * right. exists l1, n0, (l2 ++ [n]).
        split; [rewrite Es, <- app_assoc; reflexivity|]. split; [exact Hn0|].
        split; [exact E|]. split; [exact Hl1|].
        intros m Hm Ha. apply in_app_or in Hm as [Hm | [<- | []]]; [now apply Hl2|].
        rewrite En in Ha. discriminate.
Qed.

(** [nearestNodeId] returns None exactly when the map has no node of an
    admitted type (every type when [types] is absent). Otherwise it returns the
    id of an admitted node that no admitted node is nearer than, the first such
    node in the order of the map. *)
Theorem nearestNodeId_spec
  (map : StoreMap.StoreMap) (point : Geometry.Point2)
  (types : option (list StoreMap.StoreMapNodeType)) :
  let admitted n :=
    match types with
    | Some ts => existsb (StoreMap.nodeType_eqb (StoreMap.Node.type n)) ts
    | None => true
    end in
  let d n := Geometry.dist point (StoreMap.nodePoint n) in
  (SnapToGraph.nearestNodeId map point types = None <->
   forall m, In m (StoreMap.nodes map) -> admitted m = false) /\
  (forall id, SnapToGraph.nearestNodeId map point types = Some id ->
     exists l1 n l2,
       StoreMap.nodes map = l1 ++ n :: l2 /\ StoreMap.Node.id n = id /\ admitted n = true /\
       (forall m, In m l1 -> admitted m = true -> d n < d m) /\
       (forall m, In m l2 -> admitted m = true -> d n <= d m)).
Proof.
  intros admitted d.
  pose proof (nearest_fold point types (StoreMap.nodes map) [] (None, Js.PInf)) as H.
  cbv zeta in H. cbn [app] in H.
  specialize (H (or_introl (conj eq_refl (fun m (Hm : In m []) => match Hm with end)))).
  unfold SnapToGraph.nearestNodeId.
  destruct H as [[E Hall] | (l1 & n & l2 & Es & Hn & E & Hl1 & Hl2)]; rewrite E; cbn [fst].
  - split; [split; [intros _; exact Hall | reflexivity] | discriminate].
  - split.
    + split; [discriminate|]. intros Hall. exfalso.
      assert (Hin : In n (StoreMap.nodes map)) by (rewrite Es; apply in_or_app; right; now left).
      specialize (Hall n Hin). unfold admitted in Hall. rewrite Hall in Hn. discriminate.
    + intros id Hid. injection Hid as <-. exists l1, n, l2. repeat split; auto.
Qed.


(** ** Bearings (turnByTurn.ts) *)

Lemma bearingDeg_wrap (a b : Geometry.Point2) :
  TurnByTurn.bearingDeg a b
  = PdrMath.wrapHeading
      (Js.atan2_neg (Geometry.x b - Geometry.x a) (Geometry.y b - Geometry.y a) * 180 / PI).
Proof. reflexivity. Qed.

(** Away from the origin the sign of a zero plays no part. *)
Lemma atan2_neg_eq (y d : R) : y <> 0 \/ d <> 0 -> Js.atan2_neg y d = Js.atan2 y (- d).
Proof.
  intros H. unfold Js.atan2_neg, Js.atan2.
  destruct (Rlt_dec 0 (- d)); [reflexivity|].
  destruct (Rlt_dec (- d) 0); [reflexivity|].
  destruct (Rlt_dec 0 y); [reflexivity|].
  destruct (Rlt_dec y 0); [reflexivity|].
  exfalso. destruct H as [H | H]; apply H; lra.
Qed.

Lemma atan2_neg_origin : Js.atan2_neg 0 0 = PI.
Proof.
  unfold Js.atan2_neg.
  destruct (Rlt_dec 0 (- 0)); [lra|]. destruct (Rlt_dec (- 0) 0); [lra|].
  destruct (Rlt_dec 0 0); [lra|]. destruct (Rlt_dec 0 0); [lra | reflexivity].
Qed.

(** From a point to itself the bearing is 180 degrees. *)
Lemma bearingDeg_self (a : Geometry.Point2) : TurnByTurn.bearingDeg a a = 180.
Proof.
  pose proof PI_RGT_0 as Hpi.
  rewrite bearingDeg_wrap.
  replace (Geometry.x a - Geometry.x a) with 0 by ring.
  replace (Geometry.y a - Geometry.y a) with 0 by ring.
  rewrite atan2_neg_origin.
  replace (PI * 180 / PI) with 180 by (field; lra).
  apply wrapHeading_fixed. lra.
Qed.

Lemma atan2_pos_x (y x : R) : 0 < x -> Js.atan2 y x = atan (y / x).
Proof. intros H. unfold Js.atan2. destruct (Rlt_dec 0 x); [reflexivity | lra]. Qed.

Lemma atan2_neg_x (y x : R) : x < 0 -> 0 <= y -> Js.atan2 y x = atan (y / x) + PI.
Proof.
  intros Hx Hy. unfold Js.atan2.
  destruct (Rlt_dec 0 x); [lra|]. destruct (Rlt_dec x 0); [|lra].
  destruct (Rle_dec 0 y); [reflexivity | lra].
Qed.

Lemma atan2_zero_x_pos (y : R) : 0 < y -> Js.atan2 y 0 = PI / 2.
Proof.
  intros Hy. unfold Js.atan2.
  destruct (Rlt_dec 0 0); [lra|]. destruct (Rlt_dec 0 0); [lra|].
  destruct (Rlt_dec 0 y); [reflexivity | lra].
Qed.

Lemma atan2_zero_x_neg (y : R) : y < 0 -> Js.atan2 y 0 = - (PI / 2).
Proof.
  intros Hy. unfold Js.atan2.
  destruct (Rlt_dec 0 0); [lra|]. destruct (Rlt_dec 0 0); [lra|].
  destruct (Rlt_dec 0 y); [lra|]. destruct (Rlt_dec y 0); [reflexivity | lra].
Qed.

(** [Math.atan2] depends on the direction of [(x, y)] only. *)
Lemma atan2_scale (k y x : R) : 0 < k -> Js.atan2 (k * y) (k * x) = Js.atan2 y x.
Proof.
  intros Hk. unfold Js.atan2.
  assert (Hq : x <> 0 -> k * y / (k * x) = y / x) by (intros; field; lra).
  destruct (Rlt_dec 0 x) as [Hx | Hx].
  - destruct (Rlt_dec 0 (k * x)) as [_ | Hn]; [rewrite Hq by lra; reflexivity|].
    exfalso. apply Hn. now apply Rmult_lt_0_compat.
  - destruct (Rlt_dec 0 (k * x)) as [Hp | _].
    { exfalso. apply Hx. apply (Rmult_lt_reg_l k); [exact Hk|]. lra. }
    destruct (Rlt_dec x 0) as [Hx' | Hx'].
    + destruct (Rlt_dec (k * x) 0) as [_ | Hn].
      2:{ exfalso. apply Hn. replace 0 with (k * 0) by ring. now apply Rmult_lt_compat_l. }
      rewrite Hq by lra.
      destruct (Rle_dec 0 y) as [Hy | Hy].
      * destruct (Rle_dec 0 (k * y)) as [_ | Hn]; [reflexivity|].
        exfalso. apply Hn. apply Rmult_le_pos; lra.
      * destruct (Rle_dec 0 (k * y)) as [Hp | _]; [|reflexivity].
        exfalso. apply Hy. apply (Rmult_le_reg_l k); [exact Hk|]. lra.
    + destruct (Rlt_dec (k * x) 0) as [Hp | _].
      { exfalso. apply Hx'. apply (Rmult_lt_reg_l k); [exact Hk|]. lra. }
      destruct (Rlt_dec 0 y) as [Hy | Hy].
      * destruct (Rlt_dec 0 (k * y)) as [_ | Hn]; [reflexivity|].
        exfalso. apply Hn. now apply Rmult_lt_0_compat.
      * destruct (Rlt_dec 0 (k * y)) as [Hp | _].
        { exfalso. apply Hy. apply (Rmult_lt_reg_l k); [exact Hk|]. lra. }
        destruct (Rlt_dec y 0) as [Hy' | Hy'].
        -- destruct (Rlt_dec (k * y) 0) as [_ | Hn]; [reflexivity|].
           exfalso. apply Hn. replace 0 with (k * 0) by ring. now apply Rmult_lt_compat_l.
        -- destruct (Rlt_dec (k * y) 0) as [Hp | _]; [|reflexivity].
           exfalso. apply Hy'. apply (Rmult_lt_reg_l k); [exact Hk|]. lra.
Qed.

Lemma bearingDeg_same_direction (a b c : Geometry.Point2) :
  TurnVocabulary.sameDirection a b c -> TurnByTurn.bearingDeg b c = TurnByTurn.bearingDeg a b.
Proof.
  intros (k & Hk & Ex & Ey). rewrite !bearingDeg_wrap, Ex, Ey.
  set (dx := Geometry.x b - Geometry.x a). set (dy := Geometry.y b - Geometry.y a).
  destruct (Req_dec dx 0) as [Hx | Hx]; [destruct (Req_dec dy 0) as [Hy | Hy]|].
  - rewrite Hx, Hy, !Rmult_0_r. reflexivity.
  - rewrite !atan2_neg_eq; [|now right | right; nra].
    replace (- (k * dy)) with (k * - dy) by ring. now rewrite atan2_scale.
  - rewrite !atan2_neg_eq; [|now left | left; nra].
    replace (- (k * dy)) with (k * - dy) by ring. now rewrite atan2_scale.
Qed.

Lemma bearingDeg_up (a b : Geometry.Point2) :
  Geometry.x b = Geometry.x a -> Geometry.y b < Geometry.y a -> TurnByTurn.bearingDeg a b = 0.
Proof.
  pose proof PI_RGT_0 as Hpi.
  intros Hx Hy. rewrite bearingDeg_wrap, atan2_neg_eq, Hx, atan2_pos_x by lra.
  replace (Geometry.x a - Geometry.x a) with 0 by ring.
  unfold Rdiv at 2. rewrite Rmult_0_l, atan_0.
  replace (0 * 180 / PI) with 0 by (field; lra).
  apply wrapHeading_fixed. lra.
Qed.

Lemma bearingDeg_right (a b : Geometry.Point2) :
  Geometry.y b = Geometry.y a -> Geometry.x a < Geometry.x b -> TurnByTurn.bearingDeg a b = 90.
Proof.
  pose proof PI_RGT_0 as Hpi.
  intros Hy Hx. rewrite bearingDeg_wrap, atan2_neg_eq, Hy by lra.
  replace (- (Geometry.y a - Geometry.y a)) with 0 by ring.
  rewrite atan2_zero_x_pos by lra.
  replace (PI / 2 * 180 / PI) with 90 by (field; lra).
  apply wrapHeading_fixed. lra.
Qed.

Lemma bearingDeg_down (a b : Geometry.Point2) :
  Geometry.x b = Geometry.x a -> Geometry.y a < Geometry.y b -> TurnByTurn.bearingDeg a b = 180.
Proof.
  pose proof PI_RGT_0 as Hpi.
  intros Hx Hy. rewrite bearingDeg_wrap, atan2_neg_eq, Hx, atan2_neg_x by lra.
  replace (Geometry.x a - Geometry.x a) with 0 by ring.
  unfold Rdiv at 2. rewrite Rmult_0_l, atan_0.
  replace ((0 + PI) * 180 / PI) with 180 by (field; lra).
  apply wrapHeading_fixed. lra.
Qed.

Lemma bearingDeg_left (a b : Geometry.Point2) :
  Geometry.y b = Geometry.y a -> Geometry.x b < Geometry.x a -> TurnByTurn.bearingDeg a b = 270.
Proof.
  pose proof PI_RGT_0 as Hpi.
  intros Hy Hx. rewrite bearingDeg_wrap, atan2_neg_eq, Hy by lra.
  replace (- (Geometry.y a - Geometry.y a)) with 0 by ring.
  rewrite atan2_zero_x_neg by lra.
  replace (- (PI / 2) * 180 / PI) with (-90) by (field; lra).
  rewrite (wrapHeading_congruent (-90) 270 (-1)) by lra.
  apply wrapHeading_fixed. lra.
Qed.

(** [bearingDeg] is a heading of [[0, 360)] that reads the plan like a compass
    with north up: 0 toward smaller y, 90 toward larger x, 180 toward larger y
    and 270 toward smaller x; and it depends on the direction from [a] to [b]
    only, not on how far apart they are. *)
Theorem bearingDeg_compass (a b c : Geometry.Point2) :
  0 <= TurnByTurn.bearingDeg a b < 360 /\
  (Geometry.x b = Geometry.x a -> Geometry.y b < Geometry.y a -> TurnByTurn.bearingDeg a b = 0) /\
  (Geometry.y b = Geometry.y a -> Geometry.x a < Geometry.x b -> TurnByTurn.bearingDeg a b = 90) /\
  (Geometry.x b = Geometry.x a -> Geometry.y a < Geometry.y b -> TurnByTurn.bearingDeg a b = 180) /\
  (Geometry.y b = Geometry.y a -> Geometry.x b < Geometry.x a -> TurnByTurn.bearingDeg a b = 270) /\
  (TurnVocabulary.sameDirection a b c -> TurnByTurn.bearingDeg b c = TurnByTurn.bearingDeg a b).
Proof.
  split; [rewrite bearingDeg_wrap; apply wrapHeading_range|].
  split; [apply bearingDeg_up|]. split; [apply bearingDeg_right|].
  split; [apply bearingDeg_down|]. split; [apply bearingDeg_left|].
  apply bearingDeg_same_direction.
Qed.

(** ** The maneuvers in closed form (turnByTurn.ts) *)

Lemma interiorStep_closed (polyline : list Geometry.Point2)
  (ms : list TurnByTurn.Maneuver) (i : nat) :
  (1 <= i)%nat -> (i < List.length polyline)%nat ->
  TurnByTurn.interiorStep polyline (ShortestPath.polylineLength (firstn i polyline), ms) i
  = (ShortestPath.polylineLength (firstn (i + 1) polyline),
     ms ++ TurnVocabulary.maneuverAt polyline i).
Proof.
  intros Hi Hn.
  assert (Ecum : ShortestPath.polylineLength (firstn i polyline)
                 + Geometry.dist (TurnByTurn.at_ polyline (i - 1)) (TurnByTurn.at_ polyline i)
                 = ShortestPath.polylineLength (firstn (i + 1) polyline)).
  { pose proof (polylineLength_firstn_SS polyline (i - 1)) as H.
    replace (S (i - 1)) with i in H by lia. replace (i + 1)%nat with (S i) by lia.
    rewrite H by lia. reflexivity. }
  unfold TurnByTurn.interiorStep, TurnVocabulary.maneuverAt. cbv zeta.
  rewrite Ecum, polylineLength_structural.
  destruct (TurnByTurn.classifyTurn _); try reflexivity.
  now rewrite app_nil_r.
Qed.

Lemma interior_fold_closed (polyline : list Geometry.Point2) (k a : nat)
  (ms : list TurnByTurn.Maneuver) :
  (1 <= a)%nat -> (a + k <= List.length polyline)%nat ->
  fold_left (TurnByTurn.interiorStep polyline) (seq a k)
            (ShortestPath.polylineLength (firstn a polyline), ms)
  = (ShortestPath.polylineLength (firstn (a + k) polyline),
     ms ++ flat_map (TurnVocabulary.maneuverAt polyline) (seq a k)).
Proof.
  revert a ms. induction k as [|k IH]; intros a ms Ha Hn.
  - cbn [seq fold_left flat_map]. now rewrite Nat.add_0_r, app_nil_r.
  - cbn [seq fold_left flat_map].
    rewrite interiorStep_closed by lia.
    replace (a + 1)%nat with (S a) by lia.
    rewrite IH by lia.
    replace (S a + k)%nat with (a + S k)%nat by lia.
    now rewrite <- app_assoc.
Qed.

Lemma buildManeuvers_closed (polyline : list Geometry.Point2) :
  (2 <= List.length polyline)%nat ->
  TurnByTurn.buildManeuvers polyline
  = TurnByTurn.mkManeuver TurnByTurn.start 0 (TurnByTurn.at_ polyline 0) 0 "Start"
    :: flat_map (TurnVocabulary.maneuverAt polyline) (seq 1 (List.length polyline - 2))
    ++ [TurnByTurn.mkManeuver TurnByTurn.arrive (List.length polyline - 1)
          (TurnByTurn.at_ polyline (List.length polyline - 1))
          (RouteProgress.polylineLength polyline) "Arrive"].
Proof.
  intros Hn. unfold TurnByTurn.buildManeuvers.
  destruct (Nat.ltb_spec (List.length polyline) 2) as [Hlt | _]; [lia|].
  cbv zeta.
  assert (E0 : 0 = ShortestPath.polylineLength (firstn 1 polyline)).
  { destruct polyline as [|p r]; [cbn in Hn; lia|]. reflexivity. }
  pose proof (interior_fold_closed polyline (List.length polyline - 2) 1
                [TurnByTurn.mkManeuver TurnByTurn.start 0 (TurnByTurn.at_ polyline 0) 0 "Start"]
                ltac:(lia) ltac:(lia)) as H.
  rewrite <- E0 in H. rewrite H. cbn [app]. reflexivity.
Qed.

Lemma maneuverAt_index (polyline : list Geometry.Point2) (i : nat) (m : TurnByTurn.Maneuver) :
  In m (TurnVocabulary.maneuverAt polyline i) ->
  TurnByTurn.atIndex m = i /\
  TurnByTurn.point m = TurnByTurn.at_ polyline i /\
  TurnByTurn.distanceFromStartMeters m
  = RouteProgress.polylineLength (firstn (i + 1) polyline) /\
  TurnByTurn.type m = TurnByTurn.classifyTurn (TurnByTurn.turnDelta polyline i) /\
  TurnByTurn.instruction m = TurnVocabulary.labelOf (TurnByTurn.type m) /\
  TurnByTurn.type m <> TurnByTurn.straight.
Proof.
  unfold TurnVocabulary.maneuverAt. cbv zeta.
  pose proof (classifyTurn_cases (TurnByTurn.turnDelta polyline i)) as Hc.
  destruct (TurnByTurn.classifyTurn _) eqn:E; try contradiction;
    intros [<- | []]; cbn; repeat split; congruence.
Qed.

Lemma in_flat_map_seq (polyline : list Geometry.Point2) (a k : nat) (m : TurnByTurn.Maneuver) :
  In m (flat_map (TurnVocabulary.maneuverAt polyline) (seq a k)) ->
  (a <= TurnByTurn.atIndex m < a + k)%nat /\
  In m (TurnVocabulary.maneuverAt polyline (TurnByTurn.atIndex m)).
Proof.
  intros H. apply in_flat_map in H as (i & Hi & Hm).
  apply in_seq in Hi.
  destruct (maneuverAt_index polyline i m Hm) as (E & _). rewrite E. now split.
Qed.

Lemma prefix_length_mono (l : list Geometry.Point2) (i j : nat) :
  (i <= j)%nat ->
  RouteProgress.polylineLength (firstn i l) <= RouteProgress.polylineLength (firstn j l).
Proof.
  intros H. rewrite !polylineLength_structural.
  replace (firstn i l) with (firstn i (firstn j l)).
  - apply polylineLength_firstn_le.
  - rewrite firstn_firstn. f_equal. lia.
Qed.

(** Every maneuver of [buildManeuvers] sits on a vertex of the polyline: its
    point is [polyline[atIndex]] and its distance from the start is the length
    of the polyline up to that vertex, which is 0 for the start and the whole
    length for the arrival. The maneuvers are in the order of the route: their
    indices increase strictly and their distances never decrease. *)
Theorem buildManeuvers_distances (polyline : list Geometry.Point2) (m : TurnByTurn.Maneuver) :
  In m (TurnByTurn.buildManeuvers polyline) ->
  (TurnByTurn.atIndex m < List.length polyline)%nat /\
  TurnByTurn.point m = TurnByTurn.at_ polyline (TurnByTurn.atIndex m) /\
  TurnByTurn.distanceFromStartMeters m
  = RouteProgress.polylineLength (firstn (TurnByTurn.atIndex m + 1) polyline) /\
  (TurnByTurn.type m = TurnByTurn.start -> TurnByTurn.distanceFromStartMeters m = 0) /\
  (TurnByTurn.type m = TurnByTurn.arrive ->
   TurnByTurn.distanceFromStartMeters m = RouteProgress.polylineLength polyline) /\
  StronglySorted (fun m1 m2 => (TurnByTurn.atIndex m1 < TurnByTurn.atIndex m2)%nat)
                 (TurnByTurn.buildManeuvers polyline) /\
  StronglySorted (fun m1 m2 => TurnByTurn.distanceFromStartMeters m1
                               <= TurnByTurn.distanceFromStartMeters m2)
                 (TurnByTurn.buildManeuvers polyline).
Proof.
  intros Hm.
  assert (Hn : (2 <= List.length polyline)%nat).
  { unfold TurnByTurn.buildManeuvers in Hm.
    destruct (Nat.ltb_spec (List.length polyline) 2); [destruct Hm | lia]. }
  rewrite (buildManeuvers_closed polyline Hn) in *.
  set (n := List.length polyline) in *.
  set (s := TurnByTurn.mkManeuver TurnByTurn.start 0 _ 0 _) in *.
  set (a := TurnByTurn.mkManeuver TurnByTurn.arrive _ _ _ _) in *.
  set (interior := flat_map (TurnVocabulary.maneuverAt polyline) (seq 1 (n - 2))) in *.
  assert (Hfull : firstn (n - 1 + 1) polyline = polyline)
    by (apply firstn_all2; unfold n; lia).
  (* what every maneuver of the list satisfies *)
  assert (Hall : forall x, In x (s :: interior ++ [a]) ->
            (TurnByTurn.atIndex x < n)%nat /\
            TurnByTurn.point x = TurnByTurn.at_ polyline (TurnByTurn.atIndex x) /\
            TurnByTurn.distanceFromStartMeters x
            = RouteProgress.polylineLength (firstn (TurnByTurn.atIndex x + 1) polyline) /\
            (TurnByTurn.type x = TurnByTurn.start -> TurnByTurn.distanceFromStartMeters x = 0) /\
            (TurnByTurn.type x = TurnByTurn.arrive ->
             TurnByTurn.distanceFromStartMeters x = RouteProgress.polylineLength polyline)).
  { intros x [<- | Hx].
    - unfold s.
      cbn [TurnByTurn.atIndex TurnByTurn.point TurnByTurn.distanceFromStartMeters
           TurnByTurn.type Nat.add].
      split; [lia|]. split; [reflexivity|].
      split; [|split; [reflexivity | discriminate]].
      rewrite polylineLength_structural.
      destruct polyline as [|p r]; [cbn in Hn; lia|]. reflexivity.
    - apply in_app_or in Hx as [Hx | [<- | []]].
      + apply in_flat_map_seq in Hx as [Hi Hx].
        destruct (maneuverAt_index polyline _ x Hx) as (_ & Hp & Hd & Ht & _ & Hns).
        pose proof (classifyTurn_cases (TurnByTurn.turnDelta polyline (TurnByTurn.atIndex x))) as Hc.
        rewrite <- Ht in Hc.
        repeat split; [lia | exact Hp | exact Hd | |];
          intros E; rewrite E in Hc; contradiction.
      + unfold a.
        cbn [TurnByTurn.atIndex TurnByTurn.point TurnByTurn.distanceFromStartMeters
             TurnByTurn.type].
        rewrite Hfull.
        split; [lia|]. split; [reflexivity|]. split; [reflexivity|].
        split; [discriminate | reflexivity]. }
  destruct (Hall m Hm) as (H1 & H2 & H3 & H4 & H5).
  split; [exact H1|]. split; [exact H2|]. split; [exact H3|].
  split; [exact H4|]. split; [exact H5|].
  (* order *)
  assert (Hidx : StronglySorted (fun m1 m2 => (TurnByTurn.atIndex m1 < TurnByTurn.atIndex m2)%nat)
                   (s :: interior ++ [a])).
  { assert (Hint : forall b k,
      (b + k <= n - 1)%nat ->
      StronglySorted (fun m1 m2 => (TurnByTurn.atIndex m1 < TurnByTurn.atIndex m2)%nat)
        (flat_map (TurnVocabulary.maneuverAt polyline) (seq b k) ++ [a])).
    { intros b k. revert b. induction k as [|k IH]; intros b Hb.
      - cbn. repeat constructor.
      - cbn [seq flat_map]. rewrite <- app_assoc.
        specialize (IH (S b) ltac:(lia)).
        unfold TurnVocabulary.maneuverAt at 1. cbv zeta.
        assert (Hlt : forall y, In y (flat_map (TurnVocabulary.maneuverAt polyline) (seq (S b) k)
                                      ++ [a]) -> (b < TurnByTurn.atIndex y)%nat).
        { intros y Hy. apply in_app_or in Hy as [Hy | [<- | []]].
          - apply in_flat_map_seq in Hy as [Hy _]. lia.
          - cbn. lia. }
        destruct (TurnByTurn.classifyTurn _); cbn [app]; try exact IH;
          (constructor; [exact IH | apply Forall_forall; intros y Hy; cbn; now apply Hlt]). }
    constructor; [apply Hint; lia|].
    apply Forall_forall. intros y Hy. cbn [s TurnByTurn.atIndex].
    apply in_app_or in Hy as [Hy | [<- | []]].
    - apply in_flat_map_seq in Hy as [Hy _]. lia.
    - cbn. lia. }
  split; [exact Hidx|].
  (* the distances follow the indices *)
  assert (Hmono : forall l,
            (forall x, In x l -> In x (s :: interior ++ [a])) ->
            StronglySorted (fun m1 m2 => (TurnByTurn.atIndex m1 < TurnByTurn.atIndex m2)%nat) l ->
            StronglySorted (fun m1 m2 => TurnByTurn.distanceFromStartMeters m1
                                         <= TurnByTurn.distanceFromStartMeters m2) l).
  { induction l as [|x l IH]; intros Hsub Hs; [constructor|].
    apply StronglySorted_inv in Hs as [Hs Hx].
    constructor; [apply IH; [intros y Hy; apply Hsub; now right | exact Hs]|].
    apply Forall_forall. intros y Hy.
    rewrite Forall_forall in Hx. specialize (Hx y Hy).
    destruct (Hall x (Hsub x (or_introl eq_refl))) as (_ & _ & Ex & _).
    destruct (Hall y (Hsub y (or_intror Hy))) as (_ & _ & Ey & _).
    rewrite Ex, Ey. apply prefix_length_mono. lia. }
  apply Hmono; [auto | exact Hidx].
Qed.

Lemma buildManeuvers_distances_witness :
  let polyline := [Geometry.mkPoint2 0 0; Geometry.mkPoint2 0 (-5); Geometry.mkPoint2 5 (-5)] in
  let m := TurnByTurn.mkManeuver TurnByTurn.start 0 (Geometry.mkPoint2 0 0) 0 "Start" in
  (TurnByTurn.atIndex m < List.length polyline)%nat /\
  TurnByTurn.point m = TurnByTurn.at_ polyline (TurnByTurn.atIndex m) /\
  TurnByTurn.distanceFromStartMeters m
  = RouteProgress.polylineLength (firstn (TurnByTurn.atIndex m + 1) polyline).
Proof.
  intros polyline m.
  destruct (buildManeuvers_distances polyline m) as (H1 & H2 & H3 & _).
  - rewrite buildManeuvers_closed by (cbn; lia). now left.
  - split; [exact H1|]. split; [exact H2 | exact H3].
Defined.

(** ** Where the route turns (turnByTurn.ts) *)

Lemma buildManeuvers_at (polyline : list Geometry.Point2) (i : nat) (m : TurnByTurn.Maneuver) :
  (1 <= i <= List.length polyline - 2)%nat ->
  (In m (TurnByTurn.buildManeuvers polyline) /\ TurnByTurn.atIndex m = i)
  <-> In m (TurnVocabulary.maneuverAt polyline i).
Proof.
  intros Hi.
  rewrite buildManeuvers_closed by lia.
  split.
  - intros [[<- | Hm] E].
    + cbn in E. lia.
    + apply in_app_or in Hm as [Hm | [<- | []]].
      * apply in_flat_map_seq in Hm as [_ Hm]. now rewrite E in Hm.
      * cbn in E. lia.
  - intros Hm. split; [|now apply (maneuverAt_index polyline i m)].
    right. apply in_or_app. left. apply in_flat_map. exists i. split; [|exact Hm].
    apply in_seq. lia.
Qed.

(** A route whose start was snapped onto a node begins with a repeated point.
    The bearing of its first, empty segment is 180 degrees, so a route that
    then leaves to the right on the plan turns left by 90 degrees at the
    second point, and one that leaves upwards makes a U-turn there. *)
Lemma turnDelta_repeated_left :
  TurnByTurn.turnDelta
    [Geometry.mkPoint2 5 0; Geometry.mkPoint2 5 0; Geometry.mkPoint2 10 0] 1 = -90.
Proof.
  unfold TurnByTurn.turnDelta. cbv zeta.
  change (TurnByTurn.at_ _ (1 - 1)) with (Geometry.mkPoint2 5 0).
  change (TurnByTurn.at_ _ (1 + 1)) with (Geometry.mkPoint2 10 0).
  change (TurnByTurn.at_ _ 1) with (Geometry.mkPoint2 5 0).
  rewrite bearingDeg_self, bearingDeg_right by (cbn; lra).
  unfold TurnByTurn.angleDiff. rewrite (rem_eval _ _ 1%Z); lra.
Qed.

Lemma turnDelta_repeated_uturn :
  TurnByTurn.turnDelta
    [Geometry.mkPoint2 0 5; Geometry.mkPoint2 0 5; Geometry.mkPoint2 0 0] 1 = -180.
Proof.
  unfold TurnByTurn.turnDelta. cbv zeta.
  change (TurnByTurn.at_ _ (1 - 1)) with (Geometry.mkPoint2 0 5).
  change (TurnByTurn.at_ _ (1 + 1)) with (Geometry.mkPoint2 0 0).
  change (TurnByTurn.at_ _ 1) with (Geometry.mkPoint2 0 5).
  rewrite bearingDeg_self, bearingDeg_up by (cbn; lra).
  unfold TurnByTurn.angleDiff. rewrite (rem_eval _ _ 1%Z); lra.
Qed.

(** At an interior vertex whose turn angle is below 28 degrees in absolute
    value [buildManeuvers] reports nothing; at every other interior vertex it
    reports one maneuver: a U-turn above 150 degrees, else a right turn for a
    positive angle and a left turn for a negative one, with the instruction
    that goes with it. *)
Theorem buildManeuvers_turn_at (polyline : list Geometry.Point2) (i : nat) :
  (1 <= i <= List.length polyline - 2)%nat ->
  let delta := TurnByTurn.turnDelta polyline i in
  (Rabs delta < 28 ->
   forall m, In m (TurnByTurn.buildManeuvers polyline) -> TurnByTurn.atIndex m <> i) /\
  (28 <= Rabs delta ->
   exists m,
     In m (TurnByTurn.buildManeuvers polyline) /\ TurnByTurn.atIndex m = i /\
     (forall m', In m' (TurnByTurn.buildManeuvers polyline) -> TurnByTurn.atIndex m' = i ->
                 m' = m) /\
     TurnByTurn.type m
     = (if Rlt_dec 150 (Rabs delta) then TurnByTurn.uturn
        else if Rlt_dec 0 delta then TurnByTurn.right else TurnByTurn.left) /\
     TurnByTurn.instruction m
     = (if Rlt_dec 150 (Rabs delta) then "Make a U-turn"
        else if Rlt_dec 0 delta then "Turn right" else "Turn left")%string).
Proof.
  intros Hi delta.
  pose proof (classifyTurn_cases delta) as Hc.
  split.
  - intros Hd m Hm E.
    pose proof (proj1 (buildManeuvers_at polyline i m Hi) (conj Hm E)) as Hat.
    apply maneuverAt_index in Hat as (_ & _ & _ & Ht & _ & Hns).
    fold delta in Ht. rewrite Ht in Hns.
    unfold Rabs in *.
    destruct (TurnByTurn.classifyTurn delta); destruct (Rcase_abs delta);
      try contradiction; try congruence; lra.
  - intros Hd.
    assert (Eat : TurnVocabulary.maneuverAt polyline i
                  = [TurnByTurn.mkManeuver (TurnByTurn.classifyTurn delta) i
                       (TurnByTurn.at_ polyline i)
                       (RouteProgress.polylineLength (firstn (i + 1) polyline))
                       (TurnVocabulary.labelOf (TurnByTurn.classifyTurn delta))]).
    { unfold TurnVocabulary.maneuverAt. cbv zeta. fold delta.
      destruct (TurnByTurn.classifyTurn delta); try contradiction; try reflexivity; lra. }
    eexists. split; [|split; [|split]].
    + apply (buildManeuvers_at polyline i _ Hi). rewrite Eat. now left.
    + reflexivity.
    + intros m' Hm' E'.
      pose proof (proj1 (buildManeuvers_at polyline i m' Hi) (conj Hm' E')) as H.
      rewrite Eat in H. destruct H as [<- | []]. reflexivity.
    + cbn [TurnByTurn.type TurnByTurn.instruction].
      unfold Rabs in *.
      destruct (TurnByTurn.classifyTurn delta); try contradiction;
        destruct (Rcase_abs delta); destruct (Rlt_dec 150 _); destruct (Rlt_dec 0 delta);
        try lra; split; reflexivity.
Qed.

Lemma buildManeuvers_turn_at_witness :
  exists m,
    In m (TurnByTurn.buildManeuvers
            [Geometry.mkPoint2 5 0; Geometry.mkPoint2 5 0; Geometry.mkPoint2 10 0]) /\
    TurnByTurn.atIndex m = 1%nat /\ TurnByTurn.type m = TurnByTurn.left /\
    TurnByTurn.instruction m = "Turn left"%string.
Proof.
  set (polyline := [Geometry.mkPoint2 5 0; Geometry.mkPoint2 5 0; Geometry.mkPoint2 10 0]).
  destruct (buildManeuvers_turn_at polyline 1) as [_ H]; [cbn; lia|].
  unfold polyline in H. rewrite turnDelta_repeated_left in H.
  destruct H as (m & Hin & Eat & _ & Ety & Ein); [rewrite Rabs_left; lra|].
  exists m. split; [exact Hin|]. split; [exact Eat|].
  rewrite Ety, Ein. rewrite Rabs_left by lra.
  destruct (Rlt_dec 150 (- -90)); [lra|]. destruct (Rlt_dec 0 (-90)); [lra|]. split; reflexivity.
Defined.

Lemma angleDiff_same (b : R) : TurnByTurn.angleDiff b b = 0.
Proof.
  unfold TurnByTurn.angleDiff. replace (b - b + 540) with 540 by ring.
  rewrite (rem_eval _ _ 1%Z); lra.
Qed.

Lemma classifyTurn_zero : TurnByTurn.classifyTurn 0 = TurnByTurn.straight.
Proof.
  unfold TurnByTurn.classifyTurn. cbv zeta. rewrite Rabs_R0.
  assert (E : Js.ltb 0 28 = true) by (apply ltb_true; lra). now rewrite E.
Qed.

Lemma flat_map_nil {A B : Type} (f : A -> list B) (l : list A) :
  (forall a, In a l -> f a = []) -> flat_map f l = [].
Proof.
  intros H. induction l as [|a l IH]; [reflexivity|].
  cbn [flat_map]. rewrite (H a (or_introl eq_refl)), IH; [reflexivity|].
  intros b Hb. apply H. now right.
Qed.

(** On a route that leaves every interior vertex in the direction in which it
    reached it, [buildManeuvers] reports the start and the arrival and nothing
    between them. *)
Theorem buildManeuvers_straight (polyline : list Geometry.Point2) :
  (2 <= List.length polyline)%nat ->
  (forall i, (1 <= i <= List.length polyline - 2)%nat ->
     TurnVocabulary.sameDirection (TurnByTurn.at_ polyline (i - 1)) (TurnByTurn.at_ polyline i)
                                  (TurnByTurn.at_ polyline (i + 1))) ->
  TurnByTurn.buildManeuvers polyline
  = [ TurnByTurn.mkManeuver TurnByTurn.start 0 (TurnByTurn.at_ polyline 0) 0 "Start";
      TurnByTurn.mkManeuver TurnByTurn.arrive (List.length polyline - 1)
        (TurnByTurn.at_ polyline (List.length polyline - 1))
        (RouteProgress.polylineLength polyline) "Arrive" ].
Proof.
  intros Hn Hdir. rewrite buildManeuvers_closed by exact Hn.
  rewrite flat_map_nil; [reflexivity|].
  intros i Hi. apply in_seq in Hi.
  unfold TurnVocabulary.maneuverAt. cbv zeta.
  assert (E : TurnByTurn.turnDelta polyline i = 0).
  { unfold TurnByTurn.turnDelta. cbv zeta.
    destruct (bearingDeg_same_direction _ _ _ (Hdir i ltac:(lia))).
    apply angleDiff_same. }
  now rewrite E, classifyTurn_zero.
Qed.

Lemma buildManeuvers_straight_witness :
  let polyline := [Geometry.mkPoint2 0 0; Geometry.mkPoint2 0 (-5); Geometry.mkPoint2 0 (-9)] in
  TurnByTurn.buildManeuvers polyline
  = [ TurnByTurn.mkManeuver TurnByTurn.start 0 (TurnByTurn.at_ polyline 0) 0 "Start";
      TurnByTurn.mkManeuver TurnByTurn.arrive (List.length polyline - 1)
        (TurnByTurn.at_ polyline (List.length polyline - 1))
        (RouteProgress.polylineLength polyline) "Arrive" ].
Proof.
  intros polyline. apply (buildManeuvers_straight polyline).
  - cbn. lia.
  - intros i Hi. cbn in Hi. assert (i = 1%nat) as -> by lia.
    exists (4 / 5). cbn. split; [lra|]. split; lra.
Defined.


(** ** Invariants of the engine (pdrEngine.ts) *)

Lemma pdr_clamp_range (n lo hi : R) : lo <= hi -> lo <= PdrMath.clamp n lo hi <= hi.
Proof.
  intros H. unfold PdrMath.clamp, Rmax, Rmin.
  destruct (Rle_dec hi n); destruct (Rle_dec lo _); lra.
Qed.

Lemma pushWindow_length (w : list R) (x : R) :
  (List.length w <= 35)%nat -> (List.length (PdrEngine.pushWindow w x) <= 35)%nat.
Proof.
  intros H. unfold PdrEngine.pushWindow. cbv zeta.
  destruct (Nat.ltb_spec 35 (List.length (w ++ [x]))) as [Hl | Hl]; [|exact Hl].
  rewrite length_app in Hl. cbn [List.length] in Hl.
  destruct w as [|a w]; cbn [app tl List.length] in *; [lia|].
  rewrite length_app. cbn [List.length]. lia.
Qed.

(** [detectStep] leaves the headings, the reliability, the yaw rate and the
    stride scale alone and pushes one sample on the window. *)
Lemma detectStep_fields (e : PdrEngine.t) (sample : PdrEngine.MotionSample) (now : Z) :
  let e' := fst (PdrEngine.detectStep e sample now) in
  PdrEngine.headingDeg e' = PdrEngine.headingDeg e /\
  PdrEngine.gyroHeadingDeg e' = PdrEngine.gyroHeadingDeg e /\
  PdrEngine.magHeadingDeg e' = PdrEngine.magHeadingDeg e /\
  PdrEngine.magReliability e' = PdrEngine.magReliability e /\
  PdrEngine.yawRateDegPerSec e' = PdrEngine.yawRateDegPerSec e /\
  PdrEngine.strideScale e' = PdrEngine.strideScale e /\
  exists x, PdrEngine.linAccWindow e' = PdrEngine.pushWindow (PdrEngine.linAccWindow e) x.
Proof.
  unfold PdrEngine.detectStep.
  destruct (PdrEngine.linearAcceleration _ sample) as [a g]. cbv zeta.
  repeat match goal with
         | |- context [if ?c then _ else _] => destruct c
         end; cbn; repeat split; eexists; reflexivity.
Qed.

Lemma fuseHeading_fields (e : PdrEngine.t) (sample : PdrEngine.MotionSample) (now : Z) :
  let e' := PdrEngine.fuseHeading e sample now in
  0 <= PdrEngine.gyroHeadingDeg e < 360 ->
  0 <= PdrEngine.headingDeg e' < 360 /\
  0 <= PdrEngine.gyroHeadingDeg e' < 360 /\
  PdrEngine.magHeadingDeg e' = PdrEngine.magHeadingDeg e /\
  PdrEngine.magReliability e' = PdrEngine.magReliability e /\
  -720 <= PdrEngine.yawRateDegPerSec e' <= 720 /\
  PdrEngine.strideScale e' = PdrEngine.strideScale e /\
  PdrEngine.linAccWindow e' = PdrEngine.linAccWindow e.
Proof.
  intros e' Hg. unfold e', PdrEngine.fuseHeading. cbv zeta.
  destruct (PdrEngine.rotationAlpha sample), (PdrEngine.rotationRateAlpha sample);
    cbn [PdrEngine.headingDeg PdrEngine.gyroHeadingDeg PdrEngine.magHeadingDeg
         PdrEngine.magReliability PdrEngine.yawRateDegPerSec PdrEngine.strideScale
         PdrEngine.linAccWindow];
    repeat split; try apply wrapHeading_range; try apply pdr_clamp_range; try lra.
Qed.

Lemma listen_wellFormed (e : PdrEngine.t) (i : Positioning.SensorInput) :
  StepVocabulary.wellFormed e ->
  StepVocabulary.wellFormed (fst (Positioning.listen e i)) /\
  PdrEngine.strideScale (fst (Positioning.listen e i)) = PdrEngine.strideScale e.
Proof.
  intros (Hh & Hg & Hm & Hr & Hy & Hw).
  destruct i as [m now | m now | steps now]; cbn [Positioning.listen fst].
  - unfold StepVocabulary.wellFormed, PdrEngine.handleMagnetometer. cbv zeta.
    cbn [PdrEngine.headingDeg PdrEngine.gyroHeadingDeg PdrEngine.magHeadingDeg
         PdrEngine.magReliability PdrEngine.yawRateDegPerSec PdrEngine.strideScale
         PdrEngine.linAccWindow].
    repeat split; try apply wrapHeading_range; try apply pdr_clamp_range; lra || lia.
  - unfold PdrEngine.handleDeviceMotion.
    destruct (fuseHeading_fields e m now Hg) as (F1 & F2 & F3 & F4 & F5 & F6 & F7).
    destruct (detectStep_fields (PdrEngine.fuseHeading e m now) m now)
      as (D1 & D2 & D3 & D4 & D5 & D6 & x & D7).
    unfold StepVocabulary.wellFormed.
    rewrite D1, D2, D3, D4, D5, D6, D7, F3, F4, F6, F7.
    repeat split; try tauto. now apply pushWindow_length.
  - unfold PdrEngine.handlePedometerSteps. cbv zeta.
    destruct (_ && _); cbn [fst]; unfold StepVocabulary.wellFormed; cbn; repeat split; tauto.
Qed.

Lemma listenAll_fold (inputs : list Positioning.SensorInput) (e : PdrEngine.t)
  (events : list PdrEngine.StepEvent) (P : PdrEngine.t -> Prop) :
  P e ->
  (forall e i, P e -> P (fst (Positioning.listen e i))) ->
  P (fst (fold_left
            (fun (acc : PdrEngine.t * list PdrEngine.StepEvent) i =>
               let '(e, events) := acc in
               let '(e', ev) := Positioning.listen e i in
               (e', events ++ match ev with Some s => [s] | None => [] end))
            inputs (e, events))).
Proof.
  intros He Hstep. revert e events He.
  induction inputs as [|i inputs IH]; intros e events He; [exact He|].
  cbn [fold_left]. specialize (Hstep e i He).
  destruct (Positioning.listen e i) as [e' ev]. now apply IH.
Qed.

(** Whatever the sensors deliver to a session that starts from a new or a
    reset engine, the engine stays well formed: its three headings lie in
    [[0, 360)], the magnetometer reliability in [[0, 1]], the yaw rate within
    720 degrees per second, the window of accelerations holds at most 35
    samples, and the stride scale is the one the session started with. *)
Theorem session_wellFormed
  (e : PdrEngine.t) (argHeadingDeg argStrideScale : option R)
  (inputs : list Positioning.SensorInput) :
  let fresh := fst (Positioning.listenAll PdrEngine.new inputs) in
  let again := fst (Positioning.listenAll (PdrEngine.reset e argHeadingDeg argStrideScale)
                      inputs) in
  StepVocabulary.wellFormed fresh /\ PdrEngine.strideScale fresh = 1 /\
  StepVocabulary.wellFormed again /\
  PdrEngine.strideScale again = Js.orElse argStrideScale (PdrEngine.strideScale e).
Proof.
  intros fresh again.
  assert (Hnew : StepVocabulary.wellFormed PdrEngine.new).
  { unfold StepVocabulary.wellFormed. cbn. repeat split; lra || lia. }
  assert (Hreset : StepVocabulary.wellFormed (PdrEngine.reset e argHeadingDeg argStrideScale)).
  { unfold StepVocabulary.wellFormed, PdrEngine.reset. cbv zeta.
    cbn [PdrEngine.headingDeg PdrEngine.gyroHeadingDeg PdrEngine.magHeadingDeg
         PdrEngine.magReliability PdrEngine.yawRateDegPerSec PdrEngine.linAccWindow
         List.length].
    repeat split; try apply wrapHeading_range; lra || lia. }
  pose proof (listenAll_fold inputs PdrEngine.new []
                (fun x => StepVocabulary.wellFormed x /\ PdrEngine.strideScale x = 1)) as H1.
  pose proof (listenAll_fold inputs (PdrEngine.reset e argHeadingDeg argStrideScale) []
                (fun x => StepVocabulary.wellFormed x /\
                          PdrEngine.strideScale x
                          = Js.orElse argStrideScale (PdrEngine.strideScale e))) as H2.
  cbv beta in H1, H2.
  destruct H1 as [A1 A2].
  { split; [exact Hnew | reflexivity]. }
  { intros x i [Hx Es]. destruct (listen_wellFormed x i Hx) as [Hw E]. split; congruence. }
  destruct H2 as [B1 B2].
  { split; [exact Hreset | reflexivity]. }
  { intros x i [Hx Es]. destruct (listen_wellFormed x i Hx) as [Hw E]. split; congruence. }
  split; [exact A1|]. split; [exact A2|]. split; [exact B1 | exact B2].
Qed.

(** ** Spacing of the step events (pdrEngine.ts, useIndoorPositioning.ts) *)

Lemma gapped_app (events : list PdrEngine.StepEvent) (y : PdrEngine.StepEvent) :
  StepVocabulary.gapped events ->
  (forall x, In x events ->
     match PdrEngine.source y with
     | PdrEngine.deviceMotion => (PdrEngine.ts x + 280 < PdrEngine.ts y)%Z
     | PdrEngine.pedometer => (PdrEngine.ts x + 1800 <= PdrEngine.ts y)%Z
     end) ->
  StepVocabulary.gapped (events ++ [y]).
Proof.
  induction events as [|x events IH]; intros Hg Hy; cbn [app StepVocabulary.gapped].
  - split; [intros z [] | exact I].
  - destruct Hg as [Hx Hg]. split.
    + intros z Hz. apply in_app_or in Hz as [Hz | [<- | []]]; [now apply Hx|].
      apply Hy. now left.
    + apply IH; [exact Hg|]. intros z Hz. apply Hy. now right.
Qed.

Lemma gapped_split (events l1 l2 l3 : list PdrEngine.StepEvent) (x y : PdrEngine.StepEvent) :
  StepVocabulary.gapped events ->
  events = l1 ++ x :: l2 ++ y :: l3 ->
  match PdrEngine.source y with
  | PdrEngine.deviceMotion => (PdrEngine.ts x + 280 < PdrEngine.ts y)%Z
  | PdrEngine.pedometer => (PdrEngine.ts x + 1800 <= PdrEngine.ts y)%Z
  end.
Proof.
  revert events. induction l1 as [|z l1 IH]; intros events Hg ->.
  - cbn [app StepVocabulary.gapped] in Hg. destruct Hg as [H _].
    apply H. apply in_or_app. right. now left.
  - cbn [app StepVocabulary.gapped] in Hg. destruct Hg as [_ Hg].
    now apply (IH _ Hg eq_refl).
Qed.

Lemma listenAll_gapped (inputs : list Positioning.SensorInput)
  (e : PdrEngine.t) (events : list PdrEngine.StepEvent) :
  (forall i, In i inputs -> (0 < Positioning.timeOf i)%Z) ->
  (forall ev, In ev events -> (0 < PdrEngine.ts ev <= PdrEngine.lastStepAt e)%Z) ->
  (0 <= PdrEngine.lastStepAt e)%Z ->
  StepVocabulary.gapped events ->
  let r := fold_left
             (fun (acc : PdrEngine.t * list PdrEngine.StepEvent) i =>
                let '(e, events) := acc in
                let '(e', ev) := Positioning.listen e i in
                (e', events ++ match ev with Some s => [s] | None => [] end))
             inputs (e, events) in
  StepVocabulary.gapped (snd r).
Proof.
  intros Hpos Hle H0 Hg r. unfold r. clear r.
  revert e events Hpos Hle H0 Hg.
  induction inputs as [|i inputs IH]; intros e events Hpos Hle H0 Hg; [exact Hg|].
  cbn [fold_left].
  pose proof (listen_lastStepAt e i) as Hl.
  assert (Hi : (0 < Positioning.timeOf i)%Z) by (apply Hpos; now left).
  destruct (Positioning.listen e i) as [e' [s|]]; cbn [fst snd] in Hl.
  - destruct Hl as (Hts & He' & Hsrc).
    apply IH.
    + intros j Hj. apply Hpos. now right.
    + intros ev Hev. rewrite He'.
      apply in_app_or in Hev as [Hev | [<- | []]]; [|lia].
      specialize (Hle ev Hev).
      destruct (PdrEngine.source s); lia.
    + lia.
    + apply gapped_app; [exact Hg|].
      intros x Hx. specialize (Hle x Hx).
      destruct (PdrEngine.source s); lia.
  - rewrite app_nil_r. apply IH.
    + intros j Hj. apply Hpos. now right.
    + intros ev Hev. rewrite Hl. now apply Hle.
    + lia.
    + exact Hg.
Qed.

(** In a session that starts without a step ([lastStepAt = 0]) and receives
    positive timestamps, every step event keeps its distance from every step
    event before it, of either source: a device-motion step comes more than
    280 ms after it and a pedometer step at least 1800 ms after it. *)
Theorem session_steps_gapped
  (e0 : PdrEngine.t) (inputs : list Positioning.SensorInput)
  (l1 l2 l3 : list PdrEngine.StepEvent) (x y : PdrEngine.StepEvent) :
  PdrEngine.lastStepAt e0 = 0%Z ->
  (forall i, In i inputs -> (0 < Positioning.timeOf i)%Z) ->
  snd (Positioning.listenAll e0 inputs) = l1 ++ x :: l2 ++ y :: l3 ->
  (PdrEngine.source y = PdrEngine.deviceMotion -> (PdrEngine.ts x + 280 < PdrEngine.ts y)%Z) /\
  (PdrEngine.source y = PdrEngine.pedometer -> (PdrEngine.ts x + 1800 <= PdrEngine.ts y)%Z).
Proof.
  intros H0 Hpos E.
  assert (Hg : StepVocabulary.gapped (snd (Positioning.listenAll e0 inputs))).
  { unfold Positioning.listenAll.
    apply (listenAll_gapped inputs e0 [] Hpos).
    - intros ev [].
    - lia.
    - exact I. }
  pose proof (gapped_split _ _ _ _ _ _ Hg E) as H.
  split; intros Es; rewrite Es in H; exact H.
Qed.

Lemma session_steps_gapped_witness :
  let x := PdrEngine.mkStepEvent PdrEngine.deviceMotion (105 / 100 * 1) 1100 1 in
  let y := PdrEngine.mkStepEvent PdrEngine.pedometer (105 / 100 * 1) 7000 1 in
  (PdrEngine.source y = PdrEngine.deviceMotion -> (PdrEngine.ts x + 280 < PdrEngine.ts y)%Z) /\
  (PdrEngine.source y = PdrEngine.pedometer -> (PdrEngine.ts x + 1800 <= PdrEngine.ts y)%Z).
Proof.
  intros x y. destruct walk_events as (e & E & _).
  apply (session_steps_gapped PdrEngine.new Scenarios.walk [] [] [] x y).
  - reflexivity.
  - intros i Hi. cbn in Hi.
    repeat (destruct Hi as [<- | Hi]; [cbn; lia|]). destruct Hi.
  - rewrite E. reflexivity.
Defined.

(** ** Length and count of the steps (pdrEngine.ts) *)

Lemma fuseHeading_steps (e : PdrEngine.t) (sample : PdrEngine.MotionSample) (now : Z) :
  let e' := PdrEngine.fuseHeading e sample now in
  PdrEngine.strideScale e' = PdrEngine.strideScale e /\
  PdrEngine.stepLengthMeters e' = PdrEngine.stepLengthMeters e /\
  PdrEngine.deviceSteps e' = PdrEngine.deviceSteps e /\
  PdrEngine.pedometerSteps e' = PdrEngine.pedometerSteps e.
Proof.
  unfold PdrEngine.fuseHeading. cbv zeta.
  destruct (PdrEngine.rotationAlpha sample), (PdrEngine.rotationRateAlpha sample);
    cbn; repeat split.
Qed.

(** What one listener call does to the step length and to the counters. *)
Lemma listen_steps (e : PdrEngine.t) (i : Positioning.SensorInput) :
  let e' := fst (Positioning.listen e i) in
  PdrEngine.strideScale e' = PdrEngine.strideScale e /\
  match snd (Positioning.listen e i) with
  | None =>
      PdrEngine.stepLengthMeters e' = PdrEngine.stepLengthMeters e /\
      PdrEngine.deviceSteps e' = PdrEngine.deviceSteps e
  | Some s =>
      PdrEngine.stepLenMeters s = PdrEngine.stepLengthMeters e' /\
      match PdrEngine.source s with
      | PdrEngine.deviceMotion =>
          PdrEngine.count s = 1%Z /\
          PdrEngine.deviceSteps e' = (PdrEngine.deviceSteps e + 1)%Z /\
          exists c, 45 / 100 <= c <= 105 / 100 /\
                    PdrEngine.stepLenMeters s = c * PdrEngine.strideScale e
      | PdrEngine.pedometer =>
          (1 <= PdrEngine.count s)%Z /\
          PdrEngine.deviceSteps e' = PdrEngine.deviceSteps e /\
          PdrEngine.stepLenMeters s = PdrEngine.stepLengthMeters e
      end
  end.
Proof.
  destruct i as [m now | m now | steps now]; cbn [Positioning.listen fst snd].
  - cbn. repeat split.
  - unfold PdrEngine.handleDeviceMotion.
    destruct (fuseHeading_steps e m now) as (F1 & F2 & F3 & _).
    set (e1 := PdrEngine.fuseHeading e m now) in *.
    rewrite <- F1, <- F2, <- F3. clearbody e1.
    unfold PdrEngine.detectStep.
    destruct (PdrEngine.linearAcceleration _ m) as [a g]. cbv zeta.
    destruct (negb (PdrEngine.inPeak _)).
    + destruct (Js.ltb _ _); cbn; repeat split.
    + destruct (Js.ltb _ (PdrEngine.mean _)); [|cbn; repeat split].
      destruct (_ && _ && _); [|cbn; repeat split].
      cbn [fst snd PdrEngine.strideScale PdrEngine.stepLenMeters PdrEngine.stepLengthMeters
           PdrEngine.source PdrEngine.count PdrEngine.deviceSteps].
      split; [reflexivity|]. split; [reflexivity|]. split; [reflexivity|].
      split; [reflexivity|].
      eexists. split; [|reflexivity].
      unfold Rmax, Rmin.
      repeat match goal with |- context [Rle_dec ?a ?b] => destruct (Rle_dec a b) end; lra.
  - unfold PdrEngine.handlePedometerSteps. cbv zeta.
    destruct (Z.ltb 0 _) eqn:Ed; cbn [andb]; [|cbn; repeat split].
    destruct (negb _); [|cbn; repeat split].
    cbn [fst snd PdrEngine.strideScale PdrEngine.stepLenMeters PdrEngine.stepLengthMeters
         PdrEngine.source PdrEngine.count PdrEngine.deviceSteps].
    apply Z.ltb_lt in Ed. repeat split. lia.
Qed.

(** In a session whose engine starts with a stride scale [s >= 0] and a step
    length between 0.45 s and 1.05 s, as a new or reset engine does, every
    step event carries a step length between 0.45 s and 1.05 s and a count of
    at least 1, exactly 1 for a device-motion step; and the engine's
    [deviceSteps] has grown by the number of device-motion step events. *)
Theorem session_step_lengths
  (e0 : PdrEngine.t) (inputs : list Positioning.SensorInput) :
  0 <= PdrEngine.strideScale e0 ->
  45 / 100 * PdrEngine.strideScale e0 <= PdrEngine.stepLengthMeters e0
  <= 105 / 100 * PdrEngine.strideScale e0 ->
  let e := fst (Positioning.listenAll e0 inputs) in
  let events := snd (Positioning.listenAll e0 inputs) in
  let isDevice ev :=
    match PdrEngine.source ev with PdrEngine.deviceMotion => true | _ => false end in
  (forall ev, In ev events ->
     45 / 100 * PdrEngine.strideScale e0 <= PdrEngine.stepLenMeters ev
     <= 105 / 100 * PdrEngine.strideScale e0 /\
     (1 <= PdrEngine.count ev)%Z /\
     (PdrEngine.source ev = PdrEngine.deviceMotion -> PdrEngine.count ev = 1%Z)) /\
  PdrEngine.deviceSteps e
  = (PdrEngine.deviceSteps e0 + Z.of_nat (List.length (filter isDevice events)))%Z /\
  45 / 100 * PdrEngine.strideScale e0 <= PdrEngine.stepLengthMeters e
  <= 105 / 100 * PdrEngine.strideScale e0.
Proof.
  intros Hs Hlen e events isDevice. unfold e, events, Positioning.listenAll. clear e events.
  set (s := PdrEngine.strideScale e0) in *.
  set (ok ev := 45 / 100 * s <= PdrEngine.stepLenMeters ev <= 105 / 100 * s /\
                (1 <= PdrEngine.count ev)%Z /\
                (PdrEngine.source ev = PdrEngine.deviceMotion -> PdrEngine.count ev = 1%Z)).
  assert (Hgen : forall inputs e events,
    PdrEngine.strideScale e = s ->
    45 / 100 * s <= PdrEngine.stepLengthMeters e <= 105 / 100 * s ->
    (forall ev, In ev events -> ok ev) ->
    PdrEngine.deviceSteps e
    = (PdrEngine.deviceSteps e0 + Z.of_nat (List.length (filter isDevice events)))%Z ->
    let r := fold_left
               (fun (acc : PdrEngine.t * list PdrEngine.StepEvent) i =>
                  let '(e, events) := acc in
                  let '(e', ev) := Positioning.listen e i in
                  (e', events ++ match ev with Some s => [s] | None => [] end))
               inputs (e, events) in
    (forall ev, In ev (snd r) -> ok ev) /\
    PdrEngine.deviceSteps (fst r)
    = (PdrEngine.deviceSteps e0 + Z.of_nat (List.length (filter isDevice (snd r))))%Z /\
    45 / 100 * s <= PdrEngine.stepLengthMeters (fst r) <= 105 / 100 * s).
  { clear inputs. induction inputs as [|i inputs IH]; intros e events Es Hl Hev Hd.
    - cbn. auto.
    - cbn [fold_left].
      pose proof (listen_steps e i) as H. cbv zeta in H.
      destruct (Positioning.listen e i) as [e' [st|]]; cbn [fst snd] in H.
      + destruct H as (Es' & Hlen' & Hsrc).
        assert (Hst : ok st /\
                      PdrEngine.deviceSteps e'
                      = (PdrEngine.deviceSteps e + if isDevice st then 1 else 0)%Z).
        { unfold ok, isDevice. destruct (PdrEngine.source st).
          - destruct Hsrc as (Hc & Hds & c & Hcr & Ec). rewrite Ec, Es.
            split; [|lia]. split; [|split; [lia | auto]].
            split; apply Rmult_le_compat_r; lra.
          - destruct Hsrc as (Hc & Hds & El). rewrite El.
            split; [|lia]. split; [exact Hl|]. split; [exact Hc | discriminate]. }
        destruct Hst as [Hok Hds].
        apply IH.
        * congruence.
        * rewrite <- Hlen'. apply Hok.
        * intros ev Hin. apply in_app_or in Hin as [Hin | [<- | []]]; [now apply Hev | exact Hok].
        * rewrite Hds, Hd, filter_app, length_app. cbn [filter].
          destruct (isDevice st); cbn [List.length]; lia.
      + destruct H as (Es' & Hlen' & Hds). rewrite app_nil_r.
        apply IH; [congruence | rewrite Hlen'; exact Hl | exact Hev | rewrite Hds; exact Hd]. }
  apply (Hgen inputs e0 []); auto.
  - intros ev [].
  - cbn. lia.
Qed.

Lemma session_step_lengths_witness :
  let e := fst (Positioning.listenAll PdrEngine.new Scenarios.walk) in
  let events := snd (Positioning.listenAll PdrEngine.new Scenarios.walk) in
  let isDevice ev :=
    match PdrEngine.source ev with PdrEngine.deviceMotion => true | _ => false end in
  (forall ev, In ev events ->
     45 / 100 * PdrEngine.strideScale PdrEngine.new <= PdrEngine.stepLenMeters ev
     <= 105 / 100 * PdrEngine.strideScale PdrEngine.new /\
     (1 <= PdrEngine.count ev)%Z /\
     (PdrEngine.source ev = PdrEngine.deviceMotion -> PdrEngine.count ev = 1%Z)) /\
  PdrEngine.deviceSteps e
  = (PdrEngine.deviceSteps PdrEngine.new + Z.of_nat (List.length (filter isDevice events)))%Z /\
  45 / 100 * PdrEngine.strideScale PdrEngine.new <= PdrEngine.stepLengthMeters e
  <= 105 / 100 * PdrEngine.strideScale PdrEngine.new.
Proof.
  apply (session_step_lengths PdrEngine.new Scenarios.walk); cbn; lra.
Defined.


(** ** The weights of the adjacency object (shortestPath.ts) *)




(** ** Walks (shortestPath.ts) *)



Lemma walkEnd_snoc (u : string) (l : list (string * R)) (v : string) (w : R) :
  PathVocabulary.walkEnd u (l ++ [(v, w)]) = v.
Proof.
  unfold PathVocabulary.walkEnd. rewrite map_app. cbn [List.map fst].
  apply last_last.
Qed.

(** ** The least distance in the queue (shortestPath.ts) *)


(** ** Dijkstra's loop finds least distances (shortestPath.ts) *)


Section Optimal.

Variable adj : ShortestPath.Adj.
Variable s : string.

Hypothesis entries_closed : forall u v, ShortestPath.adjStep adj u v -> In v (map fst adj).
Hypothesis start_key : In s (map fst adj).
Hypothesis keys_plain : forall k, In k (map fst adj) -> k <> JsObject.protoKey.
Hypothesis keys_truthy : forall k, In k (map fst adj) -> Js.truthy k = true.
Hypothesis weights_nonneg : forall u v w, PathVocabulary.entry adj u v w -> 0 <= w.










End Optimal.





(** * Stop orders (navigation/routing.ts) *)

(** ** Sets of stops *)

Lemma add_in (s : JsSet.t) (k x : string) : In x (JsSet.add s k) <-> In x s \/ x = k.
Proof.
  unfold JsSet.add. destruct (JsSet.has s k) eqn:E.
  - apply has_in in E. split; [now left | intros [H | ->]; assumption].
  - rewrite in_app_iff. cbn. intuition.
Qed.

Lemma add_nodup (s : JsSet.t) (k : string) : NoDup s -> NoDup (JsSet.add s k).
Proof.
  intros Hnd. unfold JsSet.add. destruct (JsSet.has s k) eqn:E; [exact Hnd|].
  apply NoDup_app; [exact Hnd | repeat constructor; intros [] |].
  intros x Hx [<- | []]. apply has_in in Hx. congruence.
Qed.

Lemma setOf_spec (l : list string) (s0 : JsSet.t) :
  NoDup s0 ->
  NoDup (fold_left JsSet.add l s0) /\
  forall x, In x (fold_left JsSet.add l s0) <-> In x s0 \/ In x l.
Proof.
  revert s0. induction l as [|k l IH]; intros s0 Hnd; cbn [fold_left].
  - split; [exact Hnd | intros x; cbn; intuition].
  - destruct (IH (JsSet.add s0 k) (add_nodup s0 k Hnd)) as [Hnd' Hin].
    split; [exact Hnd'|]. intros x. rewrite Hin, add_in. cbn. intuition.
Qed.

(** ** Distances of pairs *)

Lemma findNode_known (map : StoreMap.StoreMap) (id : string) :
  RouteVocabulary.known map id -> exists n, Routing.findNode map id = Some n.
Proof.
  intros (n & Hn & E). unfold Routing.findNode.
  destruct (find _ (StoreMap.nodes map)) as [m|] eqn:Ef; [now exists m|].
  exfalso. pose proof (find_none _ _ Ef n Hn) as H. cbn in H.
  rewrite E, String.eqb_refl in H. discriminate.
Qed.

Lemma pairDistance_known (map : StoreMap.StoreMap) (adj : ShortestPath.Adj) (a b : string) :
  RouteVocabulary.known map a -> RouteVocabulary.known map b ->
  exists r, Routing.pairDistance map adj a b = Js.Fin r.
Proof.
  intros Ha Hb.
  destruct (findNode_known map a Ha) as (na & Ea).
  destruct (findNode_known map b Hb) as (nb & Eb).
  assert (Hs : exists r, Routing.straightLine map a b = Js.Fin r).
  { unfold Routing.straightLine. rewrite Ea, Eb. now eexists. }
  unfold Routing.pairDistance. destruct (Nat.eqb _ 0); [exact Hs|]. cbv zeta.
  destruct (JsObject.get _ b) as [[d|]|]; [now exists d | exact Hs | exact Hs].
Qed.

(** ** The nearest-neighbour order *)

Lemma nearestScan_spec (map : StoreMap.StoreMap) (adj : ShortestPath.Adj)
  (current : string) (remaining : JsSet.t) :
  match fst (Routing.nearestScan map adj current remaining) with
  | Some u => In u remaining /\ exists r, Routing.pairDistance map adj current u = Js.Fin r
  | None => forall k, In k remaining -> Routing.pairDistance map adj current k = Js.PInf
  end.
Proof.
  unfold Routing.nearestScan.
  assert (Hgen : forall l seen acc,
    match acc with
    | (Some u, Js.Fin r) => In u seen /\ Routing.pairDistance map adj current u = Js.Fin r
    | (None, Js.PInf) => forall k, In k seen -> Routing.pairDistance map adj current k = Js.PInf
    | _ => False
    end ->
    match fst (fold_left
                 (fun (acc : option string * Js.xreal) id =>
                    let d := Routing.pairDistance map adj current id in
                    if Js.xlt d (snd acc) then (Some id, d) else acc) l acc) with
    | Some u => In u (seen ++ l) /\ exists r, Routing.pairDistance map adj current u = Js.Fin r
    | None => forall k, In k (seen ++ l) -> Routing.pairDistance map adj current k = Js.PInf
    end).
  { induction l as [|id l IH]; intros seen acc Hacc; cbn [fold_left].
    - rewrite app_nil_r. destruct acc as [[u|] [r|]]; cbn [fst]; try contradiction.
      + destruct Hacc as [Hin Hg]. split; [exact Hin | now exists r].
      + exact Hacc.
    - replace (seen ++ id :: l) with ((seen ++ [id]) ++ l) by now rewrite <- app_assoc.
      apply IH. cbv zeta.
      destruct (Routing.pairDistance map adj current id) as [ri|] eqn:Eg.
      + destruct acc as [[u|] [r|]]; cbn [snd Js.xlt Js.lt_x]; try contradiction.
        * destruct (Js.ltb ri r).
          -- split; [apply in_or_app; right; now left | exact Eg].
          -- destruct Hacc as [Hin Hg]. split; [apply in_or_app; now left | exact Hg].
        * split; [apply in_or_app; right; now left | exact Eg].
      + destruct acc as [[u|] [r|]]; cbn [snd Js.xlt]; try contradiction.
        * destruct Hacc as [Hin Hg]. split; [apply in_or_app; now left | exact Hg].
        * intros k Hk. apply in_app_or in Hk as [Hk | [<- | []]]; [now apply Hacc | exact Eg]. }
  apply (Hgen remaining [] (None, Js.PInf)). intros k [].
Qed.

Lemma nearestLoop_spec (map : StoreMap.StoreMap) (adj : ShortestPath.Adj) (fuel : nat) :
  forall current remaining order,
    NoDup remaining -> (List.length remaining <= fuel)%nat ->
    exists picked,
      Routing.nearestLoop fuel map adj current remaining order = order ++ picked /\
      NoDup picked /\
      (forall x, In x picked -> In x remaining /\ x <> EmptyString) /\
      (RouteVocabulary.known map current ->
       (forall x, In x remaining -> RouteVocabulary.known map x /\ x <> EmptyString) ->
       forall x, In x remaining -> In x picked).
Proof.
  induction fuel as [|fuel IH]; intros current remaining order Hnd Hlen.
  - destruct remaining; [|cbn in Hlen; lia].
    exists []. cbn. rewrite app_nil_r. split; [reflexivity|]. split; [constructor|].
    split; [intros x [] | intros _ _ x []].
  - cbn [Routing.nearestLoop].
    destruct remaining as [|x0 rest] eqn:Erem.
    { exists []. rewrite app_nil_r. split; [reflexivity|]. split; [constructor|].
      split; [intros x [] | intros _ _ x []]. }
    rewrite <- Erem in *. clear Erem.
    pose proof (nearestScan_spec map adj current remaining) as Hscan.
    assert (Hstop : (forall x, In x remaining -> Routing.pairDistance map adj current x = Js.PInf)
                    \/ In EmptyString remaining ->
                    exists picked : list string,
                      order = order ++ picked /\ NoDup picked /\
                      (forall x, In x picked -> In x remaining /\ x <> EmptyString) /\
                      (RouteVocabulary.known map current ->
                       (forall x, In x remaining -> RouteVocabulary.known map x /\ x <> EmptyString) ->
                       forall x, In x remaining -> In x picked)).
    { intros Hcase. exists []. rewrite app_nil_r. split; [reflexivity|]. split; [constructor|].
      split; [intros x []|]. intros Hcur Hall x Hx. exfalso.
      destruct Hcase as [Hinf | Hempty].
      - destruct (pairDistance_known map adj current x Hcur (proj1 (Hall x Hx))) as (r & Hr).
        rewrite (Hinf x Hx) in Hr. discriminate.
      - now apply (proj2 (Hall _ Hempty)). }
    destruct (fst (Routing.nearestScan map adj current remaining)) as [u|].
    2:{ apply Hstop. now left. }
    destruct Hscan as [Hu _].
    destruct u as [|c u']; cbn [Js.truthy negb].
    { apply Hstop. now right. }
    set (u := String c u') in *.
    destruct (IH u (JsSet.delete remaining u) (order ++ [u])) as (picked & E & Hndp & Hsub & Hall).
    { now apply delete_nodup. }
    { pose proof (delete_length remaining u Hnd Hu). lia. }
    exists (u :: picked). split; [rewrite E; now rewrite <- app_assoc|].
    split.
    { constructor; [|exact Hndp]. intros Hin. apply Hsub in Hin as [Hin _].
      apply delete_in in Hin as [_ Hne]. now apply Hne. }
    split.
    { intros x [<- | Hx]; [split; [exact Hu | discriminate]|].
      apply Hsub in Hx as [Hx Hne]. apply delete_in in Hx as [Hx _]. now split. }
    intros Hcur Hknown x Hx.
    destruct (string_dec u x) as [-> | Hne]; [now left|]. right.
    apply Hall.
    + apply Hknown, Hu.
    + intros y Hy. apply delete_in in Hy as [Hy _]. now apply Hknown.
    + apply delete_in. now split.
Qed.

(** ** The candidates of the 2-opt search *)

Lemma pairs_bounds (n i k : nat) :
  In (i, k) (Routing.pairs n) -> (1 <= i /\ i < k /\ k + 1 < n)%nat.
Proof.
  unfold Routing.pairs. intros H. apply in_flat_map in H as (i' & Hi & Hk).
  apply in_map_iff in Hk as (k' & E & Hk). injection E as -> ->.
  apply in_seq in Hi. apply in_seq in Hk. lia.
Qed.

Lemma candidate_ends (s e : string) (mid : list string) (i k : nat) :
  (1 <= i)%nat -> (i <= k)%nat -> (k <= List.length mid)%nat ->
  exists mid',
    Routing.candidate (s :: mid ++ [e]) i k = s :: mid' ++ [e] /\ Permutation mid' mid.
Proof.
  intros Hi Hik Hk. destruct i as [|i']; [lia|].
  exists (firstn i' mid ++ rev (firstn (k - i') (skipn i' mid)) ++ skipn k mid).
  split.
  - unfold Routing.candidate.
    replace (k + 1 - S i')%nat with (k - i')%nat by lia.
    replace (k + 1)%nat with (S k) by lia.
    cbn [firstn skipn].
    rewrite firstn_app, skipn_app, skipn_app.
    replace (i' - List.length mid)%nat with 0%nat by lia.
    replace (k - List.length mid)%nat with 0%nat by lia.
    cbn [firstn skipn]. rewrite app_nil_r.
    rewrite firstn_app, length_skipn.
    replace (k - i' - (List.length mid - i'))%nat with 0%nat by lia.
    cbn [firstn]. rewrite app_nil_r.
    cbn [app]. f_equal. now rewrite <- !app_assoc.
  - rewrite <- (firstn_skipn i' mid) at 4.
    apply Permutation_app_head.
    rewrite <- (firstn_skipn (k - i') (skipn i' mid)) at 2.
    rewrite skipn_skipn. replace (k - i' + i')%nat with k by lia.
    apply Permutation_app_tail. symmetry. apply Permutation_rev.
Qed.

Lemma inner_ends (s e : string) (mid : list string) : Routing.inner (s :: mid ++ [e]) = mid.
Proof.
  unfold Routing.inner. cbn [List.length skipn]. rewrite length_app. cbn [List.length].
  replace (S (List.length mid + 1) - 1 - 1)%nat with (List.length mid) by lia.
  rewrite firstn_app, firstn_all. replace (List.length mid - List.length mid)%nat with 0%nat by lia.
  cbn. now rewrite app_nil_r.
Qed.

(** ** Costs *)

Lemma xle_refl (a : Js.xreal) : RouteVocabulary.xle a a.
Proof. destruct a; cbn; [lra | exact I]. Qed.

Lemma xle_trans (a b c : Js.xreal) :
  RouteVocabulary.xle a b -> RouteVocabulary.xle b c -> RouteVocabulary.xle a c.
Proof. destruct a, b, c; cbn; try lra; tauto. Qed.

(** An accepted candidate is cheaper by more than a millionth. *)
Lemma accepted_cheaper (c b : Js.xreal) :
  Js.xlt (Js.xadd c (1 / 1000000)) b = true ->
  exists r, c = Js.Fin r /\
            match b with Js.Fin rb => r + 1 / 1000000 < rb | Js.PInf => True end.
Proof.
  destruct c as [r|]; cbn; [|discriminate]. intros H. exists r. split; [reflexivity|].
  destruct b as [rb|]; [|exact I]. cbn in H. now apply ltb_true in H.
Qed.

(** The cost of a sequence is no less than a lower bound of the pair
    distances times its length. *)
Lemma cost_lower (map : StoreMap.StoreMap) (adj : ShortestPath.Adj) (lo : R)
  (seq : list string) (c : R) :
  lo <= 0 ->
  (forall a b d, In a seq -> In b seq -> Routing.pairDistance map adj a b = Js.Fin d -> lo <= d) ->
  Routing.cost map adj seq = Js.Fin c ->
  INR (List.length seq) * lo <= c.
Proof.
  intros Hlo Hpairs. unfold Routing.cost.
  set (f := fun acc i => if Nat.eqb i 0 then Js.Fin 0
                         else Routing.xplus acc
                                (Routing.pairDistance map adj (Routing.at_ seq (i - 1))
                                                      (Routing.at_ seq i))).
  assert (Hinf : forall n j, (1 <= j)%nat -> fold_left f (List.seq j n) Js.PInf = Js.PInf).
  { induction n as [|n IH]; intros j Hj; cbn [List.seq fold_left]; [reflexivity|].
    unfold f at 2. destruct (Nat.eqb_spec j 0) as [|_]; [lia|].
    cbn [Routing.xplus]. apply IH. lia. }
  assert (Hgen : forall n j acc c',
            (1 <= j)%nat -> (j + n <= List.length seq)%nat ->
            INR j * lo <= acc ->
            fold_left f (List.seq j n) (Js.Fin acc) = Js.Fin c' ->
            INR (j + n) * lo <= c').
  { induction n as [|n IH]; intros j acc c' Hj Hjn Hacc Hfold; cbn [List.seq fold_left] in Hfold.
    - injection Hfold as <-. now replace (j + 0)%nat with j by lia.
    - unfold f at 2 in Hfold. destruct (Nat.eqb_spec j 0) as [|_]; [lia|].
      destruct (Routing.pairDistance map adj (Routing.at_ seq (j - 1)) (Routing.at_ seq j))
        as [d|] eqn:Ed; cbn [Routing.xplus] in Hfold.
      + replace (j + S n)%nat with (S j + n)%nat by lia.
        apply (IH (S j) (acc + d) c'); [lia | lia | | exact Hfold].
        assert (lo <= d).
        { apply (Hpairs _ _ d) in Ed; [exact Ed | |]; apply nth_In; lia. }
        rewrite S_INR. lra.
      + rewrite Hinf in Hfold by lia. discriminate. }
  destruct seq as [|x seq']; cbn [List.length List.seq fold_left].
  - intros H. injection H as <-. cbn. lra.
  - unfold f at 2. cbn [Nat.eqb]. intros H.
    apply (Hgen (List.length seq') 1%nat 0 c) in H; [| lia | cbn [List.length]; lia | cbn; lra].
    replace (S (List.length seq')) with (1 + List.length seq')%nat by lia. exact H.
Qed.

Lemma pairs_floor (map : StoreMap.StoreMap) (adj : ShortestPath.Adj)
  (l : list (string * string)) :
  exists lo, lo <= 0 /\
    forall a b d, In (a, b) l -> Routing.pairDistance map adj a b = Js.Fin d -> lo <= d.
Proof.
  induction l as [|[a0 b0] l (lo & Hlo & IH)].
  - exists 0. split; [lra | intros a b d []].
  - destruct (Routing.pairDistance map adj a0 b0) as [d0|] eqn:E0.
    + exists (Rmin lo d0). split; [pose proof (Rmin_l lo d0); lra|].
      intros a b d [E | Hin] Hd.
      * injection E as <- <-. assert (d = d0) as -> by congruence. apply Rmin_r.
      * pose proof (IH a b d Hin Hd). pose proof (Rmin_l lo d0). lra.
    + exists lo. split; [exact Hlo|]. intros a b d [E | Hin] Hd.
      * injection E as <- <-. congruence.
      * now apply (IH a b d).
Qed.

Lemma distance_floor (map : StoreMap.StoreMap) (adj : ShortestPath.Adj) (seq : list string) :
  exists lo, lo <= 0 /\
    forall a b d, In a seq -> In b seq -> Routing.pairDistance map adj a b = Js.Fin d -> lo <= d.
Proof.
  destruct (pairs_floor map adj (list_prod seq seq)) as (lo & Hlo & H).
  exists lo. split; [exact Hlo|]. intros a b d Ha Hb. apply H. now apply in_prod.
Qed.

Lemma rearranged_length (s e : string) (route seq : list string) :
  RouteVocabulary.rearranged s e route seq -> List.length seq = (List.length route + 2)%nat.
Proof.
  intros (mid & -> & Hp). cbn [List.length]. rewrite length_app, (Permutation_length Hp).
  cbn. lia.
Qed.

Lemma rearranged_in (s e : string) (route seq : list string) (x : string) :
  RouteVocabulary.rearranged s e route seq -> In x seq -> In x (s :: route ++ [e]).
Proof.
  intros (mid & -> & Hp) [<- | Hx]; [now left|]. right.
  apply in_app_or in Hx as [Hx | Hx]; apply in_or_app; [left | now right].
  now apply (Permutation_in _ Hp).
Qed.

Section TwoOpt.

Variable map : StoreMap.StoreMap.
Variable adj : ShortestPath.Adj.
Variables s e : string.
Variable route : list string.

(** An accepted candidate keeps the ends and the stops, and lowers the cost by
    more than a millionth. *)
Lemma tryPair_spec (st : Routing.Search) (i k : nat) :
  RouteVocabulary.rearranged s e route (Routing.best st) ->
  Routing.bestCost st = Routing.cost map adj (Routing.best st) ->
  In (i, k) (Routing.pairs (List.length (Routing.best st))) ->
  let st' := Routing.tryPair map adj st (i, k) in
  RouteVocabulary.rearranged s e route (Routing.best st') /\
  Routing.bestCost st' = Routing.cost map adj (Routing.best st') /\
  (st' = st \/
   (Routing.improved st' = true /\
    exists r, Routing.bestCost st' = Js.Fin r /\
              match Routing.bestCost st with
              | Js.Fin rb => r + 1 / 1000000 < rb
              | Js.PInf => True
              end)).
Proof.
  intros Hre Hcost Hin. cbv zeta. unfold Routing.tryPair. cbn [fst snd].
  destruct (Js.xlt _ (Routing.bestCost st)) eqn:Elt.
  2:{ split; [exact Hre|]. split; [exact Hcost | now left]. }
  cbn [Routing.best Routing.bestCost Routing.improved].
  apply pairs_bounds in Hin as (Hi & Hik & Hk).
  pose proof (rearranged_length _ _ _ _ Hre) as Hlen.
  destruct Hre as (mid & Eb & Hp). rewrite Eb.
  destruct (candidate_ends s e mid i k) as (mid' & Ec & Hp'); [lia | lia | |].
  { rewrite (Permutation_length Hp). lia. }
  split; [exists mid'; split; [exact Ec | now transitivity mid]|].
  split; [reflexivity|]. right. split; [reflexivity|].
  rewrite Eb in Elt. now apply accepted_cheaper.
Qed.

Lemma pass_fold (l : list (nat * nat)) (st : Routing.Search) :
  RouteVocabulary.rearranged s e route (Routing.best st) ->
  Routing.bestCost st = Routing.cost map adj (Routing.best st) ->
  (forall ik, In ik l -> In ik (Routing.pairs (List.length (Routing.best st)))) ->
  let st' := fold_left (Routing.tryPair map adj) l st in
  RouteVocabulary.rearranged s e route (Routing.best st') /\
  Routing.bestCost st' = Routing.cost map adj (Routing.best st') /\
  (st' = st \/
   (Routing.improved st' = true /\
    exists r, Routing.bestCost st' = Js.Fin r /\
              match Routing.bestCost st with
              | Js.Fin rb => r + 1 / 1000000 < rb
              | Js.PInf => True
              end)).
Proof.
  revert st. induction l as [|[i k] l IH]; intros st Hre Hcost Hl; cbn [fold_left].
  - split; [exact Hre|]. split; [exact Hcost | now left].
  - destruct (tryPair_spec st i k Hre Hcost (Hl _ (or_introl eq_refl))) as (Hre1 & Hcost1 & Hstep).
    cbv zeta in *.
    destruct (IH (Routing.tryPair map adj st (i, k)) Hre1 Hcost1) as (Hre2 & Hcost2 & Hrest).
    { intros ik Hik. rewrite (rearranged_length _ _ _ _ Hre1).
      rewrite <- (rearranged_length _ _ _ _ Hre). apply Hl. now right. }
    split; [exact Hre2|]. split; [exact Hcost2|].
    destruct Hstep as [E1 | (_ & r1 & Er1 & Hlt1)].
    + rewrite E1 in *. exact Hrest.
    + right. destruct Hrest as [E2 | (Himp & r2 & Er2 & Hlt2)].
      * rewrite E2. split; [|now exists r1].
        unfold Routing.tryPair in *. cbn [fst snd] in *.
        destruct (Js.xlt _ (Routing.bestCost st)); [reflexivity|].
        rewrite Er1 in Hlt1. exfalso. lra.
      * split; [exact Himp|]. exists r2. split; [exact Er2|].
        rewrite Er1 in Hlt2. destruct (Routing.bestCost st); [lra | exact I].
Qed.

Lemma pass_spec (best : list string) :
  RouteVocabulary.rearranged s e route best ->
  let st := Routing.pass map adj best (Routing.cost map adj best) in
  RouteVocabulary.rearranged s e route (Routing.best st) /\
  Routing.bestCost st = Routing.cost map adj (Routing.best st) /\
  ((Routing.improved st = false /\ Routing.best st = best) \/
   (Routing.improved st = true /\
    exists r, Routing.cost map adj (Routing.best st) = Js.Fin r /\
              match Routing.cost map adj best with
              | Js.Fin rb => r + 1 / 1000000 < rb
              | Js.PInf => True
              end)).
Proof.
  intros Hre. cbv zeta. unfold Routing.pass.
  destruct (pass_fold (Routing.pairs (List.length best))
              (Routing.mkSearch best (Routing.cost map adj best) false))
    as (Hre' & Hcost' & Hcase); [exact Hre | reflexivity | auto |].
  cbv zeta in *. split; [exact Hre'|]. split; [exact Hcost'|].
  destruct Hcase as [E | (Himp & r & Er & Hlt)].
  - left. rewrite E. now split.
  - right. split; [exact Himp|]. exists r. rewrite <- Hcost'. now split.
Qed.

Lemma twoOptLoop_more (fuel : nat) :
  forall best bc r,
    Routing.twoOptLoop fuel map adj best bc = Some r ->
    forall fuel', (fuel <= fuel')%nat -> Routing.twoOptLoop fuel' map adj best bc = Some r.
Proof.
  induction fuel as [|fuel IH]; intros best bc r H fuel' Hle; [discriminate|].
  destruct fuel' as [|fuel']; [lia|]. cbn [Routing.twoOptLoop] in *.
  destruct (Routing.improved _); [|exact H].
  apply (IH _ _ _ H). lia.
Qed.

Lemma twoOptLoop_ends (lo : R) :
  lo <= 0 ->
  (forall a b d, In a (s :: route ++ [e]) -> In b (s :: route ++ [e]) ->
                 Routing.pairDistance map adj a b = Js.Fin d -> lo <= d) ->
  forall fuel best b,
    RouteVocabulary.rearranged s e route best ->
    Routing.cost map adj best = Js.Fin b ->
    (b - INR (List.length route + 2) * lo) / (1 / 1000000) < INR fuel ->
    exists r,
      Routing.twoOptLoop fuel map adj best (Js.Fin b) = Some r /\
      RouteVocabulary.rearranged s e route r /\
      RouteVocabulary.xle (Routing.cost map adj r) (Js.Fin b).
Proof.
  intros Hlo Hfloor.
  assert (Hlower : forall seq c, RouteVocabulary.rearranged s e route seq ->
                                 Routing.cost map adj seq = Js.Fin c ->
                                 INR (List.length route + 2) * lo <= c).
  { intros seq c Hre Hc. rewrite <- (rearranged_length _ _ _ _ Hre).
    apply (cost_lower map adj lo seq c Hlo); [|exact Hc].
    intros a b d Ha Hb. apply Hfloor; now apply (rearranged_in s e route seq). }
  induction fuel as [|fuel IH]; intros best b Hre Hb Hfuel.
  - exfalso. pose proof (Hlower best b Hre Hb) as H. cbn [INR] in Hfuel.
    assert (0 <= (b - INR (List.length route + 2) * lo) / (1 / 1000000)).
    { apply Rmult_le_pos; [lra|]. apply Rlt_le, Rinv_0_lt_compat. lra. }
    lra.
  - cbn [Routing.twoOptLoop]. rewrite <- Hb.
    destruct (pass_spec best Hre) as (Hre' & Hcost' & Hcase). cbv zeta in *.
    destruct Hcase as [(Himp & Ebest) | (Himp & r & Er & Hlt)]; rewrite Himp.
    + exists best. rewrite Ebest. split; [reflexivity|]. split; [exact Hre|].
      rewrite Hb. apply xle_refl.
    + rewrite Hb in Hlt. rewrite Hcost', Er.
      destruct (IH _ r Hre' Er) as (res & Eres & Hres & Hle).
      { rewrite S_INR in Hfuel.
        replace ((r - INR (List.length route + 2) * lo) / (1 / 1000000))
          with ((r - INR (List.length route + 2) * lo) * 1000000) by (field; lra).
        replace ((b - INR (List.length route + 2) * lo) / (1 / 1000000))
          with ((b - INR (List.length route + 2) * lo) * 1000000) in Hfuel by (field; lra).
        lra. }
      exists res. split; [exact Eres|]. split; [exact Hres|].
      apply (xle_trans _ (Js.Fin r)); [exact Hle|].
      rewrite Hb. unfold RouteVocabulary.xle. cbv beta iota in Hlt. lra.
Qed.

Lemma twoOptLoop_total (best : list string) :
  RouteVocabulary.rearranged s e route best ->
  exists fuel0 r,
    (forall fuel, (fuel0 <= fuel)%nat ->
       Routing.twoOptLoop fuel map adj best (Routing.cost map adj best) = Some r) /\
    RouteVocabulary.rearranged s e route r /\
    RouteVocabulary.xle (Routing.cost map adj r) (Routing.cost map adj best).
Proof.
  intros Hre.
  destruct (distance_floor map adj (s :: route ++ [e])) as (lo & Hlo & Hfloor).
  assert (Hfin : forall seq b, RouteVocabulary.rearranged s e route seq ->
                   Routing.cost map adj seq = Js.Fin b ->
                   exists fuel0 r,
                     (forall fuel, (fuel0 <= fuel)%nat ->
                        Routing.twoOptLoop fuel map adj seq (Js.Fin b) = Some r) /\
                     RouteVocabulary.rearranged s e route r /\
                     RouteVocabulary.xle (Routing.cost map adj r) (Js.Fin b)).
  { intros seq b Hseq Hb.
    set (x := (b - INR (List.length route + 2) * lo) / (1 / 1000000)).
    assert (Hx : 0 <= x).
    { apply Rmult_le_pos; [|apply Rlt_le, Rinv_0_lt_compat; lra].
      assert (INR (List.length route + 2) * lo <= b); [|lra].
      rewrite <- (rearranged_length _ _ _ _ Hseq).
      apply (cost_lower map adj lo seq b Hlo); [|exact Hb].
      intros a b' d Ha Hb'. apply Hfloor; now apply (rearranged_in s e route seq). }
    destruct (archimed x) as [Hup _].
    assert (Hpos : (0 <= up x)%Z).
    { apply le_IZR. lra. }
    destruct (twoOptLoop_ends lo Hlo Hfloor (Z.to_nat (up x)) seq b Hseq Hb) as (r & Er & Hr & Hle).
    { fold x. rewrite INR_IZR_INZ, Z2Nat.id by exact Hpos. lra. }
    exists (Z.to_nat (up x)), r. split; [|now split].
    intros fuel Hfuel. now apply (twoOptLoop_more _ _ _ _ Er). }
  destruct (Routing.cost map adj best) as [b|] eqn:Eb.
  - now apply Hfin.
  - destruct (pass_spec best Hre) as (Hre' & Hcost' & Hcase). cbv zeta in *. rewrite Eb in *.
    destruct Hcase as [(Himp & Ebest) | (Himp & r & Er & _)].
    + exists 1%nat, best. split; [|split; [exact Hre | rewrite Eb; exact I]].
      intros [|fuel] Hfuel; [lia|]. cbn [Routing.twoOptLoop]. now rewrite Himp, Ebest.
    + destruct (Hfin _ r Hre' Er) as (fuel0 & res & Hres & Hre'' & Hle).
      exists (S fuel0), res. split; [|split; [exact Hre''|]].
      * intros [|fuel] Hfuel; [lia|]. cbn [Routing.twoOptLoop].
        rewrite Himp, Hcost', Er. apply Hres. lia.
      * destruct (Routing.cost map adj res); exact I.
Qed.

End TwoOpt.

(** ** The order of the stops *)

Lemma uniqueStops_spec (startId endId : string) (stops : list string) :
  NoDup (Routing.uniqueStops startId endId stops) /\
  forall x, In x (Routing.uniqueStops startId endId stops) <->
            In x stops /\ RouteVocabulary.properStop startId endId x.
Proof.
  unfold Routing.uniqueStops.
  destruct (setOf_spec
              (filter (fun s => Js.truthy s && negb (String.eqb s startId)
                                && negb (String.eqb s endId)) stops) [] (NoDup_nil _))
    as [Hnd Hin].
  split; [exact Hnd|]. intros x. rewrite Hin, filter_In.
  unfold RouteVocabulary.properStop.
  rewrite !andb_true_iff, !negb_true_iff, !String.eqb_neq.
  assert (Ht : Js.truthy x = true <-> x <> EmptyString).
  { destruct x; cbn; split; congruence. }
  rewrite Ht. cbn. tauto.
Qed.

Lemma nearestNeighborOrder_spec (map : StoreMap.StoreMap) (adj : ShortestPath.Adj)
  (startId : string) (stops : list string) :
  NoDup (Routing.nearestNeighborOrder map adj startId stops) /\
  (forall x, In x (Routing.nearestNeighborOrder map adj startId stops) ->
             In x stops /\ x <> EmptyString) /\
  (RouteVocabulary.known map startId ->
   (forall x, In x stops -> RouteVocabulary.known map x /\ x <> EmptyString) ->
   forall x, In x stops -> In x (Routing.nearestNeighborOrder map adj startId stops)).
Proof.
  unfold Routing.nearestNeighborOrder. cbv zeta.
  destruct (setOf_spec stops [] (NoDup_nil _)) as [Hnd Hin].
  destruct (nearestLoop_spec map adj (List.length (fold_left JsSet.add stops [])) startId
              (fold_left JsSet.add stops []) [] Hnd (le_n _))
    as (picked & -> & Hndp & Hsub & Hall).
  cbn [app]. split; [exact Hndp|]. split.
  - intros x Hx. destruct (Hsub x Hx) as [H Hne]. apply Hin in H as [[] | H]. now split.
  - intros Hs Hknown x Hx. apply Hall; [exact Hs | | apply Hin; now right].
    intros y Hy. apply Hin in Hy as [[] | Hy]. now apply Hknown.
Qed.

Lemma computeRouteOrder_total (map : StoreMap.StoreMap) (startId : string)
  (stops : list string) (endId : string) :
  let adj := Routing.buildAdjacency map in
  let base := Routing.nearestNeighborOrder map adj startId
                (Routing.uniqueStops startId endId stops) in
  exists fuel0 mid,
    (forall fuel, (fuel0 <= fuel)%nat ->
       Routing.computeRouteOrder fuel map startId stops endId
       = Some (startId :: mid ++ [endId])) /\
    Permutation mid base /\
    RouteVocabulary.xle (Routing.cost map adj (startId :: mid ++ [endId]))
                        (Routing.cost map adj (startId :: base ++ [endId])).
Proof.
  intros adj base.
  destruct (twoOptLoop_total map adj startId endId base (startId :: base ++ [endId]))
    as (fuel0 & r & Hloop & (mid & -> & Hp) & Hle).
  { exists base. split; [reflexivity | apply Permutation_refl]. }
  exists fuel0, mid. split; [|split; [exact Hp | exact Hle]].
  intros fuel Hfuel. unfold Routing.computeRouteOrder, Routing.twoOptImprove. cbv zeta.
  fold adj. fold base. rewrite (Hloop fuel Hfuel). cbn [option_map].
  now rewrite inner_ends.
Qed.

(** [computeRouteOrder] returns: its 2-opt loop ends. The order it returns is
    the start, then stops, then the end; no stop comes twice, every one is a
    stop that was asked for, not empty and neither the start nor the end; when
    the start and these stops are nodes of the map, none of them is left out;
    and the sum of the pair distances along the order is at most the sum along
    the nearest-neighbour order that the 2-opt search started from. *)
Theorem computeRouteOrder_spec (map : StoreMap.StoreMap) (startId : string)
  (stops : list string) (endId : string) :
  exists fuel0 mid,
    (forall fuel, (fuel0 <= fuel)%nat ->
       Routing.computeRouteOrder fuel map startId stops endId
       = Some (startId :: mid ++ [endId])) /\
    NoDup mid /\
    (forall x, In x mid -> In x stops /\ RouteVocabulary.properStop startId endId x) /\
    (RouteVocabulary.known map startId ->
     (forall x, In x stops -> RouteVocabulary.properStop startId endId x ->
                RouteVocabulary.known map x) ->
     forall x, In x stops -> RouteVocabulary.properStop startId endId x -> In x mid) /\
    RouteVocabulary.xle
      (Routing.cost map (Routing.buildAdjacency map) (startId :: mid ++ [endId]))
      (Routing.cost map (Routing.buildAdjacency map)
         (startId :: Routing.nearestNeighborOrder map (Routing.buildAdjacency map) startId
                       (Routing.uniqueStops startId endId stops) ++ [endId])).
Proof.
  destruct (computeRouteOrder_total map startId stops endId) as (fuel0 & mid & Hret & Hp & Hle).
  cbv zeta in Hp, Hle.
  destruct (uniqueStops_spec startId endId stops) as [_ Hu].
  destruct (nearestNeighborOrder_spec map (Routing.buildAdjacency map) startId
              (Routing.uniqueStops startId endId stops)) as (Hnd & Hsub & Hall).
  exists fuel0, mid. split; [exact Hret|]. split; [|split; [|split; [|exact Hle]]].
  - apply (Permutation_NoDup (Permutation_sym Hp) Hnd).
  - intros x Hx. apply (Permutation_in _ Hp) in Hx. apply Hsub in Hx as [Hx _].
    now apply Hu.
  - intros Hs Hknown x Hx Hproper.
    apply (Permutation_in _ (Permutation_sym Hp)). apply Hall.
    + exact Hs.
    + intros y Hy. apply Hu in Hy as [Hy Hpy]. split; [now apply Hknown | apply Hpy].
    + apply Hu. now split.
Qed.

(** ** The polyline of an order *)

Lemma chain_join (step : string -> string -> Prop) (l1 : list string) (a d : string)
  (l2 : list string) :
  l1 <> [] -> last l1 d = a ->
  ShortestPath.chain step l1 -> ShortestPath.chain step (a :: l2) ->
  ShortestPath.chain step (l1 ++ l2).
Proof.
  induction l1 as [|x l1 IH]; intros Hne Hlast H1 H2; [congruence|].
  destruct l1 as [|y l1].
  - cbn in Hlast. subst x. exact H2.
  - cbn [app]. cbn [ShortestPath.chain] in H1 |- *. destruct H1 as [Hxy H1].
    split; [exact Hxy|]. apply IH; [discriminate | | exact H1 | exact H2].
    exact Hlast.
Qed.

Lemma last_append {A : Type} (l1 l2 : list A) (d : A) :
  l2 <> [] -> last (l1 ++ l2) d = last l2 d.
Proof.
  intros Hne. induction l1 as [|x l1 IH]; [reflexivity|].
  cbn [app]. destruct (l1 ++ l2) eqn:E; [|exact IH].
  apply app_eq_nil in E as [_ E]. congruence.
Qed.

Lemma nth_last {A : Type} (l : list A) (x d : A) :
  nth (List.length l) (x :: l) d = last (x :: l) d.
Proof.
  revert x. induction l as [|y l IH]; intros x; [reflexivity|].
  change (nth (List.length l) (y :: l) d = last (y :: l) d). apply IH.
Qed.

Lemma last_in {A : Type} (l : list A) (d : A) : l <> [] -> In (last l d) l.
Proof.
  induction l as [|x l IH]; intros Hne; [congruence|].
  destruct l as [|y l]; [now left|]. right. apply IH. discriminate.
Qed.

Lemma reconstructLoop_more (fuel : nat) :
  forall prev s cur acc r,
    ShortestPath.reconstructLoop fuel prev s cur acc = Some r ->
    forall fuel', (fuel <= fuel')%nat ->
      ShortestPath.reconstructLoop fuel' prev s cur acc = Some r.
Proof.
  induction fuel as [|fuel IH]; intros prev s cur acc r H fuel' Hle; [discriminate|].
  destruct fuel' as [|fuel']; [lia|]. cbn [ShortestPath.reconstructLoop] in *.
  destruct cur as [c|]; [|exact H].
  destruct (negb (Js.truthy c)); [exact H|].
  destruct (String.eqb c s); [exact H|].
  apply (IH _ _ _ _ _ H). lia.
Qed.

Section Polyline.

Variable map : StoreMap.StoreMap.

Hypothesis ids_nonempty :
  forall n, In n (StoreMap.nodes map) -> StoreMap.Node.id n <> EmptyString.
Hypothesis ids_plain :
  forall n, In n (StoreMap.nodes map) -> StoreMap.Node.id n <> "__proto__"%string.

(** A leg between two nodes that a path of arcs joins. *)
Lemma leg_path (a b : string) :
  RouteVocabulary.known map a ->
  ShortestPath.connected
    (ShortestPath.arc (StoreMap.nodes map) (Js.orElse (StoreMap.edges map) [])) a b ->
  exists path,
    (forall fuel, (S (List.length (JsObject.keys (Routing.buildAdjacency map))) <= fuel)%nat ->
       Routing.reconstruct fuel
         (ShortestPath.prev (Routing.dijkstra (Routing.buildAdjacency map) a)) a b
       = Some path) /\
    hd_error path = Some a /\
    last path a = b /\
    ShortestPath.chain
      (ShortestPath.arc (StoreMap.nodes map) (Js.orElse (StoreMap.edges map) [])) path.
Proof.
  intros Ha Hconn. unfold Routing.reconstruct, Routing.dijkstra, Routing.buildAdjacency.
  set (ns := StoreMap.nodes map) in *. set (es := Js.orElse (StoreMap.edges map) []) in *.
  set (adj := ShortestPath.buildAdjacency ns es).
  destruct (buildAdjacency_plain ns es ids_plain) as (Hnd & Hkeys & Hstep & Hplain).
  fold adj in Hnd, Hkeys, Hstep, Hplain.
  assert (Hclosed : forall u v, ShortestPath.adjStep adj u v -> In v (List.map fst adj)).
  { intros u v H. apply Hstep in H as (e & _ & Hf & Ht & [[_ <-] | (_ & _ & <-)]);
      now apply Hkeys. }
  assert (Hstart : In a (List.map fst adj)) by (apply Hkeys, nodeById_in; exact Ha).
  assert (Htruthy : forall k, In k (List.map fst adj) -> Js.truthy k = true).
  { intros k Hk. apply Hkeys, nodeById_in in Hk as (n & Hn & <-).
    apply truthy_nonempty. now apply ids_nonempty. }
  destruct (dijkstra_spec adj a Hclosed Hstart Hplain Htruthy) as (done & Hinv & Hset & Hq).
  set (st := ShortestPath.dijkstra adj a) in *.
  assert (Hfend : ShortestPath.finiteAt (ShortestPath.distMap st) b).
  { apply (connected_finite adj a done st b Hinv Hset Hq).
    apply (connected_impl (ShortestPath.arc ns es)); [|exact Hconn].
    intros u v. apply Hstep. }
  pose proof (finite_done adj a done st b Hinv Hq Hfend) as Hend.
  destruct (in_split _ _ Hend) as (l1 & l2 & Edone).
  assert (Hlen : (List.length l2 < S (List.length (JsObject.keys adj)))%nat).
  { rewrite (Permutation_length (keys_perm adj)).
    assert (Hle : (List.length done <= List.length (List.map fst adj))%nat).
    { destruct Hinv as (_ & Hndd & Hsplit & _).
      apply NoDup_incl_length; [exact Hndd|]. intros k Hk. apply Hsplit. now right. }
    rewrite Edone, length_app in Hle. cbn in Hle. lia. }
  destruct (reconstructLoop_chain adj a Htruthy done st Hinv
              (S (List.length (JsObject.keys adj))) l1 b l2 [] Edone Hlen)
    as (L & EL & Hlast & Hchain).
  exists (rev (b :: L)). split; [|split; [|split]].
  - intros fuel Hfuel. unfold ShortestPath.reconstruct.
    rewrite (reconstructLoop_more _ _ _ _ _ _ EL fuel Hfuel). reflexivity.
  - rewrite (hd_error_rev L b b). now rewrite Hlast.
  - apply last_rev.
  - apply chain_rev. eapply chain_impl; [|exact Hchain]. intros u v. apply Hstep.
Qed.

Lemma chain_nth (step : string -> string -> Prop) (l : list string) :
  ShortestPath.chain step l ->
  forall i, (i + 1 < List.length l)%nat -> step (Routing.at_ l i) (Routing.at_ l (i + 1)).
Proof.
  unfold Routing.at_. induction l as [|x l IH]; intros Hc i Hi; [cbn in Hi; lia|].
  destruct l as [|y l]; [cbn in Hi; lia|].
  cbn [ShortestPath.chain] in Hc. destruct Hc as [Hxy Hc].
  destruct i as [|i]; [exact Hxy|].
  change (step (nth i (y :: l) EmptyString) (nth (i + 1) (y :: l) EmptyString)).
  apply IH; [exact Hc | cbn [List.length] in *; lia].
Qed.

Lemma legStep_done (order : list string) (i : nat) (segs : list string) :
  (forall x, In x order -> RouteVocabulary.known map x) ->
  ShortestPath.chain
    (ShortestPath.connected
       (ShortestPath.arc (StoreMap.nodes map) (Js.orElse (StoreMap.edges map) []))) order ->
  (i + 1 < List.length order)%nat ->
  RouteVocabulary.legsDone map order i segs ->
  exists segs',
    (forall fuel, (S (List.length (JsObject.keys (Routing.buildAdjacency map))) <= fuel)%nat ->
       Routing.legStep fuel (Routing.buildAdjacency map) order (Some segs) i = Some segs') /\
    RouteVocabulary.legsDone map order (i + 1) segs'.
Proof.
  intros Hknown Hconn Hi Hdone.
  destruct (leg_path (Routing.at_ order i) (Routing.at_ order (i + 1))) as (path & Hret & Hhd & Hlast & Hchain).
  { apply Hknown. apply nth_In. lia. }
  { now apply chain_nth. }
  exists (Routing.pushPath segs path). split.
  { intros fuel Hfuel. unfold Routing.legStep. cbv zeta. now rewrite (Hret fuel Hfuel). }
  destruct path as [|a tl]; [discriminate|]. cbn in Hhd. injection Hhd as Ea.
  right. split; [lia|].
  destruct Hdone as [[-> ->] | (Hpos & Hhd0 & Hlast0 & Hchain0 & Hin0)].
  - cbn [Routing.pushPath]. split; [cbn; now rewrite Ea|]. split; [|split; [exact Hchain|]].
    + rewrite (last_default tl a _ (Routing.at_ order 0)). exact Hlast.
    + intros j Hj. assert (j = 0 \/ j = 1)%nat as [-> | ->] by lia.
      * rewrite <- Ea. now left.
      * change (0 + 1)%nat with 1%nat in Hlast. rewrite <- Hlast. apply last_in. discriminate.
  - assert (Hne : segs <> []) by (intros ->; discriminate).
    assert (Epush : Routing.pushPath segs (a :: tl) = segs ++ tl).
    { unfold Routing.pushPath. destruct segs; [congruence | reflexivity]. }
    rewrite Epush.
    assert (Hlast' : last (segs ++ tl) EmptyString = Routing.at_ order (i + 1)).
    { destruct tl as [|b tl'].
      - rewrite app_nil_r, Hlast0. cbn in Hlast. now rewrite <- Ea, Hlast.
      - rewrite last_append by discriminate. rewrite <- Hlast.
        change (last (a :: b :: tl') (Routing.at_ order i)) with (last (b :: tl') (Routing.at_ order i)).
        apply last_default. }
    split; [|split; [exact Hlast' | split]].
    + destruct segs; [congruence | exact Hhd0].
    + apply (chain_join _ segs a EmptyString tl Hne); [now rewrite Hlast0, Ea | exact Hchain0 | exact Hchain].
    + intros j Hj. destruct (Nat.eq_dec j (i + 1)) as [-> | Hne'].
      * rewrite <- Hlast'. apply last_in. intros E. apply app_eq_nil in E as [E _]. congruence.
      * apply in_or_app. left. apply Hin0. lia.
Qed.

Lemma legs_fold (order : list string) :
  (forall x, In x order -> RouteVocabulary.known map x) ->
  ShortestPath.chain
    (ShortestPath.connected
       (ShortestPath.arc (StoreMap.nodes map) (Js.orElse (StoreMap.edges map) []))) order ->
  forall n i segs,
    (i + n + 1 <= List.length order)%nat ->
    RouteVocabulary.legsDone map order i segs ->
    exists poly,
      (forall fuel, (S (List.length (JsObject.keys (Routing.buildAdjacency map))) <= fuel)%nat ->
         fold_left (Routing.legStep fuel (Routing.buildAdjacency map) order) (List.seq i n)
                   (Some segs) = Some poly) /\
      RouteVocabulary.legsDone map order (i + n) poly.
Proof.
  intros Hknown Hconn. induction n as [|n IH]; intros i segs Hlen Hdone.
  - exists segs. split; [reflexivity|]. now replace (i + 0)%nat with i by lia.
  - destruct (legStep_done order i segs Hknown Hconn) as (segs' & Hstep & Hdone'); [lia | exact Hdone|].
    destruct (IH (S i) segs') as (poly & Hfold & Hpoly); [lia | |].
    { now replace (S i) with (i + 1)%nat by lia. }
    exists poly. split.
    + intros fuel Hfuel. cbn [List.seq fold_left]. rewrite (Hstep fuel Hfuel). now apply Hfold.
    + now replace (i + S n)%nat with (S i + n)%nat by lia.
Qed.

(** The polyline of an order on a map with edges whose node ids are neither
    empty nor [__proto__], when a path of arcs joins every node of the order to
    the next: [computePolylineForOrder] returns a polyline that starts at the
    first node of the order, ends at its last node, passes every node of the
    order and goes from node to node along arcs of the graph only. *)
Theorem computePolylineForOrder_connected (order : list string) :
  Js.orElse (StoreMap.edges map) [] <> [] ->
  (2 <= List.length order)%nat ->
  (forall x, In x order -> RouteVocabulary.known map x) ->
  ShortestPath.chain
    (ShortestPath.connected
       (ShortestPath.arc (StoreMap.nodes map) (Js.orElse (StoreMap.edges map) []))) order ->
  exists poly,
    (forall fuel, (S (List.length (JsObject.keys (Routing.buildAdjacency map))) <= fuel)%nat ->
       Routing.computePolylineForOrder fuel map order = Some poly) /\
    hd_error poly = hd_error order /\
    last poly EmptyString = last order EmptyString /\
    (forall x, In x order -> In x poly) /\
    ShortestPath.chain
      (ShortestPath.arc (StoreMap.nodes map) (Js.orElse (StoreMap.edges map) [])) poly.
Proof.
  intros Hedges Hlen Hknown Hconn.
  destruct (legs_fold order Hknown Hconn (List.length order - 1) 0 []) as (poly & Hfold & Hdone);
    [lia | left; now split |].
  exists poly. split.
  { intros fuel Hfuel. unfold Routing.computePolylineForOrder. cbv zeta.
    destruct (Js.orElse (StoreMap.edges map) []) as [|e0 es0] eqn:Ees; [congruence|].
    cbn [List.length Nat.eqb]. now apply Hfold. }
  destruct Hdone as [[E _] | (_ & Hhd & Hlast & Hchain & Hin)]; [lia|].
  cbn [Nat.add] in Hlast, Hin.
  split; [|split; [|split; [|exact Hchain]]].
  - rewrite Hhd. destruct order; [cbn in Hlen; lia | reflexivity].
  - rewrite Hlast. unfold Routing.at_.
    destruct order as [|x l]; [cbn in Hlen; lia|].
    cbn [List.length]. replace (S (List.length l) - 1)%nat with (List.length l) by lia.
    apply nth_last.
  - intros x Hx. destruct (In_nth order x EmptyString Hx) as (j & Hj & <-).
    apply Hin. lia.
Qed.

End Polyline.

Lemma computePolylineForOrder_connected_witness :
  exists poly,
    (forall fuel,
       (S (List.length (JsObject.keys (Routing.buildAdjacency Scenarios.corridorsMap))) <= fuel)%nat ->
       Routing.computePolylineForOrder fuel Scenarios.corridorsMap ["a0"; "a1"]%string
       = Some poly) /\
    hd_error poly = Some "a0"%string /\
    last poly EmptyString = "a1"%string.
Proof.
  destruct (computePolylineForOrder_connected Scenarios.corridorsMap) with
    (order := ["a0"; "a1"]%string) as (poly & Hret & Hhd & Hlast & _).
  - intros n [<- | [<- | [<- | [<- | []]]]]; discriminate.
  - intros n [<- | [<- | [<- | [<- | []]]]]; discriminate.
  - discriminate.
  - cbn; lia.
  - intros x [<- | [<- | []]].
    + exists (Scenarios.walkwayNode "a0" 0 0). split; [now left | reflexivity].
    + exists (Scenarios.walkwayNode "a1" 10 0). split; [right; now left | reflexivity].
  - split; [|exact I]. exists ["a0"; "a1"]%string.
    split; [reflexivity|]. split; [reflexivity|]. split; [|exact I].
    exists Scenarios.corridorE1. split; [now left|].
    split; [cbn; discriminate|]. split; [cbn; discriminate|].
    left. now split.
  - exists poly. split; [exact Hret|]. split; [exact Hhd | exact Hlast].
Defined.


(** * The navigation hook (nav/useIndoorNavigation.ts) *)

(** ** Progress along the route *)


(** ** The maneuvers of a route *)




(** ** What a run of the second effect shows *)



(** ** Reroutes *)

(** A run of the second effect calls [recalc] only when the last call is at
    least 1500 ms old, and then notes the clock reading; no other run changes
    [lastRecalcAtRef]. *)
Lemma run_lastRecalcAt (refs : IndoorNavigation.Refs) (r : IndoorNavigation.Run) :
  match r with
  | IndoorNavigation.progressRun _ _ _ now =>
      if existsb IndoorNavigation.isRecalc (snd (IndoorNavigation.run refs r))
      then IndoorNavigation.lastRecalcAt (fst (IndoorNavigation.run refs r)) = now /\
           (IndoorNavigation.lastRecalcAt refs + 1500 <= now)%Z
      else IndoorNavigation.lastRecalcAt (fst (IndoorNavigation.run refs r))
           = IndoorNavigation.lastRecalcAt refs
  | IndoorNavigation.enableRun _ =>
      IndoorNavigation.lastRecalcAt (fst (IndoorNavigation.run refs r))
      = IndoorNavigation.lastRecalcAt refs
  end.
Proof.
  destruct r as [args | args route offRoute now]; cbn [IndoorNavigation.run].
  - unfold IndoorNavigation.enableEffect. destruct (negb _); reflexivity.
  - unfold IndoorNavigation.progressEffect.
    destruct (negb (IndoorNavigation.enabled args)); [reflexivity|].
    destruct (IndoorNavigation.current args) as [cur|]; [|reflexivity].
    destruct route as [rt|]; [|reflexivity].
    destruct (RouteProgress.computeRouteProgress _ cur) as [progress|]; [|reflexivity].
    cbv zeta.
    destruct (negb (Js.ltb _ (RouteProgress.distanceMeters progress))).
    { cbn [fst snd]. rewrite existsb_app.
      cbn [existsb IndoorNavigation.isRecalc orb]. now destruct offRoute. }
    destruct (negb (Js.ltb _ _)).
    { cbn [fst snd]. rewrite existsb_app. reflexivity. }
    destruct (Z.ltb_spec (now - IndoorNavigation.lastRecalcAt refs) 1500) as [Hlt | Hge].
    { cbn [fst snd]. rewrite existsb_app. reflexivity. }
    cbn [fst snd]. rewrite !existsb_app.
    cbn [existsb IndoorNavigation.isRecalc orb IndoorNavigation.lastRecalcAt].
    split; [reflexivity | lia].
Qed.

Lemma rerouteTimes_cons (refs : IndoorNavigation.Refs) (r : IndoorNavigation.Run)
  (rest : list IndoorNavigation.Run) :
  IndoorNavigation.rerouteTimes refs (r :: rest)
  = match r with
    | IndoorNavigation.progressRun _ _ _ now =>
        if existsb IndoorNavigation.isRecalc (snd (IndoorNavigation.run refs r))
        then now :: IndoorNavigation.rerouteTimes (fst (IndoorNavigation.run refs r)) rest
        else IndoorNavigation.rerouteTimes (fst (IndoorNavigation.run refs r)) rest
    | IndoorNavigation.enableRun _ =>
        IndoorNavigation.rerouteTimes (fst (IndoorNavigation.run refs r)) rest
    end.
Proof.
  cbn [IndoorNavigation.rerouteTimes]. destruct (IndoorNavigation.run refs r) as [refs' calls].
  reflexivity.
Qed.

Lemma rerouteTimes_spaced (runs : list IndoorNavigation.Run) :
  forall refs,
    Forall (fun t => (IndoorNavigation.lastRecalcAt refs + 1500 <= t)%Z)
           (IndoorNavigation.rerouteTimes refs runs) /\
    StronglySorted (fun t1 t2 => (t1 + 1500 <= t2)%Z)
                   (IndoorNavigation.rerouteTimes refs runs) /\
    IndoorNavigation.lastRecalcAt (IndoorNavigation.refsAfter refs runs)
    = last (IndoorNavigation.rerouteTimes refs runs) (IndoorNavigation.lastRecalcAt refs).
Proof.
  induction runs as [|r rest IH]; intros refs.
  - cbn. split; [constructor|]. split; [constructor | reflexivity].
  - rewrite rerouteTimes_cons. unfold IndoorNavigation.refsAfter. cbn [fold_left].
    fold (IndoorNavigation.refsAfter (fst (IndoorNavigation.run refs r)) rest).
    pose proof (run_lastRecalcAt refs r) as Hr.
    destruct (IH (fst (IndoorNavigation.run refs r))) as (Hall & Hsorted & Hlast).
    destruct r as [args | args route offRoute now].
    + rewrite Hr in Hall, Hlast. now split.
    + destruct (existsb _ _).
      * destruct Hr as [Hnow Hgap]. rewrite Hnow in Hall, Hlast.
        split; [|split].
        -- constructor; [exact Hgap|]. eapply Forall_impl; [|exact Hall].
           cbv beta. intros t Ht. lia.
        -- constructor; [exact Hsorted | exact Hall].
        -- rewrite Hlast.
           destruct (IndoorNavigation.rerouteTimes _ rest) as [|t ts]; [reflexivity|].
           change (last (now :: t :: ts) (IndoorNavigation.lastRecalcAt refs))
             with (last (t :: ts) (IndoorNavigation.lastRecalcAt refs)).
           apply last_default.
      * rewrite Hr in Hall, Hlast. now split.
Qed.

(** The first run that finds the position off the route does not reroute,
    unless [persistMs] is negative. *)
Lemma first_off_no_recalc (args : IndoorNavigation.Args)
  (route : option IndoorNavigation.IndoorRoute) (offRoute : bool) (now : Z)
  (refs : IndoorNavigation.Refs) :
  0 <= IndoorNavigation.persistMs (IndoorNavigation.reroute args) ->
  IndoorNavigation.offRouteSince refs = None ->
  existsb IndoorNavigation.isRecalc
          (snd (IndoorNavigation.progressEffect args route offRoute now refs)) = false.
Proof.
  intros Hp Hsince. unfold IndoorNavigation.progressEffect.
  destruct (negb (IndoorNavigation.enabled args)); [reflexivity|].
  destruct (IndoorNavigation.current args) as [cur|]; [|reflexivity].
  destruct route as [rt|]; [|reflexivity].
  destruct (RouteProgress.computeRouteProgress _ cur) as [progress|]; [|reflexivity].
  cbv zeta.
  destruct (negb (Js.ltb _ (RouteProgress.distanceMeters progress))).
  { cbn [snd]. rewrite existsb_app.
    cbn [existsb IndoorNavigation.isRecalc orb]. now destruct offRoute. }
  rewrite Hsince. rewrite Z.sub_diag.
  replace (Js.ltb (IndoorNavigation.persistMs (IndoorNavigation.reroute args)) 0) with false.
  - cbn [negb snd]. rewrite existsb_app. reflexivity.
  - symmetry. apply ltb_false. lra.
Qed.

(** Reroutes are spaced: over any sequence of runs of the two effects, the
    runs of the second effect that call [recalc] have clock readings at least
    1500 ms apart, the first at least 1500 ms after the reading noted in
    [lastRecalcAtRef], which afterwards holds the reading of the last such
    run. And a run of the second effect with [offRouteSinceRef] empty never
    calls [recalc] when [persistMs] is not negative. *)
Theorem reroutes_spaced (refs : IndoorNavigation.Refs) (runs : list IndoorNavigation.Run) :
  Forall (fun t => (IndoorNavigation.lastRecalcAt refs + 1500 <= t)%Z)
         (IndoorNavigation.rerouteTimes refs runs) /\
  StronglySorted (fun t1 t2 => (t1 + 1500 <= t2)%Z)
                 (IndoorNavigation.rerouteTimes refs runs) /\
  IndoorNavigation.lastRecalcAt (IndoorNavigation.refsAfter refs runs)
  = last (IndoorNavigation.rerouteTimes refs runs) (IndoorNavigation.lastRecalcAt refs) /\
  (forall args route offRoute now,
     0 <= IndoorNavigation.persistMs (IndoorNavigation.reroute args) ->
     IndoorNavigation.offRouteSince refs = None ->
     existsb IndoorNavigation.isRecalc
             (snd (IndoorNavigation.progressEffect args route offRoute now refs)) = false).
Proof.
  destruct (rerouteTimes_spaced runs refs) as (Hall & Hsorted & Hlast).
  split; [exact Hall|]. split; [exact Hsorted|]. split; [exact Hlast|].
  intros args route offRoute now. apply first_off_no_recalc.
Qed.

